(** * psxdmh: the audio synthesis engine, embedded and checked

    A shallow embedding of the streaming modules of psxdmh (ADPCM decoder,
    ADSR envelope, silencer, sinc resampler, channel, music stream parser and
    track player) together with the properties the specification states
    about them.

    Conventions.
    - Fixed-width C++ integers are values of [Z]; every conversion that can
      wrap is written with [wrap_unsigned] / [wrap_signed].
    - [mono_t] (a C++ [float]) is modelled by exact rationals [Q], and in the
      sinc resampler (which needs [sin]) by the reals; rounding is outside
      the model.
    - A thrown [std::string] is the [Fatal] constructor of [result], carrying
      the message of the source. *)

From Stdlib Require Import String ZArith List Lia Bool QArith Qabs.
From Stdlib Require Import Strings.Byte.
From Stdlib Require Reals Lra.
From Stdlib Require DecimalString.
Import ListNotations.

Local Open Scope Z_scope.

(* ------------------------------------------------------------------------- *)
(** ** Machine integers, bytes and errors *)
(* ------------------------------------------------------------------------- *)

Definition wrap_unsigned (w x : Z) : Z := x mod 2 ^ w.
Definition wrap_signed (w x : Z) : Z := (x + 2 ^ (w - 1)) mod 2 ^ w - 2 ^ (w - 1).

Definition to_uint8 := wrap_unsigned 8.
Definition to_uint16 := wrap_unsigned 16.
Definition to_uint32 := wrap_unsigned 32.
Definition to_int8 := wrap_signed 8.
Definition to_int16 := wrap_signed 16.
Definition to_int32 := wrap_signed 32.

Definition SHRT_MIN : Z := -32768.
Definition SHRT_MAX : Z := 32767.

(** utility.h: [clamp]. *)
Definition clamp (value min_value max_value : Z) : Z :=
  if value <=? min_value then min_value
  else if value >=? max_value then max_value else value.

(** A [uint8_t] read from a [std::vector<uint8_t>]. *)
Definition u8 (b : byte) : Z := Z.of_N (Byte.to_N b).

Definition byte_of_Z (z : Z) : byte :=
  match Byte.of_N (Z.to_N (z mod 256)) with
  | Some b => b
  | None => x00
  end.

Definition bytes_of (l : list Z) : list byte := map byte_of_Z l.

(** [v[i]] on a byte vector. *)
Definition byte_at (data : list byte) (i : Z) : Z :=
  u8 (nth (Z.to_nat i) data x00).

Inductive result (A : Type) : Type :=
| Ok (a : A)
| Fatal (msg : string).
Arguments Ok {A} a.
Arguments Fatal {A} msg.

Definition mono_t : Type := Q.

Lemma u8_range b : 0 <= u8 b < 256.
Proof. destruct b; vm_compute; split; congruence. Qed.

Lemma u8_byte_of_Z z : 0 <= z < 256 -> u8 (byte_of_Z z) = z.
Proof.
  intros H. unfold u8, byte_of_Z.
  rewrite Z.mod_small by lia.
  destruct (Byte.of_N (Z.to_N z)) as [b|] eqn:E.
  - apply Byte.to_of_N in E. rewrite E. lia.
  - apply Byte.of_N_None_iff in E. lia.
Qed.

Lemma clamp_range v lo hi : lo <= hi -> lo <= clamp v lo hi <= hi.
Proof.
  intros H. unfold clamp.
  destruct (Z.leb_spec v lo); [lia|].
  destruct (Z.geb_spec v hi); lia.
Qed.

Lemma clamp_id v lo hi : lo <= v <= hi -> lo < hi -> clamp v lo hi = v.
Proof.
  intros H H'. unfold clamp.
  destruct (Z.leb_spec v lo); [lia|].
  destruct (Z.geb_spec v hi); lia.
Qed.

Lemma wrap_signed_id w x :
  0 < w -> - 2 ^ (w - 1) <= x < 2 ^ (w - 1) -> wrap_signed w x = x.
Proof.
  intros Hw H. unfold wrap_signed.
  replace (2 ^ w) with (2 * 2 ^ (w - 1)).
  - rewrite Z.mod_small; lia.
  - replace w with (Z.succ (w - 1)) at 2 by lia.
    rewrite Z.pow_succ_r; lia.
Qed.

Lemma wrap_unsigned_id w x : 0 <= x < 2 ^ w -> wrap_unsigned w x = x.
Proof. intros H. unfold wrap_unsigned. apply Z.mod_small; lia. Qed.

Lemma shiftr_between lo hi x s :
  lo <= 0 <= hi -> 0 <= s -> lo <= x <= hi -> lo <= Z.shiftr x s <= hi.
Proof.
  intros Hb Hs Hx. rewrite Z.shiftr_div_pow2 by assumption.
  assert (Hd : 0 < 2 ^ s) by (apply Z.pow_pos_nonneg; lia).
  destruct (Z_lt_le_dec x 0) as [Hneg | Hpos].
  - split.
    + transitivity x; [lia|]. apply Z.div_le_lower_bound; nia.
    + assert (x / 2 ^ s < 0) by (apply Z.div_lt_upper_bound; lia). lia.
  - split.
    + assert (0 <= x / 2 ^ s) by (apply Z.div_pos; lia). lia.
    + transitivity x; [|lia]. apply Z.div_le_upper_bound; nia.
Qed.

Lemma wrap_signed_range w x : 0 < w -> - 2 ^ (w - 1) <= wrap_signed w x < 2 ^ (w - 1).
Proof.
  intros Hw. unfold wrap_signed.
  assert (H : 2 ^ w = 2 * 2 ^ (w - 1)).
  { replace w with (Z.succ (w - 1)) at 1 by lia. rewrite Z.pow_succ_r; lia. }
  assert (0 < 2 ^ (w - 1)) by (apply Z.pow_pos_nonneg; lia).
  pose proof (Z.mod_pos_bound (x + 2 ^ (w - 1)) (2 ^ w) ltac:(lia)). lia.
Qed.

(* ------------------------------------------------------------------------- *)
(** ** adpcm.h / adpcm.cpp: the ADPCM decoder *)
(* ------------------------------------------------------------------------- *)

Module Adpcm.

Definition PSXDMH_ADPCM_BLOCK_SIZE : Z := 16.
Definition PSXDMH_ADPCM_SAMPLES_PER_BLOCK : Z := 28.

(** [m_pos_table], [m_neg_table]; only indices 0..4 are ever read. *)
Definition m_pos_table (filter : Z) : Z := nth (Z.to_nat filter) [0; 60; 115; 98; 122] 0.
Definition m_neg_table (filter : Z) : Z := nth (Z.to_nat filter) [0; 0; -52; -55; -60] 0.

Record adpcm : Type := mk_adpcm {
  m_data : list byte;
  m_current : Z;        (* int32_t *)
  m_repeat : Z;         (* int32_t *)
  m_play_count : Z;     (* uint32_t *)
  m_s0 : Z;             (* int32_t *)
  m_s1 : Z;             (* int32_t *)
  m_buffer : list Z;    (* int16_t [28] *)
  m_buffer_next : Z     (* size_t *)
}.

(** The constructor; [m_buffer] is left uninitialised by the source and is
    never read before the first [decode_block]. *)
Definition create (data : list byte) (play_count : Z) : adpcm :=
  mk_adpcm data 0 (-1) play_count 0 0
           (repeat 0 (Z.to_nat PSXDMH_ADPCM_SAMPLES_PER_BLOCK))
           PSXDMH_ADPCM_SAMPLES_PER_BLOCK.

(** [block[k]] for the block that starts at byte [off]. *)
Definition block_byte (data : list byte) (off k : Z) : Z := byte_at data (off + k).

Definition is_repeat_start (flags : Z) : bool := Z.land flags 0x04 =? 0x04.
Definition is_final (flags : Z) : bool := Z.land flags 0x01 =? 0x01.
Definition is_repeat_jump (flags : Z) : bool := Z.land flags 0x03 =? 0x03.

(** The assertions of the constructor. *)
Definition well_formed (data : list byte) : Prop :=
  0 < Z.of_nat (length data) < 2 ^ 31 /\
  Z.of_nat (length data) mod PSXDMH_ADPCM_BLOCK_SIZE = 0 /\
  is_final (block_byte data (Z.of_nat (length data) - PSXDMH_ADPCM_BLOCK_SIZE) 1) = true.

Definition is_buffer_empty (a : adpcm) : bool :=
  m_buffer_next a >=? PSXDMH_ADPCM_SAMPLES_PER_BLOCK.

Definition is_running (a : adpcm) : bool :=
  negb (is_buffer_empty a) || (m_current a >=? 0).

Definition decrement_play_count (count : Z) : Z :=
  if count >? 0 then to_uint32 (count - 1) else count.

(** The unpacking loop of [decode_block]: two [int8_t] values per data byte,
    low nybble first, each already moved to the top four bits. *)
Definition unpack_byte (d : Z) : list Z :=
  [ to_int8 (Z.shiftl (to_int8 (Z.land d 0x0f)) 4); to_int8 (Z.land d 0xf0) ].

Definition unpack (data : list byte) (off : Z) : list Z :=
  flat_map (fun u => unpack_byte (block_byte data off (2 + Z.of_nat u)))
           (seq 0 (Z.to_nat (PSXDMH_ADPCM_SAMPLES_PER_BLOCK / 2))).

(** One iteration of the decoding loop: the stored [int16_t]. *)
Definition decode_sample (filter shift nybble s0 s1 : Z) : Z :=
  let s := Z.shiftr (to_int32 (Z.shiftl (to_int32 nybble) 8)) shift in
  let s := to_int32 (s + Z.shiftr (to_int32 (s0 * m_pos_table filter + s1 * m_neg_table filter + 32)) 6) in
  to_int16 (clamp s SHRT_MIN SHRT_MAX).

(** The decoding loop: returns the buffer and the final [(m_s0, m_s1)]. *)
Fixpoint decode_loop (filter shift : Z) (nybbles : list Z) (s0 s1 : Z)
  : list Z * (Z * Z) :=
  match nybbles with
  | [] => ([], (s0, s1))
  | n :: rest =>
      let b := decode_sample filter shift n s0 s1 in
      let '(buf, hist) := decode_loop filter shift rest b s0 in
      (b :: buf, hist)
  end.

Definition corrupt_block : string := "Corrupt ADPCM block (bad filter).".

Definition decode_block (a : adpcm) : result adpcm :=
  let b0 := block_byte (m_data a) (m_current a) 0 in
  let filter := Z.shiftr b0 4 in
  if filter >=? 5 then Fatal corrupt_block
  else
    let shift := Z.land b0 0x0f in
    let repeat' :=
      if is_repeat_start (block_byte (m_data a) (m_current a) 1)
      then m_current a else m_repeat a in
    let '(buf, (s0, s1)) :=
      decode_loop filter shift (unpack (m_data a) (m_current a)) (m_s0 a) (m_s1 a) in
    Ok (mk_adpcm (m_data a) (m_current a) repeat' (m_play_count a) s0 s1 buf 0).

Definition set_current (a : adpcm) (cur : Z) : adpcm :=
  mk_adpcm (m_data a) cur (m_repeat a) (m_play_count a) (m_s0 a) (m_s1 a)
           (m_buffer a) (m_buffer_next a).

Definition set_play_count (a : adpcm) (pc : Z) : adpcm :=
  mk_adpcm (m_data a) (m_current a) (m_repeat a) pc (m_s0 a) (m_s1 a)
           (m_buffer a) (m_buffer_next a).

Definition next_block (a : adpcm) : adpcm :=
  let flags := block_byte (m_data a) (m_current a) 1 in
  if is_final flags then
    if negb (is_repeat_jump flags) || (m_repeat a <? 0) || (m_play_count a =? 1)
    then set_current a (-1)
    else set_current (set_play_count a (decrement_play_count (m_play_count a)))
                     (m_repeat a)
  else set_current a (to_int32 (m_current a + PSXDMH_ADPCM_BLOCK_SIZE)).

(** [mono_t(m_buffer[i]) / -SHRT_MIN]. *)
Definition to_mono (s : Z) : mono_t := (inject_Z s / inject_Z (- SHRT_MIN))%Q.

Definition take_sample (a : adpcm) : mono_t * bool * adpcm :=
  (to_mono (nth (Z.to_nat (m_buffer_next a)) (m_buffer a) 0), true,
   mk_adpcm (m_data a) (m_current a) (m_repeat a) (m_play_count a) (m_s0 a)
            (m_s1 a) (m_buffer a) (m_buffer_next a + 1)).

Definition next (a : adpcm) : result (mono_t * bool * adpcm) :=
  if is_buffer_empty a && (m_current a <? 0) then Ok (0%Q, false, a)
  else if is_buffer_empty a then
    match decode_block a with
    | Fatal msg => Fatal msg
    | Ok a' => Ok (take_sample (next_block a'))
    end
  else Ok (take_sample a).

(** Pull [n] samples; the run stops at the first error. *)
Fixpoint pull (n : nat) (a : adpcm) : result (list (mono_t * bool) * adpcm) :=
  match n with
  | O => Ok ([], a)
  | S n' =>
      match next a with
      | Fatal msg => Fatal msg
      | Ok (s, live, a') =>
          match pull n' a' with
          | Fatal msg => Fatal msg
          | Ok (out, a'') => Ok ((s, live) :: out, a'')
          end
      end
  end.

Definition set_buffer_next (a : adpcm) (i : Z) : adpcm :=
  mk_adpcm (m_data a) (m_current a) (m_repeat a) (m_play_count a) (m_s0 a)
           (m_s1 a) (m_buffer a) i.

(** The state once a freshly decoded block has been emitted completely:
    [decode_block], [next_block], then 28 increments of [m_buffer_next]. *)
Definition after_block (a : adpcm) : adpcm :=
  match decode_block a with
  | Ok a' => set_buffer_next (next_block a') PSXDMH_ADPCM_SAMPLES_PER_BLOCK
  | Fatal _ => a
  end.

(** *** The decoding rule in the words of the specification *)

(** A 4-bit nybble read as a two's complement number. *)
Definition sext4 (n : Z) : Z := if n <? 8 then n else n - 16.

(** The 28 nybbles of a block, low nybble of each byte first. *)
Definition nybbles_of (data : list byte) (off : Z) : list Z :=
  flat_map (fun u => let d := block_byte data off (2 + Z.of_nat u) in
                     [ d mod 16; d / 16 ])
           (seq 0 14).

Definition spec_sample (filter shift n s0 s1 : Z) : Z :=
  clamp (Z.shiftr (Z.shiftl (sext4 n) 12) shift
         + Z.shiftr (s0 * m_pos_table filter + s1 * m_neg_table filter + 32) 6)
        (-32768) 32767.

Fixpoint spec_block (filter shift : Z) (ns : list Z) (s0 s1 : Z) : list Z :=
  match ns with
  | [] => []
  | n :: rest =>
      let s := spec_sample filter shift n s0 s1 in
      s :: spec_block filter shift rest s s0
  end.

(** The history after a block: the last two decoded samples. *)
Fixpoint spec_history (filter shift : Z) (ns : list Z) (s0 s1 : Z) : Z * Z :=
  match ns with
  | [] => (s0, s1)
  | n :: rest => spec_history filter shift rest (spec_sample filter shift n s0 s1) s0
  end.

End Adpcm.

(* ------------------------------------------------------------------------- *)
(** ** Properties of the ADPCM decoder *)
(* ------------------------------------------------------------------------- *)

Module AdpcmFacts.
Import Adpcm.

Definition int16_range (s : Z) : Prop := -32768 <= s <= 32767.

(** The decoder history always holds two [int16_t] values. *)
Definition history_ok (a : adpcm) : Prop :=
  int16_range (m_s0 a) /\ int16_range (m_s1 a).

Lemma unpack_byte_sext4 b :
  unpack_byte (u8 b) = map (fun n => 16 * sext4 n) [u8 b mod 16; u8 b / 16].
Proof. destruct b; reflexivity. Qed.

Lemma nybble_range b : 0 <= u8 b mod 16 < 16 /\ 0 <= u8 b / 16 < 16.
Proof. pose proof (u8_range b). split; [apply Z.mod_pos_bound; lia|]. split; [apply Z.div_pos; lia | apply Z.div_lt_upper_bound; lia]. Qed.

Lemma unpack_nybbles data off :
  unpack data off = map (fun n => 16 * sext4 n) (nybbles_of data off).
Proof.
  unfold unpack, nybbles_of.
  change (Z.to_nat (PSXDMH_ADPCM_SAMPLES_PER_BLOCK / 2)) with 14%nat.
  induction (seq 0 14) as [|u us IH]; [reflexivity|].
  cbn [flat_map]. rewrite IH, map_app. f_equal.
  unfold block_byte, byte_at. apply unpack_byte_sext4.
Qed.

Lemma nybbles_of_range data off :
  Forall (fun n => 0 <= n < 16) (nybbles_of data off).
Proof.
  unfold nybbles_of. induction (seq 0 14) as [|u us IH]; [constructor|].
  cbn [flat_map app]. unfold block_byte at 1 2, byte_at.
  destruct (nybble_range (nth (Z.to_nat (off + (2 + Z.of_nat u))) data x00)).
  repeat constructor; try lia. exact IH.
Qed.

Lemma nybbles_of_length data off : length (nybbles_of data off) = 28%nat.
Proof. reflexivity. Qed.

Lemma filter_term_range filter s0 s1 :
  0 <= filter < 5 -> int16_range s0 -> int16_range s1 ->
  - 2 ^ 23 <= s0 * m_pos_table filter + s1 * m_neg_table filter + 32 < 2 ^ 23.
Proof.
  unfold int16_range. intros Hf H0 H1.
  assert (Hc : filter = 0 \/ filter = 1 \/ filter = 2 \/ filter = 3 \/ filter = 4) by lia.
  change (2 ^ 23) with 8388608.
  destruct Hc as [-> | [-> | [-> | [-> | ->]]]];
    match goal with
    | |- context [m_pos_table ?f] =>
        let p := eval vm_compute in (m_pos_table f) in
        let q := eval vm_compute in (m_neg_table f) in
        change (m_pos_table f) with p; change (m_neg_table f) with q
    end; lia.
Qed.

(** The loop body of the source, with its casts, computes the sample of the
    specification. *)
Lemma decode_sample_spec filter shift n s0 s1 :
  0 <= filter < 5 -> 0 <= shift -> 0 <= n < 16 ->
  int16_range s0 -> int16_range s1 ->
  decode_sample filter shift (16 * sext4 n) s0 s1 = spec_sample filter shift n s0 s1.
Proof.
  intros Hf Hs Hn H0 H1. unfold decode_sample, spec_sample.
  assert (Hk : -8 <= sext4 n <= 7) by (unfold sext4; destruct (Z.ltb_spec n 8); lia).
  pose proof (filter_term_range filter s0 s1 Hf H0 H1) as Hft.
  set (t := s0 * m_pos_table filter + s1 * m_neg_table filter + 32) in *.
  unfold to_int32, to_int16.
  rewrite (wrap_signed_id 32 (16 * sext4 n)) by lia.
  rewrite !Z.shiftl_mul_pow2 by lia.
  replace (16 * sext4 n * 2 ^ 8) with (sext4 n * 2 ^ 12) by lia.
  rewrite (wrap_signed_id 32 (sext4 n * 2 ^ 12)) by lia.
  rewrite (wrap_signed_id 32 t) by lia.
  assert (Ha : -32768 <= Z.shiftr (sext4 n * 2 ^ 12) shift <= 28672)
    by (apply shiftr_between; lia).
  assert (Hb : - 2 ^ 23 <= Z.shiftr t 6 <= 2 ^ 23)
    by (apply shiftr_between; lia).
  rewrite (wrap_signed_id 32 (_ + _)) by lia.
  apply wrap_signed_id; [lia|].
  pose proof (clamp_range (Z.shiftr (sext4 n * 2 ^ 12) shift + Z.shiftr t 6)
                          SHRT_MIN SHRT_MAX) as Hc.
  unfold SHRT_MIN, SHRT_MAX in *. lia.
Qed.

Lemma spec_sample_range filter shift n s0 s1 :
  int16_range (spec_sample filter shift n s0 s1).
Proof. unfold spec_sample, int16_range. apply clamp_range. lia. Qed.

Lemma decode_loop_spec filter shift ns :
  0 <= filter < 5 -> 0 <= shift ->
  Forall (fun n => 0 <= n < 16) ns ->
  forall s0 s1, int16_range s0 -> int16_range s1 ->
  decode_loop filter shift (map (fun n => 16 * sext4 n) ns) s0 s1
  = (spec_block filter shift ns s0 s1, spec_history filter shift ns s0 s1).
Proof.
  intros Hf Hs Hns. induction Hns as [|n ns Hn _ IH]; intros s0 s1 H0 H1.
  - reflexivity.
  - cbn [map decode_loop spec_block spec_history].
    rewrite decode_sample_spec by assumption.
    rewrite IH by (auto using spec_sample_range). reflexivity.
Qed.

Lemma spec_block_range filter shift ns : forall s0 s1,
  Forall int16_range (spec_block filter shift ns s0 s1).
Proof.
  induction ns as [|n ns IH]; intros s0 s1; cbn [spec_block]; constructor.
  - apply spec_sample_range.
  - apply IH.
Qed.

Lemma spec_block_length filter shift ns : forall s0 s1,
  length (spec_block filter shift ns s0 s1) = length ns.
Proof. induction ns as [|n ns IH]; intros; cbn [spec_block length]; [|rewrite IH]; reflexivity. Qed.

Lemma spec_history_range filter shift ns : forall s0 s1,
  int16_range s0 -> int16_range s1 ->
  int16_range (fst (spec_history filter shift ns s0 s1)) /\
  int16_range (snd (spec_history filter shift ns s0 s1)).
Proof.
  induction ns as [|n ns IH]; intros s0 s1 H0 H1; cbn [spec_history].
  - split; assumption.
  - apply IH; [apply spec_sample_range | assumption].
Qed.

Lemma filter_shift_range b0 :
  0 <= b0 < 256 -> 0 <= Z.shiftr b0 4 < 16 /\ 0 <= Z.land b0 15 < 16.
Proof.
  intros H. rewrite Z.shiftr_div_pow2 by lia.
  change 15 with (Z.ones 4). rewrite Z.land_ones by lia. change (2 ^ 4) with 16.
  split; [split; [apply Z.div_pos; lia | apply Z.div_lt_upper_bound; lia]
         | apply Z.mod_pos_bound; lia].
Qed.

(** What [decode_block] stores, in terms of the specification's rule. *)
Lemma decode_block_ok a :
  history_ok a ->
  let b0 := block_byte (m_data a) (m_current a) 0 in
  let filter := Z.shiftr b0 4 in
  let shift := Z.land b0 0x0f in
  let ns := nybbles_of (m_data a) (m_current a) in
  filter < 5 ->
  decode_block a =
    Ok (mk_adpcm (m_data a) (m_current a)
          (if is_repeat_start (block_byte (m_data a) (m_current a) 1)
           then m_current a else m_repeat a)
          (m_play_count a)
          (fst (spec_history filter shift ns (m_s0 a) (m_s1 a)))
          (snd (spec_history filter shift ns (m_s0 a) (m_s1 a)))
          (spec_block filter shift ns (m_s0 a) (m_s1 a)) 0).
Proof.
  intros [H0 H1] b0 filter shift ns Hf. unfold decode_block.
  fold b0. fold filter. fold shift.
  destruct (Z.geb_spec filter 5); [lia|].
  destruct (filter_shift_range b0) as [Hfr Hsr];
    [apply u8_range|]. fold filter in Hfr. 
  rewrite unpack_nybbles. fold ns.
  rewrite decode_loop_spec; try assumption; try lia.
  - destruct (spec_history filter shift ns (m_s0 a) (m_s1 a)); reflexivity.
  - apply nybbles_of_range.
Qed.

Lemma decode_block_bad_filter a :
  Z.shiftr (block_byte (m_data a) (m_current a) 0) 4 >= 5 ->
  decode_block a = Fatal corrupt_block.
Proof.
  intros H. unfold decode_block.
  destruct (Z.geb_spec (Z.shiftr (block_byte (m_data a) (m_current a) 0) 4) 5); [reflexivity | lia].
Qed.

(** *** Emitting a buffered block *)

Definition emitted (a : adpcm) (i : Z) (k : nat) : list (mono_t * bool) :=
  map (fun j => (to_mono (nth j (m_buffer a) 0), true)) (seq (Z.to_nat i) k).

Lemma pull_buffered k : forall a,
  0 <= m_buffer_next a ->
  m_buffer_next a + Z.of_nat k <= PSXDMH_ADPCM_SAMPLES_PER_BLOCK ->
  pull k a = Ok (emitted a (m_buffer_next a) k,
                 set_buffer_next a (m_buffer_next a + Z.of_nat k)).
Proof.
  induction k as [|k IH]; intros a H0 Hk.
  - cbn. unfold set_buffer_next. rewrite Z.add_0_r. destruct a; reflexivity.
  - cbn [pull]. unfold next, is_buffer_empty.
    destruct (Z.geb_spec (m_buffer_next a) PSXDMH_ADPCM_SAMPLES_PER_BLOCK); [lia|].
    cbn [andb]. unfold take_sample.
    rewrite IH; cbn [m_buffer_next]; try lia.
    unfold emitted, set_buffer_next. cbn [seq map m_buffer m_data m_current m_repeat m_play_count m_s0 m_s1].
    replace (Z.to_nat (m_buffer_next a + 1)) with (S (Z.to_nat (m_buffer_next a))) by lia.
    do 2 f_equal. f_equal. lia.
Qed.

Lemma map_nth_seq (l : list Z) (f : Z -> mono_t * bool) :
  map (fun j => f (nth j l 0)) (seq 0 (length l)) = map f l.
Proof.
  rewrite <- (map_map (fun j => nth j l 0) f). f_equal.
  induction l as [|x l IH]; [reflexivity|].
  cbn [length seq map nth]. f_equal.
  rewrite <- seq_shift, map_map. exact IH.
Qed.

Lemma pull_add n : forall m a o1 a1 o2 a2,
  pull n a = Ok (o1, a1) -> pull m a1 = Ok (o2, a2) ->
  pull (n + m) a = Ok (o1 ++ o2, a2).
Proof.
  induction n as [|n IH]; intros m a o1 a1 o2 a2 H1 H2.
  - cbn in H1. injection H1 as <- <-. exact H2.
  - cbn [pull Nat.add] in *.
    destruct (next a) as [[[s live] a']|]; [|discriminate].
    destruct (pull n a') as [[o a'']|] eqn:E; [|discriminate].
    injection H1 as <- <-.
    rewrite (IH m a' o a'' o2 a2 E H2). reflexivity.
Qed.

Lemma pull_S n a :
  pull (S n) a =
  match next a with
  | Fatal msg => Fatal msg
  | Ok (s, live, a') =>
      match pull n a' with
      | Fatal msg => Fatal msg
      | Ok (out, a'') => Ok ((s, live) :: out, a'')
      end
  end.
Proof. reflexivity. Qed.

Section Block.
Variable a : adpcm.
Hypothesis Hhist : history_ok a.
Hypothesis Hempty : is_buffer_empty a = true.
Hypothesis Hcur : 0 <= m_current a.

Let b0 := block_byte (m_data a) (m_current a) 0.
Let flags := block_byte (m_data a) (m_current a) 1.
Let filter := Z.shiftr b0 4.
Let shift := Z.land b0 0x0f.
Let ns := nybbles_of (m_data a) (m_current a).
Let samples := spec_block filter shift ns (m_s0 a) (m_s1 a).
Let rep := if is_repeat_start flags then m_current a else m_repeat a.

Hypothesis Hfilter : filter < 5.

Lemma after_block_fields :
  m_data (after_block a) = m_data a /\
  m_buffer (after_block a) = samples /\
  m_buffer_next (after_block a) = 28 /\
  (m_s0 (after_block a), m_s1 (after_block a))
    = spec_history filter shift ns (m_s0 a) (m_s1 a) /\
  m_repeat (after_block a) = rep /\
  m_current (after_block a) =
    (if is_final flags then
       if negb (is_repeat_jump flags) || (rep <? 0) || (m_play_count a =? 1)
       then -1 else rep
     else to_int32 (m_current a + 16)) /\
  m_play_count (after_block a) =
    (if is_final flags then
       if negb (is_repeat_jump flags) || (rep <? 0) || (m_play_count a =? 1)
       then m_play_count a else decrement_play_count (m_play_count a)
     else m_play_count a).
Proof.
  unfold after_block. rewrite (decode_block_ok a Hhist Hfilter).
  fold b0 flags filter shift ns samples rep.
  unfold next_block. cbn [m_data m_current m_repeat m_play_count].
  fold flags.
  destruct (spec_history filter shift ns (m_s0 a) (m_s1 a)) as [h0 h1].
  destruct (is_final flags);
    [destruct (negb (is_repeat_jump flags) || (rep <? 0) || (m_play_count a =? 1))|];
    unfold set_buffer_next, set_current, set_play_count;
    cbn [m_data m_current m_repeat m_play_count m_s0 m_s1 m_buffer m_buffer_next];
    repeat split; reflexivity.
Qed.

Lemma pull_block :
  pull 28 a = Ok (map (fun s => (to_mono s, true)) samples, after_block a).
Proof.
  rewrite (pull_S 27). unfold next, after_block.
  rewrite Hempty. cbn [andb].
  destruct (Z.ltb_spec (m_current a) 0); [lia|].
  rewrite (decode_block_ok a Hhist Hfilter).
  fold b0 flags filter shift ns samples rep.
  match goal with |- context [take_sample ?x] => set (d := x) end.
  assert (Hd : m_buffer_next d = 0 /\ m_buffer d = samples).
  { unfold d, next_block. cbn [m_data m_current m_repeat m_play_count].
    destruct (is_final _); [destruct (_ || _)|]; split; reflexivity. }
  destruct Hd as [Hn Hb]. unfold take_sample.
  rewrite pull_buffered.
  2: { cbn [m_buffer_next]. lia. }
  2: { cbn [m_buffer_next]. rewrite Hn. unfold PSXDMH_ADPCM_SAMPLES_PER_BLOCK. lia. }
  unfold emitted, set_buffer_next.
  cbn [m_buffer m_data m_current m_repeat m_play_count m_s0 m_s1 m_buffer_next].
  rewrite Hn, Hb. change (Z.to_nat (0 + 1)) with 1%nat.
  change (Z.to_nat 0) with 0%nat.
  change (0 + 1 + Z.of_nat 27) with PSXDMH_ADPCM_SAMPLES_PER_BLOCK.
  rewrite <- (map_nth_seq samples (fun s => (to_mono s, true))).
  replace (length samples) with 28%nat
    by (unfold samples; rewrite spec_block_length; reflexivity).
  reflexivity.
Qed.

Lemma after_block_history : history_ok (after_block a).
Proof.
  destruct after_block_fields as (_ & _ & _ & Hh & _).
  destruct Hhist as [H0 H1].
  pose proof (spec_history_range filter shift ns (m_s0 a) (m_s1 a) H0 H1) as [Ha Hb].
  rewrite <- Hh in Ha, Hb. split; assumption.
Qed.

End Block.


(** *** Invariants of every state the decoder can reach *)

Definition inv (a : adpcm) : Prop :=
  history_ok a /\ 0 <= m_play_count a < 2 ^ 32.

Lemma create_inv data pc : 0 <= pc < 2 ^ 32 -> inv (create data pc).
Proof. intros H. repeat split; cbn; lia. Qed.

Lemma decrement_play_count_range pc :
  0 <= pc < 2 ^ 32 ->
  decrement_play_count pc = (if pc =? 0 then 0 else pc - 1) /\
  0 <= decrement_play_count pc < 2 ^ 32.
Proof.
  intros H. unfold decrement_play_count, to_uint32.
  destruct (Z.gtb_spec pc 0), (Z.eqb_spec pc 0); try lia.
  rewrite wrap_unsigned_id by lia. lia.
Qed.

Lemma next_block_inv a : inv a -> inv (next_block a).
Proof.
  intros [Hh Hp]. unfold next_block.
  destruct (is_final _); [destruct (_ || _)|]; split; try exact Hh; try exact Hp.
  cbn [set_current set_play_count m_play_count].
  apply decrement_play_count_range, Hp.
Qed.

Lemma next_inv a s live a' : inv a -> next a = Ok (s, live, a') -> inv a'.
Proof.
  intros Hi. unfold next.
  destruct (is_buffer_empty a && (m_current a <? 0)).
  { intros [= _ _ <-]. exact Hi. }
  destruct (is_buffer_empty a).
  - destruct (Z_lt_le_dec (Z.shiftr (block_byte (m_data a) (m_current a) 0) 4) 5) as [Hf | Hf].
    + rewrite (decode_block_ok a (proj1 Hi) Hf).
      match goal with |- context [next_block ?x] => set (d := x) end.
      intros [= _ _ <-].
      assert (Hd : inv d).
      { destruct Hi as [[H0 H1] Hp].
        pose proof (spec_history_range
          (Z.shiftr (block_byte (m_data a) (m_current a) 0) 4)
          (Z.land (block_byte (m_data a) (m_current a) 0) 15)
          (nybbles_of (m_data a) (m_current a)) _ _ H0 H1) as [Ha Hb].
        unfold inv, history_ok, d; cbn [m_s0 m_s1 m_play_count].
        split; [split; assumption | exact Hp]. }
      apply next_block_inv in Hd. exact Hd.
    + rewrite decode_block_bad_filter by lia. discriminate.
  - intros [= _ _ <-]. exact Hi.
Qed.

(** Every block the decoder reads lies inside the data: the constructor's
    assertions keep [m_current] and [m_repeat] on block boundaries of the
    vector, or at [-1]. *)
Definition in_bounds (data : list byte) (off : Z) : Prop :=
  off = -1 \/
  (0 <= off /\ off mod PSXDMH_ADPCM_BLOCK_SIZE = 0 /\
   off + PSXDMH_ADPCM_BLOCK_SIZE <= Z.of_nat (length data)).

Definition blocks_ok (a : adpcm) : Prop :=
  in_bounds (m_data a) (m_current a) /\ in_bounds (m_data a) (m_repeat a).

Lemma create_blocks_ok data pc : well_formed data -> blocks_ok (create data pc).
Proof.
  intros (Hlen & Hmod & _). split; [right | left; reflexivity].
  cbn [create m_data m_current]. unfold PSXDMH_ADPCM_BLOCK_SIZE in *.
  repeat split; try reflexivity; try lia.
  destruct (Z.eq_dec (Z.of_nat (length data)) 0); [lia|].
  pose proof (Z.div_mod (Z.of_nat (length data)) 16 ltac:(lia)). lia.
Qed.

Lemma next_blocks_ok a s live a' :
  well_formed (m_data a) -> blocks_ok a ->
  next a = Ok (s, live, a') ->
  m_data a' = m_data a /\ blocks_ok a'.
Proof.
  intros (Hlen & Hmod & Hfin) [Hc Hr]. unfold next.
  destruct (is_buffer_empty a && (m_current a <? 0)) eqn:Hstop.
  { intros [= _ _ <-]. repeat split; assumption. }
  destruct (is_buffer_empty a) eqn:He; [|intros [= _ _ <-]; repeat split; assumption].
  rewrite andb_true_l in Hstop. apply Z.ltb_ge in Hstop.
  destruct Hc as [Hc | (Hc0 & Hca & Hcb)]; [lia|].
  unfold decode_block.
  destruct (Z.shiftr (block_byte (m_data a) (m_current a) 0) 4 >=? 5); [discriminate|].
  destruct (decode_loop _ _ _ _ _) as [buf [s0 s1]].
  unfold next_block, take_sample, set_current, set_play_count.
  cbn [m_data m_current m_repeat m_play_count m_s0 m_s1 m_buffer m_buffer_next].
  assert (Hr' : in_bounds (m_data a)
                  (if is_repeat_start (block_byte (m_data a) (m_current a) 1)
                   then m_current a else m_repeat a)).
  { destruct (is_repeat_start _); [right; repeat split; assumption | exact Hr]. }
  destruct (is_final (block_byte (m_data a) (m_current a) 1)) eqn:Hf.
  - destruct (negb _ || _ || _);
      intros [= _ _ <-]; unfold blocks_ok; cbn [m_data m_current m_repeat];
      (split; [reflexivity|]); split; try exact Hr'. left; reflexivity.
  - intros [= _ _ <-]. unfold blocks_ok. cbn [m_data m_current m_repeat].
    split; [reflexivity|]. split; [|exact Hr'].
    unfold PSXDMH_ADPCM_BLOCK_SIZE in *.
    assert (Hne : m_current a <> Z.of_nat (length (m_data a)) - 16).
    { intros Heq. rewrite <- Heq in Hfin. congruence. }
    assert (Hle : m_current a + 32 <= Z.of_nat (length (m_data a))).
    { pose proof (Z.div_mod (Z.of_nat (length (m_data a))) 16 ltac:(lia)).
      pose proof (Z.div_mod (m_current a) 16 ltac:(lia)). lia. }
    unfold to_int32. rewrite wrap_signed_id by lia.
    right. change PSXDMH_ADPCM_BLOCK_SIZE with 16.
    cbn [m_data m_current]. repeat split; try lia.
    rewrite <- Z.add_mod_idemp_l by lia. rewrite Hca. reflexivity.
Qed.

Lemma pull_inv n : forall a out a', inv a -> pull n a = Ok (out, a') -> inv a'.
Proof.
  induction n as [|n IH]; intros a out a' Hi.
  - intros [= _ <-]. exact Hi.
  - rewrite pull_S.
    destruct (next a) as [[[s live] a1]|] eqn:E; [|discriminate].
    destruct (pull n a1) as [[o a2]|] eqn:E'; [|discriminate].
    intros [= _ <-]. eapply IH; [|exact E']. eapply next_inv; eassumption.
Qed.

(** Once the buffer is empty and [m_current] is negative the decoder has
    stopped for good. *)
Lemma pull_stopped a k :
  is_buffer_empty a = true -> m_current a < 0 ->
  pull k a = Ok (repeat (0%Q, false) k, a).
Proof.
  intros He Hc. induction k as [|k IH]; [reflexivity|].
  rewrite pull_S. unfold next. rewrite He.
  destruct (Z.ltb_spec (m_current a) 0); [|lia].
  cbn [andb]. rewrite IH. reflexivity.
Qed.

Lemma flag_bits b :
  (is_repeat_jump (u8 b) = true <->
     Z.testbit (u8 b) 0 = true /\ Z.testbit (u8 b) 1 = true) /\
  (is_final (u8 b) = Z.testbit (u8 b) 0) /\
  (is_repeat_start (u8 b) = Z.testbit (u8 b) 2).
Proof.
  destruct b; vm_compute; (split; [split; [intros H; try discriminate H; split; reflexivity
                                          | intros [H1 H2]; try discriminate H1; try discriminate H2; reflexivity]
                                  | split; reflexivity]).
Qed.

Lemma live_samples (l : list Z) :
  Forall (fun p : mono_t * bool => snd p = true) (map (fun s => (to_mono s, true)) l).
Proof. induction l; constructor; [reflexivity | assumption]. Qed.

(** What happens once a final block has been emitted. *)
Lemma final_block_outcome a :
  inv a -> is_buffer_empty a = true -> 0 <= m_current a ->
  let flags := block_byte (m_data a) (m_current a) 1 in
  let rep := if is_repeat_start flags then m_current a else m_repeat a in
  Z.shiftr (block_byte (m_data a) (m_current a) 0) 4 < 5 ->
  is_final flags = true ->
  is_buffer_empty (after_block a) = true /\
  if is_repeat_jump flags && (0 <=? rep) && negb (m_play_count a =? 1)
  then m_current (after_block a) = rep /\
       m_play_count (after_block a)
         = (if m_play_count a =? 0 then 0 else m_play_count a - 1) /\
       is_running (after_block a) = true
  else is_running (after_block a) = false /\
       forall k, pull k (after_block a) = Ok (repeat (0%Q, false) k, after_block a).
Proof.
  intros [Hh Hp] He Hc flags rep Hf Hfin.
  destruct (after_block_fields a Hh Hf) as (_ & _ & Hn & _ & _ & Hcur & Hpc).
  fold flags in Hcur, Hpc. fold rep in Hcur, Hpc. rewrite Hfin in Hcur, Hpc.
  assert (Hemp : is_buffer_empty (after_block a) = true)
    by (unfold is_buffer_empty; rewrite Hn; reflexivity).
  split; [exact Hemp|].
  assert (Hrep : rep < 0 -> is_repeat_start flags = false /\ m_repeat a < 0).
  { unfold rep. destruct (is_repeat_start flags); [lia | auto]. }
  destruct (is_repeat_jump flags); cbn [negb orb andb] in *.
  - destruct (Z.ltb_spec rep 0), (Z.leb_spec 0 rep); try lia; cbn [orb andb] in *.
    + split; [unfold is_running; rewrite Hemp, Hcur; reflexivity|].
      intros k. apply pull_stopped; [exact Hemp | lia].
    + destruct (Z.eqb_spec (m_play_count a) 1); cbn [negb].
      * split; [unfold is_running; rewrite Hemp, Hcur; reflexivity|].
        intros k. apply pull_stopped; [exact Hemp | lia].
      * rewrite Hcur, Hpc.
        destruct (decrement_play_count_range _ Hp) as [-> _].
        repeat split. unfold is_running. rewrite Hemp, Hcur.
        destruct (Z.geb_spec rep 0); [reflexivity | lia].
  - split; [unfold is_running; rewrite Hemp, Hcur; reflexivity|].
    intros k. apply pull_stopped; [exact Hemp | lia].
Qed.

(** The two-block loop of the specification's scenario. *)
Definition loop_stream (pa pb : list byte) : list byte :=
  bytes_of [0; 4] ++ pa ++ bytes_of [0; 3] ++ pb.

Lemma loop_stream_bytes pa pb :
  length pa = 14%nat -> length pb = 14%nat ->
  byte_at (loop_stream pa pb) 0 = 0 /\ byte_at (loop_stream pa pb) 1 = 4 /\
  byte_at (loop_stream pa pb) 16 = 0 /\ byte_at (loop_stream pa pb) 17 = 3.
Proof.
  intros Ha Hb.
  do 14 (destruct pa as [|? pa]; [discriminate|]).
  destruct pa; [|discriminate].
  repeat split; reflexivity.
Qed.

Lemma loop_stream_run pa pb :
  length pa = 14%nat -> length pb = 14%nat ->
  exists out a',
    pull 112 (create (loop_stream pa pb) 2) = Ok (out, a') /\
    length out = 112%nat /\
    Forall (fun p => snd p = true) out /\
    is_running a' = false /\
    forall k, pull k a' = Ok (repeat (0%Q, false) k, a').
Proof.
  intros Ha Hb.
  destruct (loop_stream_bytes pa pb Ha Hb) as (B0 & B1 & B16 & B17).
  set (data := loop_stream pa pb) in *.
  (* Each pass: the fields that steer the decoder after one more block. *)
  assert (Hstep : forall a, history_ok a -> m_data a = data ->
            m_buffer_next a = 28 -> (m_current a = 0 \/ m_current a = 16) ->
            exists o, pull 28 a = Ok (o, after_block a) /\ length o = 28%nat /\
              Forall (fun p => snd p = true) o /\
              history_ok (after_block a) /\ m_data (after_block a) = data /\
              m_buffer_next (after_block a) = 28 /\
              (m_current a = 0 ->
                 m_current (after_block a) = 16 /\ m_repeat (after_block a) = 0 /\
                 m_play_count (after_block a) = m_play_count a) /\
              (m_current a = 16 -> m_repeat a = 0 ->
                 m_repeat (after_block a) = 0 /\
                 (m_play_count a = 2 -> m_current (after_block a) = 0 /\
                                        m_play_count (after_block a) = 1) /\
                 (m_play_count a = 1 -> m_current (after_block a) = -1))).
  { intros a Hh Hd Hn Hc.
    assert (He : is_buffer_empty a = true) by (unfold is_buffer_empty; rewrite Hn; reflexivity).
    assert (Hf : Z.shiftr (block_byte (m_data a) (m_current a) 0) 4 < 5).
    { unfold block_byte. rewrite Hd. destruct Hc as [-> | ->]; cbn [Z.add];
        rewrite ?B0, ?B16; cbn; lia. }
    exists (map (fun s => (to_mono s, true))
              (spec_block (Z.shiftr (block_byte (m_data a) (m_current a) 0) 4)
                 (Z.land (block_byte (m_data a) (m_current a) 0) 15)
                 (nybbles_of (m_data a) (m_current a)) (m_s0 a) (m_s1 a))).
    split; [apply pull_block; try assumption; destruct Hc; lia|].
    split; [rewrite length_map, spec_block_length; reflexivity|].
    split; [apply live_samples|].
    split; [apply after_block_history; assumption|].
    destruct (after_block_fields a Hh Hf) as (Ed & _ & En & _ & Er & Ec & Ep).
    rewrite Ed, Er, Ec, Ep. unfold block_byte. rewrite Hd.
    split; [reflexivity|]. split; [exact En|]. split.
    - intros E0. rewrite E0. cbn [Z.add]. rewrite B1. repeat split; reflexivity.
    - intros E16 R0. rewrite E16, R0. change (16 + 1) with 17. rewrite B17.
      split; [reflexivity|]. split; intros ->; repeat split; reflexivity. }
  set (a0 := create data 2).
  destruct (Hstep a0) as (o1 & P1 & L1 & F1 & H1 & D1 & N1 & C1 & _);
    [unfold history_ok, int16_range, a0, create; cbn [m_s0 m_s1]; lia
    | reflexivity | reflexivity | left; reflexivity|].
  destruct (C1 eq_refl) as (C1c & C1r & C1p).
  destruct (Hstep (after_block a0)) as (o2 & P2 & L2 & F2 & H2 & D2 & N2 & _ & C2);
    [assumption | assumption | assumption | right; assumption|].
  destruct (C2 C1c C1r) as (C2r & C2a & _).
  destruct C2a as (C2c & C2p); [rewrite C1p; reflexivity|].
  destruct (Hstep (after_block (after_block a0))) as (o3 & P3 & L3 & F3 & H3 & D3 & N3 & C3 & _);
    [assumption | assumption | assumption | left; assumption|].
  destruct (C3 C2c) as (C3c & C3r & C3p).
  destruct (Hstep (after_block (after_block (after_block a0))))
    as (o4 & P4 & L4 & F4 & H4 & D4 & N4 & _ & C4);
    [assumption | assumption | assumption | right; assumption|].
  destruct (C4 C3c C3r) as (_ & _ & C4c).
  specialize (C4c ltac:(rewrite C3p; exact C2p)).
  exists (o1 ++ o2 ++ o3 ++ o4), (after_block (after_block (after_block (after_block a0)))).
  assert (He : is_buffer_empty (after_block (after_block (after_block (after_block a0)))) = true)
    by (unfold is_buffer_empty; rewrite N4; reflexivity).
  split; [|split; [|split; [|split]]].
  - change 112%nat with (28 + (28 + (28 + 28)))%nat.
    eapply pull_add; [exact P1|]. eapply pull_add; [exact P2|].
    eapply pull_add; [exact P3|exact P4].
  - rewrite !length_app, L1, L2, L3, L4. reflexivity.
  - repeat (apply Forall_app; split); assumption.
  - unfold is_running. rewrite He, C4c. reflexivity.
  - intros k. apply pull_stopped; [exact He | lia].
Qed.

(** *** The claims about the decoder *)

(** C1. Every block that [next] decodes follows the decoding rule: with
    [filter] and [shift] taken from byte 0, the 28 stored samples are
    [clamp (((sext4 n) << 12) >> shift + ((s0 * pos[filter] + s1 *
    neg[filter] + 32) >> 6))] for the successive nybbles [n], each within
    [-32768, 32767], the history moving as [s1 := s0; s0 := s]; the 28
    samples emitted are [s / 32768]; and a filter index of 5 or more makes
    [next] fail with the corrupt-block error. *)
Theorem decode_block_follows_rule data play_count n out a :
  0 <= play_count < 2 ^ 32 ->
  pull n (create data play_count) = Ok (out, a) ->
  is_buffer_empty a = true -> 0 <= m_current a ->
  let b0 := block_byte (m_data a) (m_current a) 0 in
  let filter := Z.shiftr b0 4 in
  let shift := Z.land b0 0x0f in
  let ns := nybbles_of (m_data a) (m_current a) in
  let samples := spec_block filter shift ns (m_s0 a) (m_s1 a) in
  (5 <= filter -> next a = Fatal corrupt_block) /\
  (filter < 5 ->
     length samples = 28%nat /\
     Forall int16_range samples /\
     pull 28 a = Ok (map (fun s => ((inject_Z s / 32768)%Q, true)) samples,
                     after_block a) /\
     m_buffer (after_block a) = samples /\
     (m_s0 (after_block a), m_s1 (after_block a))
       = spec_history filter shift ns (m_s0 a) (m_s1 a)).
Proof.
  intros Hpc Hreach Hempty Hcur b0 filter shift ns samples.
  assert (Hinv : inv a) by (eapply pull_inv; [apply create_inv; exact Hpc | exact Hreach]).
  destruct Hinv as [Hh _]. split.
  - intros Hbad. unfold next. rewrite Hempty.
    destruct (Z.ltb_spec (m_current a) 0); [lia|]. cbn [andb].
    rewrite decode_block_bad_filter; [reflexivity | fold b0; fold filter; lia].
  - intros Hf.
    split; [unfold samples; rewrite spec_block_length; reflexivity|].
    split; [apply spec_block_range|].
    split; [exact (pull_block a Hh Hempty Hcur Hf)|].
    destruct (after_block_fields a Hh Hf) as (_ & Hb & _ & Hs & _).
    split; [exact Hb | exact Hs].
Qed.

Lemma decode_block_follows_rule_witness :
  let data := bytes_of (0 :: 1 :: repeat 0 14) in
  let a := create data 0 in
  0 <= 0 < 2 ^ 32 /\
  pull 0 (create data 0) = Ok ([], a) /\
  is_buffer_empty a = true /\
  0 <= m_current a /\
  pull 28 a = Ok (map (fun s => ((inject_Z s / 32768)%Q, true)) (repeat 0 28),
                  after_block a).
Proof.
  intros data a.
  assert (H1 : 0 <= 0 < 2 ^ 32) by (split; [apply Z.le_refl | reflexivity]).
  assert (H4 : 0 <= m_current a) by apply Z.le_refl.
  split; [exact H1|]. split; [reflexivity|]. split; [reflexivity|].
  split; [exact H4|].
  destruct (decode_block_follows_rule data 0 0 [] a H1 eq_refl eq_refl H4) as [_ H].
  exact (proj1 (proj2 (proj2 (H eq_refl)))).
Defined.

(** C2. When a block whose final flag is set has been emitted: if it also
    carries the repeat-jump flag, a repeat point is stored and
    [play_count <> 1], the play count is decremented (0 stays 0) and decoding
    continues from the repeat point; otherwise the decoder has stopped and
    every later [next] returns 0 and false.  In particular the two-block
    stream [00 04 ..] [00 03 ..] played with [play_count = 2] gives exactly
    112 samples and then stops. *)
Theorem final_block_repeats_or_stops :
  (forall data play_count n out a,
     0 <= play_count < 2 ^ 32 ->
     pull n (create data play_count) = Ok (out, a) ->
     is_buffer_empty a = true -> 0 <= m_current a ->
     let flags := block_byte (m_data a) (m_current a) 1 in
     let rep := if is_repeat_start flags then m_current a else m_repeat a in
     Z.shiftr (block_byte (m_data a) (m_current a) 0) 4 < 5 ->
     is_final flags = true ->
     exists block,
       pull 28 a = Ok (block, after_block a) /\
       length block = 28%nat /\
       Forall (fun p => snd p = true) block /\
       is_buffer_empty (after_block a) = true /\
       if is_repeat_jump flags && (0 <=? rep) && negb (m_play_count a =? 1)
       then m_current (after_block a) = rep /\
            m_play_count (after_block a)
              = (if m_play_count a =? 0 then 0 else m_play_count a - 1) /\
            is_running (after_block a) = true
       else is_running (after_block a) = false /\
            forall k, pull k (after_block a)
                      = Ok (repeat (0%Q, false) k, after_block a)) /\
  (forall pa pb, length pa = 14%nat -> length pb = 14%nat ->
     exists out a',
       pull 112 (create (loop_stream pa pb) 2) = Ok (out, a') /\
       length out = 112%nat /\
       Forall (fun p => snd p = true) out /\
       is_running a' = false /\
       forall k, pull k a' = Ok (repeat (0%Q, false) k, a')).
Proof.
  split; [|exact loop_stream_run].
  intros data play_count n out a Hpc Hreach Hempty Hcur flags rep Hf Hfin.
  assert (Hinv : inv a) by (eapply pull_inv; [apply create_inv; exact Hpc | exact Hreach]).
  eexists. split; [exact (pull_block a (proj1 Hinv) Hempty Hcur Hf)|].
  split; [rewrite length_map, spec_block_length; reflexivity|].
  split; [apply live_samples|].
  exact (final_block_outcome a Hinv Hempty Hcur Hf Hfin).
Qed.

Lemma final_block_repeats_or_stops_witness :
  let data := bytes_of (0 :: 1 :: repeat 0 14) in
  let a := create data 0 in
  0 <= 0 < 2 ^ 32 /\
  pull 0 (create data 0) = Ok ([], a) /\
  is_buffer_empty a = true /\
  0 <= m_current a /\
  Z.shiftr (block_byte (m_data a) (m_current a) 0) 4 < 5 /\
  is_final (block_byte (m_data a) (m_current a) 1) = true /\
  length (repeat x00 14) = 14%nat /\
  (exists block, pull 28 a = Ok (block, after_block a) /\
                 is_running (after_block a) = false) /\
  (exists out a', pull 112 (create (loop_stream (repeat x00 14) (repeat x00 14)) 2)
                  = Ok (out, a') /\ is_running a' = false).
Proof.
  intros data a.
  assert (H1 : 0 <= 0 < 2 ^ 32) by (split; [apply Z.le_refl | reflexivity]).
  assert (H4 : 0 <= m_current a) by apply Z.le_refl.
  assert (H5 : Z.shiftr (block_byte (m_data a) (m_current a) 0) 4 < 5) by reflexivity.
  split; [exact H1|]. split; [reflexivity|]. split; [reflexivity|].
  split; [exact H4|]. split; [exact H5|]. split; [reflexivity|].
  split; [reflexivity|]. split.
  - destruct (proj1 final_block_repeats_or_stops data 0 0%nat [] a H1 eq_refl eq_refl H4 H5 eq_refl)
      as (block & Hp & _ & _ & _ & Hstop).
    exists block. split; [exact Hp | exact (proj1 Hstop)].
  - destruct (proj2 final_block_repeats_or_stops (repeat x00 14) (repeat x00 14) eq_refl eq_refl)
      as (out & a' & Hp & _ & _ & Hr & _).
    exists out, a'. split; assumption.
Defined.

(** C10. [is_repeat_jump] holds exactly when both the final bit (bit 0) and the
    repeat-jump bit (bit 1) of the flag byte are set; so a block with the
    repeat-jump bit set and the final bit clear is neither final nor a
    repeat jump, and [next_block] just moves to the following block. *)
Theorem repeat_jump_needs_final :
  (forall b : byte,
     is_repeat_jump (u8 b) = (Z.land (u8 b) 0x03 =? 0x03) /\
     (is_repeat_jump (u8 b) = true <->
        Z.testbit (u8 b) 0 = true /\ Z.testbit (u8 b) 1 = true)) /\
  (forall a : adpcm,
     let flags := block_byte (m_data a) (m_current a) 1 in
     Z.testbit flags 1 = true -> Z.testbit flags 0 = false ->
     is_final flags = false /\ is_repeat_jump flags = false /\
     next_block a = set_current a (to_int32 (m_current a + 16)) /\
     (0 <= m_current a < 2 ^ 31 - 16 ->
        m_current (next_block a) = m_current a + 16)).
Proof.
  split.
  - intros b. split; [reflexivity | apply flag_bits].
  - intros a flags H1 H0.
    assert (Hfin : is_final flags = false).
    { unfold flags, block_byte, byte_at in *.
      rewrite (proj1 (proj2 (flag_bits _))). exact H0. }
    assert (Hjump : is_repeat_jump flags = false).
    { unfold flags, block_byte, byte_at in *.
      destruct (is_repeat_jump _) eqn:E; [|reflexivity].
      apply (proj1 (flag_bits _)) in E. destruct E as [E _]. congruence. }
    assert (Hnb : next_block a = set_current a (to_int32 (m_current a + 16))).
    { unfold next_block. fold flags. rewrite Hfin. reflexivity. }
    repeat split; try assumption.
    intros Hr. rewrite Hnb. unfold set_current, to_int32. cbn [m_current].
    apply wrap_signed_id; lia.
Qed.

Lemma repeat_jump_needs_final_witness :
  let a := create (bytes_of (0 :: 2 :: repeat 0 14 ++ 0 :: 1 :: repeat 0 14)) 0 in
  Z.testbit (block_byte (m_data a) (m_current a) 1) 1 = true /\
  Z.testbit (block_byte (m_data a) (m_current a) 1) 0 = false /\
  0 <= m_current a < 2 ^ 31 - 16 /\
  m_current (next_block a) = m_current a + 16.
Proof.
  intros a.
  assert (H3 : 0 <= m_current a < 2 ^ 31 - 16) by (split; [apply Z.le_refl | reflexivity]).
  split; [reflexivity|]. split; [reflexivity|]. split; [exact H3|].
  exact (proj2 (proj2 (proj2 (proj2 repeat_jump_needs_final a eq_refl eq_refl))) H3).
Defined.

End AdpcmFacts.

(* ------------------------------------------------------------------------- *)
(** ** envelope.h / envelope.cpp: the ADSR envelope *)
(* ------------------------------------------------------------------------- *)

Module Envelope.

Inductive phase : Type := ep_attack | ep_decay | ep_sustain | ep_release | ep_stopped.
Inductive method : Type := linear | exponential.
Inductive direction : Type := increase | decrease.

Record config : Type := mk_config {
  cfg_method : method;
  cfg_direction : direction;
  cfg_shift : Z;      (* int32_t *)
  cfg_step : Z;       (* int32_t *)
  cfg_target : Z      (* int32_t *)
}.

Record envelope : Type := mk_envelope {
  cfg_attack : config;
  cfg_decay : config;
  cfg_sustain : config;
  cfg_release : config;
  m_phase : phase;
  m_volume : Z;               (* int32_t *)
  m_cycle_repeats : Z;        (* uint32_t *)
  m_cycle_wait : Z;           (* uint32_t *)
  m_cycle_current_wait : Z;   (* uint32_t *)
  m_cycle_step : Z            (* int32_t *)
}.

(** [m_config[m_phase]]; the array has no entry for [ep_stopped] and the
    source never reads one there. *)
Definition m_config (e : envelope) (p : phase) : config :=
  match p with
  | ep_attack => cfg_attack e
  | ep_decay => cfg_decay e
  | ep_sustain => cfg_sustain e
  | ep_release | ep_stopped => cfg_release e
  end.

Definition phase_eqb (p q : phase) : bool :=
  match p, q with
  | ep_attack, ep_attack | ep_decay, ep_decay | ep_sustain, ep_sustain
  | ep_release, ep_release | ep_stopped, ep_stopped => true
  | _, _ => false
  end.

(** [phase(m_phase + 1)]. *)
Definition next_phase (p : phase) : phase :=
  match p with
  | ep_attack => ep_decay
  | ep_decay => ep_sustain
  | ep_sustain => ep_release
  | ep_release | ep_stopped => ep_stopped
  end.

Definition attack_config (spu_ads : Z) : config :=
  mk_config (if Z.land spu_ads 0x8000 =? 0 then linear else exponential)
            increase
            (Z.land (Z.shiftr spu_ads 10) 0x1f)
            (7 - Z.land (Z.shiftr spu_ads 8) 0x03)
            0x7fff.

Definition decay_config (spu_ads : Z) : config :=
  mk_config exponential decrease
            (Z.land (Z.shiftr spu_ads 4) 0x0f)
            (-8)
            (to_int32 ((Z.land spu_ads 0x0f + 1) * 0x800)).

Definition sustain_config (spu_sr : Z) : config :=
  let dir := if Z.land spu_sr 0x4000 =? 0 then increase else decrease in
  mk_config (if Z.land spu_sr 0x8000 =? 0 then linear else exponential)
            dir
            (Z.land (Z.shiftr spu_sr 8) 0x1f)
            (match dir with
             | increase => 7 - Z.land (Z.shiftr spu_sr 6) 0x03
             | decrease => -8 + Z.land (Z.shiftr spu_sr 6) 0x03
             end)
            (match dir with increase => 0x8000 | decrease => -1 end).

Definition release_config (spu_sr : Z) : config :=
  mk_config (if Z.land spu_sr 0x20 =? 0 then linear else exponential)
            decrease
            (Z.land spu_sr 0x1f)
            (-8)
            0.

(** The constructor. *)
Definition create (spu_ads spu_sr : Z) : envelope :=
  mk_envelope (attack_config spu_ads) (decay_config spu_ads)
              (sustain_config spu_sr) (release_config spu_sr)
              ep_attack 0 1 1 1 0.

Definition is_running (e : envelope) : bool := negb (phase_eqb (m_phase e) ep_stopped).

(** The decomposition loop of [calculate_cycle]; [fuel] bounds the number of
    iterations (32 are enough, see [decompose_done]). *)
Fixpoint decompose (fuel : nat) (repeats wait step : Z) : Z * Z * Z :=
  match fuel with
  | O => (repeats, wait, step)
  | S fuel' =>
      if (Z.land wait 0x01 =? 0) && negb (step =? 0) && (Z.land step 0x01 =? 0)
      then decompose fuel' (to_uint32 (Z.shiftl repeats 1)) (Z.shiftr wait 1) (Z.shiftr step 1)
      else (repeats, wait, step)
  end.

Definition calculate_cycle (e : envelope) : envelope :=
  let c := m_config e (m_phase e) in
  let wait := to_uint32 (Z.shiftl 1 (Z.max (cfg_shift c - 11) 0)) in
  let step := to_int32 (to_uint32 (Z.shiftl (to_uint32 (cfg_step c)) (Z.max (11 - cfg_shift c) 0))) in
  let '(wait, step) :=
    match cfg_method c with
    | exponential =>
        match cfg_direction c with
        | increase =>
            if m_volume e >? 0x6000 then (to_uint32 (wait * 4), step) else (wait, step)
        | decrease => (wait, Z.shiftr (to_int32 (step * m_volume e)) 15)
        end
    | linear => (wait, step)
    end in
  let '(repeats, wait, step) := decompose 32 1 wait step in
  mk_envelope (cfg_attack e) (cfg_decay e) (cfg_sustain e) (cfg_release e)
              (m_phase e) (m_volume e) repeats wait wait step.

(** [mono_t(m_volume) / 0x7fff]. *)
Definition level (volume : Z) : mono_t := (inject_Z volume / 32767)%Q.

Definition reached (e : envelope) : bool :=
  match cfg_direction (m_config e (m_phase e)) with
  | increase => m_volume e >=? cfg_target (m_config e (m_phase e))
  | decrease => m_volume e <=? cfg_target (m_config e (m_phase e))
  end.

Definition set_cycle (e : envelope) (volume repeats current_wait : Z) : envelope :=
  mk_envelope (cfg_attack e) (cfg_decay e) (cfg_sustain e) (cfg_release e)
              (m_phase e) volume repeats (m_cycle_wait e) current_wait (m_cycle_step e).

Definition set_phase (e : envelope) (p : phase) : envelope :=
  mk_envelope (cfg_attack e) (cfg_decay e) (cfg_sustain e) (cfg_release e)
              p (m_volume e) (m_cycle_repeats e) (m_cycle_wait e)
              (m_cycle_current_wait e) (m_cycle_step e).

Definition next (e : envelope) : mono_t * bool * envelope :=
  let mono := level (m_volume e) in
  if is_running e then
    let current_wait := to_uint32 (m_cycle_current_wait e - 1) in
    if current_wait =? 0 then
      let volume := clamp (to_int32 (m_volume e + m_cycle_step e)) 0 0x7fff in
      let repeats := to_uint32 (m_cycle_repeats e - 1) in
      if repeats >? 0 then
        (mono, true, set_cycle e volume repeats (m_cycle_wait e))
      else
        let e1 := set_cycle e volume repeats current_wait in
        let e2 := if reached e1 then set_phase e1 (next_phase (m_phase e1)) else e1 in
        (mono, true,
         if negb (phase_eqb (m_phase e2) ep_stopped) then calculate_cycle e2 else e2)
    else (mono, true, set_cycle e (m_volume e) (m_cycle_repeats e) current_wait)
  else (mono, false, e).

Definition release (e : envelope) : envelope :=
  if negb (phase_eqb (m_phase e) ep_stopped)
  then calculate_cycle (set_phase e ep_release)
  else e.

(** What a caller can do with an envelope. *)
Inductive call : Type := call_next | call_release.

(** Run a sequence of calls; returns the samples produced by the [next]
    calls, in order, and the final state. *)
Fixpoint run (calls : list call) (e : envelope) : list (mono_t * bool) * envelope :=
  match calls with
  | [] => ([], e)
  | call_next :: rest =>
      let '(s, live, e') := next e in
      let '(out, e'') := run rest e' in
      ((s, live) :: out, e'')
  | call_release :: rest => run rest (release e)
  end.

End Envelope.

(* ------------------------------------------------------------------------- *)
(** ** Properties of the envelope *)
(* ------------------------------------------------------------------------- *)

Module EnvelopeFacts.
Import Envelope.

Definition volume_ok (e : envelope) : Prop := 0 <= m_volume e <= 0x7fff.

(** The phase configurations never change after construction. *)
Definition same_configs (e e' : envelope) : Prop :=
  cfg_attack e' = cfg_attack e /\ cfg_decay e' = cfg_decay e /\
  cfg_sustain e' = cfg_sustain e /\ cfg_release e' = cfg_release e.

Lemma same_configs_refl e : same_configs e e.
Proof. repeat split. Qed.

Lemma same_configs_trans e1 e2 e3 :
  same_configs e1 e2 -> same_configs e2 e3 -> same_configs e1 e3.
Proof.
  intros (A1 & B1 & C1 & D1) (A2 & B2 & C2 & D2).
  repeat split; congruence.
Qed.

Lemma calculate_cycle_keeps e :
  same_configs e (calculate_cycle e) /\
  m_phase (calculate_cycle e) = m_phase e /\
  m_volume (calculate_cycle e) = m_volume e.
Proof.
  unfold calculate_cycle.
  destruct (match cfg_method (m_config e (m_phase e)) with
            | linear => _ | exponential => _ end) as [w s].
  destruct (decompose 32 1 w s) as [[r w'] s'].
  repeat split.
Qed.

(** The loop of [calculate_cycle] has finished within the fuel it is given:
    its condition is false on the result. *)
Definition loop_condition (wait step : Z) : bool :=
  (Z.land wait 0x01 =? 0) && negb (step =? 0) && (Z.land step 0x01 =? 0).

Lemma halve_even step :
  step <> 0 -> Z.land step 1 = 0 -> Z.abs (Z.shiftr step 1) * 2 = Z.abs step.
Proof.
  intros Hnz Hev. change 1 with (Z.ones 1) in Hev.
  rewrite Z.land_ones in Hev by lia. change (2 ^ 1) with 2 in Hev.
  rewrite Z.shiftr_div_pow2 by lia. change (2 ^ 1) with 2.
  pose proof (Z.div_mod step 2 ltac:(lia)). lia.
Qed.

Lemma decompose_done fuel : forall repeats wait step,
  Z.abs step < 2 ^ Z.of_nat fuel ->
  let '(_, wait', step') := decompose fuel repeats wait step in
  loop_condition wait' step' = false.
Proof.
  induction fuel as [|fuel IH]; intros repeats wait step Hs.
  - cbn [decompose]. change (2 ^ Z.of_nat 0) with 1 in Hs.
    assert (step = 0) as -> by lia.
    unfold loop_condition. rewrite andb_false_r. reflexivity.
  - cbn [decompose]. fold (loop_condition wait step).
    destruct (loop_condition wait step) eqn:E; [|exact E].
    apply IH. unfold loop_condition in E.
    apply andb_prop in E as [E E3]. apply andb_prop in E as [_ E2].
    apply negb_true_iff, Z.eqb_neq in E2. apply Z.eqb_eq in E3.
    pose proof (halve_even step E2 E3).
    rewrite Nat2Z.inj_succ, Z.pow_succ_r in Hs by lia. lia.
Qed.

Lemma calculate_cycle_loop_done e :
  loop_condition (m_cycle_wait (calculate_cycle e)) (m_cycle_step (calculate_cycle e)) = false.
Proof.
  unfold calculate_cycle.
  set (c := m_config e (m_phase e)).
  set (w0 := to_uint32 (Z.shiftl 1 (Z.max (cfg_shift c - 11) 0))).
  set (s0 := to_int32 (to_uint32 (Z.shiftl (to_uint32 (cfg_step c)) (Z.max (11 - cfg_shift c) 0)))).
  assert (Hs0 : - 2 ^ 31 <= s0 < 2 ^ 31) by (apply (wrap_signed_range 32); lia).
  assert (Hs1 : - 2 ^ 31 <= Z.shiftr (to_int32 (s0 * m_volume e)) 15 <= 2 ^ 31).
  { apply shiftr_between; [lia | lia |].
    pose proof (wrap_signed_range 32 (s0 * m_volume e) ltac:(lia)).
    unfold to_int32. change (32 - 1) with 31 in *. lia. }
  assert (Hws : forall w s, Z.abs s < 2 ^ 32 ->
            let e' := (let '(repeats, wait, step) := decompose 32 1 w s in
                       mk_envelope (cfg_attack e) (cfg_decay e) (cfg_sustain e)
                         (cfg_release e) (m_phase e) (m_volume e) repeats wait wait step) in
            loop_condition (m_cycle_wait e') (m_cycle_step e') = false).
  { intros w s Hs. pose proof (decompose_done 32 1 w s Hs) as Hd.
    destruct (decompose 32 1 w s) as [[r w'] s']. exact Hd. }
  destruct (cfg_method c); [exact (Hws w0 s0 ltac:(lia))|].
  destruct (cfg_direction c).
  - destruct (m_volume e >? 24576); [exact (Hws _ s0 ltac:(lia)) | exact (Hws w0 s0 ltac:(lia))].
  - exact (Hws w0 (Z.shiftr (to_int32 (s0 * m_volume e)) 15) ltac:(lia)).
Qed.

Lemma level_range v : 0 <= v <= 0x7fff -> (0 <= level v <= 1)%Q.
Proof.
  intros H. unfold level, Qle, Qdiv, Qmult, Qinv, inject_Z. cbn. split; lia.
Qed.

Lemma next_volume_ok e : volume_ok e -> volume_ok (snd (next e)).
Proof.
  intros H. unfold next. destruct (is_running e); [|exact H].
  destruct (to_uint32 (m_cycle_current_wait e - 1) =? 0); [|exact H].
  pose proof (clamp_range (to_int32 (m_volume e + m_cycle_step e)) 0 0x7fff
                ltac:(lia)) as Hc.
  destruct (to_uint32 (m_cycle_repeats e - 1) >? 0); [exact Hc|].
  cbn [snd].
  match goal with |- context [reached ?x] => set (e1 := x) end.
  assert (H1 : volume_ok e1) by exact Hc.
  destruct (reached e1).
  - destruct (negb (phase_eqb (m_phase (set_phase e1 (next_phase (m_phase e1)))) ep_stopped)).
    + unfold volume_ok. rewrite (proj2 (proj2 (calculate_cycle_keeps _))). exact H1.
    + exact H1.
  - destruct (negb (phase_eqb (m_phase e1) ep_stopped)).
    + unfold volume_ok. rewrite (proj2 (proj2 (calculate_cycle_keeps _))). exact H1.
    + exact H1.
Qed.

Lemma next_same_configs e : same_configs e (snd (next e)).
Proof.
  unfold next. destruct (is_running e); [|apply same_configs_refl].
  destruct (to_uint32 (m_cycle_current_wait e - 1) =? 0); [|repeat split].
  destruct (to_uint32 (m_cycle_repeats e - 1) >? 0); [repeat split|].
  cbn [snd].
  match goal with |- context [reached ?x] => set (e1 := x) end.
  assert (H1 : same_configs e e1) by (repeat split).
  destruct (reached e1).
  - set (e2 := set_phase e1 (next_phase (m_phase e1))).
    assert (H2 : same_configs e e2) by (repeat split).
    destruct (negb (phase_eqb (m_phase e2) ep_stopped)); [|exact H2].
    eapply same_configs_trans; [exact H2 | apply calculate_cycle_keeps].
  - destruct (negb (phase_eqb (m_phase e1) ep_stopped)); [|exact H1].
    eapply same_configs_trans; [exact H1 | apply calculate_cycle_keeps].
Qed.

Lemma next_sample e : fst (next e) = (level (m_volume e), is_running e).
Proof.
  unfold next. destruct (is_running e); [|reflexivity].
  destruct (_ =? 0); [|reflexivity].
  destruct (_ >? 0); reflexivity.
Qed.

Lemma release_keeps e :
  same_configs e (release e) /\ m_volume (release e) = m_volume e.
Proof.
  unfold release. destruct (negb (phase_eqb (m_phase e) ep_stopped)).
  - destruct (calculate_cycle_keeps (set_phase e ep_release)) as (Hc & _ & Hv).
    split; [exact Hc | exact Hv].
  - split; [apply same_configs_refl | reflexivity].
Qed.

(** Everything [run] can reach keeps the volume in range and the
    configurations of the constructor. *)
Lemma run_invariant calls : forall e out e',
  volume_ok e -> run calls e = (out, e') ->
  volume_ok e' /\ same_configs e e' /\
  Forall (fun p => (0 <= fst p <= 1)%Q) out.
Proof.
  induction calls as [|c calls IH]; intros e out e' Hv Hrun.
  - injection Hrun as <- <-.
    split; [exact Hv|]. split; [apply same_configs_refl | constructor].
  - destruct c; cbn [run] in Hrun.
    + pose proof (next_sample e) as Hs. pose proof (next_volume_ok e Hv) as Hv'.
      pose proof (next_same_configs e) as Hc'.
      destruct (next e) as [[s live] e1]. cbn [fst snd] in *.
      destruct (run calls e1) as [o e2] eqn:E.
      injection Hrun as <- <-.
      destruct (IH e1 o e2 Hv' E) as (Hv2 & Hc2 & Ho).
      split; [exact Hv2|]. split; [eapply same_configs_trans; eassumption|].
      constructor; [|exact Ho]. cbn [fst]. injection Hs as -> _.
      apply level_range, Hv.
    + destruct (release_keeps e) as [Hc Hvol].
      destruct (IH (release e) out e') as (Hv2 & Hc2 & Ho);
        [unfold volume_ok; rewrite Hvol; exact Hv | exact Hrun |].
      split; [exact Hv2|]. split; [eapply same_configs_trans; eassumption | exact Ho].
Qed.

Lemma create_volume_ok spu_ads spu_sr : volume_ok (create spu_ads spu_sr).
Proof. unfold volume_ok, create. cbn [m_volume]. lia. Qed.

(** The dummy target of the sustain phase lies outside [0, 0x7fff]. *)
Definition unreachable_target (c : config) : Prop :=
  match cfg_direction c with
  | increase => cfg_target c = 0x8000
  | decrease => cfg_target c = -1
  end.

Lemma sustain_target spu_sr : unreachable_target (sustain_config spu_sr).
Proof.
  unfold unreachable_target, sustain_config. cbn [cfg_direction cfg_target].
  destruct (Z.land spu_sr 16384 =? 0); reflexivity.
Qed.

Lemma sustain_not_reached e :
  volume_ok e -> m_phase e = ep_sustain -> unreachable_target (cfg_sustain e) ->
  reached e = false.
Proof.
  unfold volume_ok, unreachable_target, reached. intros Hv -> Ht.
  cbn [m_config]. destruct (cfg_direction (cfg_sustain e)); rewrite Ht.
  - destruct (Z.geb_spec (m_volume e) 32768); [lia | reflexivity].
  - destruct (Z.leb_spec (m_volume e) (-1)); [lia | reflexivity].
Qed.

Lemma next_stays_in_sustain e :
  volume_ok e -> m_phase e = ep_sustain -> unreachable_target (cfg_sustain e) ->
  m_phase (snd (next e)) = ep_sustain.
Proof.
  intros Hv Hp Ht. unfold next, is_running. rewrite Hp. cbn [phase_eqb negb].
  destruct (to_uint32 (m_cycle_current_wait e - 1) =? 0); [|exact Hp].
  destruct (to_uint32 (m_cycle_repeats e - 1) >? 0); [exact Hp|].
  cbn [snd].
  match goal with |- context [reached ?x] => set (e1 := x) end.
  rewrite (sustain_not_reached e1).
  - change (m_phase e1) with (m_phase e). rewrite Hp. cbn [phase_eqb negb].
    rewrite (proj1 (proj2 (calculate_cycle_keeps e1))). exact Hp.
  - apply clamp_range. lia.
  - exact Hp.
  - exact Ht.
Qed.

Lemma sustain_forever k : forall e,
  volume_ok e -> m_phase e = ep_sustain -> unreachable_target (cfg_sustain e) ->
  m_phase (snd (run (repeat call_next k) e)) = ep_sustain.
Proof.
  induction k as [|k IH]; intros e Hv Hp Ht; [exact Hp|].
  cbn [repeat run].
  pose proof (next_stays_in_sustain e Hv Hp Ht) as Hp'.
  pose proof (next_volume_ok e Hv) as Hv'.
  pose proof (next_same_configs e) as (_ & _ & Hc & _).
  destruct (next e) as [[s live] e1]. cbn [snd] in *.
  specialize (IH e1 Hv' Hp' ltac:(rewrite Hc; exact Ht)).
  destruct (run (repeat call_next k) e1) as [o e2]. exact IH.
Qed.

(** C3. Whatever the two registers and whatever calls are made, the volume
    of the envelope is within [0, 0x7FFF] after every call, and every sample
    [next] emits is within [0, 1]. *)
Theorem volume_always_clamped spu_ads spu_sr calls :
  0 <= m_volume (snd (run calls (create spu_ads spu_sr))) <= 0x7fff /\
  Forall (fun p => (0 <= fst p <= 1)%Q) (fst (run calls (create spu_ads spu_sr))) /\
  (forall e, 0 <= m_volume (snd (next e)) <= 0x7fff \/
             m_volume (snd (next e)) = m_volume e).
Proof.
  destruct (run calls (create spu_ads spu_sr)) as [out e] eqn:E.
  destruct (run_invariant calls _ out e (create_volume_ok spu_ads spu_sr) E)
    as (Hv & _ & Ho).
  split; [exact Hv|]. split; [exact Ho|].
  intros e0. unfold next. destruct (is_running e0); [|right; reflexivity].
  destruct (to_uint32 (m_cycle_current_wait e0 - 1) =? 0); [|right; reflexivity].
  left.
  pose proof (clamp_range (to_int32 (m_volume e0 + m_cycle_step e0)) 0 0x7fff
                ltac:(lia)) as Hc.
  destruct (to_uint32 (m_cycle_repeats e0 - 1) >? 0); [exact Hc|].
  cbn [snd].
  match goal with |- context [reached ?x] => set (e1 := x) end.
  destruct (reached e1).
  - destruct (negb (phase_eqb (m_phase (set_phase e1 (next_phase (m_phase e1)))) ep_stopped));
      [rewrite (proj2 (proj2 (calculate_cycle_keeps _)))|]; exact Hc.
  - destruct (negb (phase_eqb (m_phase e1) ep_stopped));
      [rewrite (proj2 (proj2 (calculate_cycle_keeps _)))|]; exact Hc.
Qed.

(** C4. An envelope that is in Sustain stays there under any number of
    [next] calls: the sustain target is 0x8000 (increase) or -1 (decrease),
    the volume is within [0, 0x7FFF], so [reached] is false and the phase does
    not advance; only [release] moves it on, to Release. *)
Theorem sustain_left_only_by_release spu_ads spu_sr calls e :
  snd (run calls (create spu_ads spu_sr)) = e ->
  m_phase e = ep_sustain ->
  unreachable_target (m_config e ep_sustain) /\
  reached e = false /\
  (forall k, m_phase (snd (run (repeat call_next k) e)) = ep_sustain) /\
  m_phase (release e) = ep_release.
Proof.
  intros Hrun Hp.
  destruct (run calls (create spu_ads spu_sr)) as [out e'] eqn:E.
  cbn [snd] in Hrun. subst e'.
  destruct (run_invariant calls _ out e (create_volume_ok spu_ads spu_sr) E)
    as (Hv & (_ & _ & Hc & _) & _).
  assert (Ht : unreachable_target (cfg_sustain e))
    by (rewrite Hc; apply sustain_target).
  split; [exact Ht|]. split; [apply sustain_not_reached; assumption|].
  split; [intros k; apply sustain_forever; assumption|].
  unfold release. rewrite Hp. cbn [phase_eqb negb].
  rewrite (proj1 (proj2 (calculate_cycle_keeps _))). reflexivity.
Qed.

Lemma sustain_left_only_by_release_witness :
  let e := snd (run (repeat call_next 5) (create 0x000f 0)) in
  m_phase e = ep_sustain /\
  (forall k, m_phase (snd (run (repeat call_next k) e)) = ep_sustain) /\
  m_phase (release e) = ep_release.
Proof.
  intros e.
  assert (Hp : m_phase e = ep_sustain) by reflexivity.
  split; [exact Hp|].
  destruct (sustain_left_only_by_release 0x000f 0 (repeat call_next 5) e eq_refl Hp)
    as (_ & _ & Hk & Hr).
  split; [exact Hk | exact Hr].
Defined.

End EnvelopeFacts.

(* ------------------------------------------------------------------------- *)
(** ** sample.h / silencer.h: silence adjustment *)
(* ------------------------------------------------------------------------- *)

Module Silencer.

(** [PSXDMH_SILENCE] and [is_silent] for mono samples:
    [mono_t(1.0 / SHRT_MAX)] is the [float] nearest to 1/32767, which is
    32769/2^30. *)
Definition PSXDMH_SILENCE : mono_t := (32769 # 1073741824)%Q.
Definition is_silent_mono (s : mono_t) : bool :=
  negb (Qle_bool PSXDMH_SILENCE (Qabs s)).

Inductive state : Type := lead_in | gaps | lead_out | finished.

Definition state_eqb (a b : state) : bool :=
  match a, b with
  | lead_in, lead_in | gaps, gaps | lead_out, lead_out | finished, finished => true
  | _, _ => false
  end.

Section WithSample.

(** The class is a template over the sample type [S]; [zero] is [S(0.0)]. *)
Variable S : Type.
Variable is_silent : S -> bool.
Variable zero : S.

(** The source module is modelled by the samples it still has to deliver:
    [next] on it returns them one by one with [true], then sets the sample
    to 0 and returns [false] for ever (the contract of module.h). *)
Definition source_next (src : list S) : S * bool * list S :=
  match src with
  | [] => (zero, false, [])
  | x :: rest => (x, true, rest)
  end.

Record silencer : Type := mk_silencer {
  m_source : list S;
  m_lead_in : Z;                   (* int32_t *)
  m_lead_out : Z;                  (* int32_t *)
  m_gap : Z;                       (* int32_t *)
  m_state : state;
  m_buffered_silence : Z;          (* uint32_t *)
  m_have_unsilent_sample : bool;
  m_unsilent_sample : S
}.

(** The constructor ([m_unsilent_sample] is not initialised by the source). *)
Definition create (source : list S) (lead_in lead_out gap : Z) : silencer :=
  mk_silencer source lead_in lead_out gap Silencer.lead_in 0 false zero.

(** The [while] loop of [process_audio], entered with no unsilent sample:
    reads the source until a non-silent sample arrives or the source stops.
    Returns the source left, the silence counter, whether a non-silent sample
    was found, and the last value written to [m_unsilent_sample]. *)
Fixpoint read_ahead (src : list S) (buffered : Z) : list S * Z * bool * S :=
  match src with
  | [] => ([], buffered, false, zero)
  | x :: rest =>
      if is_silent x then read_ahead rest (to_uint32 (buffered + 1))
      else (rest, buffered, true, x)
  end.

Definition process_audio (s : silencer) : silencer :=
  let '(src, buffered, have, sample) :=
    if m_have_unsilent_sample s
    then (m_source s, m_buffered_silence s, true, m_unsilent_sample s)
    else read_ahead (m_source s) (m_buffered_silence s) in
  (* if (m_state == state::gaps) *)
  let '(buffered, st) :=
    match m_state s with
    | gaps =>
        if have then
          (if (m_gap s >=? 0) && (to_int32 buffered >? m_gap s)
           then to_uint32 (m_gap s) else buffered, gaps)
        else (buffered, lead_out)
    | st => (buffered, st)
    end in
  (* if (m_state == state::lead_out) *)
  let '(buffered, st) :=
    match st with
    | lead_out =>
        (if m_lead_out s >=? 0 then to_uint32 (m_lead_out s) else buffered, finished)
    | _ => (buffered, st)
    end in
  (* if (m_state == state::lead_in) *)
  let '(buffered, st) :=
    match st with
    | lead_in =>
        (if m_lead_in s >=? 0 then to_uint32 (m_lead_in s) else buffered,
         if have then gaps else lead_out)
    | _ => (buffered, st)
    end in
  mk_silencer src (m_lead_in s) (m_lead_out s) (m_gap s) st buffered have sample.

Definition needs_audio (s : silencer) : bool :=
  (m_buffered_silence s =? 0) && negb (m_have_unsilent_sample s)
  && negb (state_eqb (m_state s) finished).

Definition top_up (s : silencer) : silencer :=
  if needs_audio s then process_audio s else s.

(** [is_running] is [const] in the source but tops up the buffers through
    [mutable] members, so it returns the new state as well. *)
Definition is_running (s : silencer) : bool * silencer :=
  let s := top_up s in
  ((m_buffered_silence s >? 0) || m_have_unsilent_sample s, s).

Definition next (s : silencer) : S * bool * silencer :=
  let s := top_up s in
  if m_buffered_silence s >? 0 then
    (zero, true,
     mk_silencer (m_source s) (m_lead_in s) (m_lead_out s) (m_gap s) (m_state s)
                 (to_uint32 (m_buffered_silence s - 1))
                 (m_have_unsilent_sample s) (m_unsilent_sample s))
  else if m_have_unsilent_sample s then
    (m_unsilent_sample s, true,
     mk_silencer (m_source s) (m_lead_in s) (m_lead_out s) (m_gap s) (m_state s)
                 (m_buffered_silence s) false (m_unsilent_sample s))
  else (zero, false, s).

(** The results of [n] successive calls of [next]. *)
Fixpoint pull (n : nat) (s : silencer) : list (S * bool) :=
  match n with
  | O => []
  | Datatypes.S n' => let '(x, live, s') := next s in (x, live) :: pull n' s'
  end.

(** *** The behaviour in the words of the specification *)

(** Audio after the first non-silent sample: [pending] counts the silent
    samples seen since the last non-silent one; a run is emitted, cut to
    [gap], only when a non-silent sample follows it. *)
Fixpoint spec_gaps (gap : nat) (pending : nat) (src : list S) : list S :=
  match src with
  | [] => []
  | x :: rest =>
      if is_silent x then spec_gaps gap (Datatypes.S pending) rest
      else repeat zero (Nat.min pending gap) ++ x :: spec_gaps gap 0 rest
  end.

(** Silence before the first non-silent sample is discarded. *)
Fixpoint spec_audio (gap : nat) (src : list S) : list S :=
  match src with
  | [] => []
  | x :: rest =>
      if is_silent x then spec_audio gap rest else x :: spec_gaps gap 0 rest
  end.

Definition spec_output (lead_in lead_out gap : nat) (src : list S) : list S :=
  repeat zero lead_in ++ spec_audio gap src ++ repeat zero lead_out.

(** What [n] calls of [next] return on a module that emits [out] and then
    stops. *)
Definition calls (n : nat) (out : list S) : list (S * bool) :=
  map (fun x => (x, true)) (firstn n out)
  ++ repeat (zero, false) (n - length out).

End WithSample.

End Silencer.

(* ------------------------------------------------------------------------- *)
(** ** Properties of the silencer *)
(* ------------------------------------------------------------------------- *)

Module SilencerFacts.
Import Silencer.

Section WithSample.

Variable S : Type.
Variable is_silent : S -> bool.
Variable zero : S.

#[local] Abbreviation silencer := (silencer S).
#[local] Abbreviation next := (next S is_silent zero).
#[local] Abbreviation pull := (pull S is_silent zero).
#[local] Abbreviation process_audio := (process_audio S is_silent zero).
#[local] Abbreviation needs_audio := (needs_audio S).
#[local] Abbreviation read_ahead := (read_ahead S is_silent zero).
#[local] Abbreviation calls := (calls S zero).
#[local] Abbreviation spec_gaps := (spec_gaps S is_silent zero).
#[local] Abbreviation spec_audio := (spec_audio S is_silent zero).
#[local] Abbreviation spec_output := (spec_output S is_silent zero).

(** [emits s out]: from state [s] the silencer delivers exactly the samples
    [out], each with [true], and from then on 0 with [false]. *)
Definition emits (s : silencer) (out : list S) : Prop :=
  forall n, pull n s = calls n out.

Lemma emits_cons s x s' out :
  next s = (x, true, s') -> emits s' out -> emits s (x :: out).
Proof.
  intros Hn He [|n]; [reflexivity|].
  cbn [Silencer.pull]. rewrite Hn, He. reflexivity.
Qed.

Lemma emits_nil s : next s = (zero, false, s) -> emits s [].
Proof.
  intros Hn n. induction n as [|n IH]; [reflexivity|].
  cbn [Silencer.pull]. rewrite Hn, IH. unfold Silencer.calls.
  rewrite !firstn_nil. cbn [map app length]. rewrite !Nat.sub_0_r. reflexivity.
Qed.

Definition with_buffer (s : silencer) (b : Z) (have : bool) : silencer :=
  mk_silencer S (m_source S s) (m_lead_in S s) (m_lead_out S s) (m_gap S s)
              (m_state S s) b have (m_unsilent_sample S s).

Lemma emits_silence b : forall s out,
  m_buffered_silence S s = Z.of_nat b -> Z.of_nat b < 2 ^ 32 ->
  emits (with_buffer s 0 (m_have_unsilent_sample S s)) out ->
  emits s (repeat zero b ++ out).
Proof.
  induction b as [|b IH]; intros s out Hb Hr He.
  - cbn [repeat app]. destruct s as [src li lo g st bs hv us].
    cbn in Hb. subst bs. exact He.
  - cbn [repeat app].
    apply emits_cons with (s' := with_buffer s (Z.of_nat b) (m_have_unsilent_sample S s)).
    + unfold Silencer.next, top_up, Silencer.needs_audio. rewrite Hb.
      destruct (Z.eqb_spec (Z.of_nat (Datatypes.S b)) 0); [lia|]. cbn [andb].
      rewrite Hb. destruct (Z.gtb_spec (Z.of_nat (Datatypes.S b)) 0); [|lia].
      unfold with_buffer. do 2 f_equal. f_equal.
      unfold to_uint32. rewrite wrap_unsigned_id; lia.
    + apply IH; [reflexivity | lia | exact He].
Qed.

Lemma emits_sample s out :
  m_buffered_silence S s = 0 -> m_have_unsilent_sample S s = true ->
  emits (with_buffer s 0 false) out ->
  emits s (m_unsilent_sample S s :: out).
Proof.
  intros Hb Hh He. apply emits_cons with (s' := with_buffer s 0 false); [|exact He].
  unfold Silencer.next, top_up, Silencer.needs_audio. rewrite Hb, Hh.
  cbn [Z.eqb negb andb]. rewrite Hb, Hh. cbn [Z.gtb Z.compare].
  unfold with_buffer. reflexivity.
Qed.

Lemma emits_finished s :
  m_state S s = finished -> m_buffered_silence S s = 0 ->
  m_have_unsilent_sample S s = false -> emits s [].
Proof.
  intros Hs Hb Hh. apply emits_nil.
  unfold Silencer.next, top_up, Silencer.needs_audio. rewrite Hs, Hb, Hh.
  cbn [state_eqb negb andb Z.eqb]. rewrite Hb, Hh. reflexivity.
Qed.

Lemma emits_top_up s out :
  needs_audio s = true -> needs_audio (process_audio s) = false ->
  emits (process_audio s) out -> emits s out.
Proof.
  intros H1 H2 He [|n]; [reflexivity|].
  rewrite <- He. cbn [Silencer.pull].
  unfold Silencer.next, top_up. rewrite H1, H2. reflexivity.
Qed.

Lemma needs_audio_finished src li lo g b hv us :
  needs_audio (mk_silencer S src li lo g finished b hv us) = false.
Proof. unfold Silencer.needs_audio. cbn. apply andb_false_r. Qed.

Lemma needs_audio_have src li lo g st b us :
  needs_audio (mk_silencer S src li lo g st b true us) = false.
Proof. unfold Silencer.needs_audio. cbn. rewrite andb_false_r. reflexivity. Qed.

(** *** What the read-ahead loop finds *)

Lemma read_ahead_run run : forall b rest,
  0 <= b < 2 ^ 32 -> forallb is_silent run = true ->
  read_ahead (run ++ rest) b
  = read_ahead rest (to_uint32 (b + Z.of_nat (length run))).
Proof.
  induction run as [|x run IH]; intros b rest Hb Hs.
  - cbn [app length]. unfold to_uint32. change (Z.of_nat 0) with 0.
    rewrite Z.add_0_r, wrap_unsigned_id by lia. reflexivity.
  - cbn [forallb] in Hs. apply andb_prop in Hs as [Hx Hs].
    cbn [app Silencer.read_ahead]. rewrite Hx.
    rewrite IH; [| apply Z.mod_pos_bound; lia | exact Hs].
    f_equal. unfold to_uint32, wrap_unsigned.
    rewrite Zplus_mod_idemp_l. f_equal. cbn [length]. lia.
Qed.

(** A source is either silent throughout or splits at its first non-silent
    sample. *)
Lemma first_unsilent (src : list S) :
  forallb is_silent src = true \/
  exists run x rest, src = run ++ x :: rest /\
    forallb is_silent run = true /\ is_silent x = false.
Proof.
  induction src as [|y src IH]; [left; reflexivity|].
  destruct (is_silent y) eqn:E.
  - destruct IH as [IH | (run & x & rest & -> & Hr & Hx)].
    + left. cbn [forallb]. rewrite E, IH. reflexivity.
    + right. exists (y :: run), x, rest. cbn [forallb app]. rewrite E, Hr. auto.
  - right. exists [], y, src. auto.
Qed.

Lemma read_ahead_found run x rest b :
  0 <= b < 2 ^ 32 -> forallb is_silent run = true -> is_silent x = false ->
  read_ahead (run ++ x :: rest) b
  = (rest, to_uint32 (b + Z.of_nat (length run)), true, x).
Proof.
  intros Hb Hr Hx. rewrite read_ahead_run by assumption.
  cbn [Silencer.read_ahead]. rewrite Hx. reflexivity.
Qed.

Lemma read_ahead_exhausted src b :
  0 <= b < 2 ^ 32 -> forallb is_silent src = true ->
  read_ahead src b = ([], to_uint32 (b + Z.of_nat (length src)), false, zero).
Proof.
  intros Hb Hs. rewrite <- (app_nil_r src) at 1.
  rewrite read_ahead_run by assumption. reflexivity.
Qed.

Lemma spec_gaps_found gap run x rest : forall pending,
  forallb is_silent run = true -> is_silent x = false ->
  spec_gaps gap pending (run ++ x :: rest)
  = repeat zero (Nat.min (pending + length run) gap) ++ x :: spec_gaps gap 0 rest.
Proof.
  induction run as [|y run IH]; intros pending Hr Hx.
  - cbn [app Silencer.spec_gaps length]. rewrite Hx, Nat.add_0_r. reflexivity.
  - cbn [forallb] in Hr. apply andb_prop in Hr as [Hy Hr].
    cbn [app Silencer.spec_gaps length]. rewrite Hy, IH by assumption.
    do 3 f_equal. lia.
Qed.

Lemma spec_gaps_exhausted gap src : forall pending,
  forallb is_silent src = true -> spec_gaps gap pending src = [].
Proof.
  induction src as [|y src IH]; intros pending Hs; [reflexivity|].
  cbn [forallb] in Hs. apply andb_prop in Hs as [Hy Hs].
  cbn [Silencer.spec_gaps]. rewrite Hy. apply IH, Hs.
Qed.

Lemma spec_audio_found gap run x rest :
  forallb is_silent run = true -> is_silent x = false ->
  spec_audio gap (run ++ x :: rest) = x :: spec_gaps gap 0 rest.
Proof.
  induction run as [|y run IH]; intros Hr Hx.
  - cbn [app Silencer.spec_audio]. rewrite Hx. reflexivity.
  - cbn [forallb] in Hr. apply andb_prop in Hr as [Hy Hr].
    cbn [app Silencer.spec_audio]. rewrite Hy. apply IH; assumption.
Qed.

Lemma spec_audio_exhausted gap src :
  forallb is_silent src = true -> spec_audio gap src = [].
Proof.
  induction src as [|y src IH]; intros Hs; [reflexivity|].
  cbn [forallb] in Hs. apply andb_prop in Hs as [Hy Hs].
  cbn [Silencer.spec_audio]. rewrite Hy. apply IH, Hs.
Qed.

(** *** The whole output *)

(** Every run of consecutive silent samples is shorter than 2^31, so the
    32-bit counter [m_buffered_silence] and its [int32_t] cast are exact. *)
Definition short_runs (src : list S) : Prop :=
  forall pre run post, src = pre ++ run ++ post ->
    forallb is_silent run = true -> Z.of_nat (length run) < 2 ^ 31.

Lemma short_runs_tail run x rest :
  short_runs (run ++ x :: rest) -> forallb is_silent run = true ->
  Z.of_nat (length run) < 2 ^ 31 /\ short_runs rest.
Proof.
  intros H Hr. split.
  - apply (H [] run (x :: rest)); [reflexivity | exact Hr].
  - intros pre r post -> Hs.
    apply (H (run ++ x :: pre) r post); [|exact Hs].
    rewrite <- app_assoc. reflexivity.
Qed.

Section Parameters.

Variables lead_in lead_out gap : Z.
Hypothesis lead_in_range : 0 <= lead_in < 2 ^ 31.
Hypothesis lead_out_range : 0 <= lead_out < 2 ^ 31.
Hypothesis gap_range : 1 <= gap < 2 ^ 31.

(** After the last non-silent sample: the lead-out, then nothing. *)
Lemma emits_lead_out us :
  emits (mk_silencer S [] lead_in lead_out gap finished (to_uint32 lead_out) false us)
        (repeat zero (Z.to_nat lead_out)).
Proof.
  rewrite <- (app_nil_r (repeat zero (Z.to_nat lead_out))).
  apply emits_silence.
  - cbn [m_buffered_silence]. unfold to_uint32. rewrite wrap_unsigned_id; lia.
  - lia.
  - apply emits_finished; reflexivity.
Qed.

Lemma process_gaps_found run x rest us :
  forallb is_silent run = true -> is_silent x = false ->
  Z.of_nat (length run) < 2 ^ 31 ->
  process_audio (mk_silencer S (run ++ x :: rest) lead_in lead_out gap gaps 0 false us)
  = mk_silencer S rest lead_in lead_out gap gaps
      (Z.of_nat (Nat.min (length run) (Z.to_nat gap))) true x.
Proof.
  intros Hr Hx Hlen. unfold Silencer.process_audio.
  cbn [m_have_unsilent_sample m_source m_buffered_silence m_state m_gap m_lead_in m_lead_out].
  rewrite read_ahead_found by (assumption || lia).
  unfold to_uint32, to_int32. rewrite Z.add_0_l.
  rewrite (wrap_unsigned_id 32 (Z.of_nat (length run))) by lia.
  rewrite wrap_signed_id by lia.
  destruct (Z.geb_spec gap 0); [|lia]. cbn [andb].
  destruct (Z.gtb_spec (Z.of_nat (length run)) gap).
  - rewrite wrap_unsigned_id by lia. do 2 f_equal. lia.
  - do 2 f_equal. lia.
Qed.

Lemma process_gaps_exhausted src us :
  forallb is_silent src = true ->
  process_audio (mk_silencer S src lead_in lead_out gap gaps 0 false us)
  = mk_silencer S [] lead_in lead_out gap finished (to_uint32 lead_out) false zero.
Proof.
  intros Hs. unfold Silencer.process_audio.
  cbn [m_have_unsilent_sample m_source m_buffered_silence m_state m_gap m_lead_in m_lead_out].
  rewrite read_ahead_exhausted by (assumption || lia).
  destruct (Z.geb_spec lead_out 0); [reflexivity | lia].
Qed.

Lemma emits_gaps len : forall src us,
  (length src <= len)%nat -> short_runs src ->
  emits (mk_silencer S src lead_in lead_out gap gaps 0 false us)
        (spec_gaps (Z.to_nat gap) 0 src ++ repeat zero (Z.to_nat lead_out)).
Proof.
  induction len as [|len IH]; intros src us Hlen Hshort;
    (destruct (first_unsilent src) as [Hs | (run & x & rest & -> & Hr & Hx)];
     [ apply emits_top_up;
       [ reflexivity
       | rewrite process_gaps_exhausted by exact Hs; apply needs_audio_finished
       | rewrite process_gaps_exhausted by exact Hs;
         rewrite spec_gaps_exhausted by exact Hs; apply emits_lead_out ] | ]).
  - rewrite length_app in Hlen. cbn [length] in Hlen. lia.
  - destruct (short_runs_tail run x rest Hshort Hr) as [Hrun Hrest].
    apply emits_top_up;
      [reflexivity | rewrite process_gaps_found by assumption; apply needs_audio_have |].
    rewrite process_gaps_found by assumption.
    rewrite spec_gaps_found by assumption. cbn [Nat.add].
    rewrite <- app_assoc. apply emits_silence; [reflexivity | lia |].
    unfold with_buffer.
    cbn [m_source m_lead_in m_lead_out m_gap m_state m_unsilent_sample
         m_have_unsilent_sample].
    rewrite <- app_comm_cons.
    apply (emits_sample (mk_silencer S rest lead_in lead_out gap gaps 0 true x));
      [reflexivity | reflexivity |].
    apply IH; [|exact Hrest].
    rewrite length_app in Hlen. cbn [length] in Hlen. lia.
Qed.

Lemma process_lead_in_found run x rest us :
  forallb is_silent run = true -> is_silent x = false ->
  process_audio (mk_silencer S (run ++ x :: rest) lead_in lead_out gap Silencer.lead_in 0 false us)
  = mk_silencer S rest lead_in lead_out gap gaps lead_in true x.
Proof.
  intros Hr Hx. unfold Silencer.process_audio.
  cbn [m_have_unsilent_sample m_source m_buffered_silence m_state m_gap m_lead_in m_lead_out].
  rewrite read_ahead_found by (assumption || lia).
  destruct (Z.geb_spec lead_in 0); [|lia].
  unfold to_uint32. rewrite (wrap_unsigned_id 32 lead_in) by lia. reflexivity.
Qed.

Lemma process_lead_in_exhausted src us :
  forallb is_silent src = true ->
  process_audio (mk_silencer S src lead_in lead_out gap Silencer.lead_in 0 false us)
  = mk_silencer S [] lead_in lead_out gap Silencer.lead_out lead_in false zero.
Proof.
  intros Hs. unfold Silencer.process_audio.
  cbn [m_have_unsilent_sample m_source m_buffered_silence m_state m_gap m_lead_in m_lead_out].
  rewrite read_ahead_exhausted by (assumption || lia).
  destruct (Z.geb_spec lead_in 0); [|lia].
  unfold to_uint32. rewrite (wrap_unsigned_id 32 lead_in) by lia. reflexivity.
Qed.

Lemma process_lead_out b us :
  process_audio (mk_silencer S [] lead_in lead_out gap Silencer.lead_out b false us)
  = mk_silencer S [] lead_in lead_out gap finished (to_uint32 lead_out) false zero.
Proof.
  unfold Silencer.process_audio.
  cbn [m_have_unsilent_sample m_source m_buffered_silence m_state m_gap m_lead_in
       m_lead_out Silencer.read_ahead].
  destruct (Z.geb_spec lead_out 0); [reflexivity | lia].
Qed.

(** The silencer delivers the output of the specification, provided the
    lead-in is not empty when the source has no non-silent sample. *)
Lemma emits_spec_output src :
  short_runs src ->
  0 < lead_in \/ forallb is_silent src = false ->
  emits (create S zero src lead_in lead_out gap)
        (spec_output (Z.to_nat lead_in) (Z.to_nat lead_out) (Z.to_nat gap) src).
Proof.
  intros Hshort Hcase. unfold create, Silencer.spec_output.
  destruct (first_unsilent src) as [Hs | (run & x & rest & -> & Hr & Hx)].
  - destruct Hcase as [Hpos | Hloud]; [|congruence].
    apply emits_top_up; [reflexivity | |].
    + rewrite process_lead_in_exhausted by exact Hs.
      unfold Silencer.needs_audio. cbn [m_buffered_silence].
      destruct (Z.eqb_spec lead_in 0); [lia | reflexivity].
    + rewrite process_lead_in_exhausted by exact Hs.
      rewrite spec_audio_exhausted by exact Hs. cbn [app].
      apply emits_silence;
        [cbn [m_buffered_silence]; lia | lia |].
      unfold with_buffer.
    cbn [m_source m_lead_in m_lead_out m_gap m_state m_unsilent_sample
         m_have_unsilent_sample].
      apply emits_top_up;
        [reflexivity | rewrite process_lead_out; apply needs_audio_finished |].
      rewrite process_lead_out. apply emits_lead_out.
  - destruct (short_runs_tail run x rest Hshort Hr) as [_ Hrest].
    apply emits_top_up;
      [reflexivity | rewrite process_lead_in_found by assumption; apply needs_audio_have |].
    rewrite process_lead_in_found by assumption.
    rewrite spec_audio_found by assumption.
    apply emits_silence; [cbn [m_buffered_silence]; lia | lia |].
    unfold with_buffer.
    cbn [m_source m_lead_in m_lead_out m_gap m_state m_unsilent_sample
         m_have_unsilent_sample].
    rewrite <- app_comm_cons.
    apply (emits_sample (mk_silencer S rest lead_in lead_out gap gaps 0 true x));
      [reflexivity | reflexivity |].
    apply (emits_gaps (length rest)); [apply Nat.le_refl | exact Hrest].
Qed.

(** With an empty lead-in and a source that never delivers a non-silent
    sample, the first [next] already reports the module stopped, although
    the state is not [finished] and the lead-out has not been delivered. *)
Lemma stops_before_lead_out src :
  lead_in = 0 -> forallb is_silent src = true ->
  let s := create S zero src lead_in lead_out gap in
  exists s',
    next s = (zero, false, s') /\ m_state S s' = Silencer.lead_out /\
    snd (is_running S is_silent zero s) = s' /\
    fst (is_running S is_silent zero s) = false /\
    (0 < lead_out -> snd (fst (next s')) = true).
Proof.
  intros Hli Hs s.
  exists (mk_silencer S [] lead_in lead_out gap Silencer.lead_out lead_in false zero).
  assert (Ht : top_up S is_silent zero s
               = mk_silencer S [] lead_in lead_out gap Silencer.lead_out lead_in false zero).
  { unfold top_up, s, create. apply process_lead_in_exhausted, Hs. }
  unfold Silencer.next, Silencer.is_running. rewrite Ht.
  cbn [m_buffered_silence m_have_unsilent_sample m_state fst snd].
  destruct (Z.gtb_spec lead_in 0); [lia|]. cbn [orb].
  repeat split.
  intros Hlo. unfold top_up, Silencer.needs_audio.
  cbn [m_buffered_silence m_have_unsilent_sample m_state state_eqb negb andb].
  destruct (Z.eqb_spec lead_in 0); [|lia]. cbn [andb].
  rewrite process_lead_out. cbn [m_buffered_silence m_have_unsilent_sample].
  unfold to_uint32. rewrite (wrap_unsigned_id 32 lead_out) by lia.
  destruct (Z.gtb_spec lead_out 0); [reflexivity | lia].
Qed.

(** A silent run of 2^31 samples between two non-silent ones overflows the
    [int32_t] cast of the counter and is passed on without being cut. *)
Lemma long_run_not_cut run x rest us :
  forallb is_silent run = true -> is_silent x = false ->
  Z.of_nat (length run) = 2 ^ 31 ->
  m_buffered_silence S
    (process_audio (mk_silencer S (run ++ x :: rest) lead_in lead_out gap gaps 0 false us))
  = 2 ^ 31.
Proof.
  intros Hr Hx Hlen. unfold Silencer.process_audio.
  cbn [m_have_unsilent_sample m_source m_buffered_silence m_state m_gap m_lead_in m_lead_out].
  rewrite read_ahead_found by (assumption || lia).
  rewrite Z.add_0_l, Hlen.
  change (to_uint32 (2 ^ 31)) with (2 ^ 31).
  change (to_int32 (2 ^ 31)) with (- 2 ^ 31).
  destruct (Z.gtb_spec (- 2 ^ 31) gap); [lia|].
  rewrite andb_false_r. reflexivity.
Qed.

End Parameters.

End WithSample.

(** A mono run: lead-in 2, lead-out 1, gap 2; the leading and trailing
    silence is replaced and the run of three silent samples is cut to two. *)
Example silencer_run :
  pull mono_t is_silent_mono 0%Q 9
    (create mono_t 0%Q [0; 1 # 2; 0; 0; 0; 1 # 4; 0; 0]%Q 2 1 2)
  = calls mono_t 0%Q 9 [0; 0; 1 # 2; 0; 0; 1 # 4; 0]%Q.
Proof. reflexivity. Qed.

(** C5 (the input on which the source misses the claim). With
    [lead_in = 0], [lead_out = 2], [gap = 1] and a source that stops without
    a non-silent sample, the first [next] returns 0 and [false] while the
    state is [lead_out], not [finished]; [is_running] reports [false] as
    well; the two lead-out samples only appear if [next] is called again
    after the module has reported that it stopped. *)
Theorem empty_lead_in_stops_before_lead_out :
  let s := create mono_t 0%Q [] 0 2 1 in
  let s' := mk_silencer mono_t [] 0 2 1 lead_out 0 false 0%Q in
  next mono_t is_silent_mono 0%Q s = (0%Q, false, s') /\
  is_running mono_t is_silent_mono 0%Q s = (false, s') /\
  pull mono_t is_silent_mono 0%Q 4 s
  = [(0%Q, false); (0%Q, true); (0%Q, true); (0%Q, false)] /\
  pull mono_t is_silent_mono 0%Q 4 s
  <> calls mono_t 0%Q 4 (spec_output mono_t is_silent_mono 0%Q 0 2 1 []).
Proof.
  cbv zeta. repeat split. intros H. discriminate H.
Qed.

End SilencerFacts.

(* ------------------------------------------------------------------------- *)
(** ** music_stream.h / music_stream.cpp: the music stream parser *)
(* ------------------------------------------------------------------------- *)

Module MusicStream.

Inductive music_event_code : Type :=
| note_on | note_off | set_instrument | pitch_bend | volume | pan_offset
| set_marker | jump_to_marker | unknown_0b | unknown_0e | eos.

Record music_event : Type := mk_event {
  code : music_event_code;
  data_0 : Z;     (* int32_t *)
  data_1 : Z      (* int32_t *)
}.

(** The fields of [wmd_song_track] the parser and the player read. *)
Record wmd_song_track : Type := mk_track {
  instrument : Z;          (* uint16_t *)
  beats_per_minute : Z;    (* uint16_t *)
  ticks_per_beat : Z;      (* uint16_t *)
  repeat : bool;
  repeat_start : Z;        (* uint32_t *)
  data : list byte
}.

Record music_stream : Type := mk_stream {
  m_track : wmd_song_track;
  m_position : Z;                   (* size_t *)
  m_caller_ticks_per_minute : Z;    (* uint32_t *)
  m_track_ticks_per_minute : Z;     (* uint32_t *)
  m_tick_position : Z;              (* uint32_t *)
  m_tick_fraction : Z;              (* uint32_t *)
  m_next_event_time : Z             (* uint32_t *)
}.

Definition to_size_t := wrap_unsigned 64.

(** [m_track.data.size()]. *)
Definition size (st : music_stream) : Z := Z.of_nat (length (data (m_track st))).

(** utility.cpp: [hex_byte], two lower-case hexadecimal digits. *)
Definition hex_digit (n : Z) : string :=
  String.substring (Z.to_nat n) 1 "0123456789abcdef"%string.
Definition hex_byte (b : Z) : string :=
  (hex_digit (b / 16) ++ hex_digit (b mod 16))%string.

Definition read_beyond_end : string :=
  "Corrupt music data: attempt to read beyond the end of the stream."%string.
Definition unsupported_code (c : Z) : string :=
  ("Unsupported music stream event code $" ++ hex_byte c ++ ".")%string.
Definition invalid_seek : string := "Invalid seek position in music stream."%string.
(** Never produced on a stream of the source: see [get_delta_fuel]. *)
Definition out_of_fuel : string := "<loop bound of the model exceeded>"%string.

(** Member functions that may throw: state in, result and state out. *)
Definition parser (A : Type) : Type := music_stream -> result (A * music_stream).

Definition ret {A : Type} (a : A) : parser A := fun st => Ok (a, st).
Definition throw {A : Type} (msg : string) : parser A := fun _ => Fatal msg.
Definition bind {A B : Type} (c : parser A) (k : A -> parser B) : parser B :=
  fun st => match c st with
            | Fatal msg => Fatal msg
            | Ok (a, st') => k a st'
            end.

Notation "x <- c ;; k" := (bind c (fun x => k))
  (at level 61, c at next level, right associativity).
Notation "c ;;; k" := (bind c (fun _ => k))
  (at level 61, right associativity).

Definition set_position (pos : Z) : parser unit := fun st =>
  Ok (tt, mk_stream (m_track st) pos (m_caller_ticks_per_minute st)
            (m_track_ticks_per_minute st) (m_tick_position st)
            (m_tick_fraction st) (m_next_event_time st)).

Definition set_next_event_time (t : Z) : parser unit := fun st =>
  Ok (tt, mk_stream (m_track st) (m_position st) (m_caller_ticks_per_minute st)
            (m_track_ticks_per_minute st) (m_tick_position st)
            (m_tick_fraction st) t).

Definition is_running (st : music_stream) : bool := m_position st <? size st.

Definition have_event (st : music_stream) : bool :=
  (m_position st <? size st) && (m_next_event_time st <=? m_tick_position st).

Definition get_byte : parser Z := fun st =>
  if to_size_t (m_position st + 1) >? size st then Fatal read_beyond_end
  else (set_position (to_size_t (m_position st + 1)) ;;;
        ret (byte_at (data (m_track st)) (m_position st))) st.

Definition get_word : parser Z := fun st =>
  if to_size_t (m_position st + 2) >? size st then Fatal read_beyond_end
  else (set_position (to_size_t (m_position st + 2)) ;;;
        ret (to_uint16
               (Z.lor (byte_at (data (m_track st)) (m_position st))
                      (Z.shiftl (byte_at (data (m_track st))
                                         (to_size_t (m_position st + 1))) 8)))) st.

(** The [do ... while] loop of [get_delta]; every iteration reads one byte,
    so [fuel] beyond the number of bytes left is never used up. *)
Fixpoint get_delta_loop (fuel : nat) (delta : Z) : parser Z :=
  match fuel with
  | O => throw out_of_fuel
  | Datatypes.S fuel' =>
      byte <- get_byte ;;
      let delta := to_uint32 (Z.lor (Z.shiftl delta 7) (Z.land byte 0x7f)) in
      if negb (Z.land byte 0x80 =? 0) then get_delta_loop fuel' delta else ret delta
  end.

Definition get_delta_fuel (st : music_stream) : nat :=
  Datatypes.S (Z.to_nat (size st - m_position st)).

Definition get_delta : parser Z := fun st =>
  get_delta_loop (get_delta_fuel st) 0 st.

(** The constructor; it reads the first delta and so may throw. *)
Definition create (track : wmd_song_track) (ticks_per_minute : Z) : result music_stream :=
  let st := mk_stream track 0 ticks_per_minute
              (to_uint32 (to_uint32 (ticks_per_beat track) * to_uint32 (beats_per_minute track)))
              0 0 0 in
  match get_delta st with
  | Fatal msg => Fatal msg
  | Ok (delta, st') => 
      match set_next_event_time delta st' with
      | Fatal msg => Fatal msg
      | Ok (_, st'') => Ok st''
      end
  end.

(** The [while] loop of [tick]: at most [fraction / caller] subtractions. *)
Fixpoint tick_loop (fuel : nat) (caller fraction position : Z) : Z * Z :=
  match fuel with
  | O => (fraction, position)
  | Datatypes.S fuel' =>
      if fraction >=? caller
      then tick_loop fuel' caller (to_uint32 (fraction - caller)) (to_uint32 (position + 1))
      else (fraction, position)
  end.

Definition tick (st : music_stream) : music_stream :=
  let fraction := to_uint32 (m_tick_fraction st + m_track_ticks_per_minute st) in
  let '(fraction, position) :=
    tick_loop (Datatypes.S (Z.to_nat (fraction / m_caller_ticks_per_minute st)))
              (m_caller_ticks_per_minute st) fraction (m_tick_position st) in
  mk_stream (m_track st) (m_position st) (m_caller_ticks_per_minute st)
            (m_track_ticks_per_minute st) position fraction (m_next_event_time st).

(** The [switch] of [get_event]. *)
Definition read_event (code : Z) : parser music_event :=
  if code =? 0x11 then
    d0 <- get_byte ;; d1 <- get_byte ;; ret (mk_event note_on d0 d1)
  else if code =? 0x12 then
    d0 <- get_byte ;; ret (mk_event note_off d0 0)
  else if code =? 0x07 then
    d0 <- get_word ;; ret (mk_event set_instrument d0 0)
  else if code =? 0x09 then
    d0 <- get_word ;; ret (mk_event pitch_bend (to_int16 d0) 0)
  else if code =? 0x0c then
    d0 <- get_byte ;; ret (mk_event volume d0 0)
  else if code =? 0x0d then
    d0 <- get_byte ;; ret (mk_event pan_offset d0 0)
  else if code =? 0x23 then
    fun st => ret (mk_event set_marker (to_int32 (to_size_t (m_position st - 1))) 0) st
  else if code =? 0x20 then
    d0 <- get_word ;; ret (mk_event jump_to_marker d0 0)
  else if code =? 0x0b then
    d0 <- get_byte ;; ret (mk_event unknown_0b d0 0)
  else if code =? 0x0e then
    d0 <- get_byte ;; ret (mk_event unknown_0e d0 0)
  else if code =? 0x22 then
    (fun st => set_position (size st) st) ;;; ret (mk_event eos 0 0)
  else throw (unsupported_code code).

(** [get_event]: [None] stands for the [false] return (no event due). *)
Definition get_event : parser (option music_event) := fun st =>
  if have_event st then
    (code <- get_byte ;;
     ev <- read_event code ;;
     (fun st' =>
        if m_position st' <? size st'
        then (delta <- get_delta ;;
              fun st'' => set_next_event_time
                            (to_uint32 (m_next_event_time st'' + delta)) st'') st'
        else ret tt st') ;;;
     ret (Some ev)) st
  else ret None st.

Definition seek (pos : Z) : parser unit := fun st =>
  if pos >? size st then Fatal invalid_seek else set_position pos st.

(** *** The error cases in the words of the specification *)

(** The eleven opcodes and the number of payload bytes each one reads. *)
Definition payload_size (code : Z) : option Z :=
  if (code =? 0x11) then Some 2
  else if (code =? 0x12) || (code =? 0x0c) || (code =? 0x0d)
          || (code =? 0x0b) || (code =? 0x0e) then Some 1
  else if (code =? 0x07) || (code =? 0x09) || (code =? 0x20) then Some 2
  else if (code =? 0x23) || (code =? 0x22) then Some 0
  else None.

(** A tick delta that starts at byte [pos] ends inside the data: some byte
    from [pos] on has its top bit clear. *)
Definition delta_ends (bytes : list byte) (pos : Z) : bool :=
  existsb (fun b => Z.land (u8 b) 0x80 =? 0) (skipn (Z.to_nat pos) bytes).

(** Parsing the event at the current position would read past the end. *)
Definition runs_past_end (st : music_stream) : bool :=
  match payload_size (byte_at (data (m_track st)) (m_position st)) with
  | None => false
  | Some n =>
      let after := m_position st + 1 + n in
      (after >? size st)
      || (negb (byte_at (data (m_track st)) (m_position st) =? 0x22)
          && (after <? size st) && negb (delta_ends (data (m_track st)) after))
  end.

End MusicStream.

(* ------------------------------------------------------------------------- *)
(** ** Properties of the music stream parser *)
(* ------------------------------------------------------------------------- *)

Module MusicStreamFacts.
Import MusicStream.

(** The position lies within the data, whose size a [std::vector] keeps
    below 2^63. *)
Definition wf (st : music_stream) : Prop :=
  0 <= m_position st <= size st /\ size st < 2 ^ 63.

Definition with_position (st : music_stream) (pos : Z) : music_stream :=
  mk_stream (m_track st) pos (m_caller_ticks_per_minute st)
            (m_track_ticks_per_minute st) (m_tick_position st)
            (m_tick_fraction st) (m_next_event_time st).

Definition bytes (st : music_stream) : list byte := data (m_track st).

Lemma with_position_wf st pos :
  wf st -> 0 <= pos <= size st -> wf (with_position st pos).
Proof. intros [_ H] Hp. split; [exact Hp | exact H]. Qed.

Lemma get_byte_eq st :
  wf st ->
  get_byte st =
    if m_position st <? size st
    then Ok (byte_at (bytes st) (m_position st), with_position st (m_position st + 1))
    else Fatal read_beyond_end.
Proof.
  intros [Hp Hs]. unfold get_byte, to_size_t.
  rewrite wrap_unsigned_id by lia.
  destruct (Z.gtb_spec (m_position st + 1) (size st)), (Z.ltb_spec (m_position st) (size st));
    try lia; reflexivity.
Qed.

Lemma get_word_eq st :
  wf st ->
  get_word st =
    if m_position st + 2 <=? size st
    then Ok (to_uint16
               (Z.lor (byte_at (bytes st) (m_position st))
                      (Z.shiftl (byte_at (bytes st) (m_position st + 1)) 8)),
             with_position st (m_position st + 2))
    else Fatal read_beyond_end.
Proof.
  intros [Hp Hs]. unfold get_word, to_size_t.
  rewrite !wrap_unsigned_id by lia.
  destruct (Z.gtb_spec (m_position st + 2) (size st)), (Z.leb_spec (m_position st + 2) (size st));
    try lia; reflexivity.
Qed.

Lemma skipn_at (l : list byte) (p : nat) :
  (p < length l)%nat -> skipn p l = nth p l x00 :: skipn (Datatypes.S p) l.
Proof.
  revert p. induction l as [|x l IH]; intros p Hp; [cbn in Hp; lia|].
  destruct p as [|p]; [reflexivity|].
  cbn [skipn nth]. apply IH. cbn in Hp. lia.
Qed.

Lemma delta_ends_step (l : list byte) pos :
  0 <= pos < Z.of_nat (length l) ->
  delta_ends l pos = (Z.land (byte_at l pos) 0x80 =? 0) || delta_ends l (pos + 1).
Proof.
  intros Hp. unfold delta_ends, byte_at.
  rewrite (skipn_at l (Z.to_nat pos)) by lia. cbn [existsb].
  replace (Z.to_nat (pos + 1)) with (Datatypes.S (Z.to_nat pos)) by lia. reflexivity.
Qed.

Lemma delta_ends_past (l : list byte) pos :
  Z.of_nat (length l) <= pos -> delta_ends l pos = false.
Proof.
  intros Hp. unfold delta_ends. rewrite skipn_all2 by lia. reflexivity.
Qed.

(** [get_delta] fails exactly when the delta is not terminated inside the
    data, and then with the read-beyond-end error; it never runs out of
    fuel. *)
Lemma get_delta_loop_spec fuel : forall delta st,
  wf st -> (Z.to_nat (size st - m_position st) < fuel)%nat ->
  if delta_ends (bytes st) (m_position st)
  then exists d pos', get_delta_loop fuel delta st = Ok (d, with_position st pos') /\
                      m_position st < pos' <= size st
  else get_delta_loop fuel delta st = Fatal read_beyond_end.
Proof.
  induction fuel as [|fuel IH]; intros delta st Hwf Hfuel; [lia|].
  cbn [get_delta_loop]. unfold bind. rewrite get_byte_eq by exact Hwf.
  destruct (Z.ltb_spec (m_position st) (size st)) as [Hlt | Hge].
  - destruct Hwf as [Hp Hs].
    rewrite delta_ends_step by (unfold size, bytes in *; lia).
    destruct (Z.land (byte_at (bytes st) (m_position st)) 128 =? 0); cbn [negb orb].
    + eexists _, _. split; [reflexivity | lia].
    + set (st' := with_position st (m_position st + 1)).
      assert (Hwf' : wf st') by (apply with_position_wf; [split; assumption | lia]).
      specialize (IH (to_uint32 (Z.lor (Z.shiftl delta 7)
                         (Z.land (byte_at (bytes st) (m_position st)) 127))) st' Hwf').
      change (m_position st') with (m_position st + 1) in IH.
      change (size st') with (size st) in IH.
      change (bytes st') with (bytes st) in IH.
      specialize (IH ltac:(lia)).
      destruct (delta_ends (bytes st) (m_position st + 1)).
      * destruct IH as (d & pos' & -> & Hpos). exists d, pos'. split; [reflexivity | lia].
      * exact IH.
  - rewrite delta_ends_past by (unfold size, bytes in *; lia). reflexivity.
Qed.

Lemma get_delta_spec st :
  wf st ->
  if delta_ends (bytes st) (m_position st)
  then exists d pos', get_delta st = Ok (d, with_position st pos') /\
                      m_position st < pos' <= size st
  else get_delta st = Fatal read_beyond_end.
Proof.
  intros Hwf. apply get_delta_loop_spec; [exact Hwf|].
  unfold get_delta_fuel. lia.
Qed.

(** The event each opcode stands for, from the table of the specification. *)
Definition event_of (c : Z) : option music_event_code :=
  if c =? 0x11 then Some note_on else if c =? 0x12 then Some note_off
  else if c =? 0x07 then Some set_instrument else if c =? 0x09 then Some pitch_bend
  else if c =? 0x0c then Some volume else if c =? 0x0d then Some pan_offset
  else if c =? 0x23 then Some set_marker else if c =? 0x20 then Some jump_to_marker
  else if c =? 0x0b then Some unknown_0b else if c =? 0x0e then Some unknown_0e
  else if c =? 0x22 then Some eos else None.

(** The [switch]: an undefined opcode is refused; a defined one is parsed
    if its payload fits, and then leaves the position behind the payload
    (at the end of the data for the end-of-stream code). *)
Lemma read_event_spec c st :
  wf st ->
  match payload_size c with
  | None => read_event c st = Fatal (unsupported_code c)
  | Some n =>
      if m_position st + n <=? size st
      then exists ev, read_event c st
                      = Ok (ev, with_position st
                                  (if c =? 0x22 then size st else m_position st + n))
                      /\ event_of c = Some (code ev)
      else read_event c st = Fatal read_beyond_end
  end.
Proof.
  intros Hwf. pose proof Hwf as [Hp Hs].
  assert (Hb : forall p, 0 <= p <= size st -> wf (with_position st p))
    by (intros p Hpp; apply with_position_wf; assumption).
  unfold read_event, payload_size.
  repeat match goal with
  | |- context [c =? ?k] =>
      destruct (Z.eqb_spec c k) as [->|];
      [ cbn [Z.eqb Pos.eqb orb]; unfold bind, ret;
        rewrite ?get_word_eq by exact Hwf;
        rewrite ?get_byte_eq by exact Hwf;
        repeat match goal with
        | |- context [m_position st <? size st] =>
            destruct (Z.ltb_spec (m_position st) (size st))
        | |- context [m_position st + ?n <=? size st] =>
            destruct (Z.leb_spec (m_position st + n) (size st))
        end; try lia;
        try (rewrite get_byte_eq by (apply Hb; lia);
             change (m_position (with_position st (m_position st + 1)))
               with (m_position st + 1);
             change (size (with_position st (m_position st + 1))) with (size st);
             destruct (Z.ltb_spec (m_position st + 1) (size st)); try lia);
        try reflexivity;
        try (eexists; split;
             [ unfold with_position; cbn [m_position m_track
                 m_caller_ticks_per_minute m_track_ticks_per_minute m_tick_position
                 m_tick_fraction m_next_event_time];
               rewrite ?Z.add_0_r;
               try replace (m_position st + 1 + 1) with (m_position st + 2) by lia;
               reflexivity
             | reflexivity ])
      | cbn [orb] ]
  end.
  - eexists. split; [rewrite Z.add_0_r; destruct st; reflexivity | reflexivity].
  - reflexivity.
Qed.

Lemma payload_size_range c n : payload_size c = Some n -> 0 <= n <= 2.
Proof.
  unfold payload_size.
  repeat match goal with
  | |- context [c =? ?k] => destruct (Z.eqb_spec c k); cbn [orb]
  end; intros [= <-]; lia.
Qed.

Lemma get_event_due st :
  wf st -> have_event st = true ->
  get_event st =
    (ev <- read_event (byte_at (bytes st) (m_position st)) ;;
     (fun st' =>
        if m_position st' <? size st'
        then (delta <- get_delta ;;
              fun st'' => set_next_event_time
                            (to_uint32 (m_next_event_time st'' + delta)) st'') st'
        else ret tt st') ;;;
     ret (Some ev)) (with_position st (m_position st + 1)).
Proof.
  intros Hwf Hh. unfold get_event. rewrite Hh.
  unfold have_event in Hh. apply andb_prop in Hh as [Hlt _].
  unfold bind at 1. rewrite get_byte_eq, Hlt by exact Hwf. reflexivity.
Qed.

Lemma get_event_outcome st :
  wf st ->
  let c := byte_at (bytes st) (m_position st) in
  if have_event st then
    match payload_size c with
    | None => get_event st = Fatal (unsupported_code c)
    | Some n =>
        if runs_past_end st then get_event st = Fatal read_beyond_end
        else exists ev st', get_event st = Ok (Some ev, st') /\
                            event_of c = Some (code ev)
    end
  else get_event st = Ok (None, st).
Proof.
  intros Hwf c. pose proof Hwf as [Hp Hs].
  destruct (have_event st) eqn:Hh; [|unfold get_event; rewrite Hh; reflexivity].
  rewrite (get_event_due st Hwf Hh). fold c.
  assert (Hlt : m_position st < size st).
  { unfold have_event in Hh. apply andb_prop in Hh as [Hlt _]. apply Z.ltb_lt, Hlt. }
  set (st1 := with_position st (m_position st + 1)).
  assert (Hwf1 : wf st1) by (apply with_position_wf; [exact Hwf | lia]).
  pose proof (read_event_spec c st1 Hwf1) as Hr.
  unfold runs_past_end. fold (bytes st). fold c.
  destruct (payload_size c) as [n|] eqn:Hn; [|unfold bind; rewrite Hr; reflexivity].
  apply payload_size_range in Hn.
  change (m_position st1) with (m_position st + 1) in Hr.
  change (size st1) with (size st) in Hr.
  destruct (Z.leb_spec (m_position st + 1 + n) (size st)) as [Hfit | Hover].
  - destruct Hr as (ev & Hread & Hev).
    destruct (Z.gtb_spec (m_position st + 1 + n) (size st)); [lia|]. cbn [orb].
    set (st2 := with_position st1 (if c =? 34 then size st else m_position st + 1 + n)) in *.
    assert (Hwf2 : wf st2).
    { apply with_position_wf; [exact Hwf1|]. change (size st1) with (size st).
      destruct (c =? 34); lia. }
    pose proof (get_delta_spec st2 Hwf2) as Hd.
    change (bytes st2) with (bytes st) in Hd.
    assert (Hpos2 : m_position st2 = if c =? 34 then size st else m_position st + 1 + n)
      by reflexivity.
    assert (Hsize2 : size st2 = size st) by reflexivity.
    destruct (Z.eqb_spec c 34) as [Hc | Hc]; cbn [negb andb].
    + exists ev, st2. split; [|exact Hev].
      unfold bind. rewrite Hread, Hsize2, Hpos2, Z.ltb_irrefl. reflexivity.
    + destruct (Z.ltb_spec (m_position st + 1 + n) (size st)) as [Hmore | Hend]; cbn [andb].
      * rewrite Hpos2 in Hd.
        destruct (delta_ends (bytes st) (m_position st + 1 + n)); cbn [negb].
        -- destruct Hd as (d & pos' & Hd & _).
           eexists ev, _. split; [|exact Hev].
           unfold bind. rewrite Hread, Hsize2, Hpos2.
           destruct (Z.ltb_spec (m_position st + 1 + n) (size st)); [|lia].
           rewrite Hd. reflexivity.
        -- unfold bind. rewrite Hread, Hsize2, Hpos2.
           destruct (Z.ltb_spec (m_position st + 1 + n) (size st)); [|lia].
           rewrite Hd. reflexivity.
      * exists ev, st2. split; [|exact Hev].
        unfold bind. rewrite Hread, Hsize2, Hpos2.
        destruct (Z.ltb_spec (m_position st + 1 + n) (size st)); [lia|]. reflexivity.
  - destruct (Z.gtb_spec (m_position st + 1 + n) (size st)); [|lia]. cbn [orb].
    unfold bind. rewrite Hr. reflexivity.
Qed.

Lemma defined_opcodes c :
  payload_size c <> None <->
  In c [0x11; 0x12; 0x07; 0x09; 0x0c; 0x0d; 0x23; 0x20; 0x0b; 0x0e; 0x22].
Proof.
  unfold payload_size. cbn [In].
  repeat match goal with
  | |- context [c =? ?k] => destruct (Z.eqb_spec c k); cbn [orb]
  end; split; intros H; try congruence; try tauto; try lia.
Qed.

(** When the caller's rate is positive the loop of [tick] has finished:
    the fraction is below the caller's rate afterwards. *)
Lemma tick_loop_done fuel : forall caller fraction position,
  0 < caller -> 0 <= fraction < 2 ^ 32 -> (Z.to_nat (fraction / caller) < fuel)%nat ->
  fst (tick_loop fuel caller fraction position) < caller.
Proof.
  induction fuel as [|fuel IH]; intros caller fraction position Hc Hf Hfuel; [lia|].
  cbn [tick_loop]. destruct (Z.geb_spec fraction caller) as [Hge | Hlt]; [|exact Hlt].
  assert (Hq : (fraction - caller) / caller = fraction / caller - 1).
  { replace (fraction - caller) with (fraction + (-1) * caller) by lia.
    rewrite Z.div_add by lia. lia. }
  assert (1 <= fraction / caller) by (apply Z.div_le_lower_bound; lia).
  unfold to_uint32 at 1. rewrite wrap_unsigned_id by lia.
  apply IH; [exact Hc | lia | rewrite Hq; lia].
Qed.

(** A small stream: a note-on at tick 0, then the end-of-stream code. *)
Definition sample_track : wmd_song_track :=
  mk_track 0 120 120 false 0 (bytes_of [0x00; 0x11; 60; 127; 0x00; 0x22]).

Example sample_track_events :
  match create sample_track 2646000 with
  | Ok st0 =>
      match get_event st0 with
      | Ok (Some ev1, st1) =>
          ev1 = mk_event note_on 60 127 /\
          match get_event st1 with
          | Ok (Some ev2, st2) =>
              ev2 = mk_event eos 0 0 /\ is_running st2 = false /\
              get_event st2 = Ok (None, st2)
          | _ => False
          end
      | _ => False
      end
  | Fatal _ => False
  end.
Proof. vm_compute. repeat split. Qed.

Example unsupported_code_message :
  unsupported_code 0x2a = "Unsupported music stream event code $2a."%string.
Proof. reflexivity. Qed.

(** C9. The parser throws exactly when: [get_event] meets an opcode that
    is not one of the eleven defined ones; a byte or word read for an
    opcode, a payload or a tick delta would pass the end of the data; or
    [seek] is given a position beyond the size (the size itself is
    accepted).  Every defined opcode whose bytes are there is parsed. *)
Theorem parser_throws_exactly st :
  wf st ->
  let c := byte_at (bytes st) (m_position st) in
  (forall msg, get_event st = Fatal msg <->
     have_event st = true /\
     ((payload_size c = None /\ msg = unsupported_code c) \/
      (payload_size c <> None /\ runs_past_end st = true /\ msg = read_beyond_end))) /\
  (have_event st = true -> payload_size c <> None -> runs_past_end st = false ->
     exists ev st', get_event st = Ok (Some ev, st') /\ event_of c = Some (code ev)) /\
  (payload_size c <> None <->
     In c [0x11; 0x12; 0x07; 0x09; 0x0c; 0x0d; 0x23; 0x20; 0x0b; 0x0e; 0x22]) /\
  (forall msg, get_byte st = Fatal msg <->
     size st < m_position st + 1 /\ msg = read_beyond_end) /\
  (forall msg, get_word st = Fatal msg <->
     size st < m_position st + 2 /\ msg = read_beyond_end) /\
  (forall msg, get_delta st = Fatal msg <->
     delta_ends (bytes st) (m_position st) = false /\ msg = read_beyond_end) /\
  (forall pos msg, seek pos st = Fatal msg <-> size st < pos /\ msg = invalid_seek) /\
  (exists st', seek (size st) st = Ok (tt, st')).
Proof.
  intros Hwf c. pose proof (get_event_outcome st Hwf) as He. cbv zeta in He. fold c in He.
  split; [|split; [|split; [|split; [|split; [|split; [|split]]]]]].
  - intros msg. destruct (have_event st).
    + destruct (payload_size c) as [n|].
      * destruct (runs_past_end st).
        -- rewrite He. split.
           ++ intros [= <-]. split; [reflexivity|]. right. repeat split. discriminate.
           ++ intros [_ [[H _] | (_ & _ & ->)]]; [discriminate | reflexivity].
        -- destruct He as (ev & st' & -> & _). split; [discriminate|].
           intros [_ [[H _] | (_ & H & _)]]; discriminate.
      * rewrite He. split.
        -- intros [= <-]. split; [reflexivity|]. left. split; reflexivity.
        -- intros [_ [[_ ->] | (H & _)]]; [reflexivity | congruence].
    + rewrite He. split; [discriminate | intros [H _]; discriminate].
  - intros Hh Hdef Hrun. rewrite Hh, Hrun in He.
    destruct (payload_size c); [exact He | congruence].
  - apply defined_opcodes.
  - intros msg. rewrite get_byte_eq by exact Hwf.
    destruct (Z.ltb_spec (m_position st) (size st)); split.
    + discriminate.
    + intros [H' _]. lia.
    + intros [= <-]. split; [lia | reflexivity].
    + intros [_ ->]. reflexivity.
  - intros msg. rewrite get_word_eq by exact Hwf.
    destruct (Z.leb_spec (m_position st + 2) (size st)); split.
    + discriminate.
    + intros [H' _]. lia.
    + intros [= <-]. split; [lia | reflexivity].
    + intros [_ ->]. reflexivity.
  - intros msg. pose proof (get_delta_spec st Hwf) as Hd.
    destruct (delta_ends (bytes st) (m_position st)).
    + destruct Hd as (d & pos' & -> & _). split; [discriminate | intros [H _]; discriminate].
    + rewrite Hd. split; [intros [= <-]; split; reflexivity | intros [_ ->]; reflexivity].
  - intros pos msg. unfold seek. destruct (Z.gtb_spec pos (size st)); split.
    + intros [= <-]. split; [lia | reflexivity].
    + intros [_ ->]. reflexivity.
    + discriminate.
    + intros [H' _]. lia.
  - unfold seek. rewrite Z.gtb_ltb, Z.ltb_irrefl. eexists. reflexivity.
Qed.

Lemma parser_throws_exactly_witness :
  let st := mk_stream sample_track 1 2646000 14400 0 0 0 in
  wf st /\
  have_event st = true /\
  runs_past_end st = false /\
  (exists ev st', get_event st = Ok (Some ev, st') /\ Some note_on = Some (code ev)) /\
  (exists st', seek (size st) st = Ok (tt, st')).
Proof.
  intros st.
  assert (Hwf : wf st) by (split; [split | ]; [discriminate | discriminate | reflexivity]).
  assert (Hdef : payload_size (byte_at (bytes st) (m_position st)) <> None) by discriminate.
  split; [exact Hwf|]. split; [reflexivity|]. split; [reflexivity|].
  destruct (parser_throws_exactly st Hwf) as (_ & Hok & _ & _ & _ & _ & _ & Hseek).
  split; [exact (Hok eq_refl Hdef eq_refl) | exact Hseek].
Defined.

End MusicStreamFacts.

(* ------------------------------------------------------------------------- *)
(** ** track_player.h / track_player.cpp: repeat bookkeeping of a track *)
(* ------------------------------------------------------------------------- *)

Module TrackPlayer.
Import MusicStream.

(** The members that decide whether a track runs and repeats.  The voices
    ([m_channels]) are represented by their note numbers ([user_data]); only
    whether any is left matters here. *)
Record track_player : Type := mk_track_player {
  m_play_count : Z;        (* uint32_t *)
  m_repeat : bool;
  m_repeat_start : Z;      (* size_t *)
  m_stream : music_stream;
  m_channels : list Z
}.

(** The constructor: [opts.play_count], [opts.sample_rate] and the track. *)
Definition create (track : wmd_song_track) (play_count sample_rate : Z)
  : result track_player :=
  match MusicStream.create track (to_uint32 (sample_rate * 60)) with
  | Fatal msg => Fatal msg
  | Ok stream =>
      Ok (mk_track_player play_count (repeat track) (repeat_start track) stream [])
  end.

Definition is_running (tp : track_player) : bool :=
  negb (match m_channels tp with [] => true | _ => false end)
  || (m_repeat tp && ((m_play_count tp =? 0) || (m_play_count tp >? 1)))
  || MusicStream.is_running (m_stream tp).

Definition failed_to_repeat (tp : track_player) : bool := m_play_count tp >? 1.

(** The [jump_to_marker] case of the event loop in [next]. *)
Definition on_jump_to_marker (tp : track_player) : result track_player :=
  if negb (m_play_count tp =? 1) then
    let play_count :=
      if m_play_count tp >? 0 then to_uint32 (m_play_count tp - 1)
      else m_play_count tp in
    if m_repeat tp then
      match seek (m_repeat_start tp) (m_stream tp) with
      | Fatal msg => Fatal msg
      | Ok (_, stream) =>
          Ok (mk_track_player play_count (m_repeat tp) (m_repeat_start tp) stream
                (m_channels tp))
      end
    else Ok (mk_track_player play_count (m_repeat tp) (m_repeat_start tp)
               (m_stream tp) (m_channels tp))
  else Ok tp.

End TrackPlayer.

Module TrackPlayerFacts.
Import MusicStream TrackPlayer.

(** A repeating track: a note, then a jump back to the start. *)
Definition looping_track : wmd_song_track :=
  mk_track 0 120 120 true 0
    (bytes_of [0x00; 0x11; 60; 127; 0x10; 0x12; 60; 0x00; 0x20; 0; 0; 0x00; 0x22]).

Definition playing_twice : track_player :=
  match create looping_track 2 44100 with
  | Ok tp => tp
  | Fatal _ => mk_track_player 0 false 0 (mk_stream looping_track 0 0 0 0 0 0) []
  end.

(** C8 as stated fails: right after construction of a repeat-flagged track
    with [play_count = 2] the stream is not exhausted, the header flags a
    repeat, and [failed_to_repeat] is nevertheless [true]. *)
Lemma failed_to_repeat_while_playing :
  create looping_track 2 44100 = Ok playing_twice /\
  MusicStream.is_running (m_stream playing_twice) = true /\
  m_repeat playing_twice = true /\
  is_running playing_twice = true /\
  failed_to_repeat playing_twice = true /\
  ~ (failed_to_repeat playing_twice = true <->
       MusicStream.is_running (m_stream playing_twice) = false /\
       m_play_count playing_twice > 1 /\ m_repeat playing_twice = false).
Proof.
  repeat split; try reflexivity.
  intros [H _]. destruct (H eq_refl) as [H' _]. discriminate H'.
Qed.

(** C8, amended. [failed_to_repeat] is just [play_count > 1]; once the
    track player has stopped running, that is the case exactly when the
    stream is exhausted with [play_count > 1] on a track whose header does
    not flag a repeat. *)
Theorem failed_to_repeat_after_stop tp :
  (failed_to_repeat tp = true <-> m_play_count tp > 1) /\
  (is_running tp = false ->
     (failed_to_repeat tp = true <->
        MusicStream.is_running (m_stream tp) = false /\
        m_play_count tp > 1 /\ m_repeat tp = false)).
Proof.
  unfold failed_to_repeat, is_running.
  destruct (Z.gtb_spec (m_play_count tp) 1) as [Hgt | Hle].
  - split; [split; [lia | reflexivity]|].
    rewrite orb_true_r, andb_true_r.
    destruct (m_channels tp); cbn [negb orb]; [|discriminate].
    destruct (m_repeat tp); cbn [orb]; [discriminate|].
    intros ->. split; [intros _; repeat split; lia | reflexivity].
  - split; [split; [discriminate | lia]|].
    intros _. split; [discriminate | intros (_ & H & _); lia].
Qed.

Lemma failed_to_repeat_after_stop_witness :
  let tp := mk_track_player 2 false 0 (mk_stream MusicStreamFacts.sample_track 6 2646000 14400 0 0 0) [] in
  is_running tp = false /\
  (failed_to_repeat tp = true <->
     MusicStream.is_running (m_stream tp) = false /\
     m_play_count tp > 1 /\ m_repeat tp = false).
Proof.
  intros tp. split; [reflexivity|].
  exact (proj2 (failed_to_repeat_after_stop tp) eq_refl).
Defined.

(** A jump on a repeat-flagged track played twice uses up the repeat:
    afterwards [failed_to_repeat] is [false]. *)
Example jump_uses_repeat :
  match on_jump_to_marker playing_twice with
  | Ok tp => m_play_count tp = 1 /\ failed_to_repeat tp = false /\
             m_position (m_stream tp) = 0
  | Fatal _ => False
  end.
Proof. vm_compute. repeat split. Qed.

End TrackPlayerFacts.

(* ------------------------------------------------------------------------- *)
(** ** sample.h / channel.h / channel.cpp: a voice *)
(* ------------------------------------------------------------------------- *)

Module Channel.

Local Open Scope Q_scope.

Record stereo_t : Type := mk_stereo { left : mono_t; right : mono_t }.

(** [stereo_t(mono_t v)]. *)
Definition stereo_of (v : mono_t) : stereo_t := mk_stereo v v.

(** [friend stereo_t operator*(mono_t v, const stereo_t &s)]. *)
Definition scale (v : mono_t) (s : stereo_t) : stereo_t :=
  mk_stereo (left s * v) (right s * v).

Section WithSources.

(** The two chains a channel pulls from, the patch resampler and the
    envelope, are modules of their own: a state and a [next]. *)
Variables (R E : Type).
Variable resampler_next : R -> mono_t * bool * R.
Variable envelope_next : E -> mono_t * bool * E.

Record channel : Type := mk_channel {
  m_resampler : option R;     (* std::unique_ptr, nullptr once stopped *)
  m_envelope : E;
  m_pan : Z;                  (* uint8_t *)
  m_volume : stereo_t
}.

Definition master_volume (c : channel) (volume : mono_t) : channel :=
  mk_channel (m_resampler c) (m_envelope c) (m_pan c)
    (mk_stereo (volume * inject_Z (128 - m_pan c) / 128)
               (volume * inject_Z (m_pan c + 1) / 128)).

(** The constructor, given the two chains it has built. *)
Definition create (resampler : R) (envelope : E) (volume : mono_t) (pan : Z) : channel :=
  master_volume (mk_channel (Some resampler) envelope pan (stereo_of 0)) volume.

Definition is_running (c : channel) : bool :=
  match m_resampler c with Some _ => true | None => false end.

Definition next (c : channel) : stereo_t * bool * channel :=
  match m_resampler c with
  | None => (stereo_of 0, false, c)
  | Some r =>
      let '(waveform, resampler_live, r') := resampler_next r in
      let '(envelope, envelope_live, e') := envelope_next (m_envelope c) in
      (scale (waveform * envelope) (m_volume c), true,
       mk_channel (if negb resampler_live || negb envelope_live then None else Some r')
                  e' (m_pan c) (m_volume c))
  end.

(** The states a channel goes through. *)
Inductive reachable (resampler : R) (envelope : E) (volume : mono_t) (pan : Z)
  : channel -> Prop :=
| reach_create : reachable resampler envelope volume pan
                   (create resampler envelope volume pan)
| reach_next c : reachable resampler envelope volume pan c ->
                 reachable resampler envelope volume pan (snd (next c)).

End WithSources.

End Channel.

Module ChannelFacts.
Import Channel.

Local Open Scope Q_scope.

Section WithSources.

Variables (R E : Type).
Variable resampler_next : R -> mono_t * bool * R.
Variable envelope_next : E -> mono_t * bool * E.

Lemma reachable_volume resampler envelope volume pan c :
  reachable R E resampler_next envelope_next resampler envelope volume pan c ->
  m_pan R E c = pan /\
  m_volume R E c = mk_stereo (volume * inject_Z (128 - pan) / 128)
                             (volume * inject_Z (pan + 1) / 128).
Proof.
  induction 1 as [|c _ [IHp IHv]]; [split; reflexivity|].
  unfold next. destruct (m_resampler R E c) as [r|]; [|split; assumption].
  destruct (resampler_next r) as [[w rl] r'].
  destruct (envelope_next (m_envelope R E c)) as [[e el] e'].
  split; assumption.
Qed.

(** C7. Whatever state a channel with master volume [m] and pan [p] has
    reached, the sample it emits is the product of the waveform and the
    envelope sample, scaled on the left by [m * (128 - p) / 128] and on the
    right by [m * (p + 1) / 128]; the two gains add up to [m * 129 / 128]
    whatever the pan, which is the linear law, not the constant-power one. *)
Theorem linear_pan_law resampler envelope (m : mono_t) (p : Z) c r :
  reachable R E resampler_next envelope_next resampler envelope m p c ->
  m_resampler R E c = Some r ->
  let w := fst (fst (resampler_next r)) in
  let e := fst (fst (envelope_next (m_envelope R E c))) in
  let s := fst (fst (next R E resampler_next envelope_next c)) in
  left s == w * e * (m * inject_Z (128 - p) / 128) /\
  right s == w * e * (m * inject_Z (p + 1) / 128) /\
  snd (fst (next R E resampler_next envelope_next c)) = true /\
  m * inject_Z (128 - p) / 128 + m * inject_Z (p + 1) / 128 == m * (129 # 128).
Proof.
  intros Hreach Hr w e s.
  destruct (reachable_volume _ _ _ _ _ Hreach) as [_ Hv].
  unfold s, w, e, next. rewrite Hr.
  destruct (resampler_next r) as [[w' rl] r'].
  destruct (envelope_next (m_envelope R E c)) as [[e' el] e''].
  cbn [fst snd]. rewrite Hv. cbn [scale left right].
  split; [apply Qmult_comm|]. split; [apply Qmult_comm|]. split; [reflexivity|].
  unfold Qdiv. rewrite <- !Qmult_assoc, <- Qmult_plus_distr_r.
  apply Qmult_comp; [reflexivity|].
  rewrite <- Qmult_plus_distr_l, <- inject_Z_plus.
  replace (128 - p + (p + 1))%Z with 129%Z by lia. reflexivity.
Qed.

End WithSources.

(** A voice fed with constant sources: at centre pan 64 the gains are
    [1/2] and [65/128], whose squares do not add up to 1. *)
Lemma linear_pan_law_witness :
  let next_const (q : mono_t) := (q, true, q) in
  let c := create mono_t mono_t (1 # 2) (1 # 4) 1 64 in
  m_resampler mono_t mono_t c = Some (1 # 2) /\
  left (fst (fst (next mono_t mono_t next_const next_const c)))
    == (1 # 2) * (1 # 4) * (1 * inject_Z (128 - 64) / 128) /\
  ~ ((1 * inject_Z (128 - 64) / 128) * (1 * inject_Z (128 - 64) / 128)
     + (1 * inject_Z (64 + 1) / 128) * (1 * inject_Z (64 + 1) / 128) == 1).
Proof.
  intros next_const c.
  split; [reflexivity|]. split.
  - exact (proj1 (linear_pan_law mono_t mono_t next_const next_const
                    (1 # 2) (1 # 4) 1 64 c (1 # 2)
                    (reach_create _ _ _ _ _ _ _ _) eq_refl)).
  - intros H. vm_compute in H. discriminate H.
Defined.

End ChannelFacts.

(* ------------------------------------------------------------------------- *)
(** ** resampler.h / resampler.cpp: the Lanczos-windowed sinc resampler *)
(* ------------------------------------------------------------------------- *)

Module Sinc.
Import Reals.

Local Open Scope R_scope.

(** Samples and table entries are real numbers here: the table is made of
    values of [sin].  Indices of type [size_t] are natural numbers. *)

Definition PSXDMH_DENORM_LIMIT : R := / 1000000000.

Definition flush_denorm (s : R) : R :=
  if Rlt_dec (Rabs s) PSXDMH_DENORM_LIMIT then 0 else s.

(** One entry of the table: the windowed sinc at position [pos], measured
    in steps of [1 / rate_out] samples. *)
Definition table_value (window rate_out pos : Z) : R :=
  if (pos =? 0)%Z then 1
  else
    let scale := PI / IZR rate_out in
    let pi_x := scale * IZR pos in
    flush_denorm (IZR window * sin pi_x * sin (pi_x / IZR window) / (pi_x * pi_x)).

(** The inner loop of the constructor of [sinc_table]; a row takes
    [2 * window] entries of the table. *)
Fixpoint row_loop (fuel : nat) (window rate_out pos end_pos : Z) : list R :=
  match fuel with
  | O => []
  | S fuel' =>
      if (pos <? end_pos)%Z
      then table_value window rate_out pos
           :: row_loop fuel' window rate_out (to_int32 (pos + rate_out)) end_pos
      else []
  end.

Definition table_row (window rate_out offset : Z) : list R :=
  let base_pos := to_int32 (- to_int32 (to_uint32 ((window - 1) * rate_out))) in
  let pos := to_int32 (base_pos - offset) in
  let end_pos := to_int32 (pos + to_uint32 (rate_out * window * 2)) in
  row_loop (Z.to_nat (window * 2)) window rate_out pos end_pos.

(** [sinc_table::sinc_table]: the rows for the offsets 0 .. rate_out - 1,
    one after the other.  ([obtain] only caches this value.) *)
Definition sinc_table (window rate_out : Z) : list R :=
  flat_map (fun offset => table_row window rate_out (Z.of_nat offset))
           (seq 0 (Z.to_nat rate_out)).

Definition index_for_offset (window offset : Z) : nat :=
  Z.to_nat (to_uint32 (offset * window * 2)).

(** The source module, as in the silencer: the samples still to come. *)
Definition source_next (src : list R) : R * bool * list R :=
  match src with
  | [] => (0, false, [])
  | x :: rest => (x, true, rest)
  end.

Record resampler_sinc : Type := mk_resampler {
  m_source : list R;
  m_rate_in : Z;                   (* uint32_t *)
  m_rate_out : Z;                  (* uint32_t *)
  m_window : Z;                    (* int32_t *)
  m_circular_buffer : list R;
  m_buffer_head : nat;             (* size_t *)
  m_offset : Z;                    (* int32_t *)
  m_live_samples : Z;              (* int *)
  m_table : list R
}.

(** [v[i] = x] on a vector. *)
Fixpoint update (l : list R) (i : nat) (x : R) : list R :=
  match l, i with
  | [], _ => []
  | _ :: rest, O => x :: rest
  | y :: rest, S i' => y :: update rest i' x
  end.

(** The priming loop of the constructor, for the entries 1 .. size - 1. *)
Fixpoint prime (count : nat) (first : R) (rate_out pos : Z) (src : list R)
  : list R * list R :=
  match count with
  | O => ([], src)
  | S count' =>
      let '(v, src') :=
        if (pos <=? 0)%Z then (first, src)
        else let '(x, _, rest) := source_next src in (x, rest) in
      let '(buffer, src'') :=
        prime count' first rate_out (to_int32 (pos + rate_out)) src' in
      (v :: buffer, src'')
  end.

Definition create (source : list R) (window rate_in rate_out : Z) : resampler_sinc :=
  let '(first, _, src) := source_next source in
  let pos := to_int32 (- to_int32 rate_out * (to_int32 window - 1)) in
  let '(buffer, src') :=
    prime (Z.to_nat (to_uint32 (window * 2)) - 1) first rate_out pos src in
  mk_resampler src' rate_in rate_out (to_int32 window) (first :: buffer) 0 0
               (to_int32 (to_uint32 (window * 2))) (sinc_table window rate_out).

Definition is_running (r : resampler_sinc) : bool := (m_live_samples r >? 0)%Z.

(** The interpolation loop of [next]: [count] products, the buffer index
    wrapping round at the end of the buffer. *)
Fixpoint accumulate (count : nat) (buffer table : list R)
         (buffer_index table_index : nat) (s : R) : R :=
  match count with
  | O => s
  | S count' =>
      let s := s + nth buffer_index buffer 0 * nth table_index table 0 in
      let buffer_index :=
        if (length buffer <=? S buffer_index)%nat then O else S buffer_index in
      accumulate count' buffer table buffer_index (S table_index) s
  end.

Definition interpolate (r : resampler_sinc) : R :=
  flush_denorm
    (accumulate (Z.to_nat (m_window r * 2)) (m_circular_buffer r) (m_table r)
                (m_buffer_head r) (index_for_offset (m_window r) (m_offset r)) 0).

(** The [while] loop that advances the filter: one source sample for every
    whole step of [limit] in [m_offset]. *)
Fixpoint advance (fuel : nat) (limit : Z) (r : resampler_sinc) : resampler_sinc :=
  match fuel with
  | O => r
  | S fuel' =>
      if (m_offset r >=? limit)%Z then
        let '(x, live, src) := source_next (m_source r) in
        let head := m_buffer_head r in
        let previous :=
          if (0 <? head)%nat then (head - 1)%nat
          else (length (m_circular_buffer r) - 1)%nat in
        let buffer :=
          if live then update (m_circular_buffer r) head x
          else update (m_circular_buffer r) head (nth previous (m_circular_buffer r) 0) in
        let live_samples :=
          if live then m_live_samples r else (m_live_samples r - 1)%Z in
        let head' := if (length buffer <=? S head)%nat then O else S head in
        advance fuel' limit
          (mk_resampler src (m_rate_in r) (m_rate_out r) (m_window r) buffer head'
                        (to_int32 (m_offset r - limit)) live_samples (m_table r))
      else r
  end.

Definition next (r : resampler_sinc) : R * bool * resampler_sinc :=
  if (m_live_samples r <=? 0)%Z then (0, false, r)
  else
    let s := interpolate r in
    let offset := to_int32 (m_offset r + m_rate_in r) in
    let limit := to_int32 (m_rate_out r) in
    let r' := mk_resampler (m_source r) (m_rate_in r) (m_rate_out r) (m_window r)
                (m_circular_buffer r) (m_buffer_head r) offset
                (m_live_samples r) (m_table r) in
    (s, true, advance (S (Z.to_nat (offset / limit))) limit r').

(** The results of [n] successive calls of [next]. *)
Fixpoint pull (n : nat) (r : resampler_sinc) : list (R * bool) :=
  match n with
  | O => []
  | S n' => let '(s, live, r') := next r in (s, live) :: pull n' r'
  end.

End Sinc.

(* ------------------------------------------------------------------------- *)
(** ** Properties of the sinc resampler *)
(* ------------------------------------------------------------------------- *)

Module SincFacts.
Import Reals Lra Sinc.

Local Open Scope R_scope.

Lemma flush_denorm_0 : flush_denorm 0 = 0.
Proof. unfold flush_denorm. destruct (Rlt_dec (Rabs 0) PSXDMH_DENORM_LIMIT); reflexivity. Qed.

Lemma flush_denorm_large x : 1 <= Rabs x -> flush_denorm x = x.
Proof.
  intros H. unfold flush_denorm, PSXDMH_DENORM_LIMIT.
  destruct (Rlt_dec (Rabs x) (/ 1000000000)) as [Hlt | _]; [|reflexivity].
  assert (/ 1000000000 < 1) by lra. lra.
Qed.

Lemma nth_map_seq (f : nat -> R) (n k : nat) (d : R) :
  (k < n)%nat -> nth k (map f (seq 0 n)) d = f k.
Proof.
  intros Hk. rewrite (nth_indep _ d (f O)) by (rewrite length_map, length_seq; exact Hk).
  rewrite (map_nth f), seq_nth by exact Hk. reflexivity.
Qed.

(** *** The table row for offset 0 *)

Section Table.

Variables window rate : Z.
Hypothesis window_pos : (1 <= window)%Z.
Hypothesis rate_pos : (1 <= rate)%Z.
Hypothesis table_fits : (window * rate * 2 < 2 ^ 31)%Z.

(** At a whole number of samples the kernel is 1 (at 0) or 0. *)
Lemma table_value_whole (m : Z) :
  table_value window rate (m * rate) = if (m =? 0)%Z then 1 else 0.
Proof.
  unfold table_value.
  destruct (Z.eqb_spec m 0) as [-> | Hm].
  - reflexivity.
  - destruct (Z.eqb_spec (m * rate) 0) as [H0 | _]; [nia|].
    assert (Hrate : IZR rate <> 0) by (apply not_0_IZR; lia).
    assert (Hx : PI / IZR rate * IZR (m * rate) = IZR m * PI)
      by (rewrite mult_IZR; field; exact Hrate).
    cbv zeta. rewrite Hx.
    rewrite (sin_eq_0_1 (IZR m * PI)) by (exists m; reflexivity).
    replace (IZR window * 0 * sin (IZR m * PI / IZR window) / (IZR m * PI * (IZR m * PI)))
      with 0 by (unfold Rdiv; ring).
    apply flush_denorm_0.
Qed.

Lemma row_loop_whole fuel : forall j : nat,
  (j + fuel <= Z.to_nat (window * 2))%nat ->
  row_loop fuel window rate ((Z.of_nat j - (window - 1)) * rate) ((window + 1) * rate)
  = map (fun k => if (Z.of_nat k =? window - 1)%Z then 1 else 0) (seq j fuel).
Proof.
  induction fuel as [|fuel IH]; intros j Hj; [reflexivity|].
  cbn [row_loop seq map].
  destruct (Z.ltb_spec ((Z.of_nat j - (window - 1)) * rate) ((window + 1) * rate)); [|nia].
  rewrite table_value_whole. f_equal.
  - destruct (Z.eqb_spec (Z.of_nat j - (window - 1)) 0), (Z.eqb_spec (Z.of_nat j) (window - 1));
      try lia; reflexivity.
  - unfold to_int32. rewrite wrap_signed_id by nia.
    replace ((Z.of_nat j - (window - 1)) * rate + rate)%Z
      with ((Z.of_nat (S j) - (window - 1)) * rate)%Z by lia.
    apply IH. lia.
Qed.

Definition unit_row : list R :=
  map (fun k => if (Z.of_nat k =? window - 1)%Z then 1 else 0)
      (seq 0 (Z.to_nat (window * 2))).

Lemma table_row_0 : table_row window rate 0 = unit_row.
Proof.
  unfold table_row, unit_row, to_int32, to_uint32.
  rewrite (wrap_unsigned_id 32 ((window - 1) * rate)) by nia.
  rewrite (wrap_signed_id 32 ((window - 1) * rate)) by nia.
  rewrite (wrap_signed_id 32 (- ((window - 1) * rate))) by nia.
  rewrite Z.sub_0_r.
  rewrite (wrap_signed_id 32 (- ((window - 1) * rate))) by nia.
  rewrite (wrap_unsigned_id 32 (rate * window * 2)) by nia.
  rewrite wrap_signed_id by nia.
  replace (- ((window - 1) * rate))%Z with ((Z.of_nat 0 - (window - 1)) * rate)%Z by lia.
  replace ((Z.of_nat 0 - (window - 1)) * rate + rate * window * 2)%Z
    with ((window + 1) * rate)%Z by lia.
  apply row_loop_whole. lia.
Qed.

Lemma unit_row_length : length unit_row = Z.to_nat (window * 2).
Proof. unfold unit_row. rewrite length_map, length_seq. reflexivity. Qed.

Lemma unit_row_nth k :
  (k < Z.to_nat (window * 2))%nat ->
  nth k unit_row 0 = if (Z.of_nat k =? window - 1)%Z then 1 else 0.
Proof.
  intros Hk. unfold unit_row. rewrite nth_map_seq by exact Hk. reflexivity.
Qed.

(** The first [2 * window] entries of the table are the row of offset 0. *)
Lemma sinc_table_nth k :
  (k < Z.to_nat (window * 2))%nat ->
  nth k (sinc_table window rate) 0 = if (Z.of_nat k =? window - 1)%Z then 1 else 0.
Proof.
  intros Hk. unfold sinc_table.
  replace (Z.to_nat rate) with (S (Z.to_nat rate - 1)) by lia.
  cbn [seq flat_map]. change (Z.of_nat 0) with 0%Z.
  rewrite table_row_0, app_nth1 by (rewrite unit_row_length; exact Hk).
  apply unit_row_nth, Hk.
Qed.

End Table.

(** *** The circular buffer *)

(** The [i]-th position after [h] in a circular buffer of [size] entries. *)
Definition idx (size h i : nat) : nat := ((h + i) mod size)%nat.

(** [if (++index >= size) index = 0]. *)
Definition bump (size h : nat) : nat := if (size <=? S h)%nat then O else S h.

Lemma idx_lt size h i : (0 < size)%nat -> (idx size h i < size)%nat.
Proof. intros H. apply Nat.mod_upper_bound. lia. Qed.

Lemma idx_0 size h : (h < size)%nat -> idx size h 0 = h.
Proof. intros H. unfold idx. rewrite Nat.add_0_r. apply Nat.mod_small, H. Qed.

Lemma idx_full size h : (h < size)%nat -> idx size h size = h.
Proof.
  intros H. unfold idx. symmetry.
  apply (Nat.mod_unique (h + size) size 1 h); lia.
Qed.

Lemma idx_idx size h a b : idx size (idx size h a) b = idx size h (a + b).
Proof.
  unfold idx. rewrite Nat.Div0.add_mod_idemp_l. f_equal. lia.
Qed.

Lemma bump_idx size h : (h < size)%nat -> bump size h = idx size h 1.
Proof.
  intros H. unfold bump, idx.
  destruct (Nat.leb_spec size (S h)).
  - apply (Nat.mod_unique (h + 1) size 1 0); lia.
  - symmetry. rewrite Nat.mod_small; lia.
Qed.

Lemma previous_idx size h :
  (h < size)%nat ->
  (if (0 <? h)%nat then (h - 1)%nat else (size - 1)%nat) = idx size h (size - 1).
Proof.
  intros H. unfold idx. destruct (Nat.ltb_spec 0 h).
  - apply (Nat.mod_unique (h + (size - 1)) size 1 (h - 1)); lia.
  - assert (h = O) by lia. subst h. cbn [Nat.add]. symmetry. apply Nat.mod_small. lia.
Qed.

Lemma idx_neq size h a : (h < size)%nat -> (0 < a < size)%nat -> idx size h a <> h.
Proof.
  intros Hh Ha. unfold idx.
  destruct (Nat.lt_ge_cases (h + a) size) as [Hlt | Hge].
  - rewrite Nat.mod_small by exact Hlt. lia.
  - rewrite <- (Nat.mod_unique (h + a) size 1 (h + a - size)); lia.
Qed.

Lemma update_length l i x : length (update l i x) = length l.
Proof.
  revert i. induction l as [|y l IH]; intros [|i]; cbn [update length]; auto.
Qed.

Lemma update_nth_eq l i x : (i < length l)%nat -> nth i (update l i x) 0 = x.
Proof.
  revert i. induction l as [|y l IH]; intros [|i] H; cbn [update nth length] in *;
    try lia; [reflexivity | apply IH; lia].
Qed.

Lemma update_nth_neq l i k x : i <> k -> nth k (update l i x) 0 = nth k l 0.
Proof.
  revert i k. induction l as [|y l IH]; intros [|i] [|k] H; cbn [update nth];
    try reflexivity; try lia. apply IH. lia.
Qed.

(** *** The interpolation loop *)

Lemma accumulate_zeros count : forall buffer table bi ti s,
  (forall k, (k < count)%nat -> nth (ti + k) table 0 = 0) ->
  accumulate count buffer table bi ti s = s.
Proof.
  induction count as [|count IH]; intros buffer table bi ti s Hz; [reflexivity|].
  cbn [accumulate]. rewrite IH.
  - rewrite <- (Nat.add_0_r ti), Hz by lia. ring.
  - intros k Hk. replace (S ti + k)%nat with (ti + S k)%nat by lia. apply Hz. lia.
Qed.

Lemma accumulate_split a : forall b buffer table bi ti s,
  (bi < length buffer)%nat ->
  accumulate (a + b) buffer table bi ti s
  = accumulate b buffer table (idx (length buffer) bi a) (ti + a)
               (accumulate a buffer table bi ti s).
Proof.
  induction a as [|a IH]; intros b buffer table bi ti s Hbi.
  - cbn [Nat.add accumulate]. rewrite idx_0, Nat.add_0_r by exact Hbi. reflexivity.
  - cbn [Nat.add accumulate]. fold (bump (length buffer) bi).
    rewrite bump_idx by exact Hbi.
    rewrite IH by (apply idx_lt; lia).
    rewrite idx_idx. f_equal. lia.
Qed.

(** With the row of offset 0 the sum picks one entry of the buffer. *)
Lemma accumulate_unit buffer table head (w : nat) :
  (1 <= w)%nat -> length buffer = (w * 2)%nat -> (head < w * 2)%nat ->
  (forall k, (k < w * 2)%nat -> nth k table 0 = if (k =? w - 1)%nat then 1 else 0) ->
  accumulate (w * 2) buffer table head 0 0
  = nth (idx (w * 2) head (w - 1)) buffer 0.
Proof.
  intros Hw Hlen Hhead Htable.
  replace (w * 2)%nat with ((w - 1) + (1 + w))%nat at 1 by lia.
  rewrite accumulate_split by lia.
  rewrite (accumulate_zeros (w - 1)).
  2: { intros k Hk. cbn [Nat.add]. rewrite Htable by lia.
       destruct (Nat.eqb_spec k (w - 1)); [lia | reflexivity]. }
  rewrite accumulate_split by (apply idx_lt; lia).
  cbn [accumulate]. rewrite accumulate_zeros.
  2: { intros k Hk. rewrite Htable by lia.
       destruct (Nat.eqb_spec (0 + (w - 1) + 1 + k) (w - 1)); [lia | reflexivity]. }
  rewrite Htable by lia. cbn [Nat.add]. rewrite Nat.eqb_refl, Hlen. ring.
Qed.

Section Picks.

Variables window rate : Z.
Hypothesis window_pos : (1 <= window)%Z.
Hypothesis rate_pos : (1 <= rate)%Z.
Hypothesis table_fits : (window * rate * 2 < 2 ^ 31)%Z.

Let w : nat := Z.to_nat window.

Lemma table_entries k :
  (k < w * 2)%nat ->
  nth k (sinc_table window rate) 0 = if (k =? w - 1)%nat then 1 else 0.
Proof.
  intros Hk.
  rewrite (sinc_table_nth window rate window_pos rate_pos table_fits)
    by (unfold w in Hk; lia).
  destruct (Z.eqb_spec (Z.of_nat k) (window - 1)), (Nat.eqb_spec k (w - 1));
    try reflexivity; unfold w in *; lia.
Qed.

(** Each output is one entry of the buffer: the one [window - 1] places
    after the head. *)
Lemma interpolate_picks r :
  m_window r = window -> m_offset r = 0%Z -> m_table r = sinc_table window rate ->
  length (m_circular_buffer r) = (w * 2)%nat -> (m_buffer_head r < w * 2)%nat ->
  interpolate r
  = flush_denorm (nth (idx (w * 2) (m_buffer_head r) (w - 1)) (m_circular_buffer r) 0).
Proof.
  intros Hwin Hoff Htab Hlen Hhead. unfold interpolate, index_for_offset.
  rewrite Hwin, Hoff, Htab. cbn [Z.mul]. change (to_uint32 0) with 0%Z.
  change (Z.to_nat 0) with O.
  replace (Z.to_nat (window * 2)) with (w * 2)%nat by (unfold w; lia).
  rewrite accumulate_unit; [reflexivity | unfold w; lia | exact Hlen | exact Hhead |].
  exact table_entries.
Qed.

End Picks.

Lemma skipn_nth (l : list R) (p : nat) :
  (p < length l)%nat -> skipn p l = nth p l 0 :: skipn (S p) l.
Proof.
  revert p. induction l as [|x l IH]; intros p Hp; [cbn in Hp; lia|].
  destruct p as [|p]; [reflexivity|].
  cbn [skipn nth]. apply IH. cbn in Hp. lia.
Qed.

Lemma nth_firstn_lt (l : list R) (i k : nat) :
  (i < k)%nat -> nth i (firstn k l) 0 = nth i l 0.
Proof.
  revert i k. induction l as [|x l IH]; intros i k H.
  - rewrite firstn_nil. reflexivity.
  - destruct k as [|k]; [lia|]. destruct i as [|i]; [reflexivity|].
    cbn [firstn nth]. apply IH. lia.
Qed.

Lemma source_next_live (l : list R) :
  (0 < length l)%nat -> source_next l = (nth 0 l 0, true, tl l).
Proof. destruct l; [cbn; lia | reflexivity]. Qed.

Lemma skipn_tl (l : list R) k : skipn k (tl l) = skipn (S k) l.
Proof. destruct l; [rewrite !skipn_nil; reflexivity | reflexivity]. Qed.

Lemma nth_tl (l : list R) i : nth i (tl l) 0 = nth (S i) l 0.
Proof. destruct l; [destruct i; reflexivity | reflexivity]. Qed.

Lemma length_tl (l : list R) : length (tl l) = (length l - 1)%nat.
Proof. destruct l; cbn; lia. Qed.

(** *** The advancing loop *)

(** The bound on the iterations of [advance] that [next] uses is enough: the
    loop has run to its end, with [m_offset] back below the limit. *)
Lemma advance_done limit : (0 < limit < 2 ^ 31)%Z ->
  forall fuel r,
  (0 <= m_offset r < 2 ^ 31)%Z -> (m_offset r / limit < Z.of_nat fuel)%Z ->
  (0 <= m_offset (advance fuel limit r) < limit)%Z.
Proof.
  intros Hl. induction fuel as [|fuel IH]; intros r Ho Hf.
  - pose proof (Z.div_pos (m_offset r) limit ltac:(lia) ltac:(lia)). lia.
  - cbn [advance]. destruct (Z.geb_spec (m_offset r) limit) as [Hge | Hlt].
    + destruct (source_next (m_source r)) as [[x live] src].
      apply IH; cbn [m_offset]; unfold to_int32;
        rewrite wrap_signed_id by lia; [lia|].
      replace (m_offset r) with ((m_offset r - limit) + 1 * limit)%Z in Hf by lia.
      rewrite Z.div_add in Hf by lia. lia.
    + lia.
Qed.

(** *** Equal rates: the run of the resampler *)

Section EqualRates.

Variables window rate : Z.
Hypothesis window_pos : (1 <= window)%Z.
Hypothesis rate_pos : (1 <= rate)%Z.
Hypothesis table_fits : (window * rate * 2 < 2 ^ 31)%Z.

Variable xs : list R.

Let w : nat := Z.to_nat window.
Let n : nat := length xs.

(** The samples in the order in which they pass through the buffer.  The
    first one fills the entries 0 .. window.  A source of at least [window]
    samples is followed by repeats of its last sample; a shorter one has
    stopped during priming, which stored the 0 of its failed calls. *)
Definition passing (i : nat) : R :=
  nth (if (n <? w)%nat then (i - w)%nat else Nat.min (i - w) (n - 1)) xs 0.

Lemma source_next_eq (l : list R) :
  fst (fst (source_next l)) = nth 0 l 0 /\ snd (source_next l) = tl l.
Proof. destruct l; split; reflexivity. Qed.

Lemma map_nth_tl (l : list R) count :
  map (fun i => nth i l 0) (seq 0 (S count))
  = nth 0 l 0 :: map (fun i => nth i (tl l) 0) (seq 0 count).
Proof.
  cbn [seq map]. f_equal. rewrite <- seq_shift, map_map.
  apply map_ext. intros i. symmetry. apply nth_tl.
Qed.

Lemma prime_spec first count : forall (k : nat) src,
  (k + count <= w * 2)%nat ->
  prime count first rate ((Z.of_nat k - (window - 1)) * rate) src
  = (repeat first (Nat.min count (w - k))
       ++ map (fun i => nth i src 0) (seq 0 (count - (w - k))),
     skipn (count - (w - k)) src).
Proof.
  induction count as [|count IH]; intros k src Hk; [reflexivity|].
  cbn [prime]. unfold to_int32. rewrite wrap_signed_id by (subst w; nia).
  replace ((Z.of_nat k - (window - 1)) * rate + rate)%Z
    with ((Z.of_nat (S k) - (window - 1)) * rate)%Z by lia.
  destruct (Z.leb_spec ((Z.of_nat k - (window - 1)) * rate) 0) as [Hle | Hgt].
  - assert (Hkw : (k < w)%nat) by (subst w; nia).
    rewrite IH by lia.
    replace (Nat.min (S count) (w - k)) with (S (Nat.min count (w - S k))) by lia.
    replace (S count - (w - k))%nat with (count - (w - S k))%nat by lia.
    reflexivity.
  - assert (Hkw : (w <= k)%nat) by (subst w; nia).
    replace (w - k)%nat with O in * by lia.
    rewrite Nat.sub_0_r in *. rewrite Nat.min_0_r.
    destruct (source_next_eq src) as [Hx Hrest].
    destruct (source_next src) as [[x live] rest]. cbn [fst snd] in Hx, Hrest.
    subst x rest. rewrite IH by lia.
    replace (w - S k)%nat with O by lia.
    rewrite Nat.sub_0_r, Nat.min_0_r, map_nth_tl, skipn_tl. reflexivity.
Qed.

(** The state after [j] calls of [next]. *)
Record inv (j : nat) (r : resampler_sinc) : Prop := mk_inv {
  inv_window : m_window r = window;
  inv_rate_in : m_rate_in r = rate;
  inv_rate_out : m_rate_out r = rate;
  inv_offset : m_offset r = 0%Z;
  inv_table : m_table r = sinc_table window rate;
  inv_length : length (m_circular_buffer r) = (w * 2)%nat;
  inv_head : (m_buffer_head r < w * 2)%nat;
  inv_buffer : forall i, (i < w * 2)%nat ->
      nth (idx (w * 2) (m_buffer_head r) i) (m_circular_buffer r) 0 = passing (j + i);
  inv_source : m_source r = skipn (w + j) xs;
  inv_live : m_live_samples r = (window * 2 - Z.of_nat (j - (n - w)))%Z
}.

Lemma create_primed : inv 0 (create xs window rate rate).
Proof.
  assert (Hw : (1 <= w)%nat) by (subst w; lia).
  unfold create.
  destruct (source_next_eq xs) as [Hx Hrest].
  destruct (source_next xs) as [[first live] src]. cbn [fst snd] in Hx, Hrest.
  subst first src.
  unfold to_int32, to_uint32.
  rewrite (wrap_unsigned_id 32 (window * 2)) by nia.
  rewrite (wrap_signed_id 32 rate), (wrap_signed_id 32 window) by nia.
  rewrite (wrap_signed_id 32 (- rate * (window - 1))) by nia.
  rewrite (wrap_signed_id 32 (window * 2)) by nia.
  replace (- rate * (window - 1))%Z with ((Z.of_nat 0 - (window - 1)) * rate)%Z by lia.
  replace (Z.to_nat (window * 2) - 1)%nat with (w * 2 - 1)%nat by (subst w; lia).
  rewrite prime_spec by lia.
  replace (w * 2 - 1 - (w - 0))%nat with (w - 1)%nat by lia.
  replace (Nat.min (w * 2 - 1) (w - 0)) with w by lia.
  constructor; cbn [m_window m_rate_in m_rate_out m_offset m_table m_circular_buffer
                    m_buffer_head m_source m_live_samples]; try reflexivity.
  - cbn [length]. rewrite length_app, repeat_length, length_map, length_seq. lia.
  - lia.
  - intros i Hi. unfold idx. cbn [Nat.add]. rewrite Nat.mod_small by exact Hi.
    unfold passing. rewrite app_comm_cons.
    change (nth 0 xs 0 :: repeat (nth 0 xs 0) w) with (repeat (nth 0 xs 0) (S w)).
    destruct (Nat.le_gt_cases i w) as [Hle | Hgt].
    + rewrite app_nth1 by (rewrite repeat_length; lia).
      rewrite nth_repeat_lt by lia.
      replace (i - w)%nat with O by lia.
      destruct (n <? w)%nat; reflexivity.
    + rewrite app_nth2 by (rewrite repeat_length; lia).
      rewrite repeat_length, nth_map_seq, nth_tl by lia.
      destruct (Nat.ltb_spec n w); f_equal; lia.
  - rewrite skipn_tl. f_equal. lia.
  - replace (0 - (n - w))%nat with O by lia. cbn [Z.of_nat]. lia.
Qed.

(** One call of [next] while samples are alive. *)
Lemma next_shifts j r :
  inv j r -> (j < Nat.max n w + w)%nat ->
  exists r', next r = (flush_denorm (passing (j + (w - 1))), true, r') /\ inv (S j) r'.
Proof.
  intros [Hwin Hin Hout Hoff Htab Hlen Hhead Hbuf Hsrc Hlive] Hj.
  assert (Hw : (1 <= w)%nat) by (unfold w; lia).
  assert (Hw2 : (window * 2)%Z = Z.of_nat (w * 2)) by (unfold w; lia).
  unfold next. rewrite Hlive.
  destruct (Z.leb_spec (window * 2 - Z.of_nat (j - (n - w))) 0) as [Hdead | Halive]; [lia|].
  rewrite (interpolate_picks window rate window_pos rate_pos table_fits
             r Hwin Hoff Htab Hlen Hhead).
  fold w. rewrite Hbuf by lia.
  rewrite Hoff, Hin, Hout. unfold to_int32.
  rewrite Z.add_0_l, (wrap_signed_id 32 rate) by nia.
  rewrite Z.div_same by lia. change (Z.to_nat 1) with 1%nat.
  eexists. split; [reflexivity|].
  cbn [advance m_offset m_source m_circular_buffer m_buffer_head m_live_samples
       m_rate_in m_rate_out m_window m_table].
  destruct (Z.geb_spec rate rate) as [_ | Hne]; [|lia].
  rewrite Hsrc.
  rewrite previous_idx by (rewrite Hlen; exact Hhead).
  rewrite Hlen.
  assert (Hnext : forall v,
            length (update (m_circular_buffer r) (m_buffer_head r) v) = (w * 2)%nat)
    by (intros v; rewrite update_length; exact Hlen).
  (* the buffer after the write of [passing (j + w * 2)] at the head *)
  assert (Hshift : forall v, v = passing (j + w * 2) ->
            forall i, (i < w * 2)%nat ->
            nth (idx (w * 2) (idx (w * 2) (m_buffer_head r) 1) i)
                (update (m_circular_buffer r) (m_buffer_head r) v) 0
            = passing (S j + i)).
  { intros v Hv i Hi. rewrite idx_idx.
    destruct (Nat.eq_dec i (w * 2 - 1)) as [-> | Hlast].
    - replace (1 + (w * 2 - 1))%nat with (w * 2)%nat by lia.
      rewrite idx_full by exact Hhead.
      rewrite update_nth_eq by (rewrite Hlen; exact Hhead).
      rewrite Hv. f_equal. lia.
    - rewrite update_nth_neq by (apply not_eq_sym, idx_neq; [exact Hhead | lia]).
      rewrite Hbuf by lia. f_equal. lia. }
  destruct (Nat.lt_ge_cases (w + j) n) as [Hmore | Hdone].
  - (* the source still delivers *)
    rewrite skipn_nth by (fold n; exact Hmore). cbn [source_next].
    rewrite Z.sub_diag. change (to_int32 0) with 0%Z.
    destruct (Z.geb_spec 0 rate); [lia|].
    constructor; cbn [m_window m_rate_in m_rate_out m_offset m_table m_circular_buffer
                      m_buffer_head m_source m_live_samples]; try assumption; try reflexivity.
    + apply Hnext.
    + rewrite Hnext. fold (bump (w * 2) (m_buffer_head r)).
      rewrite bump_idx by exact Hhead. apply idx_lt. lia.
    + rewrite Hnext. fold (bump (w * 2) (m_buffer_head r)).
      rewrite bump_idx by exact Hhead. apply Hshift.
      unfold passing. destruct (Nat.ltb_spec n w); f_equal; lia.
    + f_equal. lia.
    + f_equal. f_equal. lia.
  - (* the source has stopped: the previous entry is repeated *)
    rewrite skipn_all2 by (fold n; lia). cbn [source_next].
    rewrite Z.sub_diag. change (to_int32 0) with 0%Z.
    destruct (Z.geb_spec 0 rate); [lia|].
    constructor; cbn [m_window m_rate_in m_rate_out m_offset m_table m_circular_buffer
                      m_buffer_head m_source m_live_samples]; try assumption; try reflexivity.
    + apply Hnext.
    + rewrite Hnext. fold (bump (w * 2) (m_buffer_head r)).
      rewrite bump_idx by exact Hhead. apply idx_lt. lia.
    + rewrite Hnext. fold (bump (w * 2) (m_buffer_head r)).
      rewrite bump_idx by exact Hhead. apply Hshift.
      rewrite Hbuf by lia. unfold passing.
      destruct (Nat.ltb_spec n w).
      * rewrite !nth_overflow by (fold n; lia). reflexivity.
      * f_equal. lia.
    + rewrite skipn_all2 by (fold n; lia). reflexivity.
    + lia.
Qed.

Lemma pull_dead k : forall r,
  (m_live_samples r <= 0)%Z -> pull k r = repeat (0, false) k.
Proof.
  induction k as [|k IH]; intros r Hr; [reflexivity|].
  cbn [pull repeat]. unfold next.
  destruct (Z.leb_spec (m_live_samples r) 0); [|lia].
  rewrite IH by exact Hr. reflexivity.
Qed.

(** The [i]-th output: the sample one place back in the source. *)
Definition output (i : nat) : R * bool :=
  (flush_denorm
     (nth (if (n <? w)%nat then (i - 1)%nat else Nat.min (i - 1) (n - 1)) xs 0), true).

Lemma passing_output i : (flush_denorm (passing (i + (w - 1))), true) = output i.
Proof.
  unfold output, passing.
  assert (1 <= w)%nat by (unfold w; lia).
  destruct (n <? w)%nat; do 3 f_equal; lia.
Qed.

Lemma pull_alive m : forall j r,
  inv j r -> (j + m <= Nat.max n w + w)%nat -> pull m r = map output (seq j m).
Proof.
  induction m as [|m IH]; intros j r Hinv Hm; [reflexivity|].
  destruct (next_shifts j r Hinv ltac:(lia)) as (r' & Hnext & Hinv').
  cbn [pull seq map]. rewrite Hnext, passing_output.
  f_equal. apply IH; [exact Hinv' | lia].
Qed.

Lemma pull_all m : forall j r extra,
  inv j r -> (j + m = Nat.max n w + w)%nat ->
  pull (m + extra) r = map output (seq j m) ++ repeat (0, false) extra.
Proof.
  induction m as [|m IH]; intros j r extra Hinv Hm.
  - cbn [Nat.add seq map app]. apply pull_dead.
    rewrite (inv_live j r Hinv). assert (Z.of_nat w = window) by (unfold w; lia). lia.
  - destruct (next_shifts j r Hinv ltac:(lia)) as (r' & Hnext & Hinv').
    cbn [Nat.add pull seq map app]. rewrite Hnext, passing_output.
    f_equal. apply IH; [exact Hinv' | lia].
Qed.

(** The whole run: the first source sample twice, the others once each in
    order, every one of them through [flush_denorm]; then the last one
    [window - 1] times more if the source had [window] samples or more, and
    zeros up to [2 * window] outputs if it had fewer; then the resampler has
    stopped. *)
Lemma run_outputs extra :
  pull (Nat.max n w + w + extra) (create xs window rate rate)
  = map output (seq 0 (Nat.max n w + w)) ++ repeat (0, false) extra.
Proof. apply pull_all; [exact create_primed | reflexivity]. Qed.

Lemma run_prefix m :
  (m <= Nat.max n w + w)%nat -> pull m (create xs window rate rate) = map output (seq 0 m).
Proof. intros Hm. apply pull_alive; [exact create_primed | lia]. Qed.

End EqualRates.

(** A source shorter than the window: zeros follow its only sample. *)
Example short_source_run :
  pull 5 (create [1] 2 1 1) = [(1, true); (1, true); (0, true); (0, true); (0, false)].
Proof.
  refine (eq_trans (run_outputs 2 1 _ _ _ [1] 1) _); try lia.
  unfold output. change (Z.to_nat 2) with 2%nat.
  cbn [seq map length Nat.sub Nat.min Nat.max Nat.add nth repeat app Nat.ltb Nat.leb].
  rewrite flush_denorm_0.
  rewrite !flush_denorm_large by (rewrite Rabs_right; lra).
  reflexivity.
Qed.

(** The claim in its own words: the input behind [d] repeats of its first
    sample. *)
Definition delayed_by (d : nat) (xs : list R) : list R := repeat (nth 0 xs 0) d ++ xs.

(** C6 at window 3 with equal rates, source 1, 2, 3, 4, 5.  The resampler
    delivers the first sample twice and then the others: a delay of one
    sample.  The claim's delay of [window - 1 = 2] would give 1, 1, 1, 2, 3,
    and the constructor's comment ("no delay on start-up") promises
    1, 2, 3, 4, 5.  The priming loop starts [pos] at the value that belongs
    to index 0 but tests it first at index 1, so the entries 0 to [window]
    of the buffer hold the first sample, one more than the tap at
    [window - 1] passes over before the second output. *)
Theorem delay_is_not_window_minus_1 :
  map fst (pull 5 (create [1; 2; 3; 4; 5] 3 1 1)) = [1; 1; 2; 3; 4] /\
  firstn 5 (delayed_by (3 - 1) [1; 2; 3; 4; 5]) = [1; 1; 1; 2; 3] /\
  firstn 5 (delayed_by 0 [1; 2; 3; 4; 5]) = [1; 2; 3; 4; 5].
Proof.
  split; [|split; reflexivity].
  rewrite (run_prefix 3 1) by first [lia | vm_compute; lia].
  unfold output. change (Z.to_nat 3) with 3%nat.
  cbn [seq map fst length Nat.sub Nat.min nth Nat.ltb Nat.leb].
  rewrite !flush_denorm_large by (rewrite Rabs_right; lra).
  reflexivity.
Qed.

(** The run of the code with equal rates, for every window and source.
    The row of offset 0 of the table is 1 at index [window - 1] and 0 at the
    other [2 * window - 1] indices, so every output is [flush_denorm] of one
    buffered sample.  The outputs are the first source sample, then all
    source samples in order; after them the last sample [window - 1] times
    more if the source had [window] samples or more, and zeros up to
    [2 * window] outputs if it had fewer; then the resampler stops.  The
    repeated first sample is the start-up delay that the comment of the
    constructor rules out. *)
Theorem equal_rates_delay_one window rate (xs : list R) (extra : nat) :
  (1 <= window)%Z -> (1 <= rate)%Z -> (window * rate * 2 < 2 ^ 31)%Z ->
  let w := Z.to_nat window in
  let n := length xs in
  table_row window rate 0
    = map (fun k => if (Z.of_nat k =? window - 1)%Z then 1 else 0) (seq 0 (w * 2)) /\
  (forall r, m_window r = window -> m_offset r = 0%Z ->
             m_table r = sinc_table window rate ->
             length (m_circular_buffer r) = (w * 2)%nat ->
             (m_buffer_head r < w * 2)%nat ->
             interpolate r
             = flush_denorm (nth ((m_buffer_head r + (w - 1)) mod (w * 2))
                                 (m_circular_buffer r) 0)) /\
  pull (Nat.max n w + w + extra) (create xs window rate rate)
  = map (fun i =>
           (flush_denorm
              (nth (if (n <? w)%nat then (i - 1)%nat else Nat.min (i - 1) (n - 1)) xs 0),
            true))
        (seq 0 (Nat.max n w + w))
    ++ repeat (0, false) extra.
Proof.
  intros Hw Hr Hfit w n. split; [|split].
  - rewrite (table_row_0 window rate Hw Hr Hfit). unfold unit_row.
    replace (Z.to_nat (window * 2)) with (w * 2)%nat by (unfold w; lia). reflexivity.
  - intros r. apply (interpolate_picks window rate Hw Hr Hfit).
  - apply (run_outputs window rate Hw Hr Hfit xs).
Qed.

Lemma equal_rates_delay_one_witness :
  (1 <= 2)%Z /\ (1 <= 1)%Z /\ (2 * 1 * 2 < 2 ^ 31)%Z /\
  pull (3 + 2 + 1) (create [1; 2; 3] 2 1 1)
  = map (fun i => (flush_denorm (nth (Nat.min (i - 1) (3 - 1)) [1; 2; 3] 0), true))
        (seq 0 (3 + 2))
    ++ repeat (0, false) 1.
Proof.
  assert (H1 : (1 <= 2)%Z) by discriminate.
  assert (H2 : (1 <= 1)%Z) by discriminate.
  assert (H3 : (2 * 1 * 2 < 2 ^ 31)%Z) by reflexivity.
  split; [exact H1|]. split; [exact H2|]. split; [exact H3|].
  exact (proj2 (proj2 (equal_rates_delay_one 2 1 [1; 2; 3] 1 H1 H2 H3))).
Defined.

End SincFacts.

(* ------------------------------------------------------------------------- *)
(** ** ADPCM data: [adpcm::repeat_offset] and [adpcm::edit_adpcm] *)
(* ------------------------------------------------------------------------- *)

Module AdpcmData.
Import Adpcm.

(** The [for] loop of [repeat_offset]: from [block] down in steps of one
    block, the first block flagged as a repeat start.  [fuel] bounds the
    number of iterations; the number of bytes of the data is enough. *)
Fixpoint repeat_search (fuel : nat) (adpcm : list byte) (block : Z) : Z :=
  match fuel with
  | O => -1
  | S fuel' =>
      if block >=? 0 then
        if is_repeat_start (block_byte adpcm block 1) then block
        else repeat_search fuel' adpcm (to_int32 (block - PSXDMH_ADPCM_BLOCK_SIZE))
      else -1
  end.

Definition repeat_offset (adpcm : list byte) : Z :=
  let block := to_int32 (Z.of_nat (length adpcm) - PSXDMH_ADPCM_BLOCK_SIZE) in
  if is_repeat_jump (block_byte adpcm block 1)
  then repeat_search (length adpcm) adpcm block
  else -1.

(** [v[i] = x] on a vector of bytes. *)
Fixpoint set_byte (l : list byte) (i : nat) (x : byte) : list byte :=
  match l, i with
  | [], _ => []
  | _ :: rest, O => x :: rest
  | y :: rest, S i' => y :: set_byte rest i' x
  end.

(** The first loop of [edit_adpcm]: [memset(block + 2, 0, 14)] on [count]
    successive blocks, [block] being the start of [data]. *)
Fixpoint silence (count : nat) (data : list byte) : list byte :=
  match count with
  | O => data
  | S count' =>
      firstn 2 data
      ++ repeat x00 (Z.to_nat (PSXDMH_ADPCM_BLOCK_SIZE - 2))
      ++ silence count' (skipn (Z.to_nat PSXDMH_ADPCM_BLOCK_SIZE) data)
  end.

(** [edit_adpcm]; [None] where the assertion of the source fails or where
    [block[1]] would lie before the vector (all blocks removed). *)
Definition edit_adpcm (adpcm : list byte) (silence_start remove_end : Z)
  : option (list byte) :=
  let size := Z.of_nat (length adpcm) in
  if PSXDMH_ADPCM_BLOCK_SIZE * (silence_start + remove_end) <=? size then
    let silenced := silence (Z.to_nat silence_start) adpcm in
    if remove_end >? 0 then
      let last := size - PSXDMH_ADPCM_BLOCK_SIZE in
      let flags := nth (Z.to_nat (last + 1)) silenced x00 in
      let block := last - remove_end * PSXDMH_ADPCM_BLOCK_SIZE in
      if block <? 0 then None
      else Some (firstn (Z.to_nat (size - remove_end * PSXDMH_ADPCM_BLOCK_SIZE))
                        (set_byte silenced (Z.to_nat (block + 1)) flags))
    else Some silenced
  else None.

End AdpcmData.

Module AdpcmDataFacts.
Import Adpcm AdpcmFacts AdpcmData.

Lemma set_byte_length l i x : length (set_byte l i x) = length l.
Proof.
  revert i. induction l as [|y l IH]; intros [|i]; cbn [set_byte length]; auto.
Qed.

Lemma set_byte_nth l i k x :
  nth k (set_byte l i x) x00
  = if (k =? i)%nat && (i <? length l)%nat then x else nth k l x00.
Proof.
  revert i k. induction l as [|y l IH]; intros i k.
  - cbn [set_byte length]. destruct i; rewrite andb_false_r; reflexivity.
  - destruct i as [|i], k as [|k]; cbn [set_byte nth length]; try reflexivity.
    rewrite IH. reflexivity.
Qed.

Lemma silence_length count : forall data,
  (count * 16 <= length data)%nat -> length (silence count data) = length data.
Proof.
  induction count as [|count IH]; intros data H; [reflexivity|].
  cbn [silence]. change (Z.to_nat (PSXDMH_ADPCM_BLOCK_SIZE - 2)) with 14%nat.
  change (Z.to_nat PSXDMH_ADPCM_BLOCK_SIZE) with 16%nat.
  rewrite !length_app, length_firstn, repeat_length, IH
    by (rewrite length_skipn; lia).
  rewrite length_skipn. lia.
Qed.

(** What the silencing loop leaves in the vector. *)
Lemma silence_nth count : forall data k,
  (count * 16 <= length data)%nat ->
  nth k (silence count data) x00
  = if (k / 16 <? count)%nat && (2 <=? k mod 16)%nat then x00 else nth k data x00.
Proof.
  induction count as [|count IH]; intros data k H.
  - cbn [silence]. reflexivity.
  - cbn [silence]. change (Z.to_nat (PSXDMH_ADPCM_BLOCK_SIZE - 2)) with 14%nat.
    change (Z.to_nat PSXDMH_ADPCM_BLOCK_SIZE) with 16%nat.
    destruct (Nat.lt_ge_cases k 2) as [H2 | H2].
    + rewrite app_nth1 by (rewrite length_firstn; lia).
      rewrite Nat.div_small, Nat.mod_small by lia.
      replace (2 <=? k)%nat with false by (symmetry; apply Nat.leb_gt; lia).
      rewrite andb_false_r. revert H2. clear.
      revert data. destruct k as [|[|k]]; intros [|a [|b data]] H; cbn; try reflexivity; lia.
    + rewrite app_nth2 by (rewrite length_firstn; lia).
      rewrite length_firstn. replace (Nat.min 2 (length data)) with 2%nat by lia.
      destruct (Nat.lt_ge_cases k 16) as [H16 | H16].
      * rewrite app_nth1 by (rewrite repeat_length; lia).
        rewrite nth_repeat_lt by lia.
        rewrite Nat.div_small, Nat.mod_small by lia.
        replace (2 <=? k)%nat with true by (symmetry; apply Nat.leb_le; lia).
        reflexivity.
      * rewrite app_nth2 by (rewrite repeat_length; lia).
        rewrite repeat_length, IH by (rewrite length_skipn; lia).
        replace (k - 2 - 14)%nat with (k - 16)%nat by lia.
        rewrite nth_skipn.
        replace (16 + (k - 16))%nat with k by lia.
        assert (Hd : (k / 16 = (k - 16) / 16 + 1)%nat).
        { replace k with ((k - 16) + 1 * 16)%nat at 1 by lia.
          apply Nat.div_add. lia. }
        assert (Hm : (k mod 16 = (k - 16) mod 16)%nat).
        { replace k with ((k - 16) + 1 * 16)%nat at 1 by lia.
          apply Nat.Div0.mod_add. }
        rewrite Hd, Hm.
        replace ((k - 16) / 16 + 1 <? S count)%nat with ((k - 16) / 16 <? count)%nat.
        2:{ destruct (Nat.ltb_spec ((k - 16) / 16) count);
            destruct (Nat.ltb_spec ((k - 16) / 16 + 1) (S count)); lia || reflexivity. }
        reflexivity.
Qed.

#[local] Abbreviation size data := (Z.of_nat (length data)).

(** Tests on a byte offset, on [nat] and on [Z]. *)
Lemma in_silenced k s :
  0 <= s ->
  ((k / 16 <? Z.to_nat s)%nat && (2 <=? k mod 16)%nat)
  = ((Z.of_nat k / 16 <? s) && (2 <=? Z.of_nat k mod 16)).
Proof.
  intros Hs.
  change 16 with (Z.of_nat 16). rewrite <- Nat2Z.inj_div, <- Nat2Z.inj_mod.
  f_equal.
  - destruct (Nat.ltb_spec (k / 16) (Z.to_nat s)), (Z.ltb_spec (Z.of_nat (k / 16)) s);
      lia || reflexivity.
  - destruct (Nat.leb_spec 2 (k mod 16)), (Z.leb_spec 2 (Z.of_nat (k mod 16)));
      lia || reflexivity.
Qed.

(** [edit_adpcm] byte by byte: the data bytes of the first [s] blocks are
    zero, the flag byte of the new last block is the flag byte of the old
    last block, every other byte that is kept is unchanged. *)
Lemma edit_adpcm_bytes data s r :
  size data mod 16 = 0 -> 0 <= s -> 0 <= r ->
  16 * (s + r) <= size data -> 16 * r < size data ->
  exists out,
    edit_adpcm data s r = Some out /\
    size out = size data - 16 * r /\
    forall i, 0 <= i < size data - 16 * r ->
      byte_at out i
      = if (i / 16 <? s) && (2 <=? i mod 16) then 0
        else if (0 <? r) && (i =? size data - 16 * r - 15)
             then byte_at data (size data - 15)
             else byte_at data i.
Proof.
  intros Hmod Hs Hr Hfit Hleft.
  assert (Hsz : 16 * (r + 1) <= size data).
  { pose proof (Z.div_mod (size data) 16 ltac:(lia)). lia. }
  assert (Hsl : (Z.to_nat s * 16 <= length data)%nat) by lia.
  unfold edit_adpcm. change PSXDMH_ADPCM_BLOCK_SIZE with 16.
  destruct (Z.leb_spec (16 * (s + r)) (size data)); [|lia].
  destruct (Z.gtb_spec r 0) as [Hpos | Hzero].
  - destruct (Z.ltb_spec (size data - 16 - r * 16) 0); [lia|].
    eexists. split; [reflexivity|]. split.
    + rewrite firstn_length_le; [lia|].
      rewrite set_byte_length, silence_length by exact Hsl. lia.
    + intros i Hi. unfold byte_at.
      rewrite nth_firstn.
      destruct (Nat.ltb_spec (Z.to_nat i) (Z.to_nat (size data - r * 16))); [|lia].
      rewrite set_byte_nth, silence_length, !silence_nth by exact Hsl.
      rewrite !in_silenced by exact Hs.
      rewrite !Z2Nat.id by lia.
      replace ((size data - 16 + 1) / 16 <? s) with false.
      2:{ symmetry. apply Z.ltb_ge.
          replace (size data - 16 + 1) with (1 + (size data / 16 - 1) * 16)
            by (pose proof (Z.div_mod (size data) 16 ltac:(lia)); lia).
          rewrite Z.div_add by lia. change (1 / 16) with 0.
          pose proof (Z.div_mod (size data) 16 ltac:(lia)). lia. }
      cbn [andb].
      destruct (Z.ltb_spec 0 r); [|lia]. cbn [andb].
      destruct (Nat.eqb_spec (Z.to_nat i) (Z.to_nat (size data - 16 - r * 16 + 1)))
        as [He | Hne].
      * assert (Hi' : i = size data - 16 * r - 15) by lia.
        destruct (Nat.ltb_spec (Z.to_nat (size data - 16 - r * 16 + 1)) (length data));
          [|lia].
        cbn [andb]. rewrite Hi', Z.eqb_refl.
        replace ((size data - 16 * r - 15) mod 16) with 1.
        2:{ replace (size data - 16 * r - 15) with (1 + (size data / 16 - r - 1) * 16)
              by (pose proof (Z.div_mod (size data) 16 ltac:(lia)); lia).
            rewrite Z.mod_add by lia. reflexivity. }
        rewrite andb_false_r. do 2 f_equal. lia.
      * cbn [andb]. destruct (Z.eqb_spec i (size data - 16 * r - 15)); [lia|].
        destruct ((i / 16 <? s) && (2 <=? i mod 16)); reflexivity.
  - assert (r = 0) by lia. subst r.
    eexists. split; [reflexivity|]. split.
    + rewrite silence_length by exact Hsl. lia.
    + intros i Hi. unfold byte_at.
      rewrite silence_nth by exact Hsl. rewrite in_silenced by exact Hs.
      rewrite Z2Nat.id by lia. cbn [Z.ltb andb].
      destruct ((i / 16 <? s) && (2 <=? i mod 16)); reflexivity.
Qed.

(** *** [repeat_offset] *)

(** The last block, at or before block [k], that is flagged as a repeat
    start; [-1] if there is none. *)
Fixpoint last_start (flagged : nat -> bool) (k : nat) : Z :=
  if flagged k then 16 * Z.of_nat k
  else match k with
       | O => -1
       | S k' => last_start flagged k'
       end.

Definition starts (data : list byte) (k : nat) : bool :=
  is_repeat_start (block_byte data (16 * Z.of_nat k) 1).

Lemma repeat_search_spec data fuel : forall k,
  (k < fuel)%nat -> 16 * Z.of_nat k < 2 ^ 31 ->
  repeat_search fuel data (16 * Z.of_nat k) = last_start (starts data) k.
Proof.
  induction fuel as [|fuel IH]; intros k Hk Hfit; [lia|].
  cbn [repeat_search]. destruct (Z.geb_spec (16 * Z.of_nat k) 0); [|lia].
  destruct k as [|k].
  - cbn [last_start]. unfold starts.
    destruct (is_repeat_start _); [reflexivity|].
    change (to_int32 (16 * Z.of_nat 0 - PSXDMH_ADPCM_BLOCK_SIZE)) with (-16).
    destruct fuel; reflexivity.
  - cbn [last_start]. unfold starts at 1.
    destruct (is_repeat_start _); [reflexivity|].
    change PSXDMH_ADPCM_BLOCK_SIZE with 16.
    unfold to_int32. rewrite wrap_signed_id by lia.
    replace (16 * Z.of_nat (S k) - 16) with (16 * Z.of_nat k) by lia.
    apply IH; lia.
Qed.

Lemma last_start_cases flagged k :
  (last_start flagged k = -1 /\ forall j, (j <= k)%nat -> flagged j = false) \/
  (exists j, (j <= k)%nat /\ last_start flagged k = 16 * Z.of_nat j /\
             flagged j = true /\
             forall j', (j < j' <= k)%nat -> flagged j' = false).
Proof.
  induction k as [|k IH]; cbn [last_start].
  - destruct (flagged O) eqn:E.
    + right. exists O. repeat split; try lia; try assumption.
    + left. split; [reflexivity|]. intros j Hj. replace j with O by lia. exact E.
  - destruct (flagged (S k)) eqn:E.
    + right. exists (S k). repeat split; try lia; try assumption.
    + destruct IH as [[H1 H2] | (j & Hj & H1 & H2 & H3)].
      * left. split; [exact H1|]. intros j Hj.
        destruct (Nat.eq_dec j (S k)) as [-> | Hne]; [exact E | apply H2; lia].
      * right. exists j. repeat split; try lia; try assumption.
        intros j' Hj'.
        destruct (Nat.eq_dec j' (S k)) as [-> | Hne]; [exact E | apply H3; lia].
Qed.

Lemma last_start_ext f g k :
  (forall j, (j <= k)%nat -> f j = g j) -> last_start f k = last_start g k.
Proof.
  induction k as [|k IH]; intros H; cbn [last_start].
  - rewrite (H O) by lia. reflexivity.
  - rewrite (H (S k)) by lia. rewrite IH by (intros; apply H; lia). reflexivity.
Qed.

(** Blocks above the last repeat start do not count. *)
Lemma last_start_below f k m :
  (m <= k)%nat -> last_start f k < 16 * Z.of_nat (S m) ->
  last_start f k = last_start f m.
Proof.
  intros Hm. induction k as [|k IH]; intros Hlt.
  - replace m with O by lia. reflexivity.
  - destruct (Nat.eq_dec m (S k)) as [-> | Hne]; [reflexivity|].
    cbn [last_start] in *. destruct (f (S k)); [lia|].
    apply IH; [lia | exact Hlt].
Qed.

Lemma blocks_of data :
  well_formed data ->
  exists nb : nat, size data = 16 * Z.of_nat (S nb) /\ (S nb <= length data)%nat.
Proof.
  intros (Hlen & Hmod & _). change PSXDMH_ADPCM_BLOCK_SIZE with 16 in Hmod.
  pose proof (Z.div_mod (size data) 16 ltac:(lia)) as Hd.
  exists (Z.to_nat (size data / 16 - 1)). split; lia.
Qed.

Lemma repeat_offset_eq data nb :
  size data = 16 * Z.of_nat (S nb) -> size data < 2 ^ 31 ->
  repeat_offset data
  = if is_repeat_jump (block_byte data (16 * Z.of_nat nb) 1)
    then last_start (starts data) nb else -1.
Proof.
  intros Hnb Hlen. unfold repeat_offset. change PSXDMH_ADPCM_BLOCK_SIZE with 16.
  unfold to_int32. rewrite wrap_signed_id by lia.
  replace (size data - 16) with (16 * Z.of_nat nb) by lia.
  destruct (is_repeat_jump _); [|reflexivity].
  apply repeat_search_spec; lia.
Qed.

(** X: [repeat_offset] finds the last block flagged as a repeat start when
    the final block is flagged as a repeat jump, and gives [-1] when the
    final block has no repeat jump or no block is a repeat start. *)
Theorem repeat_offset_is_last_repeat_start data :
  well_formed data ->
  let last := size data - 16 in
  let r := repeat_offset data in
  (r = -1 /\
   (is_repeat_jump (block_byte data last 1) = false \/
    forall off, 0 <= off <= last -> off mod 16 = 0 ->
                is_repeat_start (block_byte data off 1) = false)) \/
  (0 <= r <= last /\ r mod 16 = 0 /\
   is_repeat_jump (block_byte data last 1) = true /\
   is_repeat_start (block_byte data r 1) = true /\
   forall off, r < off <= last -> off mod 16 = 0 ->
               is_repeat_start (block_byte data off 1) = false).
Proof.
  intros Hwf last r.
  destruct (blocks_of data Hwf) as (nb & Hnb & _).
  assert (Hlen : size data < 2 ^ 31) by (destruct Hwf as [[_ H] _]; exact H).
  assert (Hlast : last = 16 * Z.of_nat nb) by (unfold last; lia).
  unfold r. rewrite (repeat_offset_eq data nb Hnb Hlen), <- Hlast.
  destruct (is_repeat_jump (block_byte data last 1)) eqn:Hj.
  2:{ left. split; [reflexivity | left; reflexivity]. }
  assert (Hoff : forall off, 0 <= off -> off mod 16 = 0 ->
                   off = 16 * Z.of_nat (Z.to_nat (off / 16))).
  { intros off H0 Hm. pose proof (Z.div_mod off 16 ltac:(lia)). lia. }
  destruct (last_start_cases (starts data) nb) as [[H1 H2] | (j & Hjn & H1 & H2 & H3)].
  - left. split; [exact H1|]. right. intros off Ho Hm.
    rewrite (Hoff off) by lia. apply H2.
    pose proof (Z.div_mod off 16 ltac:(lia)). lia.
  - right. rewrite H1. repeat split; try lia.
    + rewrite Z.mul_comm. apply Z.mod_mul. lia.
    + exact H2.
    + intros off Ho Hm. rewrite (Hoff off) by lia. apply H3.
      pose proof (Z.div_mod off 16 ltac:(lia)). lia.
Qed.

Definition two_blocks : list byte :=
  bytes_of (0 :: 4 :: repeat 0 14 ++ 0 :: 3 :: repeat 0 14).

Lemma two_blocks_well_formed : well_formed two_blocks.
Proof. unfold well_formed. repeat split; try reflexivity. Qed.

Lemma repeat_offset_is_last_repeat_start_witness :
  well_formed two_blocks /\ repeat_offset two_blocks = 0.
Proof.
  split; [exact two_blocks_well_formed|].
  destruct (repeat_offset_is_last_repeat_start two_blocks two_blocks_well_formed)
    as [[H _] | _]; [discriminate H | reflexivity].
Defined.

(** *** [edit_adpcm] *)

Lemma edit_adpcm_fits data s r out :
  well_formed data -> 0 <= s -> 0 <= r -> edit_adpcm data s r = Some out ->
  16 * (s + r) <= size data /\ 16 * r < size data.
Proof.
  intros (Hlen & Hmod & _) Hs Hr. unfold edit_adpcm.
  change PSXDMH_ADPCM_BLOCK_SIZE with 16 in *.
  destruct (Z.leb_spec (16 * (s + r)) (size data)); [|discriminate].
  destruct (Z.gtb_spec r 0).
  - destruct (Z.ltb_spec (size data - 16 - r * 16) 0); [discriminate|]. lia.
  - lia.
Qed.

Lemma flag_offset j : (16 * j + 1) / 16 = j /\ (16 * j + 1) mod 16 = 1.
Proof.
  replace (16 * j + 1) with (1 + j * 16) by lia.
  rewrite Z.div_add, Z.mod_add by lia. split; reflexivity.
Qed.

(** The flag bytes after the edit. *)
Lemma edit_adpcm_flags data s r out nb :
  well_formed data -> 0 <= s -> 0 <= r -> edit_adpcm data s r = Some out ->
  size data = 16 * Z.of_nat (S nb) ->
  let m := (nb - Z.to_nat r)%nat in
  size out = 16 * Z.of_nat (S m) /\
  block_byte out (16 * Z.of_nat m) 1 = block_byte data (16 * Z.of_nat nb) 1 /\
  (forall j, (j < m)%nat ->
     block_byte out (16 * Z.of_nat j) 1 = block_byte data (16 * Z.of_nat j) 1) /\
  (forall j, (j <= m)%nat ->
     block_byte out (16 * Z.of_nat j) 0 = block_byte data (16 * Z.of_nat j) 0).
Proof.
  intros Hwf Hs Hr Hedit Hnb m.
  destruct (edit_adpcm_fits data s r out Hwf Hs Hr Hedit) as [Hfit Hleft].
  destruct Hwf as (Hlen & Hmod & _). change PSXDMH_ADPCM_BLOCK_SIZE with 16 in Hmod.
  destruct (edit_adpcm_bytes data s r Hmod Hs Hr Hfit Hleft) as (out' & Ho & Hsize & Hbytes).
  rewrite Ho in Hedit. injection Hedit as ->.
  assert (Hm : Z.of_nat m = Z.of_nat nb - r) by lia.
  split; [lia|].
  assert (Hflag : forall j, (j <= m)%nat ->
            block_byte out (16 * Z.of_nat j) 1
            = if (0 <? r) && (16 * Z.of_nat j + 1 =? size data - 16 * r - 15)
              then byte_at data (size data - 15)
              else byte_at data (16 * Z.of_nat j + 1)).
  { intros j Hj. unfold block_byte. rewrite Hbytes by lia.
    destruct (flag_offset (Z.of_nat j)) as [-> ->].
    change (2 <=? 1) with false. rewrite andb_false_r. reflexivity. }
  split; [|split].
  - rewrite Hflag by lia. unfold block_byte.
    destruct (Z.ltb_spec 0 r); cbn [andb].
    + destruct (Z.eqb_spec (16 * Z.of_nat m + 1) (size data - 16 * r - 15)); [|lia].
      f_equal. lia.
    + f_equal. lia.
  - intros j Hj. rewrite Hflag by lia.
    destruct (Z.eqb_spec (16 * Z.of_nat j + 1) (size data - 16 * r - 15)); [lia|].
    rewrite andb_false_r. reflexivity.
  - intros j Hj. unfold block_byte. rewrite Hbytes by lia.
    replace (16 * Z.of_nat j + 0) with (0 + Z.of_nat j * 16) by lia.
    rewrite Z.mod_add by lia. change (0 mod 16) with 0. change (2 <=? 0) with false.
    rewrite andb_false_r.
    destruct (Z.eqb_spec (0 + Z.of_nat j * 16) (size data - 16 * r - 15)); [lia|].
    rewrite andb_false_r. reflexivity.
Qed.

(** X: the result of [edit_adpcm], byte by byte; it is again a stream that
    the decoder accepts. *)
Theorem edit_adpcm_result data s r :
  well_formed data -> 0 <= s -> 0 <= r ->
  16 * (s + r) <= size data -> 16 * r < size data ->
  exists out,
    edit_adpcm data s r = Some out /\
    size out = size data - 16 * r /\
    well_formed out /\
    forall i, 0 <= i < size data - 16 * r ->
      byte_at out i
      = if (i / 16 <? s) && (2 <=? i mod 16) then 0
        else if (0 <? r) && (i =? size data - 16 * r - 15)
             then byte_at data (size data - 15)
             else byte_at data i.
Proof.
  intros Hwf Hs Hr Hfit Hleft.
  destruct (blocks_of data Hwf) as (nb & Hnb & _).
  pose proof Hwf as (Hlen & Hmod & Hfin).
  change PSXDMH_ADPCM_BLOCK_SIZE with 16 in Hmod, Hfin.
  destruct (edit_adpcm_bytes data s r Hmod Hs Hr Hfit Hleft) as (out & Ho & Hsize & Hbytes).
  exists out. split; [exact Ho|]. split; [exact Hsize|]. split; [|exact Hbytes].
  destruct (edit_adpcm_flags data s r out nb Hwf Hs Hr Ho Hnb) as (Hso & Hlast & _).
  unfold well_formed. change PSXDMH_ADPCM_BLOCK_SIZE with 16.
  split; [lia|]. split.
  - rewrite Hso, Z.mul_comm. apply Z.mod_mul. lia.
  - replace (size out - 16) with (16 * Z.of_nat (nb - Z.to_nat r)) by lia.
    rewrite Hlast. replace (16 * Z.of_nat nb) with (size data - 16) by lia. exact Hfin.
Qed.

Lemma edit_adpcm_result_witness :
  well_formed two_blocks /\
  exists out, edit_adpcm two_blocks 1 1 = Some out /\ well_formed out.
Proof.
  split; [exact two_blocks_well_formed|].
  assert (H0 : 0 <= 1) by discriminate.
  assert (H1 : 16 * (1 + 1) <= size two_blocks) by discriminate.
  assert (H2 : 16 * 1 < size two_blocks) by reflexivity.
  destruct (edit_adpcm_result two_blocks 1 1 two_blocks_well_formed H0 H0 H1 H2)
    as (out & Ho & _ & Hwf & _).
  exists out. split; assumption.
Defined.

(** X: [edit_adpcm] keeps the repeat point of the data, unless blocks are
    removed and the repeat point lies in the new last block or after it. *)
Theorem edit_adpcm_keeps_repeat data s r out :
  well_formed data -> 0 <= s -> 0 <= r ->
  edit_adpcm data s r = Some out ->
  r = 0 \/ repeat_offset data < size data - 16 * (r + 1) ->
  repeat_offset out = repeat_offset data.
Proof.
  intros Hwf Hs Hr Hedit Hkeep.
  destruct (blocks_of data Hwf) as (nb & Hnb & _).
  destruct (edit_adpcm_fits data s r out Hwf Hs Hr Hedit) as [Hfit Hleft].
  destruct (edit_adpcm_flags data s r out nb Hwf Hs Hr Hedit Hnb)
    as (Hso & Hlast & Hflags & _).
  assert (Hlen : size data < 2 ^ 31) by (destruct Hwf as [[_ H] _]; exact H).
  set (m := (nb - Z.to_nat r)%nat) in *.
  rewrite (repeat_offset_eq out m Hso) by lia.
  rewrite (repeat_offset_eq data nb Hnb Hlen) in *.
  rewrite Hlast.
  destruct (is_repeat_jump (block_byte data (16 * Z.of_nat nb) 1)); [|reflexivity].
  assert (Hsame : forall j, (j < m)%nat -> starts out j = starts data j).
  { intros j Hj. unfold starts. rewrite Hflags by exact Hj. reflexivity. }
  assert (Hm : starts out m = starts data nb).
  { unfold starts. rewrite Hlast. reflexivity. }
  assert (Hcases : r = 0 \/ (0 < r /\
            last_start (starts data) nb < size data - 16 * (r + 1))).
  { destruct (Z.eq_dec r 0); [left; assumption | right; split; [lia|]].
    destruct Hkeep; [lia | assumption]. }
  clear Hkeep. destruct Hcases as [-> | [Hpos Hbefore]].
  - replace m with nb in * by (unfold m; lia).
    apply last_start_ext. intros j Hj.
    destruct (Nat.eq_dec j nb) as [-> | Hne]; [exact Hm | apply Hsame; lia].
  - assert (Hmn : (m < nb)%nat) by (unfold m; lia).
    assert (Hnone : starts data nb = false).
    { destruct (starts data nb) eqn:E; [|reflexivity].
      destruct nb; cbn [last_start] in Hbefore; rewrite E in Hbefore; lia. }
    destruct m as [|m'] eqn:Em.
    + cbn [last_start]. rewrite Hm, Hnone.
      destruct (last_start_cases (starts data) nb) as [[H1 _] | (j & _ & H1 & _)]; lia.
    + cbn [last_start]. rewrite Hm, Hnone.
      rewrite (last_start_ext (starts out) (starts data) m')
        by (intros j Hj; apply Hsame; lia).
      symmetry. apply last_start_below; lia.
Qed.

Lemma edit_adpcm_keeps_repeat_witness :
  well_formed two_blocks /\
  edit_adpcm two_blocks 1 0 = Some (bytes_of (0 :: 4 :: repeat 0 14 ++ 0 :: 3 :: repeat 0 14)) /\
  repeat_offset (bytes_of (0 :: 4 :: repeat 0 14 ++ 0 :: 3 :: repeat 0 14))
  = repeat_offset two_blocks.
Proof.
  split; [exact two_blocks_well_formed|]. split; [reflexivity|].
  apply (edit_adpcm_keeps_repeat two_blocks 1 0 _ two_blocks_well_formed);
    [discriminate | discriminate | reflexivity | left; reflexivity].
Defined.

(** *** The decoder on edited data *)

Lemma pull_blocks_ok n : forall a out a',
  well_formed (m_data a) -> blocks_ok a -> pull n a = Ok (out, a') ->
  m_data a' = m_data a /\ blocks_ok a'.
Proof.
  induction n as [|n IH]; intros a out a' Hwf Hb.
  - intros [= _ <-]. split; [reflexivity | exact Hb].
  - rewrite pull_S.
    destruct (next a) as [[[s live] a1]|] eqn:E; [|discriminate].
    destruct (pull n a1) as [[o a2]|] eqn:E'; [|discriminate].
    intros [= _ <-].
    destruct (next_blocks_ok a s live a1 Hwf Hb E) as [Hd Hb1].
    destruct (IH a1 o a2 ltac:(rewrite Hd; exact Hwf) Hb1 E') as [Hd2 Hb2].
    split; [congruence | exact Hb2].
Qed.

(** X: on data that satisfies the assertions of the constructor, the
    decoder only ever reads blocks that lie inside the data: in every state
    it reaches, [m_current] and [m_repeat] are [-1] or the offset of a whole
    block of the vector. *)
Theorem decoder_stays_inside_data data play_count n out a :
  well_formed data ->
  pull n (create data play_count) = Ok (out, a) ->
  m_data a = data /\
  in_bounds data (m_current a) /\ in_bounds data (m_repeat a).
Proof.
  intros Hwf Hpull.
  destruct (pull_blocks_ok n (create data play_count) out a Hwf
              (create_blocks_ok data play_count Hwf) Hpull) as [Hd [Hc Hr]].
  cbn [create m_data] in Hd. rewrite Hd in Hc, Hr. repeat split; assumption.
Qed.

(** Sixty samples of [two_blocks] with play count 2: the decoder decodes
    the first block, the final block, jumps back to the repeat point and
    decodes the first block again. *)
Lemma decoder_stays_inside_data_witness :
  well_formed two_blocks /\
  exists out a,
    pull 60 (create two_blocks 2) = Ok (out, a) /\
    length out = 60%nat /\ m_current a = 16 /\ m_repeat a = 0 /\
    m_play_count a = 1 /\
    m_data a = two_blocks /\
    in_bounds two_blocks (m_current a) /\ in_bounds two_blocks (m_repeat a).
Proof.
  split; [exact two_blocks_well_formed|].
  assert (E : exists out a,
             pull 60 (create two_blocks 2) = Ok (out, a) /\
             length out = 60%nat /\ m_current a = 16 /\ m_repeat a = 0 /\
             m_play_count a = 1).
  { vm_compute. eexists. eexists. split; [reflexivity|]. repeat split. }
  destruct E as (out & a & E & Hlen & Hc & Hr & Hp). exists out, a.
  split; [exact E|]. split; [exact Hlen|]. split; [exact Hc|]. split; [exact Hr|].
  split; [exact Hp|].
  exact (decoder_stays_inside_data two_blocks 2 60 out a two_blocks_well_formed E).
Defined.

Lemma spec_block_zeros filter shift n :
  spec_block filter shift (repeat 0 n) 0 0 = repeat 0 n /\
  spec_history filter shift (repeat 0 n) 0 0 = (0, 0).
Proof.
  assert (Hs : spec_sample filter shift 0 0 0 = 0).
  { unfold spec_sample. change (Z.shiftl (sext4 0) 12) with 0.
    rewrite Z.shiftr_0_l. reflexivity. }
  induction n as [|n [IH1 IH2]]; [split; reflexivity|].
  cbn [repeat spec_block spec_history]. rewrite Hs, IH1, IH2. split; reflexivity.
Qed.

Lemma nybbles_of_zeros data off :
  (forall u, 0 <= u < 14 -> block_byte data off (2 + u) = 0) ->
  nybbles_of data off = repeat 0 28.
Proof.
  intros H. unfold nybbles_of.
  assert (Hgen : forall l, (forall u, In u l -> (u < 14)%nat) ->
            flat_map (fun u => [block_byte data off (2 + Z.of_nat u) mod 16;
                                block_byte data off (2 + Z.of_nat u) / 16]) l
            = repeat 0 (2 * length l)).
  { induction l as [|u l IH]; intros Hl; [reflexivity|].
    cbn [flat_map length]. rewrite IH by (intros v Hv; apply Hl; right; exact Hv).
    rewrite H by (specialize (Hl u (or_introl eq_refl)); lia).
    replace (2 * S (length l))%nat with (S (S (2 * length l))) by lia. reflexivity. }
  apply (Hgen (seq 0 14)).
  intros u Hu. apply in_seq in Hu. lia.
Qed.

(** The decoder on [j] blocks from block [k] on, all of them with zero
    data bytes, starting with an empty history. *)
Lemma pull_silent_blocks out j : forall k a,
  m_data a = out -> is_buffer_empty a = true ->
  m_current a = 16 * Z.of_nat k -> m_s0 a = 0 -> m_s1 a = 0 ->
  16 * Z.of_nat (k + j) <= size out -> size out < 2 ^ 31 ->
  (forall b, (k <= b < k + j)%nat ->
     Z.shiftr (block_byte out (16 * Z.of_nat b) 0) 4 < 5 /\
     forall u, 0 <= u < 14 -> block_byte out (16 * Z.of_nat b) (2 + u) = 0) ->
  (forall b, (k <= b)%nat -> (S b < k + j)%nat ->
     is_final (block_byte out (16 * Z.of_nat b) 1) = false) ->
  exists a', pull (28 * j) a = Ok (repeat (to_mono 0, true) (28 * j), a').
Proof.
  induction j as [|j IH]; intros k a Hd He Hc H0 H1 Hfit Hlen Hblocks Hfinal.
  - exists a. reflexivity.
  - assert (Hh : history_ok a) by (unfold history_ok, int16_range; rewrite H0, H1; lia).
    assert (Hcur : 0 <= m_current a) by lia.
    destruct (Hblocks k ltac:(lia)) as [Hf Hz].
    assert (Hfilter : Z.shiftr (block_byte (m_data a) (m_current a) 0) 4 < 5)
      by (rewrite Hd, Hc; exact Hf).
    pose proof (pull_block a Hh He Hcur Hfilter) as Hp.
    rewrite Hd, Hc, H0, H1, (nybbles_of_zeros out _ Hz) in Hp.
    rewrite (proj1 (spec_block_zeros _ _ 28)) in Hp.
    change (map (fun s => (to_mono s, true)) (repeat 0 28))
      with (repeat (to_mono 0, true) 28) in Hp.
    destruct j as [|j].
    + exists (after_block a). exact Hp.
    + destruct (after_block_fields a Hh Hfilter) as (Ad & _ & An & Ah & _ & Ac & _).
      rewrite Hd, Hc, H0, H1, (nybbles_of_zeros out _ Hz) in Ah.
      rewrite (proj2 (spec_block_zeros _ _ 28)) in Ah.
      rewrite Hd, Hc, (Hfinal k ltac:(lia) ltac:(lia)) in Ac.
      unfold to_int32 in Ac. rewrite wrap_signed_id in Ac by lia.
      destruct (IH (S k) (after_block a)) as (a' & Hp').
      * congruence.
      * unfold is_buffer_empty. rewrite An. reflexivity.
      * rewrite Ac. lia.
      * congruence.
      * congruence.
      * replace (S k + S j)%nat with (k + S (S j))%nat by lia. exact Hfit.
      * exact Hlen.
      * intros b Hb. apply Hblocks. lia.
      * intros b Hb Hb'. apply Hfinal; lia.
      * exists a'.
        replace (28 * S (S j))%nat with (28 + 28 * S j)%nat by lia.
        rewrite repeat_app. exact (pull_add 28 _ a _ _ _ _ Hp Hp').
Qed.

(** X: the blocks that [edit_adpcm] silences decode to silence.  If the
    first [s] blocks have a valid filter and none of them but the last is a
    final block, the decoder on the edited data starts with [28 * s] live
    samples that are all zero. *)
Theorem silenced_blocks_decode_to_zero data s r out play_count :
  well_formed data -> 0 <= s -> 0 <= r ->
  edit_adpcm data s r = Some out ->
  (forall k, 0 <= k < s -> Z.shiftr (block_byte data (16 * k) 0) 4 < 5) ->
  (forall k, 0 <= k < s - 1 -> is_final (block_byte data (16 * k) 1) = false) ->
  (to_mono 0 == 0)%Q /\
  exists a',
    pull (28 * Z.to_nat s) (create out play_count)
    = Ok (repeat (to_mono 0, true) (28 * Z.to_nat s), a').
Proof.
  intros Hwf Hs Hr Hedit Hfilter Hfinal. split; [reflexivity|].
  destruct (blocks_of data Hwf) as (nb & Hnb & _).
  destruct (edit_adpcm_fits data s r out Hwf Hs Hr Hedit) as [Hfit Hleft].
  destruct (edit_adpcm_flags data s r out nb Hwf Hs Hr Hedit Hnb)
    as (Hso & _ & Hflags & Hb0).
  pose proof Hwf as (Hlen & Hmod & _). change PSXDMH_ADPCM_BLOCK_SIZE with 16 in Hmod.
  destruct (edit_adpcm_bytes data s r Hmod Hs Hr Hfit Hleft) as (out' & Ho & Hsize & Hbytes).
  rewrite Ho in Hedit. injection Hedit as ->.
  set (m := (nb - Z.to_nat r)%nat) in *.
  apply (pull_silent_blocks out (Z.to_nat s) O (create out play_count));
    try reflexivity; try lia.
  - intros b Hb. split.
    + rewrite Hb0 by lia. apply Hfilter. lia.
    + intros u Hu. unfold block_byte. rewrite Hbytes by lia.
      replace (16 * Z.of_nat b + (2 + u)) with ((2 + u) + Z.of_nat b * 16) by lia.
      rewrite Z.div_add, Z.mod_add by lia.
      rewrite (Z.div_small (2 + u)), (Z.mod_small (2 + u)) by lia.
      destruct (Z.ltb_spec (0 + Z.of_nat b) s); [|lia].
      destruct (Z.leb_spec 2 (2 + u)); [|lia]. reflexivity.
  - intros b _ Hb. rewrite Hflags by lia. apply Hfinal. lia.
Qed.

Lemma silenced_blocks_decode_to_zero_witness :
  well_formed two_blocks /\
  edit_adpcm two_blocks 1 0 = Some two_blocks /\
  exists a',
    pull (28 * Z.to_nat 1) (create two_blocks 0)
    = Ok (repeat (to_mono 0, true) (28 * Z.to_nat 1), a').
Proof.
  split; [exact two_blocks_well_formed|]. split; [reflexivity|].
  assert (H0 : 0 <= 1) by discriminate.
  assert (H1 : 0 <= 0) by discriminate.
  assert (Hf : forall k, 0 <= k < 1 ->
            Z.shiftr (block_byte two_blocks (16 * k) 0) 4 < 5).
  { intros k Hk. replace k with 0 by lia. reflexivity. }
  assert (Hn : forall k, 0 <= k < 1 - 1 ->
            is_final (block_byte two_blocks (16 * k) 1) = false).
  { intros k Hk. lia. }
  exact (proj2 (silenced_blocks_decode_to_zero two_blocks 1 0 two_blocks 0
                  two_blocks_well_formed H0 H1 eq_refl Hf Hn)).
Defined.

(** The repeat point the decoder has stored once it has decoded the blocks
    before block [k]. *)
Definition stored_repeat (data : list byte) (k : nat) : Z :=
  match k with
  | O => -1
  | S k' => last_start (starts data) k'
  end.

(** The decoder over [j] blocks from block [k] on, none of them final. *)
Lemma pull_pass data j : forall k a,
  m_data a = data -> is_buffer_empty a = true ->
  m_current a = 16 * Z.of_nat k -> history_ok a ->
  m_repeat a = stored_repeat data k ->
  16 * Z.of_nat (k + j) < 2 ^ 31 ->
  (forall b, (k <= b < k + j)%nat ->
     Z.shiftr (block_byte data (16 * Z.of_nat b) 0) 4 < 5 /\
     is_final (block_byte data (16 * Z.of_nat b) 1) = false) ->
  exists out a',
    pull (28 * j) a = Ok (out, a') /\
    length out = (28 * j)%nat /\ Forall (fun p => snd p = true) out /\
    m_data a' = data /\ is_buffer_empty a' = true /\
    m_current a' = 16 * Z.of_nat (k + j) /\ history_ok a' /\
    m_repeat a' = stored_repeat data (k + j) /\
    m_play_count a' = m_play_count a.
Proof.
  induction j as [|j IH]; intros k a Hd He Hc Hh Hr Hfit Hblocks.
  - exists [], a. rewrite Nat.add_0_r.
    split; [reflexivity|]. split; [reflexivity|]. split; [constructor|].
    repeat split; assumption || apply Hh.
  - destruct (Hblocks k ltac:(lia)) as [Hf Hn].
    assert (Hcur : 0 <= m_current a) by lia.
    assert (Hfilter : Z.shiftr (block_byte (m_data a) (m_current a) 0) 4 < 5)
      by (rewrite Hd, Hc; exact Hf).
    pose proof (pull_block a Hh He Hcur Hfilter) as Hp.
    destruct (after_block_fields a Hh Hfilter) as (Ad & _ & An & _ & Ar & Ac & Ap).
    rewrite Hd, Hc, Hn in Ac, Ap. rewrite Hd, Hc, Hr in Ar.
    unfold to_int32 in Ac. rewrite wrap_signed_id in Ac by lia.
    destruct (IH (S k) (after_block a)) as (o & a' & Hp' & Hl & Hlive & R).
    + congruence.
    + unfold is_buffer_empty. rewrite An. reflexivity.
    + rewrite Ac. lia.
    + exact (after_block_history a Hh Hfilter).
    + rewrite Ar.
      destruct k; cbn [stored_repeat last_start]; unfold starts;
        destruct (is_repeat_start _); reflexivity.
    + replace (S k + j)%nat with (k + S j)%nat by lia. exact Hfit.
    + intros b Hb. apply Hblocks. lia.
    + eexists _, a'. split.
      * replace (28 * S j)%nat with (28 + 28 * j)%nat by lia.
        exact (pull_add 28 _ a _ _ _ _ Hp Hp').
      * replace (k + S j)%nat with (S k + j)%nat by lia.
        destruct R as (R1 & R2 & R3 & R4 & R5 & R6).
        split; [|split; [|split; [exact R1|split; [exact R2|split; [exact R3|
          split; [exact R4|split; [exact R5|]]]]]]].
        -- rewrite length_app, length_map, spec_block_length, nybbles_of_length, Hl. lia.
        -- apply Forall_app. split; [apply live_samples | exact Hlive].
        -- rewrite R6. exact Ap.
Qed.

(** X: the repeat point that [repeat_offset] reports is the one the decoder
    uses.  On data whose blocks all have a valid filter and whose only final
    block is the last one, the decoder emits 28 live samples for every
    block and then continues at [repeat_offset], or has stopped (at [-1])
    when one play was asked for; [repeat_offset] is [-1] exactly when there
    is nothing to repeat. *)
Theorem decoder_repeats_at_repeat_offset data play_count (nb : nat) :
  well_formed data -> size data = 16 * Z.of_nat (S nb) ->
  (forall b, (b <= nb)%nat ->
     Z.shiftr (block_byte data (16 * Z.of_nat b) 0) 4 < 5) ->
  (forall b, (b < nb)%nat ->
     is_final (block_byte data (16 * Z.of_nat b) 1) = false) ->
  exists out a,
    pull (28 * S nb) (create data play_count) = Ok (out, a) /\
    length out = (28 * S nb)%nat /\ Forall (fun p => snd p = true) out /\
    m_current a = if play_count =? 1 then -1 else repeat_offset data.
Proof.
  intros Hwf Hnb Hfilter Hfinal.
  pose proof Hwf as (Hlen & _ & Hfin). change PSXDMH_ADPCM_BLOCK_SIZE with 16 in Hfin.
  destruct (pull_pass data nb O (create data play_count))
    as (o & a & Hp & Hl & Hlive & Hd & He & Hc & Hh & Hr & Hpc);
    try reflexivity; try lia.
  { unfold history_ok, int16_range. cbn. lia. }
  { intros b Hb. split; [apply Hfilter | apply Hfinal]; lia. }
  cbn [Nat.add] in Hc, Hr.
  assert (Hcur : 0 <= m_current a) by lia.
  assert (Hf : Z.shiftr (block_byte (m_data a) (m_current a) 0) 4 < 5)
    by (rewrite Hd, Hc; apply Hfilter; lia).
  pose proof (pull_block a Hh He Hcur Hf) as Hp2.
  destruct (after_block_fields a Hh Hf) as (_ & _ & _ & _ & _ & Ac & _).
  rewrite Hd, Hc, Hr, Hpc in Ac. cbn [create m_play_count] in Ac.
  replace (16 * Z.of_nat nb) with (size data - 16) in Ac by lia.
  rewrite Hfin in Ac.
  eexists _, (after_block a). split; [|split; [|split]].
  - replace (28 * S nb)%nat with (28 * nb + 28)%nat by lia.
    exact (pull_add _ 28 _ _ _ _ _ Hp Hp2).
  - rewrite length_app, length_map, spec_block_length, nybbles_of_length, Hl. lia.
  - apply Forall_app. split; [exact Hlive | apply live_samples].
  - rewrite Ac. rewrite (repeat_offset_eq data nb Hnb) by lia.
    replace (size data - 16) with (16 * Z.of_nat nb) by lia.
    assert (Hrep : (if is_repeat_start (block_byte data (16 * Z.of_nat nb) 1)
                    then 16 * Z.of_nat nb else stored_repeat data nb)
                   = last_start (starts data) nb).
    { destruct nb; cbn [stored_repeat last_start]; unfold starts;
        destruct (is_repeat_start _); reflexivity. }
    rewrite Hrep.
    destruct (is_repeat_jump (block_byte data (16 * Z.of_nat nb) 1)); cbn [negb orb].
    + destruct (Z.eqb_spec play_count 1).
      * rewrite orb_true_r. reflexivity.
      * rewrite orb_false_r.
        destruct (Z.ltb_spec (last_start (starts data) nb) 0); [|reflexivity].
        destruct (last_start_cases (starts data) nb) as [[H1 _] | (j & _ & H1 & _)]; lia.
    + destruct (play_count =? 1); reflexivity.
Qed.

Lemma decoder_repeats_at_repeat_offset_witness :
  well_formed two_blocks /\
  exists out a,
    pull (28 * 2) (create two_blocks 0) = Ok (out, a) /\
    m_current a = repeat_offset two_blocks.
Proof.
  split; [exact two_blocks_well_formed|].
  assert (Hf : forall b, (b <= 1)%nat ->
            Z.shiftr (block_byte two_blocks (16 * Z.of_nat b) 0) 4 < 5).
  { intros b Hb. destruct b as [|[|b]]; [reflexivity | reflexivity | lia]. }
  assert (Hn : forall b, (b < 1)%nat ->
            is_final (block_byte two_blocks (16 * Z.of_nat b) 1) = false).
  { intros b Hb. destruct b as [|b]; [reflexivity | lia]. }
  destruct (decoder_repeats_at_repeat_offset two_blocks 0 1
              two_blocks_well_formed eq_refl Hf Hn) as (out & a & Hp & _ & _ & Hc).
  exists out, a. split; [exact Hp | exact Hc].
Defined.

End AdpcmDataFacts.

(* ------------------------------------------------------------------------- *)
(** ** The envelope over its whole life *)
(* ------------------------------------------------------------------------- *)

Module EnvelopeLife.
Import Envelope.

(** The position of a phase in [enum phase]. *)
Definition phase_index (p : phase) : Z :=
  match p with
  | ep_attack => 0
  | ep_decay => 1
  | ep_sustain => 2
  | ep_release => 3
  | ep_stopped => 4
  end.

(** What the constructor puts into a configuration: a shift of five bits,
    and a step whose sign is the direction. *)
Definition config_ok (c : config) : Prop :=
  0 <= cfg_shift c <= 31 /\
  match cfg_direction c with
  | increase => 4 <= cfg_step c <= 7
  | decrease => -8 <= cfg_step c <= -5
  end.

Definition configs_ok (e : envelope) : Prop :=
  config_ok (cfg_attack e) /\ config_ok (cfg_decay e) /\
  config_ok (cfg_sustain e) /\ config_ok (cfg_release e).

(** The coarse wait and step of a cycle, before [calculate_cycle] breaks
    them into smaller pieces. *)
Definition coarse_wait (c : config) (volume : Z) : Z :=
  let wait := 2 ^ Z.max (cfg_shift c - 11) 0 in
  match cfg_method c, cfg_direction c with
  | exponential, increase => if volume >? 0x6000 then wait * 4 else wait
  | _, _ => wait
  end.

Definition coarse_step (c : config) (volume : Z) : Z :=
  let step := cfg_step c * 2 ^ Z.max (11 - cfg_shift c) 0 in
  match cfg_method c, cfg_direction c with
  | exponential, decrease => (step * volume) / 2 ^ 15
  | _, _ => step
  end.

(** The current step has the sign of the direction of the current phase. *)
Definition step_ok (e : envelope) : Prop :=
  m_phase e = ep_stopped \/
  match cfg_direction (m_config e (m_phase e)) with
  | increase => 0 <= m_cycle_step e <= 14336
  | decrease => -16384 <= m_cycle_step e <= 0
  end.

End EnvelopeLife.

Module EnvelopeLifeFacts.
Import Envelope EnvelopeFacts EnvelopeLife.

Lemma land_ones_range x k : 0 <= k -> 0 <= Z.land x (Z.ones k) <= Z.ones k.
Proof.
  intros Hk. rewrite Z.land_ones by exact Hk. rewrite Z.ones_equiv.
  pose proof (Z.mod_pos_bound x (2 ^ k) ltac:(apply Z.pow_pos_nonneg; lia)). lia.
Qed.

Lemma create_configs_ok spu_ads spu_sr : configs_ok (create spu_ads spu_sr).
Proof.
  pose proof (land_ones_range (Z.shiftr spu_ads 10) 5 ltac:(lia)) as H1.
  pose proof (land_ones_range (Z.shiftr spu_ads 8) 2 ltac:(lia)) as H2.
  pose proof (land_ones_range (Z.shiftr spu_ads 4) 4 ltac:(lia)) as H3.
  pose proof (land_ones_range (Z.shiftr spu_sr 8) 5 ltac:(lia)) as H4.
  pose proof (land_ones_range (Z.shiftr spu_sr 6) 2 ltac:(lia)) as H5.
  pose proof (land_ones_range spu_sr 5 ltac:(lia)) as H6.
  change (Z.ones 5) with 0x1f in *. change (Z.ones 2) with 0x03 in *.
  change (Z.ones 4) with 0x0f in *.
  unfold configs_ok, config_ok, create, attack_config, decay_config,
    sustain_config, release_config.
  cbn [cfg_attack cfg_decay cfg_sustain cfg_release cfg_shift cfg_step cfg_direction].
  repeat split; try lia.
  all: destruct (Z.land spu_sr 16384 =? 0); lia.
Qed.

Lemma wrap_signed_unsigned x : to_int32 (to_uint32 x) = to_int32 x.
Proof.
  unfold to_int32, to_uint32, wrap_signed, wrap_unsigned.
  change (32 - 1) with 31. rewrite Z.add_mod_idemp_l by lia. reflexivity.
Qed.

(** The shifted step of [calculate_cycle], which the source computes on the
    unsigned pattern of the step. *)
Lemma step_shift c :
  config_ok c ->
  to_int32 (to_uint32 (Z.shiftl (to_uint32 (cfg_step c)) (Z.max (11 - cfg_shift c) 0)))
  = cfg_step c * 2 ^ Z.max (11 - cfg_shift c) 0 /\
  -16384 <= cfg_step c * 2 ^ Z.max (11 - cfg_shift c) 0 <= 14336 /\
  match cfg_direction c with
  | increase => 0 < cfg_step c * 2 ^ Z.max (11 - cfg_shift c) 0
  | decrease => cfg_step c * 2 ^ Z.max (11 - cfg_shift c) 0 < 0
  end.
Proof.
  intros [Hshift Hstep].
  set (k := Z.max (11 - cfg_shift c) 0).
  assert (Hk : 0 <= k <= 11) by lia.
  assert (Hp : 1 <= 2 ^ k <= 2048).
  { split; [pose proof (Z.pow_pos_nonneg 2 k); lia|].
    change 2048 with (2 ^ 11). apply Z.pow_le_mono_r; lia. }
  assert (Hs : -8 <= cfg_step c <= 7) by (destruct (cfg_direction c); lia).
  split; [|split].
  - rewrite wrap_signed_unsigned, Z.shiftl_mul_pow2 by lia.
    unfold to_uint32, wrap_unsigned, to_int32, wrap_signed. change (32 - 1) with 31.
    rewrite <- Z.add_mod_idemp_l, Z.mul_mod_idemp_l, Z.add_mod_idemp_l by lia.
    rewrite Z.mod_small by nia. lia.
  - nia.
  - destruct (cfg_direction c); nia.
Qed.

Lemma wait_shift c :
  config_ok c ->
  to_uint32 (Z.shiftl 1 (Z.max (cfg_shift c - 11) 0)) = 2 ^ Z.max (cfg_shift c - 11) 0 /\
  1 <= 2 ^ Z.max (cfg_shift c - 11) 0 <= 2 ^ 20.
Proof.
  intros [Hshift _].
  set (k := Z.max (cfg_shift c - 11) 0).
  assert (Hp : 1 <= 2 ^ k <= 2 ^ 20).
  { split; [pose proof (Z.pow_pos_nonneg 2 k); lia | apply Z.pow_le_mono_r; lia]. }
  split; [|exact Hp].
  rewrite Z.shiftl_mul_pow2, Z.mul_1_l by lia.
  unfold to_uint32. apply wrap_unsigned_id. change (2 ^ 20) with 1048576 in Hp. lia.
Qed.

Lemma even_halves x : Z.land x 1 = 0 -> 2 * Z.shiftr x 1 = x.
Proof.
  intros Hev. change 1 with (Z.ones 1) in Hev.
  rewrite Z.land_ones in Hev by lia. change (2 ^ 1) with 2 in Hev.
  rewrite Z.shiftr_div_pow2 by lia. change (2 ^ 1) with 2.
  pose proof (Z.div_mod x 2 ltac:(lia)). lia.
Qed.

(** The decomposition loop keeps the length of a cycle and its total
    step. *)
Lemma decompose_products fuel : forall repeats wait step,
  0 < repeats -> 0 < wait -> repeats * wait < 2 ^ 32 ->
  let '(repeats', wait', step') := decompose fuel repeats wait step in
  repeats' * wait' = repeats * wait /\
  repeats' * step' = repeats * step /\
  0 < repeats' /\ 0 < wait'.
Proof.
  induction fuel as [|fuel IH]; intros repeats wait step Hr Hw Hfit.
  - cbn [decompose]. repeat split; assumption.
  - cbn [decompose].
    destruct ((Z.land wait 1 =? 0) && negb (step =? 0) && (Z.land step 1 =? 0)) eqn:E.
    2:{ repeat split; assumption. }
    apply andb_prop in E as [E E3]. apply andb_prop in E as [E1 _].
    apply Z.eqb_eq in E1, E3.
    pose proof (even_halves wait E1) as Hw2. pose proof (even_halves step E3) as Hs2.
    assert (Hr2 : to_uint32 (Z.shiftl repeats 1) = 2 * repeats).
    { rewrite Z.shiftl_mul_pow2 by lia. change (2 ^ 1) with 2.
      unfold to_uint32. rewrite wrap_unsigned_id; nia. }
    rewrite Hr2.
    specialize (IH (2 * repeats) (Z.shiftr wait 1) (Z.shiftr step 1)
                  ltac:(lia) ltac:(lia) ltac:(nia)).
    destruct (decompose fuel (2 * repeats) (Z.shiftr wait 1) (Z.shiftr step 1))
      as [[r' w'] s'].
    destruct IH as (I1 & I2 & I3 & I4). repeat split; try assumption; nia.
Qed.

Lemma calculate_cycle_closed e :
  configs_ok e -> volume_ok e ->
  let c := m_config e (m_phase e) in
  let e' := calculate_cycle e in
  m_cycle_repeats e' * m_cycle_wait e' = coarse_wait c (m_volume e) /\
  m_cycle_repeats e' * m_cycle_step e' = coarse_step c (m_volume e) /\
  m_cycle_current_wait e' = m_cycle_wait e' /\
  0 < m_cycle_repeats e' /\ 0 < m_cycle_wait e' /\
  loop_condition (m_cycle_wait e') (m_cycle_step e') = false.
Proof.
  intros Hcfg Hvol c e'.
  assert (Hc : config_ok c).
  { unfold c, m_config. destruct Hcfg as (A & B & C & D).
    destruct (m_phase e); assumption. }
  destruct (step_shift c Hc) as (Hstep & Hsr & _).
  destruct (wait_shift c Hc) as (Hwait & Hwr).
  change (2 ^ 20) with 1048576 in Hwr.
  pose proof (calculate_cycle_loop_done e) as Hdone. fold e' in Hdone.
  assert (Hgen : forall w s, 0 < w -> w < 2 ^ 32 ->
            let e2 := (let '(repeats, wait, step) := decompose 32 1 w s in
                       mk_envelope (cfg_attack e) (cfg_decay e) (cfg_sustain e)
                         (cfg_release e) (m_phase e) (m_volume e) repeats wait wait step) in
            m_cycle_repeats e2 * m_cycle_wait e2 = w /\
            m_cycle_repeats e2 * m_cycle_step e2 = s /\
            m_cycle_current_wait e2 = m_cycle_wait e2 /\
            0 < m_cycle_repeats e2 /\ 0 < m_cycle_wait e2).
  { intros w s Hw Hw'.
    pose proof (decompose_products 32 1 w s ltac:(lia) Hw ltac:(lia)) as Hd.
    destruct (decompose 32 1 w s) as [[r' w'] s'].
    cbn [m_cycle_repeats m_cycle_wait m_cycle_step m_cycle_current_wait].
    destruct Hd as (D1 & D2 & D3 & D4). repeat split; try assumption; lia. }
  enough (H : m_cycle_repeats e' * m_cycle_wait e' = coarse_wait c (m_volume e) /\
              m_cycle_repeats e' * m_cycle_step e' = coarse_step c (m_volume e) /\
              m_cycle_current_wait e' = m_cycle_wait e' /\
              0 < m_cycle_repeats e' /\ 0 < m_cycle_wait e').
  { destruct H as (H1 & H2 & H3 & H4 & H5). repeat split; assumption. }
  unfold e', calculate_cycle, coarse_wait, coarse_step. fold c.
  rewrite Hstep, Hwait.
  destruct (cfg_method c).
  - apply Hgen; lia.
  - destruct (cfg_direction c).
    + destruct (m_volume e >? 24576).
      * unfold to_uint32. rewrite wrap_unsigned_id by lia. apply Hgen; lia.
      * apply Hgen; lia.
    + unfold to_int32. unfold volume_ok in Hvol.
      rewrite wrap_signed_id by nia.
      rewrite Z.shiftr_div_pow2 by lia. apply Hgen; lia.
Qed.

(** X: [calculate_cycle] in closed form.  The loop that breaks a cycle
    into smaller pieces keeps its length ([repeats * wait]) and its total
    step ([repeats * step]); the pieces are as small as halving allows. *)
Theorem calculate_cycle_keeps_length_and_step e :
  configs_ok e -> volume_ok e ->
  let c := m_config e (m_phase e) in
  let e' := calculate_cycle e in
  m_cycle_repeats e' * m_cycle_wait e' = coarse_wait c (m_volume e) /\
  m_cycle_repeats e' * m_cycle_step e' = coarse_step c (m_volume e) /\
  m_cycle_current_wait e' = m_cycle_wait e' /\
  0 < m_cycle_repeats e' /\ 0 < m_cycle_wait e' /\
  loop_condition (m_cycle_wait e') (m_cycle_step e') = false.
Proof. exact (calculate_cycle_closed e). Qed.

Lemma calculate_cycle_keeps_length_and_step_witness :
  let e := create 0x1f00 0 in
  configs_ok e /\ volume_ok e /\
  m_cycle_repeats (calculate_cycle e) * m_cycle_wait (calculate_cycle e)
  = coarse_wait (m_config e (m_phase e)) (m_volume e).
Proof.
  intros e.
  assert (H1 : configs_ok e) by (unfold configs_ok, config_ok; cbn; lia).
  assert (H2 : volume_ok e) by (unfold volume_ok; cbn; lia).
  split; [exact H1|]. split; [exact H2|].
  exact (proj1 (calculate_cycle_keeps_length_and_step e H1 H2)).
Defined.

(** *** Phases *)

Lemma next_phase_index e :
  phase_index (m_phase e) <= phase_index (m_phase (snd (next e))).
Proof.
  unfold next. destruct (is_running e); [|cbn [snd]; lia].
  destruct (_ =? 0); [|cbn [snd set_cycle m_phase]; lia].
  destruct (_ >? 0); [cbn [snd set_cycle m_phase]; lia|].
  cbn [snd].
  match goal with |- context [reached ?x] => set (e1 := x) end.
  assert (H1 : m_phase e1 = m_phase e) by reflexivity.
  assert (H2 : phase_index (m_phase e) <= phase_index (next_phase (m_phase e)))
    by (destruct (m_phase e); cbn; lia).
  destruct (reached e1).
  - destruct (negb _);
      rewrite ?(proj1 (proj2 (calculate_cycle_keeps _)));
      cbn [set_phase m_phase]; rewrite H1; exact H2.
  - destruct (negb _);
      rewrite ?(proj1 (proj2 (calculate_cycle_keeps _))); rewrite H1; lia.
Qed.

Lemma release_phase e :
  m_phase (release e) = if is_running e then ep_release else m_phase e.
Proof.
  unfold release, is_running. destruct (negb _); [|reflexivity].
  rewrite (proj1 (proj2 (calculate_cycle_keeps _))). reflexivity.
Qed.

Lemma release_phase_index e :
  phase_index (m_phase e) <= phase_index (m_phase (release e)).
Proof.
  rewrite release_phase. unfold is_running.
  destruct (m_phase e); cbn; lia.
Qed.

(** X: the phases are passed in order.  Whatever the caller does, the
    envelope never returns to an earlier phase: attack, decay, sustain,
    release, stopped. *)
Theorem phase_never_goes_back calls e :
  phase_index (m_phase e) <= phase_index (m_phase (snd (run calls e))).
Proof.
  revert e. induction calls as [|c calls IH]; intros e; [cbn; lia|].
  destruct c; cbn [run].
  - pose proof (next_phase_index e) as Hn.
    destruct (next e) as [[s live] e1]. cbn [snd] in Hn.
    specialize (IH e1). destruct (run calls e1) as [o e2]. cbn [snd] in *. lia.
  - pose proof (release_phase_index e). specialize (IH (release e)). lia.
Qed.

(** *** The stopped envelope *)

(** The assertion at the head of [next]. *)
Definition stopped_silent (e : envelope) : Prop :=
  m_phase e = ep_stopped -> m_volume e = 0.

Definition release_target (e : envelope) : Prop :=
  cfg_direction (cfg_release e) = decrease /\ cfg_target (cfg_release e) = 0.

Lemma next_stopped_silent e :
  volume_ok e -> release_target e -> stopped_silent e -> stopped_silent (snd (next e)).
Proof.
  intros Hv [Hd Ht] Hs. unfold next.
  destruct (is_running e) eqn:Hrun; [|exact Hs].
  assert (Hp : m_phase e <> ep_stopped).
  { intros H. unfold is_running in Hrun. rewrite H in Hrun. discriminate. }
  destruct (_ =? 0); [|intros H; exact (False_ind _ (Hp H))].
  pose proof (clamp_range (to_int32 (m_volume e + m_cycle_step e)) 0 0x7fff
                ltac:(lia)) as Hc.
  destruct (_ >? 0); [intros H; exact (False_ind _ (Hp H))|].
  cbn [snd].
  match goal with |- context [reached ?x] => set (e1 := x) end.
  assert (H1 : m_phase e1 = m_phase e) by reflexivity.
  assert (Hv1 : 0 <= m_volume e1) by (apply Hc).
  unfold stopped_silent.
  destruct (reached e1) eqn:Hr.
  - destruct (negb _) eqn:Hn.
    + rewrite (proj1 (proj2 (calculate_cycle_keeps _))).
      intros H. rewrite H in Hn. discriminate.
    + cbn [set_phase m_phase m_volume]. rewrite H1. intros H.
      assert (Hrel : m_phase e = ep_release).
      { revert H Hp. destruct (m_phase e); cbn; congruence. }
      unfold reached in Hr. rewrite H1, Hrel in Hr. cbn [m_config] in Hr.
      change (cfg_release e1) with (cfg_release e) in Hr.
      rewrite Hd, Ht in Hr. apply Z.leb_le in Hr. lia.
  - destruct (negb _) eqn:Hn.
    + rewrite (proj1 (proj2 (calculate_cycle_keeps _))).
      intros H. rewrite H in Hn. discriminate.
    + rewrite H1. intros H. exact (False_ind _ (Hp H)).
Qed.

Lemma release_stopped_silent e : stopped_silent e -> stopped_silent (release e).
Proof.
  intros Hs. unfold stopped_silent. rewrite release_phase.
  destruct (release_keeps e) as [_ Hv]. rewrite Hv.
  unfold is_running. destruct (m_phase e) eqn:E; cbn; try discriminate.
  intros _. apply Hs. exact E.
Qed.

Lemma run_stopped_silent calls : forall e,
  volume_ok e -> release_target e -> stopped_silent e ->
  stopped_silent (snd (run calls e)).
Proof.
  induction calls as [|c calls IH]; intros e Hv Ht Hs; [exact Hs|].
  destruct c; cbn [run].
  - pose proof (next_stopped_silent e Hv Ht Hs) as Hs'.
    pose proof (next_volume_ok e Hv) as Hv'.
    pose proof (next_same_configs e) as (_ & _ & _ & Hc).
    destruct (next e) as [[s live] e1]. cbn [snd] in *.
    specialize (IH e1 Hv' ltac:(unfold release_target; rewrite Hc; exact Ht) Hs').
    destruct (run calls e1) as [o e2]. exact IH.
  - destruct (release_keeps e) as [(_ & _ & _ & Hc) Hvol].
    apply IH.
    + unfold volume_ok. rewrite Hvol. exact Hv.
    + unfold release_target. rewrite Hc. exact Ht.
    + apply release_stopped_silent, Hs.
Qed.

Lemma stopped_next e : is_running e = false -> next e = (level (m_volume e), false, e).
Proof. intros H. unfold next. rewrite H. reflexivity. Qed.

Lemma stopped_release e : is_running e = false -> release e = e.
Proof.
  unfold release, is_running. intros H.
  destruct (phase_eqb (m_phase e) ep_stopped); [reflexivity | discriminate].
Qed.

Lemma stopped_run calls : forall e,
  is_running e = false ->
  run calls e = (repeat (level (m_volume e), false)
                        (length (filter (fun c => match c with
                                                  | call_next => true
                                                  | call_release => false
                                                  end) calls)), e).
Proof.
  induction calls as [|c calls IH]; intros e H; [reflexivity|].
  destruct c; cbn [run filter].
  - rewrite (stopped_next e H), (IH e H). reflexivity.
  - rewrite (stopped_release e H). apply IH, H.
Qed.

(** X: once stopped, always silent.  When an envelope made by the
    constructor has stopped, its volume is 0 (the assertion of [next]), and
    from then on every [next] returns 0 and false and [release] does
    nothing. *)
Theorem stopped_envelope_stays_silent spu_ads spu_sr calls more :
  let e := snd (run calls (create spu_ads spu_sr)) in
  is_running e = false ->
  m_volume e = 0 /\ (level 0 == 0)%Q /\
  run more e
  = (repeat (level 0, false)
            (length (filter (fun c => match c with
                                      | call_next => true
                                      | call_release => false
                                      end) more)), e).
Proof.
  intros e Hstop.
  assert (Hv : m_volume e = 0).
  { apply (run_stopped_silent calls (create spu_ads spu_sr)).
    - apply create_volume_ok.
    - split; reflexivity.
    - intros H. discriminate H.
    - fold e. unfold is_running in Hstop.
      destruct (m_phase e); try discriminate Hstop. reflexivity. }
  split; [exact Hv|]. split; [reflexivity|].
  rewrite (stopped_run more e Hstop), Hv. reflexivity.
Qed.

Lemma stopped_envelope_stays_silent_witness :
  let e := snd (run [call_release; call_next] (create 0 0)) in
  is_running e = false /\
  m_volume e = 0 /\
  run [call_next; call_next] e = ([(level 0, false); (level 0, false)], e).
Proof.
  intros e.
  assert (H : is_running e = false) by reflexivity.
  split; [exact H|].
  destruct (stopped_envelope_stays_silent 0 0 [call_release; call_next]
              [call_next; call_next] H) as (Hv & _ & Hr).
  split; [exact Hv | exact Hr].
Defined.

(** *** The direction of the volume *)

Lemma config_of_phase e : configs_ok e -> config_ok (m_config e (m_phase e)).
Proof.
  intros (A & B & C & D). unfold m_config. destruct (m_phase e); assumption.
Qed.

Lemma same_configs_ok e e' : same_configs e e' -> configs_ok e -> configs_ok e'.
Proof.
  intros (A & B & C & D) H. unfold configs_ok. rewrite A, B, C, D. exact H.
Qed.

Lemma calculate_cycle_step_ok e :
  configs_ok e -> volume_ok e -> step_ok (calculate_cycle e).
Proof.
  intros Hcfg Hvol. right.
  destruct (calculate_cycle_closed e Hcfg Hvol) as (_ & Hs & _ & Hr & _).
  destruct (calculate_cycle_keeps e) as ((A & B & C & D) & Hp & _).
  assert (Hc : m_config (calculate_cycle e) (m_phase (calculate_cycle e))
               = m_config e (m_phase e)).
  { rewrite Hp. unfold m_config. rewrite A, B, C, D. reflexivity. }
  rewrite Hc.
  destruct (step_shift _ (config_of_phase e Hcfg)) as (_ & Hb & Hsign).
  unfold coarse_step in Hs. unfold volume_ok in Hvol.
  set (s0 := cfg_step (m_config e (m_phase e))
             * 2 ^ Z.max (11 - cfg_shift (m_config e (m_phase e))) 0) in *.
  destruct (cfg_direction (m_config e (m_phase e))).
  - assert (Hs' : m_cycle_repeats (calculate_cycle e) * m_cycle_step (calculate_cycle e) = s0)
      by (destruct (cfg_method _); exact Hs).
    nia.
  - destruct (cfg_method _).
    + nia.
    + assert (Hq : s0 <= s0 * m_volume e / 2 ^ 15 <= 0).
      { split.
        - apply Z.div_le_lower_bound; [lia | nia].
        - apply Z.div_le_upper_bound; [lia | nia]. }
      nia.
Qed.

Lemma next_step_ok e :
  configs_ok e -> volume_ok e -> step_ok e -> step_ok (snd (next e)).
Proof.
  intros Hcfg Hvol Hs. unfold next.
  destruct (is_running e); [|exact Hs].
  destruct (_ =? 0); [|exact Hs].
  pose proof (clamp_range (to_int32 (m_volume e + m_cycle_step e)) 0 0x7fff
                ltac:(lia)) as Hc.
  destruct (_ >? 0); [exact Hs|].
  cbn [snd].
  match goal with |- context [reached ?x] => set (e1 := x) end.
  assert (Hc1 : configs_ok e1) by exact Hcfg.
  assert (Hv1 : volume_ok e1) by exact Hc.
  destruct (reached e1).
  - destruct (negb _) eqn:Hn.
    + apply calculate_cycle_step_ok; assumption.
    + left. apply negb_false_iff in Hn.
      destruct (m_phase (set_phase e1 (next_phase (m_phase e1)))); try discriminate Hn.
      reflexivity.
  - destruct (negb _) eqn:Hn.
    + apply calculate_cycle_step_ok; assumption.
    + left. apply negb_false_iff in Hn.
      destruct (m_phase e1); try discriminate Hn. reflexivity.
Qed.

Lemma release_step_ok e :
  configs_ok e -> volume_ok e -> step_ok e -> step_ok (release e).
Proof.
  intros Hcfg Hvol Hs. unfold release.
  destruct (negb _); [|exact Hs].
  apply calculate_cycle_step_ok; assumption.
Qed.

Lemma run_step_ok calls : forall e,
  configs_ok e -> volume_ok e -> step_ok e ->
  let e' := snd (run calls e) in
  configs_ok e' /\ volume_ok e' /\ step_ok e' /\ same_configs e e'.
Proof.
  induction calls as [|c calls IH]; intros e Hcfg Hvol Hs.
  - cbn. split; [exact Hcfg|]. split; [exact Hvol|]. split; [exact Hs|].
    apply same_configs_refl.
  - destruct c; cbn [run].
    + pose proof (next_step_ok e Hcfg Hvol Hs) as Hs'.
      pose proof (next_volume_ok e Hvol) as Hv'.
      pose proof (next_same_configs e) as Hc'.
      destruct (next e) as [[s live] e1]. cbn [snd] in *.
      specialize (IH e1 (same_configs_ok _ _ Hc' Hcfg) Hv' Hs').
      destruct (run calls e1) as [o e2]. cbn [snd] in *.
      destruct IH as (I1 & I2 & I3 & I4).
      split; [exact I1|]. split; [exact I2|]. split; [exact I3|].
      eapply same_configs_trans; eassumption.
    + destruct (release_keeps e) as [Hc' Hvol'].
      specialize (IH (release e) (same_configs_ok _ _ Hc' Hcfg)
                    ltac:(unfold volume_ok; rewrite Hvol'; exact Hvol)
                    (release_step_ok e Hcfg Hvol Hs)).
      cbn zeta in IH. destruct IH as (I1 & I2 & I3 & I4).
      split; [exact I1|]. split; [exact I2|]. split; [exact I3|].
      eapply same_configs_trans; eassumption.
Qed.

Lemma next_volume e :
  m_volume (snd (next e)) = m_volume e \/
  (is_running e = true /\
   m_volume (snd (next e))
   = clamp (to_int32 (m_volume e + m_cycle_step e)) 0 0x7fff).
Proof.
  unfold next. destruct (is_running e); [|left; reflexivity].
  destruct (_ =? 0); [|left; reflexivity].
  destruct (_ >? 0); [right; split; reflexivity|].
  right. split; [reflexivity|]. cbn [snd].
  match goal with |- context [reached ?x] => set (e1 := x) end.
  destruct (reached e1);
    destruct (negb _); rewrite ?(proj2 (proj2 (calculate_cycle_keeps _))); reflexivity.
Qed.

Lemma next_volume_direction e :
  volume_ok e -> step_ok e -> is_running e = true ->
  match cfg_direction (m_config e (m_phase e)) with
  | increase => m_volume e <= m_volume (snd (next e))
  | decrease => m_volume (snd (next e)) <= m_volume e
  end.
Proof.
  intros Hvol [Hstop | Hs] Hrun.
  { unfold is_running in Hrun. rewrite Hstop in Hrun. discriminate. }
  unfold volume_ok in Hvol.
  destruct (next_volume e) as [-> | [_ ->]].
  { destruct (cfg_direction _); lia. }
  destruct (cfg_direction _); unfold to_int32; rewrite wrap_signed_id by lia;
    unfold clamp;
    repeat match goal with |- context [?a <=? ?b] => destruct (Z.leb_spec a b) end;
    repeat match goal with |- context [?a >=? ?b] => destruct (Z.geb_spec a b) end;
    lia.
Qed.

(** X: within a phase the volume moves one way only.  For an envelope
    made by the constructor, a call of [next] never lowers the volume during
    attack, never raises it during decay and release, and during sustain
    follows the direction bit (0x4000) of the second register. *)
Theorem volume_moves_one_way spu_ads spu_sr calls :
  let e := snd (run calls (create spu_ads spu_sr)) in
  let v := m_volume e in
  let v' := m_volume (snd (next e)) in
  match m_phase e with
  | ep_attack => v <= v'
  | ep_decay | ep_release => v' <= v
  | ep_sustain => if Z.land spu_sr 0x4000 =? 0 then v <= v' else v' <= v
  | ep_stopped => v' = v
  end.
Proof.
  intros e v v'.
  destruct (run_step_ok calls (create spu_ads spu_sr)
              (create_configs_ok spu_ads spu_sr) (create_volume_ok spu_ads spu_sr)
              ltac:(right; cbn; lia)) as (Hcfg & Hvol & Hs & (A & B & C & D)).
  fold e in Hcfg, Hvol, Hs, A, B, C, D.
  pose proof (next_volume_direction e Hvol Hs) as Hdir.
  unfold v, v', is_running in *. unfold m_config in Hdir.
  destruct (m_phase e) eqn:Hp; cbn [phase_eqb negb] in Hdir.
  - rewrite A in Hdir. exact (Hdir eq_refl).
  - rewrite B in Hdir. exact (Hdir eq_refl).
  - rewrite C in Hdir. specialize (Hdir eq_refl).
    cbn [create cfg_sustain sustain_config cfg_direction] in Hdir.
    destruct (Z.land spu_sr 16384 =? 0); exact Hdir.
  - rewrite D in Hdir. exact (Hdir eq_refl).
  - unfold next, is_running. rewrite Hp. reflexivity.
Qed.

End EnvelopeLifeFacts.

(* ------------------------------------------------------------------------- *)
(** ** The music stream: time and position *)
(* ------------------------------------------------------------------------- *)

Module MusicStreamTime.
Import MusicStream.

(** [count] calls of [tick]. *)
Fixpoint ticks (count : nat) (st : music_stream) : music_stream :=
  match count with
  | O => st
  | Datatypes.S count' => tick (ticks count' st)
  end.

(** The value of a tick delta: seven bits from every byte, the first byte
    the most significant. *)
Definition delta_value (bs : list byte) : Z :=
  fold_left (fun acc b => acc * 128 + Z.land (u8 b) 0x7f) bs 0.

End MusicStreamTime.

Module MusicStreamTimeFacts.
Import MusicStream MusicStreamFacts MusicStreamTime.

Lemma tick_loop_spec fuel : forall caller fraction position,
  0 < caller -> 0 <= fraction < 2 ^ 32 -> 0 <= position ->
  position + fraction / caller < 2 ^ 32 ->
  (Z.to_nat (fraction / caller) < fuel)%nat ->
  tick_loop fuel caller fraction position
  = (fraction mod caller, position + fraction / caller).
Proof.
  induction fuel as [|fuel IH]; intros caller fraction position Hc Hf Hp Hfit Hfuel; [lia|].
  cbn [tick_loop]. destruct (Z.geb_spec fraction caller) as [Hge | Hlt].
  - assert (Hq : (fraction - caller) / caller = fraction / caller - 1).
    { replace (fraction - caller) with (fraction + (-1) * caller) by lia.
      rewrite Z.div_add by lia. lia. }
    assert (Hm : (fraction - caller) mod caller = fraction mod caller).
    { replace (fraction - caller) with (fraction + (-1) * caller) by lia.
      apply Z.mod_add. lia. }
    assert (1 <= fraction / caller) by (apply Z.div_le_lower_bound; lia).
    unfold to_uint32. rewrite !wrap_unsigned_id by lia.
    rewrite IH by (try rewrite Hq; lia).
    rewrite Hq, Hm. f_equal. lia.
  - rewrite Z.mod_small, Z.div_small by lia. f_equal. lia.
Qed.

Lemma tick_spec st :
  let caller := m_caller_ticks_per_minute st in
  let total := m_tick_fraction st + m_track_ticks_per_minute st in
  0 < caller -> 0 <= total < 2 ^ 32 -> 0 <= m_tick_position st ->
  m_tick_position st + total / caller < 2 ^ 32 ->
  tick st
  = mk_stream (m_track st) (m_position st) caller (m_track_ticks_per_minute st)
              (m_tick_position st + total / caller) (total mod caller)
              (m_next_event_time st).
Proof.
  intros caller total Hc Ht Hp Hfit. unfold tick. fold caller.
  unfold to_uint32 at 1 2. rewrite !wrap_unsigned_id by exact Ht. fold total.
  rewrite tick_loop_spec by (try assumption; lia). reflexivity.
Qed.

Lemma ticks_spec count : forall st,
  let caller := m_caller_ticks_per_minute st in
  let rate := m_track_ticks_per_minute st in
  let total := m_tick_position st * caller + m_tick_fraction st
               + Z.of_nat count * rate in
  0 < caller -> 0 <= rate -> caller + rate <= 2 ^ 32 ->
  0 <= m_tick_fraction st < caller -> 0 <= m_tick_position st ->
  total / caller < 2 ^ 32 ->
  ticks count st
  = mk_stream (m_track st) (m_position st) caller rate
              (total / caller) (total mod caller) (m_next_event_time st).
Proof.
  induction count as [|count IH]; intros st caller rate total Hc Hr Hfit Hf Hp Htot.
  - cbn [ticks].
    replace total with (m_tick_fraction st + m_tick_position st * caller)
      by (unfold total; lia).
    rewrite Z.div_add, Z.mod_add by lia.
    rewrite Z.div_small, Z.mod_small by lia. destruct st; reflexivity.
  - cbn [ticks].
    set (total' := m_tick_position st * caller + m_tick_fraction st
                   + Z.of_nat count * rate).
    assert (Ht' : 0 <= total' <= total) by (unfold total', total; nia).
    assert (Hd : total' / caller <= total / caller) by (apply Z.div_le_mono; lia).
    rewrite IH by (try assumption; fold caller rate total'; lia).
    fold caller rate total'.
    pose proof (Z.mod_pos_bound total' caller Hc) as Hm.
    pose proof (Z.div_pos total' caller ltac:(lia) Hc) as Hq.
    assert (Hsplit : total = (total' mod caller + rate) + (total' / caller) * caller).
    { pose proof (Z.div_mod total' caller ltac:(lia)). unfold total, total' in *. lia. }
    assert (Hdiv : total / caller = total' / caller + (total' mod caller + rate) / caller).
    { rewrite Hsplit at 1. rewrite Z.div_add by lia. lia. }
    assert (Hmod : total mod caller = (total' mod caller + rate) mod caller).
    { rewrite Hsplit at 1. apply Z.mod_add. lia. }
    rewrite tick_spec;
      cbn [m_track m_position m_caller_ticks_per_minute m_track_ticks_per_minute
           m_tick_position m_tick_fraction m_next_event_time]; try lia.
    rewrite Hdiv, Hmod. reflexivity.
Qed.

(** X: [tick] keeps exact time.  After any number of caller ticks the track
    position is the whole part, and the fraction the remainder, of the
    elapsed track time: rounding errors never accumulate. *)
Theorem ticks_keep_exact_time (count : nat) st :
  let caller := m_caller_ticks_per_minute st in
  let rate := m_track_ticks_per_minute st in
  let total := m_tick_position st * caller + m_tick_fraction st
               + Z.of_nat count * rate in
  0 < caller -> 0 <= rate -> caller + rate <= 2 ^ 32 ->
  0 <= m_tick_fraction st < caller -> 0 <= m_tick_position st ->
  total / caller < 2 ^ 32 ->
  m_tick_position (ticks count st) = total / caller /\
  m_tick_fraction (ticks count st) = total mod caller /\
  m_position (ticks count st) = m_position st /\
  m_next_event_time (ticks count st) = m_next_event_time st.
Proof.
  intros caller rate total Hc Hr Hfit Hf Hp Htot.
  rewrite (ticks_spec count st Hc Hr Hfit Hf Hp Htot). repeat split.
Qed.

Lemma ticks_keep_exact_time_witness :
  let st := mk_stream sample_track 0 2646000 14400 0 0 0 in
  m_tick_position (ticks 1000 st) = 1000 * 14400 / 2646000 /\
  m_tick_fraction (ticks 1000 st) = (1000 * 14400) mod 2646000.
Proof.
  intros st.
  assert (H1 : 0 < 2646000) by reflexivity.
  assert (H2 : 0 <= 14400) by discriminate.
  assert (H3 : 2646000 + 14400 <= 2 ^ 32) by discriminate.
  assert (H4 : 0 <= 0 < 2646000) by (split; [discriminate | reflexivity]).
  assert (H5 : 0 <= 0) by discriminate.
  assert (H6 : (0 * 2646000 + 0 + Z.of_nat 1000 * 14400) / 2646000 < 2 ^ 32) by reflexivity.
  destruct (ticks_keep_exact_time 1000 st H1 H2 H3 H4 H5 H6) as (A & B & _).
  split; [exact A | exact B].
Defined.

(** *** The value of a tick delta *)

Lemma lor_low d x : 0 <= d -> 0 <= x < 128 -> Z.lor (Z.shiftl d 7) x = d * 128 + x.
Proof.
  intros Hd Hx.
  assert (Hland : Z.land (Z.shiftl d 7) x = 0).
  { apply Z.bits_inj'. intros n Hn. rewrite Z.land_spec, Z.bits_0.
    destruct (Z.lt_ge_cases n 7) as [Hlt | Hge].
    - rewrite Z.shiftl_spec_low by exact Hlt. reflexivity.
    - destruct (Z.eq_dec x 0) as [-> | Hne]; [rewrite Z.bits_0; apply andb_false_r|].
      rewrite (Z.bits_above_log2 x n), andb_false_r; [reflexivity | lia |].
      apply Z.log2_lt_pow2; [lia|].
      apply Z.lt_le_trans with (2 ^ 7); [exact (proj2 Hx) | apply Z.pow_le_mono_r; lia]. }
  rewrite <- Z.lxor_lor by exact Hland.
  rewrite <- Z.add_nocarry_lxor by exact Hland.
  rewrite Z.shiftl_mul_pow2 by lia. reflexivity.
Qed.

Lemma low_seven b : 0 <= Z.land (u8 b) 0x7f < 128.
Proof.
  change 0x7f with (Z.ones 7). rewrite Z.land_ones by lia.
  apply Z.mod_pos_bound. reflexivity.
Qed.

Definition delta_step (acc : Z) (b : byte) : Z := acc * 128 + Z.land (u8 b) 0x7f.

Lemma get_delta_loop_value cont : forall fuel acc st last rest,
  wf st ->
  skipn (Z.to_nat (m_position st)) (bytes st) = cont ++ last :: rest ->
  Forall (fun b => (Z.land (u8 b) 0x80 =? 0) = false) cont ->
  Z.land (u8 last) 0x80 = 0 ->
  0 <= acc -> (acc + 1) * 128 ^ Z.of_nat (length cont + 1) <= 2 ^ 32 ->
  (length cont < fuel)%nat ->
  get_delta_loop fuel acc st
  = Ok (fold_left delta_step (cont ++ [last]) acc,
        with_position st (m_position st + Z.of_nat (length cont) + 1)).
Proof.
  induction cont as [|c cont IH];
    intros fuel acc st last rest Hwf Hbytes Hcont Hlast Hacc Hfit Hfuel.
  - destruct fuel as [|fuel]; [cbn in Hfuel; lia|].
    cbn [app] in Hbytes.
    assert (Hlen : m_position st < size st).
    { destruct (Z.lt_ge_cases (m_position st) (size st)) as [H | H]; [exact H|].
      unfold size, bytes in *. rewrite skipn_all2 in Hbytes by lia. discriminate. }
    cbn [get_delta_loop]. unfold bind. rewrite get_byte_eq by exact Hwf.
    destruct (Z.ltb_spec (m_position st) (size st)); [|lia].
    assert (Hb : byte_at (bytes st) (m_position st) = u8 last).
    { unfold byte_at. unfold size, bytes in *. destruct Hwf as [Hp _].
      rewrite (skipn_at _ (Z.to_nat (m_position st))) in Hbytes by lia.
      injection Hbytes as -> _. reflexivity. }
    rewrite Hb, Hlast. cbn [Z.eqb negb length Z.of_nat app fold_left].
    unfold ret, delta_step. rewrite lor_low by (try apply low_seven; lia).
    unfold to_uint32. rewrite wrap_unsigned_id.
    + do 3 f_equal. lia.
    + pose proof (low_seven last). cbn [length Nat.add Z.of_nat] in Hfit.
      change (128 ^ Z.pos 1) with 128 in Hfit. lia.
  - destruct fuel as [|fuel]; [cbn in Hfuel; lia|].
    cbn [app] in Hbytes.
    assert (Hlen : m_position st < size st).
    { destruct (Z.lt_ge_cases (m_position st) (size st)) as [H | H]; [exact H|].
      unfold size, bytes in *. rewrite skipn_all2 in Hbytes by lia. discriminate. }
    cbn [get_delta_loop]. unfold bind. rewrite get_byte_eq by exact Hwf.
    destruct (Z.ltb_spec (m_position st) (size st)); [|lia].
    pose proof Hwf as [Hp Hs].
    assert (Hb : byte_at (bytes st) (m_position st) = u8 c /\
                 skipn (Z.to_nat (m_position st + 1)) (bytes st) = cont ++ last :: rest).
    { unfold byte_at. unfold size, bytes in *.
      rewrite (skipn_at _ (Z.to_nat (m_position st))) in Hbytes by lia.
      injection Hbytes as -> Hrest.
      replace (Z.to_nat (m_position st + 1)) with (Datatypes.S (Z.to_nat (m_position st)))
        by lia.
      split; [reflexivity | exact Hrest]. }
    destruct Hb as [Hb Hrest]. rewrite Hb.
    inversion Hcont as [|? ? Hc Hcont']; subst.
    rewrite Hc. cbn [negb].
    rewrite lor_low by (try apply low_seven; lia).
    pose proof (low_seven c) as H7.
    assert (Hpow : 128 ^ Z.of_nat (length (c :: cont) + 1)
                   = 128 * 128 ^ Z.of_nat (length cont + 1)).
    { cbn [length Nat.add]. rewrite (Nat2Z.inj_succ (length cont + 1)), Z.pow_succ_r by lia.
      reflexivity. }
    rewrite Hpow in Hfit.
    assert (Hpos : 0 < 128 ^ Z.of_nat (length cont + 1)) by (apply Z.pow_pos_nonneg; lia).
    unfold to_uint32. rewrite wrap_unsigned_id by nia.
    set (st' := with_position st (m_position st + 1)).
    rewrite (IH fuel _ st' last rest).
    + cbn [app fold_left length]. unfold delta_step at 3.
      do 2 f_equal. unfold st', with_position. cbn [m_position m_track
        m_caller_ticks_per_minute m_track_ticks_per_minute m_tick_position
        m_tick_fraction m_next_event_time]. f_equal. lia.
    + apply with_position_wf; [exact Hwf | lia].
    + exact Hrest.
    + exact Hcont'.
    + exact Hlast.
    + lia.
    + nia.
    + cbn [length] in Hfuel. lia.
Qed.

(** X: a tick delta is read as groups of seven bits, most significant
    group first; a byte with its top bit set is followed by another.  A
    delta of up to four bytes is returned exactly, and the position moves
    behind its last byte. *)
Theorem get_delta_reads_seven_bit_groups st cont last rest :
  wf st ->
  skipn (Z.to_nat (m_position st)) (bytes st) = cont ++ last :: rest ->
  Forall (fun b => (Z.land (u8 b) 0x80 =? 0) = false) cont ->
  Z.land (u8 last) 0x80 = 0 ->
  (length cont <= 3)%nat ->
  get_delta st
  = Ok (delta_value (cont ++ [last]),
        with_position st (m_position st + Z.of_nat (length cont) + 1)).
Proof.
  intros Hwf Hbytes Hcont Hlast Hlen. unfold get_delta, delta_value.
  apply (get_delta_loop_value cont _ 0 st last rest); try assumption; try lia.
  - assert (H : 128 ^ Z.of_nat (length cont + 1) <= 128 ^ 4)
      by (apply Z.pow_le_mono_r; lia).
    change (128 ^ 4) with 268435456 in H. lia.
  - assert (Hl : (length (skipn (Z.to_nat (m_position st)) (bytes st))
                  = length cont + S (length rest))%nat)
      by (rewrite Hbytes, length_app; reflexivity).
    rewrite length_skipn in Hl. unfold get_delta_fuel, size, bytes in *.
    destruct Hwf as [Hp _]. lia.
Qed.

Lemma get_delta_reads_seven_bit_groups_witness :
  let st := mk_stream (mk_track 0 120 120 false 0 (bytes_of [0x81; 0x00; 0x22]))
                      0 2646000 14400 0 0 0 in
  get_delta st = Ok (128, with_position st 2).
Proof.
  intros st.
  assert (Hwf : wf st) by (unfold wf; cbn; lia).
  assert (Hc : Forall (fun b => (Z.land (u8 b) 0x80 =? 0) = false) [byte_of_Z 0x81])
    by (repeat constructor).
  assert (Hl : (length [byte_of_Z 0x81] <= 3)%nat) by (cbn; lia).
  exact (get_delta_reads_seven_bit_groups st [byte_of_Z 0x81] (byte_of_Z 0x00)
           [byte_of_Z 0x22] Hwf eq_refl Hc eq_refl Hl).
Defined.

(** *** Progress of the parser *)

Definition same_clock (st st' : music_stream) : Prop :=
  m_track st' = m_track st /\
  m_caller_ticks_per_minute st' = m_caller_ticks_per_minute st /\
  m_track_ticks_per_minute st' = m_track_ticks_per_minute st /\
  m_tick_position st' = m_tick_position st /\
  m_tick_fraction st' = m_tick_fraction st.

Lemma get_event_progress st ev st' :
  wf st -> get_event st = Ok (Some ev, st') ->
  wf st' /\ m_position st < m_position st' <= size st /\ same_clock st st'.
Proof.
  intros Hwf. pose proof Hwf as [Hp Hs].
  destruct (have_event st) eqn:Hh.
  2:{ unfold get_event. rewrite Hh. discriminate. }
  rewrite (get_event_due st Hwf Hh).
  assert (Hlt : m_position st < size st).
  { unfold have_event in Hh. apply andb_prop in Hh as [H _]. apply Z.ltb_lt in H. exact H. }
  set (st1 := with_position st (m_position st + 1)).
  assert (Hwf1 : wf st1) by (apply with_position_wf; [exact Hwf | lia]).
  pose proof (read_event_spec (byte_at (bytes st) (m_position st)) st1 Hwf1) as Hr.
  unfold bind at 1.
  destruct (payload_size (byte_at (bytes st) (m_position st))) as [n|] eqn:En.
  2:{ rewrite Hr. discriminate. }
  pose proof (payload_size_range _ _ En) as Hn.
  change (m_position st1) with (m_position st + 1) in Hr.
  change (size st1) with (size st) in Hr.
  destruct (Z.leb_spec (m_position st + 1 + n) (size st)) as [Hfit | Hover].
  2:{ rewrite Hr. discriminate. }
  destruct Hr as (ev' & -> & _).
  set (p2 := if byte_at (bytes st) (m_position st) =? 34 then size st
             else m_position st + 1 + n).
  assert (Hp2 : m_position st < p2 <= size st).
  { unfold p2. destruct (_ =? 34); lia. }
  set (st2 := with_position st1 p2).
  assert (Hwf2 : wf st2)
    by (apply with_position_wf; [exact Hwf1 | change (size st1) with (size st); lia]).
  unfold bind at 1.
  change (m_position st2) with p2. change (size st2) with (size st).
  destruct (Z.ltb_spec p2 (size st)) as [Hmore | Hend].
  - pose proof (get_delta_spec st2 Hwf2) as Hd. unfold bind at 1.
    destruct (delta_ends (bytes st2) (m_position st2)).
    + destruct Hd as (d & pos' & -> & Hpos). change (m_position st2) with p2 in Hpos.
      change (size st2) with (size st) in Hpos.
      unfold set_next_event_time, ret. intros [= _ <-].
      split; [split; [change (0 <= pos' <= size st); lia
                     | change (size st < 2 ^ 63); exact Hs]|].
      split; [change (m_position st < pos' <= size st); lia | repeat split].
    + rewrite Hd. discriminate.
  - unfold ret. intros [= _ <-].
    split; [exact Hwf2|]. split; [exact Hp2 | repeat split].
Qed.

(** X: every event that [get_event] returns consumes input.  One call that
    returns an event moves the position strictly forward and leaves it
    inside the data; the track and the clock of the stream are left alone.
    This is a statement about one call: [seek] moves the position back, and
    [track_player::next] calls it between two calls of [get_event] when it
    jumps to the repeat point. *)
Theorem get_event_consumes_input st ev st' :
  wf st -> get_event st = Ok (Some ev, st') ->
  wf st' /\ m_position st < m_position st' <= size st /\
  m_track st' = m_track st /\
  m_tick_position st' = m_tick_position st /\
  m_tick_fraction st' = m_tick_fraction st.
Proof.
  intros Hwf He.
  destruct (get_event_progress st ev st' Hwf He) as (H1 & H2 & H3 & _ & _ & H4 & H5).
  repeat split; try assumption; try apply H1; apply H2.
Qed.

Lemma get_event_consumes_input_witness :
  let st := mk_stream sample_track 1 2646000 14400 0 0 0 in
  let st' := mk_stream sample_track 5 2646000 14400 0 0 0 in
  get_event st = Ok (Some (mk_event note_on 60 127), st') /\
  m_position st < m_position st' <= size st.
Proof.
  intros st st'.
  assert (Hwf : wf st) by (unfold wf; cbn; lia).
  assert (He : get_event st = Ok (Some (mk_event note_on 60 127), st')) by reflexivity.
  split; [exact He|].
  exact (proj1 (proj2 (get_event_consumes_input st _ st' Hwf He))).
Defined.

End MusicStreamTimeFacts.

(* ------------------------------------------------------------------------- *)
(** ** resampler.h: the linear resampler *)
(* ------------------------------------------------------------------------- *)

Module Linear.

(** The source module: the samples still to come; a module that has
    stopped sets the sample to 0 and returns false. *)
Definition source_next (src : list mono_t) : mono_t * bool * list mono_t :=
  match src with
  | [] => (0%Q, false, [])
  | x :: rest => (x, true, rest)
  end.

Record resampler_linear : Type := mk_linear {
  m_source : list mono_t;
  m_rate_in : Z;                  (* uint32_t *)
  m_rate_out : Z;                 (* uint32_t *)
  m_fractional_position : Z;      (* uint32_t *)
  m_sample_buffer_0 : mono_t;
  m_sample_buffer_1 : mono_t;
  m_last_live_sample : Z          (* int *)
}.

(** The constructor: two samples are read, whether the source has them or
    not. *)
Definition create (source : list mono_t) (rate_in rate_out : Z) : resampler_linear :=
  let '(b0, _, src) := source_next source in
  let '(b1, _, src') := source_next src in
  mk_linear src' rate_in rate_out 0 b0 b1 1.

Definition is_running (r : resampler_linear) : bool := m_last_live_sample r >=? 0.

(** The waveform at [fraction / step] of the way between two samples. *)
Definition interpolate (fraction step : Z) (b0 b1 : mono_t) : mono_t :=
  if fraction =? 0 then b0
  else
    let pos := (inject_Z fraction / inject_Z step)%Q in
    ((1 - pos) * b0 + pos * b1)%Q.

(** The [while] loop of [next]: one source sample for every whole step in
    the fractional position, as long as a live sample is left. *)
Fixpoint replenish (fuel : nat) (step : Z) (r : resampler_linear) : resampler_linear :=
  match fuel with
  | O => r
  | S fuel' =>
      if (m_fractional_position r >=? step) && (m_last_live_sample r >=? 0) then
        let '(x, live, src) := source_next (m_source r) in
        replenish fuel' step
          (mk_linear src (m_rate_in r) (m_rate_out r)
                     (to_uint32 (m_fractional_position r - step))
                     (m_sample_buffer_1 r) x
                     (if live then m_last_live_sample r
                      else to_int32 (m_last_live_sample r - 1)))
      else r
  end.

Definition next (r : resampler_linear) : mono_t * bool * resampler_linear :=
  if m_last_live_sample r <? 0 then (0%Q, false, r)
  else
    let step := m_rate_out r in
    let s := interpolate (m_fractional_position r) step
                         (m_sample_buffer_0 r) (m_sample_buffer_1 r) in
    let fraction := to_uint32 (m_fractional_position r + m_rate_in r) in
    let r' := mk_linear (m_source r) (m_rate_in r) (m_rate_out r) fraction
                        (m_sample_buffer_0 r) (m_sample_buffer_1 r)
                        (m_last_live_sample r) in
    (s, true, replenish (S (Z.to_nat (fraction / step))) step r').

(** The results of [n] successive calls of [next]. *)
Fixpoint pull (n : nat) (r : resampler_linear) : list (mono_t * bool) :=
  match n with
  | O => []
  | S n' => let '(s, live, r') := next r in (s, live) :: pull n' r'
  end.

(** The output at tick [k] as a function of the source: the source read at
    time [k * rate_in / rate_out], between two of its samples. *)
Definition sample_at (xs : list mono_t) (rate_in rate_out : Z) (k : nat) : mono_t :=
  let t := Z.of_nat k * rate_in in
  interpolate (t mod rate_out) rate_out
              (nth (Z.to_nat (t / rate_out)) xs 0%Q)
              (nth (S (Z.to_nat (t / rate_out))) xs 0%Q).

(** The number of samples that come out: the source, taken as two samples
    at least, at the output rate, rounded up. *)
Definition output_count (n : nat) (rate_in rate_out : Z) : nat :=
  Z.to_nat ((Z.of_nat (Nat.max n 2) * rate_out + rate_in - 1) / rate_in).

End Linear.

Module LinearFacts.
Import Linear.

Section Run.

Variables rate_in rate_out : Z.
Hypothesis rate_in_pos : 0 < rate_in.
Hypothesis rate_out_pos : 0 < rate_out.
Hypothesis rates_fit : rate_in + rate_out <= 2 ^ 32.

Variable xs : list mono_t.

Let n : nat := length xs.
Let N : Z := Z.of_nat (Nat.max n 2).

(** The state when [p] source samples have been shifted out of the
    buffer. *)
Definition state_at (p fraction : Z) : resampler_linear :=
  mk_linear (skipn (2 + Z.to_nat p) xs) rate_in rate_out fraction
            (nth (Z.to_nat p) xs 0%Q) (nth (S (Z.to_nat p)) xs 0%Q)
            (1 - Z.max 0 (p - (N - 2))).

Lemma source_next_skipn (k : nat) :
  source_next (skipn k xs) = (nth k xs 0%Q, (k <? n)%nat, skipn (S k) xs).
Proof.
  unfold n. clear. revert k. induction xs as [|x l IH]; intros k.
  - rewrite !skipn_nil. destruct k; reflexivity.
  - destruct k as [|k]; [reflexivity|]. cbn [skipn nth length]. rewrite IH. reflexivity.
Qed.

Lemma create_state : create xs rate_in rate_out = state_at 0 0.
Proof.
  unfold create, state_at.
  pose proof (source_next_skipn 0) as H0. change (skipn 0 xs) with xs in H0.
  rewrite H0.
  rewrite (source_next_skipn 1).
  replace (1 - Z.max 0 (0 - (N - 2))) with 1 by (unfold N; lia).
  reflexivity.
Qed.

(** One pass of the loop. *)
Lemma replenish_step fuel p fraction :
  0 <= p < N -> rate_out <= fraction < 2 ^ 32 ->
  replenish (S fuel) rate_out (state_at p fraction)
  = replenish fuel rate_out (state_at (p + 1) (fraction - rate_out)).
Proof.
  intros Hp Hf. cbn [replenish]. unfold state_at.
  cbn [m_fractional_position m_last_live_sample m_source m_rate_in m_rate_out
       m_sample_buffer_1].
  destruct (Z.geb_spec fraction rate_out); [|lia].
  destruct (Z.geb_spec (1 - Z.max 0 (p - (N - 2))) 0); [|lia].
  cbn [andb]. rewrite source_next_skipn.
  unfold to_uint32. rewrite wrap_unsigned_id by lia.
  f_equal. f_equal.
  - f_equal. lia.
  - replace (Z.to_nat (p + 1)) with (S (Z.to_nat p)) by lia. reflexivity.
  - replace (Z.to_nat (p + 1)) with (S (Z.to_nat p)) by lia. f_equal.
  - destruct (Nat.ltb_spec (2 + Z.to_nat p) n).
    + unfold N in *. lia.
    + unfold to_int32. rewrite wrap_signed_id by lia. unfold N in *. lia.
Qed.

Lemma replenish_alive fuel : forall p fraction,
  0 <= p -> 0 <= fraction < 2 ^ 32 -> p + fraction / rate_out < N ->
  (Z.to_nat (fraction / rate_out) < fuel)%nat ->
  replenish fuel rate_out (state_at p fraction)
  = state_at (p + fraction / rate_out) (fraction mod rate_out).
Proof.
  induction fuel as [|fuel IH]; intros p fraction Hp Hf Halive Hfuel; [lia|].
  pose proof (Z.div_pos fraction rate_out ltac:(lia) rate_out_pos) as Hq0.
  destruct (Z.lt_ge_cases fraction rate_out) as [Hlt | Hge].
  - cbn [replenish]. unfold state_at at 1. cbn [m_fractional_position].
    destruct (Z.geb_spec fraction rate_out); [lia|]. cbn [andb].
    rewrite Z.div_small, Z.mod_small, Z.add_0_r by lia. reflexivity.
  - assert (Hq : (fraction - rate_out) / rate_out = fraction / rate_out - 1).
    { replace (fraction - rate_out) with (fraction + (-1) * rate_out) by lia.
      rewrite Z.div_add by lia. lia. }
    assert (Hm : (fraction - rate_out) mod rate_out = fraction mod rate_out).
    { replace (fraction - rate_out) with (fraction + (-1) * rate_out) by lia.
      apply Z.mod_add. lia. }
    assert (1 <= fraction / rate_out) by (apply Z.div_le_lower_bound; lia).
    rewrite replenish_step by lia.
    rewrite IH by (rewrite ?Hq; lia).
    rewrite Hq, Hm. f_equal. lia.
Qed.

Lemma replenish_dead fuel : forall p fraction,
  0 <= p <= N -> 0 <= fraction < 2 ^ 32 -> N <= p + fraction / rate_out ->
  (Z.to_nat (fraction / rate_out) < fuel)%nat ->
  m_last_live_sample (replenish fuel rate_out (state_at p fraction)) < 0.
Proof.
  induction fuel as [|fuel IH]; intros p fraction Hp Hf Hdead Hfuel; [lia|].
  pose proof (Z.div_pos fraction rate_out ltac:(lia) rate_out_pos) as Hq0.
  destruct (Z.eq_dec p N) as [-> | Hne].
  - cbn [replenish]. unfold state_at.
    cbn [m_fractional_position m_last_live_sample].
    destruct (Z.geb_spec (1 - Z.max 0 (N - (N - 2))) 0); [lia|].
    rewrite andb_false_r. cbn [m_last_live_sample]. lia.
  - destruct (Z.lt_ge_cases fraction rate_out) as [Hlt | Hge].
    { rewrite Z.div_small in Hdead by lia. lia. }
    assert (Hq : (fraction - rate_out) / rate_out = fraction / rate_out - 1).
    { replace (fraction - rate_out) with (fraction + (-1) * rate_out) by lia.
      rewrite Z.div_add by lia. lia. }
    rewrite replenish_step by lia.
    apply IH; rewrite ?Hq; lia.
Qed.

Lemma linear_pull_dead k : forall r,
  m_last_live_sample r < 0 -> pull k r = repeat (0%Q, false) k.
Proof.
  induction k as [|k IH]; intros r Hr; [reflexivity|].
  cbn [pull repeat]. unfold next.
  destruct (Z.ltb_spec (m_last_live_sample r) 0); [|lia].
  rewrite IH by exact Hr. reflexivity.
Qed.

(** The state before output [k], while that output is due. *)
Definition before (k : nat) : resampler_linear :=
  state_at (Z.of_nat k * rate_in / rate_out) ((Z.of_nat k * rate_in) mod rate_out).

Lemma next_before k :
  Z.of_nat k * rate_in < N * rate_out ->
  exists r',
    next (before k) = (sample_at xs rate_in rate_out k, true, r') /\
    (Z.of_nat (S k) * rate_in < N * rate_out -> r' = before (S k)) /\
    (N * rate_out <= Z.of_nat (S k) * rate_in -> m_last_live_sample r' < 0).
Proof.
  intros Hk.
  set (t := Z.of_nat k * rate_in) in *.
  assert (Ht : 0 <= t) by (unfold t; nia).
  pose proof (Z.mod_pos_bound t rate_out rate_out_pos) as Hm.
  pose proof (Z.div_pos t rate_out Ht rate_out_pos) as Hq.
  pose proof (Z.div_mod t rate_out ltac:(lia)) as Hdm.
  assert (Hp : t / rate_out < N).
  { apply Z.div_lt_upper_bound; lia. }
  assert (Hnext : Z.of_nat (S k) * rate_in
                  = (t mod rate_out + rate_in) + (t / rate_out) * rate_out)
    by (unfold t in *; lia).
  assert (Hdiv : Z.of_nat (S k) * rate_in / rate_out
                 = t / rate_out + (t mod rate_out + rate_in) / rate_out).
  { rewrite Hnext, Z.div_add by lia. lia. }
  assert (Hmod : (Z.of_nat (S k) * rate_in) mod rate_out
                 = (t mod rate_out + rate_in) mod rate_out).
  { rewrite Hnext. apply Z.mod_add. lia. }
  eexists. split; [|split].
  - unfold before. fold t. unfold next, state_at.
    cbn [m_last_live_sample m_rate_out m_rate_in m_fractional_position
         m_sample_buffer_0 m_sample_buffer_1 m_source].
    destruct (Z.ltb_spec (1 - Z.max 0 (t / rate_out - (N - 2))) 0); [lia|].
    unfold sample_at. fold t. reflexivity.
  - intros Halive.
    unfold to_uint32. rewrite wrap_unsigned_id by lia.
    fold (state_at (t / rate_out) (t mod rate_out + rate_in)).
    assert (Hp' : Z.of_nat (S k) * rate_in / rate_out < N)
      by (apply Z.div_lt_upper_bound; lia).
    rewrite replenish_alive by lia.
    unfold before. rewrite Hdiv, Hmod. reflexivity.
  - intros Hdead.
    unfold to_uint32. rewrite wrap_unsigned_id by lia.
    fold (state_at (t / rate_out) (t mod rate_out + rate_in)).
    apply replenish_dead; try lia.
    rewrite <- Hdiv. apply Z.div_le_lower_bound; lia.
Qed.

Lemma linear_output_count_spec k :
  (k < output_count n rate_in rate_out)%nat <-> Z.of_nat k * rate_in < N * rate_out.
Proof.
  unfold output_count. fold N.
  assert (HN : 0 <= N) by (unfold N; lia).
  set (q := (N * rate_out + rate_in - 1) / rate_in).
  assert (Hq : q * rate_in <= N * rate_out + rate_in - 1 < (q + 1) * rate_in).
  { pose proof (Z.div_mod (N * rate_out + rate_in - 1) rate_in ltac:(lia)).
    pose proof (Z.mod_pos_bound (N * rate_out + rate_in - 1) rate_in rate_in_pos).
    unfold q. lia. }
  assert (0 <= q) by (apply Z.div_pos; nia).
  split; intros H'; nia.
Qed.

Lemma pull_run m : forall k extra,
  (k + m = output_count n rate_in rate_out)%nat ->
  (k < output_count n rate_in rate_out)%nat \/ m = O ->
  forall r, (m <> O -> r = before k) -> (m = O -> m_last_live_sample r < 0) ->
  pull (m + extra) r
  = map (fun i => (sample_at xs rate_in rate_out i, true)) (seq k m)
    ++ repeat (0%Q, false) extra.
Proof.
  induction m as [|m IH]; intros k extra Hm _ r Halive Hdead.
  - cbn [Nat.add seq map app]. apply linear_pull_dead, Hdead. reflexivity.
  - rewrite (Halive ltac:(discriminate)).
    destruct (next_before k) as (r' & Hn & Hal & Hde).
    { apply linear_output_count_spec. lia. }
    cbn [Nat.add pull seq map app]. rewrite Hn. f_equal.
    apply IH.
    + lia.
    + destruct m; [right; reflexivity | left; lia].
    + intros Hne. apply Hal. apply linear_output_count_spec. destruct m; [congruence | lia].
    + intros ->. apply Hde.
      destruct (Z.lt_ge_cases (Z.of_nat (S k) * rate_in) (N * rate_out)) as [H | H];
        [|exact H].
      apply linear_output_count_spec in H. lia.
Qed.

(** The whole run of the resampler. *)
Lemma linear_run_outputs extra :
  pull (output_count n rate_in rate_out + extra) (create xs rate_in rate_out)
  = map (fun k => (sample_at xs rate_in rate_out k, true))
        (seq 0 (output_count n rate_in rate_out))
    ++ repeat (0%Q, false) extra.
Proof.
  assert (Hpos : (0 < output_count n rate_in rate_out)%nat).
  { apply linear_output_count_spec. unfold N. nia. }
  apply pull_run.
  - reflexivity.
  - left. exact Hpos.
  - intros _. rewrite create_state. unfold before.
    cbn [Z.of_nat]. rewrite Z.mul_0_l. reflexivity.
  - intros H. lia.
Qed.

End Run.

(** X: the linear resampler reads the source at the times
    [k * rate_in / rate_out]: output [k] is the source sample there when the
    time is whole, and else lies between the two neighbouring samples in
    proportion.  [output_count] samples come out, then the resampler has
    stopped.  (Samples are exact rationals here.) *)
Theorem linear_resampler_output rate_in rate_out (xs : list mono_t) (extra : nat) :
  0 < rate_in -> 0 < rate_out -> rate_in + rate_out <= 2 ^ 32 ->
  let count := output_count (length xs) rate_in rate_out in
  pull (count + extra) (create xs rate_in rate_out)
  = map (fun k => (sample_at xs rate_in rate_out k, true)) (seq 0 count)
    ++ repeat (0%Q, false) extra.
Proof. intros Hi Ho Hfit. exact (linear_run_outputs rate_in rate_out Hi Ho Hfit xs extra). Qed.

Lemma linear_resampler_output_witness :
  pull (output_count 3 1 2 + 1) (create [1%Q; 2%Q; 3%Q] 1 2)
  = map (fun k => (sample_at [1%Q; 2%Q; 3%Q] 1 2 k, true)) (seq 0 (output_count 3 1 2))
    ++ repeat (0%Q, false) 1.
Proof.
  assert (H1 : 0 < 1) by reflexivity.
  assert (H2 : 0 < 2) by reflexivity.
  assert (H3 : 1 + 2 <= 2 ^ 32) by discriminate.
  exact (linear_resampler_output 1 2 [1%Q; 2%Q; 3%Q] 1 H1 H2 H3).
Defined.

Lemma map_nth_padded (xs : list mono_t) (m : nat) :
  map (fun k => nth k xs 0%Q) (seq 0 (length xs + m)) = xs ++ repeat 0%Q m.
Proof.
  induction xs as [|x l IH].
  - cbn [length Nat.add app]. generalize O.
    induction m as [|m IHm]; intros s; [reflexivity|].
    cbn [seq map repeat]. rewrite IHm. destruct s; reflexivity.
  - cbn [length Nat.add seq map nth app]. f_equal.
    rewrite <- seq_shift, map_map. exact IH.
Qed.

(** X: with equal rates the linear resampler is the identity.  The output
    is the source, sample for sample and without delay; a source of fewer
    than two samples is filled up with zeros to two.  Then the resampler has
    stopped. *)
Theorem linear_equal_rates_identity rate (xs : list mono_t) (extra : nat) :
  0 < rate -> rate + rate <= 2 ^ 32 ->
  pull (Nat.max (length xs) 2 + extra) (create xs rate rate)
  = map (fun x => (x, true)) (xs ++ repeat 0%Q (2 - length xs))
    ++ repeat (0%Q, false) extra.
Proof.
  intros Hr Hfit.
  assert (Hcount : output_count (length xs) rate rate = Nat.max (length xs) 2).
  { unfold output_count.
    replace (Z.of_nat (Nat.max (length xs) 2) * rate + rate - 1)
      with ((rate - 1) + Z.of_nat (Nat.max (length xs) 2) * rate) by lia.
    rewrite Z.div_add, Z.div_small by lia. lia. }
  rewrite <- Hcount, (linear_run_outputs rate rate Hr Hr Hfit xs extra), Hcount.
  f_equal.
  replace (Nat.max (length xs) 2) with (length xs + (2 - length xs))%nat by lia.
  rewrite <- map_nth_padded, map_map.
  apply map_ext. intros k. unfold sample_at.
  rewrite Z.mod_mul, Z.div_mul, Nat2Z.id by lia. reflexivity.
Qed.

Lemma linear_equal_rates_identity_witness :
  pull (Nat.max (length [1%Q; 2%Q; 3%Q]) 2 + 1) (create [1%Q; 2%Q; 3%Q] 44100 44100)
  = map (fun x => (x, true)) ([1%Q; 2%Q; 3%Q] ++ repeat 0%Q (2 - 3))
    ++ repeat (0%Q, false) 1.
Proof.
  assert (H1 : 0 < 44100) by reflexivity.
  assert (H2 : 44100 + 44100 <= 2 ^ 32) by discriminate.
  exact (linear_equal_rates_identity 44100 [1%Q; 2%Q; 3%Q] 1 H1 H2).
Defined.

End LinearFacts.

(* ------------------------------------------------------------------------- *)
(** ** The sinc resampler at any pair of rates: how long it runs *)
(* ------------------------------------------------------------------------- *)

Module SincRunFacts.
Import Reals Sinc SincFacts.

Local Open Scope Z_scope.

(** The number of samples that come out: the source, taken as [window]
    samples at least, and [window] more, at the output rate, rounded up. *)
Definition output_count (n : nat) (window rate_in rate_out : Z) : nat :=
  Z.to_nat ((Z.of_nat (Nat.max n (Z.to_nat window) + Z.to_nat window) * rate_out
             + rate_in - 1) / rate_in).

Section Run.

Variables window rate_in rate_out : Z.
Hypothesis window_pos : 1 <= window.
Hypothesis rate_in_pos : 1 <= rate_in.
Hypothesis rate_out_pos : 1 <= rate_out.
Hypothesis table_fits : window * rate_out * 2 < 2 ^ 31.
Hypothesis rates_fit : rate_in + rate_out < 2 ^ 31.

Variable xs : list R.

Let w : nat := Z.to_nat window.
Let n : nat := length xs.
Let M : Z := Z.of_nat (Nat.max n w + w).

(** What decides how long the resampler runs, when [p] samples have been
    read after priming. *)
Definition tracks (r : resampler_sinc) (p offset : Z) : Prop :=
  m_offset r = offset /\
  m_source r = skipn (w + Z.to_nat p) xs /\
  m_live_samples r = window * 2 - Z.max 0 (p - Z.of_nat (n - w)) /\
  m_rate_in r = rate_in /\ m_rate_out r = rate_out.

Lemma create_tracks : tracks (create xs window rate_in rate_out) 0 0.
Proof.
  pose proof (create_primed window rate_out window_pos rate_out_pos table_fits xs) as Hi.
  pose proof (inv_source _ _ _ _ _ Hi) as Hs.
  pose proof (inv_live _ _ _ _ _ Hi) as Hl.
  pose proof (inv_offset _ _ _ _ _ Hi) as Ho.
  revert Hs Hl Ho. unfold create.
  destruct (source_next xs) as [[first live] src].
  destruct (prime _ _ _ _ _) as [buffer src'].
  cbn [m_source m_live_samples m_offset m_rate_in m_rate_out].
  intros Hs Hl Ho. unfold tracks.
  cbn [m_source m_live_samples m_offset m_rate_in m_rate_out].
  repeat split.
  - rewrite Hs. reflexivity.
  - rewrite Hl. cbn [Nat.sub Z.of_nat]. lia.
Qed.

Lemma source_next_live_iff (k : nat) :
  snd (fst (source_next (skipn k xs))) = (k <? n)%nat /\
  snd (source_next (skipn k xs)) = skipn (S k) xs.
Proof.
  unfold n. clear. revert k. induction xs as [|x l IH]; intros k.
  - rewrite !skipn_nil. destruct k; split; reflexivity.
  - destruct k as [|k]; [split; reflexivity|]. cbn [skipn length]. apply IH.
Qed.

Lemma advance_tracks fuel : forall r p offset,
  tracks r p offset -> 0 <= p -> 0 <= offset < 2 ^ 31 ->
  (Z.to_nat (offset / rate_out) < fuel)%nat ->
  tracks (advance fuel rate_out r) (p + offset / rate_out) (offset mod rate_out).
Proof.
  induction fuel as [|fuel IH]; intros r p offset Ht Hp Ho Hfuel; [lia|].
  pose proof (Z.div_pos offset rate_out ltac:(lia) ltac:(lia)) as Hq0.
  destruct Ht as (T1 & T2 & T3 & T4 & T5).
  cbn [advance]. rewrite T1.
  destruct (Z.geb_spec offset rate_out) as [Hge | Hlt].
  - assert (Hq : (offset - rate_out) / rate_out = offset / rate_out - 1).
    { replace (offset - rate_out) with (offset + (-1) * rate_out) by lia.
      rewrite Z.div_add by lia. lia. }
    assert (Hm : (offset - rate_out) mod rate_out = offset mod rate_out).
    { replace (offset - rate_out) with (offset + (-1) * rate_out) by lia.
      apply Z.mod_add. lia. }
    assert (1 <= offset / rate_out) by (apply Z.div_le_lower_bound; lia).
    destruct (source_next_live_iff (w + Z.to_nat p)) as [Hlive Hsrc].
    rewrite T2.
    destruct (source_next (skipn (w + Z.to_nat p) xs)) as [[x live] src].
    cbn [fst snd] in Hlive, Hsrc. subst live src.
    replace (p + offset / rate_out) with ((p + 1) + (offset - rate_out) / rate_out)
      by (rewrite Hq; lia).
    rewrite <- Hm.
    apply IH; try lia.
    unfold tracks.
    cbn [m_offset m_source m_live_samples m_rate_in m_rate_out].
    split; [unfold to_int32; apply wrap_signed_id; lia|].
    split; [f_equal; lia|].
    split; [|split; assumption].
    rewrite T3. destruct (Nat.ltb_spec (w + Z.to_nat p) n); lia.
  - rewrite Z.div_small, Z.mod_small, Z.add_0_r by lia.
    repeat split; assumption.
Qed.

Lemma live_iff r p offset :
  tracks r p offset -> 0 <= p -> (0 < m_live_samples r <-> p < M).
Proof.
  intros (_ & _ & T3 & _) Hp. rewrite T3. unfold M, w in *. lia.
Qed.

Lemma next_tracks r k :
  tracks r (Z.of_nat k * rate_in / rate_out) ((Z.of_nat k * rate_in) mod rate_out) ->
  Z.of_nat k * rate_in < M * rate_out ->
  exists s r',
    next r = (s, true, r') /\
    tracks r' (Z.of_nat (S k) * rate_in / rate_out)
              ((Z.of_nat (S k) * rate_in) mod rate_out).
Proof.
  intros Ht Hk.
  set (t := Z.of_nat k * rate_in) in *.
  assert (H0 : 0 <= t) by (unfold t; nia).
  pose proof (Z.mod_pos_bound t rate_out ltac:(lia)) as Hm.
  pose proof (Z.div_pos t rate_out H0 ltac:(lia)) as Hq.
  pose proof (Z.div_mod t rate_out ltac:(lia)) as Hdm.
  assert (Hp : t / rate_out < M) by (apply Z.div_lt_upper_bound; lia).
  assert (Hnext : Z.of_nat (S k) * rate_in
                  = (t mod rate_out + rate_in) + (t / rate_out) * rate_out)
    by (unfold t in *; lia).
  assert (Hdiv : Z.of_nat (S k) * rate_in / rate_out
                 = t / rate_out + (t mod rate_out + rate_in) / rate_out).
  { rewrite Hnext, Z.div_add by lia. lia. }
  assert (Hmod : (Z.of_nat (S k) * rate_in) mod rate_out
                 = (t mod rate_out + rate_in) mod rate_out).
  { rewrite Hnext. apply Z.mod_add. lia. }
  pose proof (proj2 (live_iff r _ _ Ht Hq) Hp) as Hlive.
  pose proof Ht as (T1 & T2 & T3 & T4 & T5).
  unfold next. destruct (Z.leb_spec (m_live_samples r) 0); [lia|].
  eexists _, _. split; [reflexivity|].
  rewrite T1, T4, T5. unfold to_int32.
  rewrite (wrap_signed_id 32 (t mod rate_out + rate_in)),
          (wrap_signed_id 32 rate_out) by lia.
  rewrite Hdiv, Hmod.
  apply advance_tracks; try lia.
  repeat split; assumption.
Qed.

Lemma sinc_output_count_spec k :
  (k < output_count n window rate_in rate_out)%nat
  <-> Z.of_nat k * rate_in < M * rate_out.
Proof.
  unfold output_count. fold w. fold M.
  assert (HM : 0 <= M) by (unfold M; lia).
  set (q := (M * rate_out + rate_in - 1) / rate_in).
  assert (Hq : q * rate_in <= M * rate_out + rate_in - 1 < (q + 1) * rate_in).
  { pose proof (Z.div_mod (M * rate_out + rate_in - 1) rate_in ltac:(lia)).
    pose proof (Z.mod_pos_bound (M * rate_out + rate_in - 1) rate_in ltac:(lia)).
    unfold q. lia. }
  assert (0 <= q) by (apply Z.div_pos; nia).
  split; intros H'; nia.
Qed.

Lemma pull_live m : forall k extra r,
  (k + m = output_count n window rate_in rate_out)%nat ->
  tracks r (Z.of_nat k * rate_in / rate_out) ((Z.of_nat k * rate_in) mod rate_out) ->
  map snd (pull (m + extra) r) = repeat true m ++ repeat false extra.
Proof.
  induction m as [|m IH]; intros k extra r Hm Ht.
  - cbn [Nat.add repeat app].
    rewrite (pull_dead window xs).
    + induction extra as [|e IHe]; [reflexivity | cbn [repeat map]; rewrite IHe; reflexivity].
    + assert (Hk : ~ Z.of_nat k * rate_in < M * rate_out).
      { intros H. apply sinc_output_count_spec in H. lia. }
      assert (H0 : 0 <= Z.of_nat k * rate_in / rate_out) by (apply Z.div_pos; nia).
      pose proof (live_iff r _ _ Ht H0) as Hl.
      destruct (Z.lt_ge_cases 0 (m_live_samples r)) as [Hpos | Hle]; [|exact Hle].
      exfalso. apply Hk. apply Hl in Hpos.
      pose proof (Z.div_mod (Z.of_nat k * rate_in) rate_out ltac:(lia)).
      pose proof (Z.mod_pos_bound (Z.of_nat k * rate_in) rate_out ltac:(lia)). nia.
  - destruct (next_tracks r k Ht) as (s & r' & Hn & Ht').
    { apply sinc_output_count_spec. lia. }
    cbn [Nat.add pull repeat app map]. rewrite Hn. cbn [map snd]. f_equal.
    apply (IH (S k)); [lia | exact Ht'].
Qed.

Lemma run_length extra :
  map snd (pull (output_count n window rate_in rate_out + extra)
                (create xs window rate_in rate_out))
  = repeat true (output_count n window rate_in rate_out) ++ repeat false extra.
Proof.
  apply (pull_live _ O); [reflexivity|].
  cbn [Z.of_nat]. rewrite Z.mul_0_l. exact create_tracks.
Qed.

End Run.

(** X: how long the sinc resampler runs, at any pair of rates.  A source
    of [n] samples gives [ceil ((max n W + W) * rate_out / rate_in)] live
    outputs, [W] being the window; after them the resampler has stopped. *)
Theorem sinc_resampler_run_length window rate_in rate_out (xs : list R) (extra : nat) :
  1 <= window -> 1 <= rate_in -> 1 <= rate_out ->
  window * rate_out * 2 < 2 ^ 31 -> rate_in + rate_out < 2 ^ 31 ->
  let count := output_count (length xs) window rate_in rate_out in
  map snd (pull (count + extra) (create xs window rate_in rate_out))
  = repeat true count ++ repeat false extra.
Proof.
  intros Hw Hi Ho Ht Hr.
  exact (run_length window rate_in rate_out Hw Hi Ho Ht Hr xs extra).
Qed.

Lemma sinc_resampler_run_length_witness :
  map snd (pull (output_count 3 2 11025 44100 + 1)
                (create [1%R; 2%R; 3%R] 2 11025 44100))
  = repeat true (output_count 3 2 11025 44100) ++ repeat false 1.
Proof.
  assert (H1 : 1 <= 2) by discriminate.
  assert (H2 : 1 <= 11025) by discriminate.
  assert (H3 : 1 <= 44100) by discriminate.
  assert (H4 : 2 * 44100 * 2 < 2 ^ 31) by reflexivity.
  assert (H5 : 11025 + 44100 < 2 ^ 31) by reflexivity.
  exact (sinc_resampler_run_length 2 11025 44100 [1%R; 2%R; 3%R] 1 H1 H2 H3 H4 H5).
Defined.

End SincRunFacts.

(* ------------------------------------------------------------------------- *)
(** ** silencer.h: the silencer with any settings *)
(* ------------------------------------------------------------------------- *)

(** The constructor accepts negative values, which deactivate a setting
    (extract_audio.cpp builds [silencer(source, -1, -1, gap)] and
    [silencer(source, lead_in, lead_out, -1)]).  This module writes down
    what [process_audio] then lets through, as a function of the source. *)

Module SilencerSettings.
Import Silencer.

Section WithSample.

Variable S : Type.
Variable is_silent : S -> bool.
Variable zero : S.

(** The length given to the silence at the start or at the end: the setting
    when it is active, the length found in the source when it is not. *)
Definition kept (setting : Z) (found : nat) : nat :=
  if setting >=? 0 then Z.to_nat setting else found.

(** The length given to a silent run between two non-silent samples. *)
Definition cut (gap : Z) (found : nat) : nat :=
  if gap >=? 0 then Nat.min found (Z.to_nat gap) else found.

(** After the first non-silent sample; [pending] counts the silent samples
    read since the last non-silent one. *)
Fixpoint behaviour_gaps (lead_out gap : Z) (pending : nat) (src : list S) : list S :=
  match src with
  | [] => repeat zero (kept lead_out pending)
  | x :: rest =>
      if is_silent x then behaviour_gaps lead_out gap (Datatypes.S pending) rest
      else repeat zero (cut gap pending) ++ x :: behaviour_gaps lead_out gap 0 rest
  end.

(** Before the first non-silent sample.  A source that stops without one
    gets the lead-in, then a lead-out for which no silence was found. *)
Fixpoint behaviour_lead_in (lead_in lead_out gap : Z) (pending : nat) (src : list S)
  : list S :=
  match src with
  | [] => repeat zero (kept lead_in pending) ++ repeat zero (kept lead_out 0)
  | x :: rest =>
      if is_silent x then behaviour_lead_in lead_in lead_out gap (Datatypes.S pending) rest
      else repeat zero (kept lead_in pending) ++ x :: behaviour_gaps lead_out gap 0 rest
  end.

Definition behaviour (lead_in lead_out gap : Z) (src : list S) : list S :=
  behaviour_lead_in lead_in lead_out gap 0 src.

(** A silent sample replaced by 0, any other sample unchanged. *)
Definition flatten (x : S) : S := if is_silent x then zero else x.

Definition audible (x : S) : bool := negb (is_silent x).

End WithSample.

End SilencerSettings.

Module SilencerSettingsFacts.
Import Silencer SilencerFacts SilencerSettings.

Section WithSample.

Variable S : Type.
Variable is_silent : S -> bool.
Variable zero : S.

#[local] Abbreviation silencer := (silencer S).
#[local] Abbreviation next := (next S is_silent zero).
#[local] Abbreviation pull := (pull S is_silent zero).
#[local] Abbreviation process_audio := (process_audio S is_silent zero).
#[local] Abbreviation needs_audio := (needs_audio S).
#[local] Abbreviation read_ahead := (read_ahead S is_silent zero).
#[local] Abbreviation calls := (calls S zero).
#[local] Abbreviation emits := (emits S is_silent zero).
#[local] Abbreviation short_runs := (short_runs S is_silent).
#[local] Abbreviation behaviour_gaps := (behaviour_gaps S is_silent zero).
#[local] Abbreviation behaviour_lead_in := (behaviour_lead_in S is_silent zero).
#[local] Abbreviation behaviour := (behaviour S is_silent zero).
#[local] Abbreviation flatten := (flatten S is_silent zero).
#[local] Abbreviation audible := (audible S is_silent).

(** A call that reports the module stopped, followed by a stopped module. *)
Lemma emits_stopped s s' :
  next s = (zero, false, s') -> emits s' [] -> emits s [].
Proof.
  intros Hn He [|n]; [reflexivity|].
  cbn [Silencer.pull]. rewrite Hn, He. unfold Silencer.calls.
  rewrite !firstn_nil. cbn [map app length]. rewrite !Nat.sub_0_r. reflexivity.
Qed.

Lemma short_runs_silent src :
  short_runs src -> forallb is_silent src = true -> Z.of_nat (length src) < 2 ^ 31.
Proof.
  intros H Hs. apply (H [] src []); [|exact Hs].
  rewrite app_nil_r. reflexivity.
Qed.

Lemma behaviour_gaps_found lo g run x rest : forall pending,
  forallb is_silent run = true -> is_silent x = false ->
  behaviour_gaps lo g pending (run ++ x :: rest)
  = repeat zero (cut g (pending + length run)) ++ x :: behaviour_gaps lo g 0 rest.
Proof.
  induction run as [|y run IH]; intros pending Hr Hx.
  - cbn [app SilencerSettings.behaviour_gaps length]. rewrite Hx, Nat.add_0_r. reflexivity.
  - cbn [forallb] in Hr. apply andb_prop in Hr as [Hy Hr].
    cbn [app SilencerSettings.behaviour_gaps length]. rewrite Hy, IH by assumption.
    do 3 f_equal. lia.
Qed.

Lemma behaviour_gaps_exhausted lo g src : forall pending,
  forallb is_silent src = true ->
  behaviour_gaps lo g pending src = repeat zero (kept lo (pending + length src)).
Proof.
  induction src as [|y src IH]; intros pending Hs.
  - cbn [SilencerSettings.behaviour_gaps length]. rewrite Nat.add_0_r. reflexivity.
  - cbn [forallb] in Hs. apply andb_prop in Hs as [Hy Hs].
    cbn [SilencerSettings.behaviour_gaps length]. rewrite Hy, IH by exact Hs.
    do 2 f_equal. lia.
Qed.

Lemma behaviour_lead_in_found li lo g run x rest : forall pending,
  forallb is_silent run = true -> is_silent x = false ->
  behaviour_lead_in li lo g pending (run ++ x :: rest)
  = repeat zero (kept li (pending + length run)) ++ x :: behaviour_gaps lo g 0 rest.
Proof.
  induction run as [|y run IH]; intros pending Hr Hx.
  - cbn [app SilencerSettings.behaviour_lead_in length]. rewrite Hx, Nat.add_0_r. reflexivity.
  - cbn [forallb] in Hr. apply andb_prop in Hr as [Hy Hr].
    cbn [app SilencerSettings.behaviour_lead_in length]. rewrite Hy, IH by assumption.
    do 3 f_equal. lia.
Qed.

Lemma behaviour_lead_in_exhausted li lo g src : forall pending,
  forallb is_silent src = true ->
  behaviour_lead_in li lo g pending src
  = repeat zero (kept li (pending + length src)) ++ repeat zero (kept lo 0).
Proof.
  induction src as [|y src IH]; intros pending Hs.
  - cbn [SilencerSettings.behaviour_lead_in length]. rewrite Nat.add_0_r. reflexivity.
  - cbn [forallb] in Hs. apply andb_prop in Hs as [Hy Hs].
    cbn [SilencerSettings.behaviour_lead_in length]. rewrite Hy, IH by exact Hs.
    do 3 f_equal. lia.
Qed.

Section Settings.

Variables lead_in lead_out gap : Z.
Hypothesis lead_in_int32 : - 2 ^ 31 <= lead_in < 2 ^ 31.
Hypothesis lead_out_int32 : - 2 ^ 31 <= lead_out < 2 ^ 31.
Hypothesis gap_int32 : - 2 ^ 31 <= gap < 2 ^ 31.

Lemma kept_range setting found :
  setting < 2 ^ 31 -> Z.of_nat found < 2 ^ 31 -> Z.of_nat (kept setting found) < 2 ^ 31.
Proof.
  intros Hs Hf. unfold kept. destruct (Z.geb_spec setting 0); lia.
Qed.

Lemma kept_uint32 setting (b : Z) found :
  setting < 2 ^ 31 -> b = Z.of_nat found -> 
  (if setting >=? 0 then to_uint32 setting else b) = Z.of_nat (kept setting found).
Proof.
  intros Hs ->. unfold kept. destruct (Z.geb_spec setting 0); [|reflexivity].
  unfold to_uint32. rewrite wrap_unsigned_id by lia. lia.
Qed.

(** The lead-out, then nothing. *)
Lemma emits_tail pending us :
  Z.of_nat pending < 2 ^ 31 ->
  emits (mk_silencer S [] lead_in lead_out gap finished
           (Z.of_nat (kept lead_out pending)) false us)
        (repeat zero (kept lead_out pending)).
Proof.
  intros Hp. pose proof (kept_range lead_out pending ltac:(lia) Hp).
  rewrite <- (app_nil_r (repeat zero _)).
  apply emits_silence; [reflexivity | lia |].
  apply emits_finished; reflexivity.
Qed.

Lemma settings_gaps_found run x rest us :
  forallb is_silent run = true -> is_silent x = false ->
  Z.of_nat (length run) < 2 ^ 31 ->
  process_audio (mk_silencer S (run ++ x :: rest) lead_in lead_out gap gaps 0 false us)
  = mk_silencer S rest lead_in lead_out gap gaps
      (Z.of_nat (cut gap (length run))) true x.
Proof.
  intros Hr Hx Hlen. unfold Silencer.process_audio.
  cbn [m_have_unsilent_sample m_source m_buffered_silence m_state m_gap m_lead_in m_lead_out].
  rewrite read_ahead_found by (assumption || lia).
  unfold to_uint32, to_int32, cut. rewrite Z.add_0_l.
  rewrite (wrap_unsigned_id 32 (Z.of_nat (length run))) by lia.
  rewrite wrap_signed_id by lia.
  destruct (Z.geb_spec gap 0); cbn [andb]; [|reflexivity].
  destruct (Z.gtb_spec (Z.of_nat (length run)) gap).
  - rewrite wrap_unsigned_id by lia. do 2 f_equal. lia.
  - do 2 f_equal. lia.
Qed.

Lemma settings_gaps_exhausted src us :
  forallb is_silent src = true -> Z.of_nat (length src) < 2 ^ 31 ->
  process_audio (mk_silencer S src lead_in lead_out gap gaps 0 false us)
  = mk_silencer S [] lead_in lead_out gap finished
      (Z.of_nat (kept lead_out (length src))) false zero.
Proof.
  intros Hs Hlen. unfold Silencer.process_audio.
  cbn [m_have_unsilent_sample m_source m_buffered_silence m_state m_gap m_lead_in m_lead_out].
  rewrite read_ahead_exhausted by (assumption || lia).
  rewrite (kept_uint32 lead_out _ (length src)); [reflexivity | lia |].
  unfold to_uint32. rewrite wrap_unsigned_id; lia.
Qed.

Lemma settings_emits_gaps len : forall src us,
  (length src <= len)%nat -> short_runs src ->
  emits (mk_silencer S src lead_in lead_out gap gaps 0 false us)
        (behaviour_gaps lead_out gap 0 src).
Proof.
  induction len as [|len IH]; intros src us Hlen Hshort;
    (destruct (first_unsilent S is_silent src) as [Hs | (run & x & rest & -> & Hr & Hx)];
     [ pose proof (short_runs_silent src Hshort Hs) as Hsl;
       apply emits_top_up;
       [ reflexivity
       | rewrite settings_gaps_exhausted by assumption; apply needs_audio_finished
       | rewrite settings_gaps_exhausted by assumption;
         rewrite behaviour_gaps_exhausted by exact Hs; apply emits_tail; exact Hsl ] | ]).
  - rewrite length_app in Hlen. cbn [length] in Hlen. lia.
  - destruct (short_runs_tail S is_silent run x rest Hshort Hr) as [Hrun Hrest].
    apply emits_top_up;
      [reflexivity | rewrite settings_gaps_found by assumption; apply needs_audio_have |].
    rewrite settings_gaps_found by assumption.
    rewrite behaviour_gaps_found by assumption. cbn [Nat.add].
    apply emits_silence; [reflexivity | unfold cut; destruct (gap >=? 0); lia |].
    unfold with_buffer.
    cbn [m_source m_lead_in m_lead_out m_gap m_state m_unsilent_sample
         m_have_unsilent_sample].
    apply (emits_sample S is_silent zero
             (mk_silencer S rest lead_in lead_out gap gaps 0 true x));
      [reflexivity | reflexivity |].
    apply IH; [|exact Hrest].
    rewrite length_app in Hlen. cbn [length] in Hlen. lia.
Qed.

Lemma settings_lead_in_found run x rest us :
  forallb is_silent run = true -> is_silent x = false ->
  Z.of_nat (length run) < 2 ^ 31 ->
  process_audio (mk_silencer S (run ++ x :: rest) lead_in lead_out gap Silencer.lead_in 0 false us)
  = mk_silencer S rest lead_in lead_out gap gaps
      (Z.of_nat (kept lead_in (length run))) true x.
Proof.
  intros Hr Hx Hlen. unfold Silencer.process_audio.
  cbn [m_have_unsilent_sample m_source m_buffered_silence m_state m_gap m_lead_in m_lead_out].
  rewrite read_ahead_found by (assumption || lia).
  rewrite (kept_uint32 lead_in _ (length run)); [reflexivity | lia |].
  unfold to_uint32. rewrite wrap_unsigned_id; lia.
Qed.

Lemma settings_lead_in_exhausted src us :
  forallb is_silent src = true -> Z.of_nat (length src) < 2 ^ 31 ->
  process_audio (mk_silencer S src lead_in lead_out gap Silencer.lead_in 0 false us)
  = mk_silencer S [] lead_in lead_out gap Silencer.lead_out
      (Z.of_nat (kept lead_in (length src))) false zero.
Proof.
  intros Hs Hlen. unfold Silencer.process_audio.
  cbn [m_have_unsilent_sample m_source m_buffered_silence m_state m_gap m_lead_in m_lead_out].
  rewrite read_ahead_exhausted by (assumption || lia).
  rewrite (kept_uint32 lead_in _ (length src)); [reflexivity | lia |].
  unfold to_uint32. rewrite wrap_unsigned_id; lia.
Qed.

Lemma settings_lead_out us :
  process_audio (mk_silencer S [] lead_in lead_out gap Silencer.lead_out 0 false us)
  = mk_silencer S [] lead_in lead_out gap finished
      (Z.of_nat (kept lead_out 0)) false zero.
Proof.
  unfold Silencer.process_audio.
  cbn [m_have_unsilent_sample m_source m_buffered_silence m_state m_gap m_lead_in
       m_lead_out Silencer.read_ahead].
  rewrite (kept_uint32 lead_out _ 0); [reflexivity | lia | reflexivity].
Qed.

(** The whole run.  The one case left out is the one in which the first
    call finds nothing to deliver although a lead-out is still to come. *)
Lemma settings_emits_behaviour src :
  short_runs src ->
  forallb is_silent src = false \/ (0 < kept lead_in (length src))%nat \/ lead_out <= 0 ->
  emits (create S zero src lead_in lead_out gap) (behaviour lead_in lead_out gap src).
Proof.
  intros Hshort Hcase. unfold create, SilencerSettings.behaviour.
  destruct (first_unsilent S is_silent src) as [Hs | (run & x & rest & -> & Hr & Hx)].
  - pose proof (short_runs_silent src Hshort Hs) as Hsl.
    rewrite behaviour_lead_in_exhausted by exact Hs. cbn [Nat.add].
    destruct (Nat.eq_dec (kept lead_in (length src)) 0) as [Hz | Hnz].
    + assert (Hlo : lead_out <= 0) by (destruct Hcase as [H | [H | H]]; [congruence | lia | exact H]).
      assert (Hk : kept lead_out 0 = 0%nat)
        by (unfold kept; destruct (lead_out >=? 0); lia).
      rewrite Hz, Hk. cbn [repeat app].
      apply emits_stopped
        with (s' := mk_silencer S [] lead_in lead_out gap Silencer.lead_out 0 false zero).
      * unfold Silencer.next, top_up. 
        replace (Silencer.needs_audio S _) with true by reflexivity.
        rewrite settings_lead_in_exhausted by assumption. rewrite Hz. reflexivity.
      * apply emits_stopped
          with (s' := mk_silencer S [] lead_in lead_out gap finished 0 false zero).
        -- unfold Silencer.next, top_up.
           replace (Silencer.needs_audio S _) with true by reflexivity.
           rewrite settings_lead_out, Hk. reflexivity.
        -- apply emits_finished; reflexivity.
    + apply emits_top_up; [reflexivity | |].
      * rewrite settings_lead_in_exhausted by assumption.
        unfold Silencer.needs_audio. cbn [m_buffered_silence].
        destruct (Z.eqb_spec (Z.of_nat (kept lead_in (length src))) 0); [lia | reflexivity].
      * rewrite settings_lead_in_exhausted by assumption.
        apply emits_silence;
          [reflexivity | pose proof (kept_range lead_in (length src)); lia |].
        unfold with_buffer.
        cbn [m_source m_lead_in m_lead_out m_gap m_state m_unsilent_sample
             m_have_unsilent_sample].
        apply emits_top_up;
          [reflexivity | rewrite settings_lead_out; apply needs_audio_finished |].
        rewrite settings_lead_out. apply emits_tail. lia.
  - destruct (short_runs_tail S is_silent run x rest Hshort Hr) as [Hrun Hrest].
    apply emits_top_up;
      [reflexivity | rewrite settings_lead_in_found by assumption; apply needs_audio_have |].
    rewrite settings_lead_in_found by assumption.
    rewrite behaviour_lead_in_found by assumption. cbn [Nat.add].
    apply emits_silence;
      [reflexivity | pose proof (kept_range lead_in (length run)); lia |].
    unfold with_buffer.
    cbn [m_source m_lead_in m_lead_out m_gap m_state m_unsilent_sample
         m_have_unsilent_sample].
    apply (emits_sample S is_silent zero
             (mk_silencer S rest lead_in lead_out gap gaps 0 true x));
      [reflexivity | reflexivity |].
    apply (settings_emits_gaps (length rest)); [apply Nat.le_refl | exact Hrest].
Qed.

End Settings.

(** *** What the behaviour keeps *)

Lemma filter_repeat_zero n :
  is_silent zero = true -> filter audible (repeat zero n) = [].
Proof.
  intros Hz. induction n as [|n IH]; [reflexivity|].
  cbn [repeat filter]. unfold SilencerSettings.audible at 1. rewrite Hz. exact IH.
Qed.

Lemma behaviour_gaps_audible lo g src : forall pending,
  is_silent zero = true ->
  filter audible (behaviour_gaps lo g pending src) = filter audible src.
Proof.
  induction src as [|x src IH]; intros pending Hz.
  - cbn [SilencerSettings.behaviour_gaps]. apply filter_repeat_zero, Hz.
  - cbn [SilencerSettings.behaviour_gaps filter]. unfold SilencerSettings.audible at 2.
    destruct (is_silent x) eqn:Hx; cbn [negb].
    + apply IH, Hz.
    + rewrite filter_app, filter_repeat_zero by exact Hz. cbn [app filter].
      unfold SilencerSettings.audible at 1. rewrite Hx. cbn [negb].
      f_equal. apply IH, Hz.
Qed.

Lemma behaviour_lead_in_audible li lo g src : forall pending,
  is_silent zero = true ->
  filter audible (behaviour_lead_in li lo g pending src) = filter audible src.
Proof.
  induction src as [|x src IH]; intros pending Hz.
  - cbn [SilencerSettings.behaviour_lead_in].
    rewrite filter_app, !filter_repeat_zero by exact Hz. reflexivity.
  - cbn [SilencerSettings.behaviour_lead_in filter]. unfold SilencerSettings.audible at 2.
    destruct (is_silent x) eqn:Hx; cbn [negb].
    + apply IH, Hz.
    + rewrite filter_app, filter_repeat_zero by exact Hz. cbn [app filter].
      unfold SilencerSettings.audible at 1. rewrite Hx. cbn [negb].
      f_equal. apply behaviour_gaps_audible, Hz.
Qed.

Lemma repeat_shift (n : nat) (l : list S) :
  repeat zero (Datatypes.S n) ++ l = repeat zero n ++ zero :: l.
Proof.
  induction n as [|n IH]; [reflexivity|].
  cbn [repeat app] in *. f_equal. exact IH.
Qed.

Lemma behaviour_gaps_disabled lo g src : forall pending,
  lo < 0 -> g < 0 ->
  behaviour_gaps lo g pending src = repeat zero pending ++ map flatten src.
Proof.
  induction src as [|x src IH]; intros pending Hlo Hg.
  - cbn [SilencerSettings.behaviour_gaps map]. unfold kept.
    destruct (Z.geb_spec lo 0); [lia|]. rewrite app_nil_r. reflexivity.
  - cbn [SilencerSettings.behaviour_gaps map].
    assert (Hf : flatten x = if is_silent x then zero else x) by reflexivity.
    rewrite Hf. destruct (is_silent x) eqn:Hx.
    + rewrite IH by assumption.
      apply repeat_shift.
    + unfold cut. destruct (Z.geb_spec g 0); [lia|].
      rewrite IH by assumption. reflexivity.
Qed.

Lemma behaviour_lead_in_disabled li lo g src : forall pending,
  li < 0 -> lo < 0 -> g < 0 ->
  behaviour_lead_in li lo g pending src = repeat zero pending ++ map flatten src.
Proof.
  induction src as [|x src IH]; intros pending Hli Hlo Hg.
  - cbn [SilencerSettings.behaviour_lead_in map]. unfold kept.
    destruct (Z.geb_spec li 0); [lia|]. destruct (Z.geb_spec lo 0); [lia|].
    reflexivity.
  - cbn [SilencerSettings.behaviour_lead_in map].
    assert (Hf : flatten x = if is_silent x then zero else x) by reflexivity.
    rewrite Hf. destruct (is_silent x) eqn:Hx.
    + rewrite IH by assumption.
      apply repeat_shift.
    + unfold kept. destruct (Z.geb_spec li 0); [lia|].
      rewrite behaviour_gaps_disabled by assumption. reflexivity.
Qed.

Lemma short_runs_of_short (src : list S) :
  Z.of_nat (length src) < 2 ^ 31 -> short_runs src.
Proof.
  intros H pre run post -> _. rewrite !length_app in H. lia.
Qed.

End WithSample.

(** The silencer with any settings.  For 32-bit settings of either sign and
    a source whose silent runs are shorter than 2^31, the calls of [next]
    deliver the samples of [behaviour] and then report the module stopped:
    an active lead-in or lead-out replaces the silence found at that end, a
    deactivated one keeps its length; a silent run inside the audio is cut
    to an active gap; every silent sample passed on is 0.  Left out is the
    case in which a lead-out is due but neither a sample nor any lead-in
    precedes it. *)
Theorem silencer_any_settings (S : Type) (is_silent : S -> bool) (zero : S)
    (lead_in lead_out gap : Z) (src : list S) (n : nat) :
  - 2 ^ 31 <= lead_in < 2 ^ 31 ->
  - 2 ^ 31 <= lead_out < 2 ^ 31 ->
  - 2 ^ 31 <= gap < 2 ^ 31 ->
  short_runs S is_silent src ->
  forallb is_silent src = false \/ (0 < kept lead_in (length src))%nat \/ lead_out <= 0 ->
  pull S is_silent zero n (create S zero src lead_in lead_out gap)
  = calls S zero n (behaviour S is_silent zero lead_in lead_out gap src).
Proof.
  intros Hli Hlo Hg Hshort Hcase.
  apply (settings_emits_behaviour S is_silent zero lead_in lead_out gap Hli Hlo Hg src
           Hshort Hcase).
Qed.

Lemma silencer_any_settings_witness :
  pull mono_t is_silent_mono 0%Q 9
    (create mono_t 0%Q [0; 1 # 2; 0; 0; 0; 1 # 4; 0; 0]%Q (-1) (-1) 2)
  = calls mono_t 0%Q 9
      (behaviour mono_t is_silent_mono 0%Q (-1) (-1) 2
         [0; 1 # 2; 0; 0; 0; 1 # 4; 0; 0]%Q).
Proof.
  assert (H1 : - 2 ^ 31 <= -1 < 2 ^ 31) by (split; [discriminate | reflexivity]).
  assert (H2 : - 2 ^ 31 <= 2 < 2 ^ 31) by (split; [discriminate | reflexivity]).
  assert (H3 : short_runs mono_t is_silent_mono [0; 1 # 2; 0; 0; 0; 1 # 4; 0; 0]%Q)
    by (apply short_runs_of_short; reflexivity).
  exact (silencer_any_settings mono_t is_silent_mono 0%Q (-1) (-1) 2
           [0; 1 # 2; 0; 0; 0; 1 # 4; 0; 0]%Q 9 H1 H1 H2 H3 (or_introl eq_refl)).
Defined.

(** A silencer with every setting deactivated is not the identity: it
    delivers one sample for each sample of the source, the silent ones
    replaced by 0 and the others unchanged. *)
Theorem deactivated_silencer_flattens (S : Type) (is_silent : S -> bool) (zero : S)
    (lead_in lead_out gap : Z) (src : list S) (n : nat) :
  - 2 ^ 31 <= lead_in < 0 ->
  - 2 ^ 31 <= lead_out < 0 ->
  - 2 ^ 31 <= gap < 0 ->
  short_runs S is_silent src ->
  pull S is_silent zero n (create S zero src lead_in lead_out gap)
  = calls S zero n (map (flatten S is_silent zero) src).
Proof.
  intros Hli Hlo Hg Hshort.
  rewrite (settings_emits_behaviour S is_silent zero lead_in lead_out gap) by (lia || auto).
  unfold behaviour. rewrite behaviour_lead_in_disabled by lia. reflexivity.
Qed.

Lemma deactivated_silencer_flattens_witness :
  pull mono_t is_silent_mono 0%Q 5
    (create mono_t 0%Q [1 # 100000; 1 # 2; - 1 # 40000; 1 # 4]%Q (-1) (-1) (-1))
  = calls mono_t 0%Q 5
      (map (flatten mono_t is_silent_mono 0%Q)
         [1 # 100000; 1 # 2; - 1 # 40000; 1 # 4]%Q).
Proof.
  assert (H1 : - 2 ^ 31 <= -1 < 0) by (split; [discriminate | reflexivity]).
  assert (H3 : short_runs mono_t is_silent_mono
                 [1 # 100000; 1 # 2; - 1 # 40000; 1 # 4]%Q)
    by (apply short_runs_of_short; reflexivity).
  exact (deactivated_silencer_flattens mono_t is_silent_mono 0%Q (-1) (-1) (-1)
           [1 # 100000; 1 # 2; - 1 # 40000; 1 # 4]%Q 5 H1 H1 H1 H3).
Defined.

(** Whatever the settings, the silencer neither drops, changes nor reorders
    a non-silent sample: it delivers a finite sequence of samples whose
    non-silent members are those of the source, in order. *)
Theorem silencer_keeps_audible_samples (S : Type) (is_silent : S -> bool) (zero : S)
    (lead_in lead_out gap : Z) (src : list S) :
  is_silent zero = true ->
  - 2 ^ 31 <= lead_in < 2 ^ 31 ->
  - 2 ^ 31 <= lead_out < 2 ^ 31 ->
  - 2 ^ 31 <= gap < 2 ^ 31 ->
  short_runs S is_silent src ->
  forallb is_silent src = false \/ (0 < kept lead_in (length src))%nat \/ lead_out <= 0 ->
  exists out : list S,
    (forall n, pull S is_silent zero n (create S zero src lead_in lead_out gap)
               = calls S zero n out) /\
    filter (audible S is_silent) out = filter (audible S is_silent) src.
Proof.
  intros Hz Hli Hlo Hg Hshort Hcase.
  exists (behaviour S is_silent zero lead_in lead_out gap src). split.
  - intros n.
    apply (settings_emits_behaviour S is_silent zero lead_in lead_out gap Hli Hlo Hg src
             Hshort Hcase).
  - apply behaviour_lead_in_audible, Hz.
Qed.

Lemma silencer_keeps_audible_samples_witness :
  exists out : list mono_t,
    (forall n, pull mono_t is_silent_mono 0%Q n
                 (create mono_t 0%Q [0; 1 # 2; 0; 0; 0; 1 # 4; 0; 0]%Q 2 1 (-1))
               = calls mono_t 0%Q n out) /\
    filter (audible mono_t is_silent_mono) out
    = filter (audible mono_t is_silent_mono) [0; 1 # 2; 0; 0; 0; 1 # 4; 0; 0]%Q.
Proof.
  assert (H0 : - 2 ^ 31 <= 2 < 2 ^ 31) by (split; [discriminate | reflexivity]).
  assert (H1 : - 2 ^ 31 <= 1 < 2 ^ 31) by (split; [discriminate | reflexivity]).
  assert (H2 : - 2 ^ 31 <= -1 < 2 ^ 31) by (split; [discriminate | reflexivity]).
  assert (H3 : short_runs mono_t is_silent_mono [0; 1 # 2; 0; 0; 0; 1 # 4; 0; 0]%Q)
    by (apply short_runs_of_short; reflexivity).
  exact (silencer_keeps_audible_samples mono_t is_silent_mono 0%Q 2 1 (-1)
           [0; 1 # 2; 0; 0; 0; 1 # 4; 0; 0]%Q eq_refl H0 H1 H2 H3 (or_introl eq_refl)).
Defined.

End SilencerSettingsFacts.

(* ------------------------------------------------------------------------- *)
(** ** channel.cpp: how long a voice runs *)
(* ------------------------------------------------------------------------- *)

Module ChannelRun.
Import Channel.

Local Open Scope Q_scope.

(** A source module (module.h) given by the samples it still has to
    deliver: [next] returns them with [true], then 0 with [false]. *)
Definition source_next (src : list mono_t) : mono_t * bool * list mono_t :=
  match src with
  | [] => (0, false, [])
  | x :: rest => (x, true, rest)
  end.

#[local] Abbreviation channel := (channel (list mono_t) (list mono_t)).
#[local] Abbreviation next := (next (list mono_t) (list mono_t) source_next source_next).

(** The results of [n] successive calls of [channel::next], and the state
    they leave. *)
Fixpoint pull (n : nat) (c : channel) : list (stereo_t * bool) * channel :=
  match n with
  | O => ([], c)
  | S n' =>
      let '(s, live, c') := next c in
      let '(out, c'') := pull n' c' in
      ((s, live) :: out, c'')
  end.

End ChannelRun.

Module ChannelRunFacts.
Import Channel ChannelRun.

Local Open Scope Q_scope.

#[local] Abbreviation channel := (channel (list mono_t) (list mono_t)).
#[local] Abbreviation next := (next (list mono_t) (list mono_t) source_next source_next).
#[local] Abbreviation is_running := (is_running (list mono_t) (list mono_t)).
#[local] Abbreviation create := (create (list mono_t) (list mono_t)).

Lemma channel_pull_stopped (n : nat) (e : list mono_t) (pan : Z) (vol : stereo_t) :
  pull n (mk_channel _ _ None e pan vol)
  = (repeat (stereo_of 0, false) n, mk_channel _ _ None e pan vol).
Proof.
  induction n as [|n IH]; [reflexivity|].
  cbn [pull Channel.next m_resampler]. rewrite IH. reflexivity.
Qed.

Lemma source_next_sample (src : list mono_t) :
  fst (fst (source_next src)) = nth 0 src 0.
Proof. destruct src; reflexivity. Qed.

Lemma pull_running (pan : Z) (vol : stereo_t) (extra : nat) :
  forall xs es : list mono_t,
  let k := Nat.min (length xs) (length es) in
  fst (pull (k + 1 + extra) (mk_channel _ _ (Some xs) es pan vol))
  = map (fun i => (scale (nth i xs 0 * nth i es 0) vol, true)) (seq 0 (k + 1))
    ++ repeat (stereo_of 0, false) extra /\
  is_running (snd (pull (k + 1 + extra) (mk_channel _ _ (Some xs) es pan vol))) = false.
Proof.
  induction xs as [|x xs IH]; intros es k.
  - subst k. cbn [length Nat.min Nat.add pull Channel.next m_resampler m_envelope
                  source_next m_pan m_volume].
    destruct (source_next es) as [[e el] es'] eqn:He.
    cbn [negb orb]. rewrite channel_pull_stopped. cbn [fst snd seq map app nth].
    pose proof (source_next_sample es) as Hs. rewrite He in Hs. cbn [fst] in Hs.
    rewrite Hs. split; reflexivity.
  - destruct es as [|e es].
    + subst k. cbn [length Nat.min Nat.add pull Channel.next m_resampler m_envelope
                    source_next m_pan m_volume].
      cbn [negb orb]. rewrite channel_pull_stopped. split; reflexivity.
    + subst k. cbn [length Nat.min]. 
      change (S (Nat.min (length xs) (length es)) + 1 + extra)%nat
        with (S (Nat.min (length xs) (length es) + 1 + extra)).
      change (S (Nat.min (length xs) (length es)) + 1)%nat
        with (S (Nat.min (length xs) (length es) + 1)).
      cbn [pull Channel.next m_resampler m_envelope source_next m_pan m_volume negb orb].
      specialize (IH es). cbv zeta in IH.
      destruct (pull (Nat.min (length xs) (length es) + 1 + extra)
                  (mk_channel _ _ (Some xs) es pan vol)) as [out c] eqn:Hp.
      cbn [fst snd] in IH |- *. destruct IH as [IH1 IH2]. split; [|exact IH2].
      rewrite IH1. cbn [seq map app nth]. do 2 f_equal.
      rewrite <- seq_shift, map_map. reflexivity.
Qed.

(** A voice gives one live sample more than the shorter of its two chains.
    With [k] the smaller of the numbers of samples the resampler and the
    envelope deliver, the first [k] calls of [next] return the products of
    waveform, envelope and volume; call [k + 1] still returns [true], with
    the sample 0, and stops the channel although the longer chain has
    samples left; every later call returns 0 and [false], and [is_running]
    is [false]. *)
Theorem channel_runs_one_past_shorter_chain
    (xs es : list mono_t) (volume : mono_t) (pan : Z) (extra : nat) :
  let k := Nat.min (length xs) (length es) in
  let vol := mk_stereo (volume * inject_Z (128 - pan) / 128)
                       (volume * inject_Z (pan + 1) / 128) in
  let run := pull (k + 1 + extra) (create xs es volume pan) in
  fst run
  = map (fun i => (scale (nth i xs 0 * nth i es 0) vol, true)) (seq 0 (k + 1))
    ++ repeat (stereo_of 0, false) extra /\
  left (scale (nth k xs 0 * nth k es 0) vol) == 0 /\
  right (scale (nth k xs 0 * nth k es 0) vol) == 0 /\
  is_running (snd run) = false.
Proof.
  intros k vol run.
  destruct (pull_running pan vol extra xs es) as [H1 H2].
  split; [exact H1|].
  assert (Hz : nth k xs 0 * nth k es 0 == 0).
  { destruct (Nat.min_spec (length xs) (length es)) as [[_ Hk] | [_ Hk]]; fold k in Hk.
    - rewrite (nth_overflow xs) by lia. apply Qmult_0_l.
    - rewrite (nth_overflow es) by lia. apply Qmult_0_r. }
  cbn [scale left right]. rewrite Hz, !Qmult_0_r.
  split; [reflexivity|]. split; [reflexivity | exact H2].
Qed.

End ChannelRunFacts.

(* ------------------------------------------------------------------------- *)
(** ** splitter.h: one source shared by several streams *)
(* ------------------------------------------------------------------------- *)

Module Splitter.

Section WithSample.

Variable S : Type.
Variable zero : S.

(** The source module, given by the samples it still has to deliver. *)
Definition source_next (src : list S) : S * bool * list S :=
  match src with
  | [] => (zero, false, [])
  | x :: rest => (x, true, rest)
  end.

(** A [splitter] object: [address] stands for the pointer to it that the
    parent keeps, [m_buffer] is its deque with the front at the head of the
    list. *)
Record splitter : Type := mk_splitter {
  address : nat;
  m_buffer : list S
}.

(** The [splitter_parent] with the splitters that share it.  A splitter
    attaches itself in its constructors and detaches itself in its
    destructor, so the splitters alive are those of [m_child_streams]; the
    vector of pointers is modelled by the objects pointed to, in the order of
    the vector.  When the last splitter is destroyed the parent and the
    source are deleted: no splitter is left to call. *)
Record splitter_parent : Type := mk_parent {
  m_source : list S;
  m_child_streams : list splitter
}.

(** [std::find] of a pointer in [m_child_streams]. *)
Definition find_child (p : splitter_parent) (child : nat) : option splitter :=
  find (fun c => (address c =? child)%nat) (m_child_streams p).

(** [attach_child] for a splitter just constructed, whose buffer is empty;
    [None] is the failed assertion. *)
Definition attach_child (p : splitter_parent) (child : nat) : option splitter_parent :=
  match find_child p child with
  | Some _ => None
  | None => Some (mk_parent (m_source p) (m_child_streams p ++ [mk_splitter child []]))
  end.

(** [erase] at the place [std::find] gives. *)
Fixpoint erase (children : list splitter) (child : nat) : list splitter :=
  match children with
  | [] => []
  | c :: rest => if (address c =? child)%nat then rest else c :: erase rest child
  end.

(** [detach_child]; [None] is the failed assertion. *)
Definition detach_child (p : splitter_parent) (child : nat) : option splitter_parent :=
  match find_child p child with
  | None => None
  | Some _ => Some (mk_parent (m_source p) (erase (m_child_streams p) child))
  end.

(** The public constructor, for the splitter at [self]: a new parent for
    the source, to which the splitter attaches itself. *)
Definition create (source : list S) (self : nat) : option splitter_parent :=
  attach_child (mk_parent source []) self.

(** [split], called on the splitter at [self]: the private constructor
    attaches the new splitter at [child] to the parent of [self].  A call on
    a splitter that is not alive has no meaning and gives [None]. *)
Definition split (p : splitter_parent) (self child : nat) : option splitter_parent :=
  match find_child p self with
  | None => None
  | Some _ => attach_child p child
  end.

(** The destructor of the splitter at [self]. *)
Definition destroy (p : splitter_parent) (self : nat) : option splitter_parent :=
  detach_child p self.

Definition buffer_data (s : S) (c : splitter) : splitter :=
  mk_splitter (address c) (m_buffer c ++ [s]).

(** [buffer_data] on every child, when the source delivers a sample. *)
Definition feed_children (p : splitter_parent) : splitter_parent :=
  let '(s, live, rest) := source_next (m_source p) in
  if live
  then mk_parent rest (map (buffer_data s) (m_child_streams p))
  else mk_parent rest (m_child_streams p).

(** The buffer of the splitter at [child], if it is alive. *)
Definition buffer (p : splitter_parent) (child : nat) : option (list S) :=
  option_map m_buffer (find_child p child).

(** The splitter at [child] with its buffer replaced. *)
Fixpoint set_buffer (children : list splitter) (child : nat) (b : list S)
  : list splitter :=
  match children with
  | [] => []
  | c :: rest =>
      if (address c =? child)%nat then mk_splitter child b :: rest
      else c :: set_buffer rest child b
  end.

Definition is_empty (b : list S) : bool :=
  match b with [] => true | _ => false end.

(** [splitter::is_running] of the splitter at [self]; the parent's answer
    is the source's, which runs while it has samples. *)
Definition is_running (p : splitter_parent) (self : nat) : option bool :=
  match buffer p self with
  | None => None
  | Some b => Some (negb (is_empty b) || negb (is_empty (m_source p)))
  end.

(** [splitter::next] of the splitter at [self]. *)
Definition next (p : splitter_parent) (self : nat) : option (S * bool * splitter_parent) :=
  match buffer p self with
  | None => None
  | Some b =>
      let p := if is_empty b then feed_children p else p in
      match buffer p self with
      | None => None
      | Some [] => Some (zero, false, p)
      | Some (s :: b') =>
          Some (s, true, mk_parent (m_source p) (set_buffer (m_child_streams p) self b'))
      end
  end.

(** What the users of the splitters do, in the order in which they do it. *)
Inductive call : Type :=
| call_next (self : nat)
| call_split (self child : nat)
| call_delete (self : nat).

(** The calls made one after the other; the result lists, for each call of
    [next], the splitter and what it was given. *)
Fixpoint run (calls : list call) (p : splitter_parent)
  : option (list (nat * S * bool) * splitter_parent) :=
  match calls with
  | [] => Some ([], p)
  | call_next self :: later =>
      match next p self with
      | None => None
      | Some (s, live, p') =>
          match run later p' with
          | None => None
          | Some (trace, p'') => Some ((self, s, live) :: trace, p'')
          end
      end
  | call_split self child :: later =>
      match split p self child with
      | None => None
      | Some p' => run later p'
      end
  | call_delete self :: later =>
      match destroy p self with
      | None => None
      | Some p' => run later p'
      end
  end.

(** The live samples that the splitter at [child] was given. *)
Fixpoint received (child : nat) (trace : list (nat * S * bool)) : list S :=
  match trace with
  | [] => []
  | (c, s, live) :: later =>
      if (c =? child)%nat && live then s :: received child later
      else received child later
  end.

(** The calls that leave the splitter at [child] alive. *)
Definition keeps (child : nat) (c : call) : bool :=
  match c with
  | call_delete self => negb (self =? child)%nat
  | _ => true
  end.

(** The states in which the splitter at [child] has just been constructed,
    with the samples the source has still to deliver at that moment: by the
    public constructor, or by [split] at any time. *)
Inductive constructed (child : nat) : list S -> splitter_parent -> Prop :=
| by_constructor source p :
    create source child = Some p -> constructed child source p
| by_split p0 self p :
    split p0 self child = Some p -> constructed child (m_source p0) p.

End WithSample.

End Splitter.

Module SplitterFacts.
Import Splitter.

Section WithSample.

Variable S : Type.
Variable zero : S.

#[local] Abbreviation splitter := (splitter S).
#[local] Abbreviation splitter_parent := (splitter_parent S).
#[local] Abbreviation next := (next S zero).
#[local] Abbreviation run := (run S zero).
#[local] Abbreviation feed_children := (feed_children S zero).
#[local] Abbreviation buffer := (buffer S).
#[local] Abbreviation find_child := (find_child S).
#[local] Abbreviation set_buffer := (set_buffer S).
#[local] Abbreviation erase := (erase S).
#[local] Abbreviation received := (received S).

Definition found (children : list splitter) (i : nat) : option (list S) :=
  option_map (m_buffer S) (find (fun c => (address S c =? i)%nat) children).

Lemma buffer_found (p : splitter_parent) i : buffer p i = found (m_child_streams S p) i.
Proof. reflexivity. Qed.

Lemma found_attached children i b new :
  found children i = Some b -> found (children ++ [new]) i = Some b.
Proof.
  unfold found. induction children as [|c children IH]; cbn [find app]; [discriminate|].
  destruct (address S c =? i)%nat; [auto | exact IH].
Qed.

Lemma found_new children i :
  find (fun c => (address S c =? i)%nat) children = None ->
  found (children ++ [mk_splitter S i []]) i = Some [].
Proof.
  unfold found. induction children as [|c children IH]; cbn [find app address].
  - rewrite Nat.eqb_refl. reflexivity.
  - destruct (address S c =? i)%nat; [discriminate | exact IH].
Qed.

Lemma found_erase children i self :
  self <> i -> found (erase children self) i = found children i.
Proof.
  intros Hne. unfold found.
  induction children as [|c children IH]; cbn [Splitter.erase find]; [reflexivity|].
  destruct (Nat.eqb_spec (address S c) self) as [Hs | Hs].
  - destruct (Nat.eqb_spec (address S c) i); [congruence | reflexivity].
  - cbn [find]. destruct (address S c =? i)%nat; [reflexivity | exact IH].
Qed.

Lemma found_fed children i s :
  found (map (buffer_data S s) children) i
  = option_map (fun b => b ++ [s]) (found children i).
Proof.
  unfold found. induction children as [|c children IH]; cbn [map find]; [reflexivity|].
  cbn [buffer_data address]. destruct (address S c =? i)%nat; [reflexivity | exact IH].
Qed.

Lemma found_set_same children self b b' :
  found children self = Some b -> found (set_buffer children self b') self = Some b'.
Proof.
  unfold found. induction children as [|c children IH]; cbn [Splitter.set_buffer find];
    [discriminate|].
  destruct (Nat.eqb_spec (address S c) self) as [Hs | Hs].
  - intros _. cbn [find address]. rewrite Nat.eqb_refl. reflexivity.
  - cbn [find]. destruct (Nat.eqb_spec (address S c) self); [contradiction | exact IH].
Qed.

Lemma found_set_other children self i b' :
  self <> i -> found (set_buffer children self b') i = found children i.
Proof.
  intros Hne. unfold found.
  induction children as [|c children IH]; cbn [Splitter.set_buffer find]; [reflexivity|].
  destruct (Nat.eqb_spec (address S c) self) as [Hs | Hs]; cbn [find address].
  - destruct (Nat.eqb_spec self i); [contradiction|].
    destruct (Nat.eqb_spec (address S c) i); [congruence | reflexivity].
  - destruct (address S c =? i)%nat; [reflexivity | exact IH].
Qed.

(** Feeding moves one sample from the source to the back of every buffer. *)
Lemma feed_children_keeps (p : splitter_parent) i b :
  buffer p i = Some b ->
  exists b', buffer (feed_children p) i = Some b' /\
    b' ++ m_source S (feed_children p) = b ++ m_source S p.
Proof.
  intros Hb. unfold Splitter.feed_children.
  destruct (m_source S p) as [|x rest]; cbn [source_next m_source].
  - exists b. split; [exact Hb | reflexivity].
  - exists (b ++ [x]). rewrite buffer_found in *. cbn [m_child_streams].
    rewrite found_fed, Hb. split; [reflexivity|]. rewrite <- app_assoc. reflexivity.
Qed.

(** One call of [next]: what the splitter at [i] holds or has still to come
    is what it held before, less the sample handed to it. *)
Lemma next_keeps (p : splitter_parent) self i b s live p' :
  buffer p i = Some b -> next p self = Some (s, live, p') ->
  exists b', buffer p' i = Some b' /\
    (if (self =? i)%nat && live then [s] else []) ++ b' ++ m_source S p'
    = b ++ m_source S p.
Proof.
  intros Hb. unfold Splitter.next.
  destruct (buffer p self) as [bs|] eqn:Hs; [|discriminate].
  set (p1 := if is_empty S bs then feed_children p else p).
  assert (H1 : exists b1, buffer p1 i = Some b1 /\
                 b1 ++ m_source S p1 = b ++ m_source S p).
  { subst p1. destruct (is_empty S bs).
    - apply feed_children_keeps, Hb.
    - exists b. split; [exact Hb | reflexivity]. }
  destruct H1 as (b1 & Hb1 & Hkeep). clearbody p1.
  destruct (buffer p1 self) as [[|s1 bs1]|] eqn:Hs1; [| |discriminate].
  - intros [= <- <- <-]. rewrite andb_false_r. exists b1. split; assumption.
  - intros [= <- <- <-]. rewrite andb_true_r. rewrite buffer_found in *.
    cbn [m_child_streams m_source].
    destruct (Nat.eqb_spec self i) as [-> | Hne].
    + exists bs1. rewrite (found_set_same _ _ _ _ Hs1). split; [reflexivity|].
      rewrite <- Hkeep. replace b1 with (s1 :: bs1) by congruence. reflexivity.
    + exists b1. rewrite found_set_other by exact Hne. split; assumption.
Qed.

Lemma attach_child_keeps (p : splitter_parent) child i b p' :
  buffer p i = Some b -> attach_child S p child = Some p' ->
  buffer p' i = Some b /\ m_source S p' = m_source S p.
Proof.
  intros Hb. unfold attach_child. destruct (Splitter.find_child S p child); [discriminate|].
  intros [= <-]. rewrite buffer_found in *. cbn [m_child_streams m_source].
  split; [apply found_attached, Hb | reflexivity].
Qed.

Lemma attach_child_new (p : splitter_parent) child p' :
  attach_child S p child = Some p' ->
  buffer p' child = Some [] /\ m_source S p' = m_source S p.
Proof.
  unfold attach_child. destruct (Splitter.find_child S p child) eqn:Hf; [discriminate|].
  intros [= <-]. rewrite buffer_found. cbn [m_child_streams m_source].
  split; [apply found_new, Hf | reflexivity].
Qed.

Lemma destroy_keeps (p : splitter_parent) self i b p' :
  self <> i -> buffer p i = Some b -> destroy S p self = Some p' ->
  buffer p' i = Some b /\ m_source S p' = m_source S p.
Proof.
  intros Hne Hb. unfold destroy, detach_child.
  destruct (Splitter.find_child S p self); [|discriminate].
  intros [= <-]. rewrite buffer_found in *. cbn [m_child_streams m_source].
  rewrite found_erase by exact Hne. split; [exact Hb | reflexivity].
Qed.

(** A splitter that is alive gets, from any moment on, what it held at that
    moment and what the source had still to deliver, as long as it is not
    destroyed. *)
Lemma run_keeps calls i : forall (p : splitter_parent) b trace p',
  buffer p i = Some b -> forallb (keeps i) calls = true ->
  run calls p = Some (trace, p') ->
  exists b', buffer p' i = Some b' /\
    received i trace ++ b' ++ m_source S p' = b ++ m_source S p.
Proof.
  induction calls as [|c later IH]; intros p b trace p' Hb Hkeeps.
  - intros [= <- <-]. exists b. split; [exact Hb | reflexivity].
  - cbn [forallb] in Hkeeps. apply andb_true_iff in Hkeeps as [Hk Hkeeps].
    destruct c as [self | self child | self]; cbn [Splitter.run].
    + destruct (next p self) as [[[s live] p1]|] eqn:Hn; [|discriminate].
      destruct (next_keeps p self i b s live p1 Hb Hn) as (b1 & Hb1 & Hk1).
      destruct (run later p1) as [[trace1 p2]|] eqn:Hr; [|discriminate].
      intros [= <- <-].
      destruct (IH p1 b1 trace1 p2 Hb1 Hkeeps Hr) as (b' & Hb' & Hk').
      exists b'. split; [exact Hb'|]. rewrite <- Hk1, <- Hk'.
      cbn [Splitter.received]. destruct ((self =? i)%nat && live); reflexivity.
    + unfold split. destruct (Splitter.find_child S p self); [|discriminate].
      destruct (attach_child S p child) as [p1|] eqn:Ha; [|discriminate].
      destruct (attach_child_keeps p child i b p1 Hb Ha) as [Hb1 Hs1].
      intros Hr. rewrite <- Hs1. exact (IH p1 b trace p' Hb1 Hkeeps Hr).
    + destruct (destroy S p self) as [p1|] eqn:Hd; [|discriminate].
      cbn [keeps] in Hk. apply negb_true_iff, Nat.eqb_neq in Hk.
      destruct (destroy_keeps p self i b p1 Hk Hb Hd) as [Hb1 Hs1].
      intros Hr. rewrite <- Hs1. exact (IH p1 b trace p' Hb1 Hkeeps Hr).
Qed.

(** A splitter just constructed has an empty buffer. *)
Lemma constructed_empty i stream (p : splitter_parent) :
  constructed S i stream p -> buffer p i = Some [] /\ m_source S p = stream.
Proof.
  intros [source q Hc | p0 self q Hs].
  - unfold create in Hc. exact (attach_child_new _ _ _ Hc).
  - unfold split in Hs. destruct (Splitter.find_child S p0 self); [|discriminate].
    exact (attach_child_new _ _ _ Hs).
Qed.

(** [is_running] of a splitter tells what its next call of [next] returns. *)
Lemma next_is_running (p : splitter_parent) i b :
  buffer p i = Some b ->
  exists s p', next p i = Some (s, negb (is_empty S b) || negb (is_empty S (m_source S p)), p')
    /\ is_running S p i = Some (negb (is_empty S b) || negb (is_empty S (m_source S p))).
Proof.
  intros Hb. unfold Splitter.next, Splitter.is_running. rewrite Hb.
  destruct b as [|s b]; cbn [is_empty negb orb].
  - unfold Splitter.feed_children.
    destruct (m_source S p) as [|x rest]; cbn [source_next is_empty negb].
    + rewrite buffer_found in *. cbn [m_child_streams]. rewrite Hb.
      eexists _, _. split; reflexivity.
    + rewrite buffer_found in *. cbn [m_child_streams]. rewrite found_fed, Hb.
      cbn [option_map app]. eexists _, _. split; reflexivity.
  - rewrite Hb. eexists _, _. split; reflexivity.
Qed.

(** A splitter is told that the stream has stopped only when its buffer
    and the source are both empty. *)
Lemma next_stopped (p : splitter_parent) i b :
  buffer p i = Some b ->
  exists s live p', next p i = Some (s, live, p') /\
    (live = false -> b = [] /\ m_source S p = []).
Proof.
  intros Hb. unfold Splitter.next. rewrite Hb.
  destruct b as [|s b]; cbn [is_empty].
  - unfold Splitter.feed_children.
    destruct (m_source S p) as [|x rest]; cbn [source_next].
    + rewrite buffer_found in *. cbn [m_child_streams]. rewrite Hb.
      exists zero, false, (mk_parent S [] (m_child_streams S p)).
      split; [reflexivity | split; reflexivity].
    + rewrite buffer_found in *. cbn [m_child_streams]. rewrite found_fed, Hb.
      cbn [option_map app]. eexists _, true, _. split; [reflexivity | discriminate].
  - rewrite Hb. eexists _, true, _. split; [reflexivity | discriminate].
Qed.

End WithSample.

(** A stream split off a source gets the source from the moment of the
    split.  Let a splitter be constructed, by the public constructor or by
    [split] at any time, while the source has [stream] still to deliver, and
    let any calls of [next], [split] and destructors follow that do not
    destroy it: the samples it has been given, followed by those in its
    buffer and those the source has still to deliver, are [stream], in
    order.  Its next call of [next] returns, and if that tells that the
    stream has stopped, the splitter has been given all of [stream].  What
    the source delivered before the split is not in [stream]: nothing is
    filled in for a splitter made late. *)
Theorem child_gets_the_stream_from_its_construction (S : Type) (zero : S)
    (i : nat) (stream : list S) (p : splitter_parent S) (calls : list call)
    (trace : list (nat * S * bool)) (p' : splitter_parent S) :
  constructed S i stream p ->
  forallb (keeps i) calls = true ->
  run S zero calls p = Some (trace, p') ->
  exists b',
    buffer S p' i = Some b' /\
    received S i trace ++ b' ++ m_source S p' = stream /\
    exists s live p'',
      next S zero p' i = Some (s, live, p'') /\
      (live = false -> received S i trace = stream).
Proof.
  intros Hc Hkeeps Hrun.
  destruct (constructed_empty S i stream p Hc) as [Hb Hs].
  destruct (run_keeps S zero calls i p [] trace p' Hb Hkeeps Hrun) as (b' & Hb' & Hkeep).
  cbn [app] in Hkeep. rewrite Hs in Hkeep.
  exists b'. split; [exact Hb'|]. split; [exact Hkeep|].
  destruct (next_stopped S zero p' i b' Hb') as (s & live & p'' & Hn & Hstop).
  exists s, live, p''. split; [exact Hn|].
  intros Hl. destruct (Hstop Hl) as [-> Hsrc].
  rewrite Hsrc, app_nil_r in Hkeep. exact Hkeep.
Qed.

(** The splitter at 0 takes the first of three samples, then the splitter
    at 1 is split off: it is given the second and the third sample, and
    then told that the stream has stopped. *)
Lemma child_gets_the_stream_from_its_construction_witness :
  let created := mk_parent nat [7; 8; 9]%nat [mk_splitter nat 0 []] in
  let p0 := mk_parent nat [8; 9]%nat [mk_splitter nat 0 []] in
  let p := mk_parent nat [8; 9]%nat [mk_splitter nat 0 []; mk_splitter nat 1 []] in
  let calls := [call_next 1; call_next 0; call_next 1; call_next 0]%nat in
  let trace := [(1, 8, true); (0, 8, true); (1, 9, true); (0, 9, true)]%nat in
  let p' := mk_parent nat [] [mk_splitter nat 0 []; mk_splitter nat 1 []] in
  create nat [7; 8; 9]%nat 0 = Some created /\
  run nat 0%nat [call_next 0%nat] created = Some ([(0, 7, true)]%nat, p0) /\
  split nat p0 0 1 = Some p /\
  run nat 0%nat calls p = Some (trace, p') /\
  exists b',
    buffer nat p' 1 = Some b' /\
    received nat 1 trace ++ b' ++ m_source nat p' = [8; 9]%nat /\
    exists s live p'',
      next nat 0%nat p' 1 = Some (s, live, p'') /\
      (live = false -> received nat 1 trace = [8; 9]%nat).
Proof.
  intros created p0 p calls trace p'.
  split; [reflexivity|]. split; [reflexivity|]. split; [reflexivity|].
  split; [reflexivity|].
  exact (child_gets_the_stream_from_its_construction nat 0%nat 1 (m_source nat p0) p calls
           trace p' (by_split nat 1 p0 0%nat p eq_refl) eq_refl eq_refl).
Defined.

End SplitterFacts.

(* ------------------------------------------------------------------------- *)
(** ** lcd_file.h / lcd_file.cpp: the collection of patches *)
(* ------------------------------------------------------------------------- *)

Module Lcd.

Record patch : Type := mk_patch {
  id : Z;                (* uint16_t *)
  adpcm : list byte      (* std::vector<uint8_t> *)
}.

(** [m_patches]: a vector, so the order and repeated IDs matter. *)
Definition lcd_file : Type := list patch.

Definition is_empty (l : lcd_file) : bool :=
  match l with [] => true | _ => false end.

(** [std::for_each] with [std::max], starting from 0. *)
Definition maximum_patch_id (l : lcd_file) : Z :=
  fold_left (fun maximum p => Z.max maximum (id p)) l 0.

(** [std::find_if]: the first patch with the ID, [None] for [nullptr]. *)
Fixpoint patch_by_id (l : lcd_file) (i : Z) : option patch :=
  match l with
  | [] => None
  | p :: rest => if id p =? i then Some p else patch_by_id rest i
  end.

(** The first patch with the ID gets the new data; without one a new
    patch is appended.  (The two assertions on [adpcm] are not modelled:
    the function does the same whatever the data.) *)
Fixpoint set_patch_by_id (l : lcd_file) (i : Z) (data : list byte) : lcd_file :=
  match l with
  | [] => [mk_patch i data]
  | p :: rest =>
      if id p =? i then mk_patch (id p) data :: rest
      else p :: set_patch_by_id rest i data
  end.

(** The loop of [merge] over the patches of the other file. *)
Fixpoint merge (l other : lcd_file) : lcd_file :=
  match other with
  | [] => l
  | p :: rest =>
      match patch_by_id l (id p) with
      | None => merge (l ++ [mk_patch (id p) (adpcm p)]) rest
      | Some _ => merge l rest
      end
  end.

End Lcd.

Module LcdFacts.
Import Lcd.

Lemma patch_by_id_app l1 l2 i :
  patch_by_id (l1 ++ l2) i
  = match patch_by_id l1 i with Some p => Some p | None => patch_by_id l2 i end.
Proof.
  induction l1 as [|p l1 IH]; [reflexivity|].
  cbn [app patch_by_id]. destruct (id p =? i); [reflexivity | exact IH].
Qed.

Lemma patch_by_id_found l i p :
  patch_by_id l i = Some p -> In p l /\ id p = i.
Proof.
  induction l as [|q l IH]; [discriminate|].
  cbn [patch_by_id]. destruct (Z.eqb_spec (id q) i) as [He | Hne].
  - intros [= ->]. split; [left; reflexivity | exact He].
  - intros H. destruct (IH H) as [Hin Hid]. split; [right; exact Hin | exact Hid].
Qed.

Lemma patch_by_id_missing l i :
  patch_by_id l i = None <-> (forall p, In p l -> id p <> i).
Proof.
  induction l as [|q l IH]; cbn [patch_by_id In].
  - split; [intros _ p [] | reflexivity].
  - destruct (Z.eqb_spec (id q) i) as [He | Hne].
    + split; [discriminate|]. intros H. exfalso. apply (H q); [left; reflexivity | exact He].
    + rewrite IH. split.
      * intros H p [<- | Hin]; [exact Hne | apply H, Hin].
      * intros H p Hin. apply H. right. exact Hin.
Qed.

(** Insert and look up.  After [set_patch_by_id l i data] the patch found
    for [i] has the new data; the patch found for any other ID is the one
    found before; the collection keeps its order and IDs, and grows by one
    patch exactly when [i] was missing. *)
Theorem set_patch_then_patch_by_id (l : lcd_file) (i : Z) (data : list byte) (j : Z) :
  patch_by_id (set_patch_by_id l i data) i = Some (mk_patch i data) /\
  (patch_by_id (set_patch_by_id l i data) j
   = if j =? i then Some (mk_patch i data) else patch_by_id l j) /\
  map id (set_patch_by_id l i data)
  = match patch_by_id l i with
    | Some _ => map id l
    | None => map id l ++ [i]
    end.
Proof.
  assert (Hget : forall k, patch_by_id (set_patch_by_id l i data) k
                           = if k =? i then Some (mk_patch i data) else patch_by_id l k).
  { intros k. induction l as [|p l IH]; cbn [set_patch_by_id patch_by_id id].
    - rewrite (Z.eqb_sym i k). reflexivity.
    - destruct (Z.eqb_spec (id p) i) as [He | Hne]; cbn [patch_by_id id].
      + destruct (Z.eqb_spec (id p) k) as [Hk | Hk].
        * destruct (Z.eqb_spec k i); [congruence | lia].
        * destruct (Z.eqb_spec k i); [lia | reflexivity].
      + destruct (Z.eqb_spec (id p) k) as [Hk | Hk]; [|exact IH].
        destruct (Z.eqb_spec k i); [lia | reflexivity]. }
  split; [rewrite Hget, Z.eqb_refl; reflexivity|]. split; [apply Hget|].
  clear Hget.
  induction l as [|p l IH]; cbn [set_patch_by_id patch_by_id map app]; [reflexivity|].
  destruct (id p =? i); cbn [map id]; [reflexivity|].
  rewrite IH. destruct (patch_by_id l i); reflexivity.
Qed.

(** [merge] copies what is missing and nothing else.  The patches of the
    file merged into stay where they are, followed by the added ones; an ID
    found before is found with the same patch, and an ID found only in the
    other file is found with the first patch the other file has for it. *)
Theorem merge_keeps_own_patches (l other : lcd_file) (j : Z) :
  (exists added, merge l other = l ++ added /\
                 forall p, In p added -> In p other /\ patch_by_id l (id p) = None) /\
  patch_by_id (merge l other) j
  = match patch_by_id l j with
    | Some p => Some p
    | None => patch_by_id other j
    end.
Proof.
  revert l. induction other as [|q other IH]; intros l.
  - cbn [merge patch_by_id]. split.
    + exists []. rewrite app_nil_r. split; [reflexivity | intros p []].
    + destruct (patch_by_id l j); reflexivity.
  - cbn [merge]. replace (mk_patch (id q) (adpcm q)) with q by (destruct q; reflexivity).
    destruct (patch_by_id l (id q)) as [found|] eqn:Hq.
    + destruct (IH l) as [(added & Hm & Hin) Hget]. split.
      * exists added. split; [exact Hm|]. intros p Hp.
        destruct (Hin p Hp) as [H1 H2]. split; [right; exact H1 | exact H2].
      * rewrite Hget. cbn [patch_by_id].
        destruct (patch_by_id l j) eqn:Hj; [reflexivity|].
        destruct (Z.eqb_spec (id q) j) as [He | Hne]; [congruence | reflexivity].
    + destruct (IH (l ++ [q])) as [(added & Hm & Hin) Hget]. split.
      * exists (q :: added). split.
        -- rewrite Hm, <- app_assoc. reflexivity.
        -- intros p [<- | Hp]; [split; [left; reflexivity | exact Hq]|].
           destruct (Hin p Hp) as [H1 H2]. split; [right; exact H1|].
           rewrite patch_by_id_app in H2. destruct (patch_by_id l (id p)); [discriminate | reflexivity].
      * rewrite Hget, patch_by_id_app. cbn [patch_by_id].
        destruct (patch_by_id l j); [reflexivity|].
        destruct (id q =? j); reflexivity.
Qed.

End LcdFacts.

(* ------------------------------------------------------------------------- *)
(** ** endian.h / safe_file.cpp: files *)
(* ------------------------------------------------------------------------- *)

Module SafeFile.

Section Host.

(** [true] on a host for which [PSXDMH_LITTLE_ENDIAN] is not defined. *)
Variable big_endian : bool.

(** endian.h: [uint16_as_le] and [uint32_as_le]. *)
Definition uint16_as_le (v : Z) : Z :=
  if big_endian
  then to_uint16 (Z.lor (Z.land (Z.shiftl v 8) 0xff00) (Z.land (Z.shiftr v 8) 0x00ff))
  else v.

Definition uint32_as_le (v : Z) : Z :=
  if big_endian
  then Z.lor (Z.lor (Z.lor (Z.land (to_uint32 (Z.shiftl v 24)) 0xff000000)
                           (Z.land (to_uint32 (Z.shiftl v 8)) 0x00ff0000))
                    (Z.land (Z.shiftr v 8) 0x0000ff00))
             (Z.land (Z.shiftr v 24) 0x000000ff)
  else v.

(** The bytes of a [uint16_t] and of a [uint32_t] in the memory of the
    host, which is what [fwrite] stores and [fread] fills. *)
Definition uint16_bytes (v : Z) : list byte :=
  if big_endian then [byte_of_Z (v / 256); byte_of_Z v]
  else [byte_of_Z v; byte_of_Z (v / 256)].

Definition uint16_of_bytes (bs : list byte) : Z :=
  if big_endian then byte_at bs 0 * 256 + byte_at bs 1
  else byte_at bs 0 + byte_at bs 1 * 256.

Definition uint32_bytes (v : Z) : list byte :=
  if big_endian
  then [byte_of_Z (v / 16777216); byte_of_Z (v / 65536); byte_of_Z (v / 256); byte_of_Z v]
  else [byte_of_Z v; byte_of_Z (v / 256); byte_of_Z (v / 65536); byte_of_Z (v / 16777216)].

Definition uint32_of_bytes (bs : list byte) : Z :=
  if big_endian
  then byte_at bs 0 * 16777216 + byte_at bs 1 * 65536 + byte_at bs 2 * 256 + byte_at bs 3
  else byte_at bs 0 + byte_at bs 1 * 256 + byte_at bs 2 * 65536 + byte_at bs 3 * 16777216.

(** *** A file open for reading: its name, its bytes and the position *)

Record safe_file : Type := mk_file {
  m_file_name : string;
  m_contents : list byte;
  m_pos : nat                  (* ftell *)
}.

Definition open_read (file_name : string) (contents : list byte) : safe_file :=
  mk_file file_name contents 0.

Definition m_size (f : safe_file) : nat := length (m_contents f).

Definition failed_reading (f : safe_file) : string :=
  ("Failed reading from '" ++ m_file_name f ++ "'.")%string.

Definition eof (f : safe_file) : bool := (m_pos f =? m_size f)%nat.

Definition seek (f : safe_file) (pos : nat) : safe_file :=
  mk_file (m_file_name f) (m_contents f) pos.

Definition tell (f : safe_file) : nat := m_pos f.

(** [read]: [fread] delivers fewer bytes than asked for when the file ends
    first, and the function throws. *)
Definition read (f : safe_file) (bytes : nat) : result (list byte * safe_file) :=
  if (bytes =? 0)%nat || (m_pos f + bytes <=? m_size f)%nat
  then Ok (firstn bytes (skipn (m_pos f) (m_contents f)),
           mk_file (m_file_name f) (m_contents f) (m_pos f + bytes))
  else Fatal (failed_reading f).

Definition read_16_le (f : safe_file) : result (Z * safe_file) :=
  match read f 2 with
  | Ok (temp, f') => Ok (uint16_as_le (uint16_of_bytes temp), f')
  | Fatal msg => Fatal msg
  end.

Definition read_32_le (f : safe_file) : result (Z * safe_file) :=
  match read f 4 with
  | Ok (temp, f') => Ok (uint32_as_le (uint32_of_bytes temp), f')
  | Fatal msg => Fatal msg
  end.

(** *** A file open for writing: the bytes written so far

    The writes are taken to succeed. *)

Definition write (out : list byte) (buffer : list byte) : list byte := out ++ buffer.

Definition write_16_le (out : list byte) (value : Z) : list byte :=
  out ++ uint16_bytes (uint16_as_le value).

Definition write_32_le (out : list byte) (value : Z) : list byte :=
  out ++ uint32_bytes (uint32_as_le value).

Definition write_zeros (out : list byte) (count : nat) : list byte :=
  out ++ repeat x00 count.

End Host.

End SafeFile.

Module SafeFileFacts.
Import SafeFile.

Lemma land_disjoint_bytes (hi lo : Z) :
  0 <= lo < 256 -> Z.land (hi * 256) lo = 0.
Proof.
  intros Hlo. apply Z.bits_inj'; intros n Hn.
  rewrite Z.land_spec, Z.bits_0. change 256 with (2 ^ 8).
  destruct (Z.lt_ge_cases n 8) as [Hlt | Hge].
  - rewrite Z.mul_pow2_bits_low by lia. reflexivity.
  - rewrite <- (Z.mod_small lo (2 ^ 8)) by (change (2 ^ 8) with 256; lia).
    rewrite Z.mod_pow2_bits_high by lia. apply andb_false_r.
Qed.

Lemma lor_disjoint_bytes (hi lo : Z) :
  0 <= lo < 256 -> Z.lor (hi * 256) lo = hi * 256 + lo.
Proof.
  intros Hlo. pose proof (land_disjoint_bytes hi lo Hlo) as H.
  rewrite <- Z.lxor_lor, <- Z.add_nocarry_lxor by exact H. reflexivity.
Qed.

Lemma swap16 (v : Z) :
  0 <= v < 65536 ->
  to_uint16 (Z.lor (Z.land (Z.shiftl v 8) 0xff00) (Z.land (Z.shiftr v 8) 0x00ff))
  = (v mod 256) * 256 + v / 256.
Proof.
  intros Hv.
  change 0xff00 with (Z.shiftl (Z.ones 8) 8). rewrite <- Z.shiftl_land.
  change 0x00ff with (Z.ones 8). rewrite !Z.land_ones by lia.
  rewrite Z.shiftl_mul_pow2, Z.shiftr_div_pow2 by lia. change (2 ^ 8) with 256.
  assert (H1 : 0 <= v / 256 < 256) by (split; [apply Z.div_pos; lia | apply Z.div_lt_upper_bound; lia]).
  assert (H2 : 0 <= v mod 256 < 256) by (apply Z.mod_pos_bound; lia).
  rewrite (Z.mod_small (v / 256)) by lia.
  rewrite lor_disjoint_bytes by lia.
  unfold to_uint16. apply wrap_unsigned_id. lia.
Qed.

Lemma land_byte_mask (x k : Z) :
  0 <= k -> Z.land x (Z.shiftl 255 k) = ((x / 2 ^ k) mod 256) * 2 ^ k.
Proof.
  intros Hk. apply Z.bits_inj'; intros n Hn.
  rewrite Z.land_spec, Z.shiftl_spec by lia.
  destruct (Z.lt_ge_cases n k) as [Hlt | Hge].
  - rewrite Z.mul_pow2_bits_low by lia.
    rewrite (Z.testbit_neg_r 255) by lia. apply andb_false_r.
  - rewrite Z.mul_pow2_bits by lia. change 256 with (2 ^ 8).
    destruct (Z.lt_ge_cases (n - k) 8) as [Hlow | Hhigh].
    + rewrite Z.mod_pow2_bits_low by lia.
      change 255 with (Z.ones 8). rewrite Z.ones_spec_low by lia.
      rewrite andb_true_r, Z.div_pow2_bits by lia. f_equal. lia.
    + rewrite Z.mod_pow2_bits_high by lia.
      change 255 with (Z.ones 8). rewrite Z.ones_spec_high by lia.
      apply andb_false_r.
Qed.

Lemma lor_disjoint (hi lo k : Z) :
  0 <= k -> 0 <= lo < 2 ^ k -> Z.lor (hi * 2 ^ k) lo = hi * 2 ^ k + lo.
Proof.
  intros Hk Hlo.
  assert (H : Z.land (hi * 2 ^ k) lo = 0).
  { apply Z.bits_inj'; intros n Hn. rewrite Z.land_spec, Z.bits_0.
    destruct (Z.lt_ge_cases n k) as [Hlt | Hge].
    - rewrite Z.mul_pow2_bits_low by lia. reflexivity.
    - rewrite <- (Z.mod_small lo (2 ^ k)) by lia.
      rewrite Z.mod_pow2_bits_high by lia. apply andb_false_r. }
  rewrite <- Z.lxor_lor, <- Z.add_nocarry_lxor by exact H. reflexivity.
Qed.

Lemma swap32 (v : Z) :
  0 <= v < 2 ^ 32 ->
  Z.lor (Z.lor (Z.lor (Z.land (to_uint32 (Z.shiftl v 24)) 0xff000000)
                      (Z.land (to_uint32 (Z.shiftl v 8)) 0x00ff0000))
               (Z.land (Z.shiftr v 8) 0x0000ff00))
        (Z.land (Z.shiftr v 24) 0x000000ff)
  = (v mod 256) * 16777216 + (v / 256 mod 256) * 65536
    + (v / 65536 mod 256) * 256 + v / 16777216.
Proof.
  intros Hv.
  change 0xff000000 with (Z.shiftl 255 24). change 0x00ff0000 with (Z.shiftl 255 16).
  change 0x0000ff00 with (Z.shiftl 255 8). change 0x000000ff with (Z.shiftl 255 0).
  rewrite !land_byte_mask by lia.
  rewrite !Z.shiftl_mul_pow2, !Z.shiftr_div_pow2 by lia.
  unfold to_uint32, wrap_unsigned.
  change (2 ^ 24) with 16777216. change (2 ^ 16) with 65536.
  change (2 ^ 8) with 256. change (2 ^ 0) with 1. change (2 ^ 32) with 4294967296 in *.
  assert (E1 : (v * 16777216) mod 4294967296 / 16777216 mod 256 = v mod 256)
    by (Z.div_mod_to_equations; lia).
  assert (E2 : (v * 256) mod 4294967296 / 65536 mod 256 = v / 256 mod 256)
    by (Z.div_mod_to_equations; lia).
  assert (E3 : v / 256 / 256 mod 256 = v / 65536 mod 256)
    by (Z.div_mod_to_equations; lia).
  assert (E4 : v / 16777216 / 1 mod 256 * 1 = v / 16777216)
    by (Z.div_mod_to_equations; lia).
  rewrite E1, E2, E3, E4.
  assert (B0 : 0 <= v mod 256 < 256) by (apply Z.mod_pos_bound; lia).
  assert (B1 : 0 <= v / 256 mod 256 < 256) by (apply Z.mod_pos_bound; lia).
  assert (B2 : 0 <= v / 65536 mod 256 < 256) by (apply Z.mod_pos_bound; lia).
  assert (B3 : 0 <= v / 16777216 < 256) by (Z.div_mod_to_equations; lia).
  rewrite <- !Z.lor_assoc.
  change 256 with (2 ^ 8) at 6. rewrite (lor_disjoint _ _ 8) by (change (2 ^ 8) with 256; lia).
  change 65536 with (2 ^ 16) at 2.
  rewrite (lor_disjoint _ _ 16) by (change (2 ^ 16) with 65536; change (2 ^ 8) with 256; lia).
  change 16777216 with (2 ^ 24) at 1.
  rewrite (lor_disjoint _ _ 24)
    by (change (2 ^ 24) with 16777216; change (2 ^ 16) with 65536;
        change (2 ^ 8) with 256; lia).
  change (2 ^ 24) with 16777216. change (2 ^ 16) with 65536. change (2 ^ 8) with 256.
  lia.
Qed.

Lemma byte_of_Z_mod (a b : Z) : a mod 256 = b mod 256 -> byte_of_Z a = byte_of_Z b.
Proof. intros H. unfold byte_of_Z. rewrite H. reflexivity. Qed.

Lemma byte_at_range (bs : list byte) (i : Z) : 0 <= byte_at bs i < 256.
Proof. apply u8_range. Qed.

Lemma uint16_bytes_le (big_endian : bool) (v : Z) :
  0 <= v < 65536 ->
  uint16_bytes big_endian (uint16_as_le big_endian v)
  = [byte_of_Z v; byte_of_Z (v / 256)].
Proof.
  intros Hv. unfold uint16_bytes, uint16_as_le. destruct big_endian; [|reflexivity].
  rewrite swap16 by exact Hv.
  f_equal; [|f_equal]; apply byte_of_Z_mod; Z.div_mod_to_equations; lia.
Qed.

Lemma uint16_of_bytes_le (big_endian : bool) (bs : list byte) :
  uint16_as_le big_endian (uint16_of_bytes big_endian bs)
  = byte_at bs 0 + byte_at bs 1 * 256.
Proof.
  pose proof (byte_at_range bs 0). pose proof (byte_at_range bs 1).
  unfold uint16_of_bytes, uint16_as_le. destruct big_endian; [|reflexivity].
  rewrite swap16 by lia. Z.div_mod_to_equations; lia.
Qed.

Lemma uint32_bytes_le (big_endian : bool) (v : Z) :
  0 <= v < 2 ^ 32 ->
  uint32_bytes big_endian (uint32_as_le big_endian v)
  = [byte_of_Z v; byte_of_Z (v / 256); byte_of_Z (v / 65536); byte_of_Z (v / 16777216)].
Proof.
  intros Hv. unfold uint32_bytes, uint32_as_le. destruct big_endian; [|reflexivity].
  rewrite swap32 by exact Hv. change (2 ^ 32) with 4294967296 in Hv.
  f_equal; [|f_equal; [|f_equal; [|f_equal]]]; apply byte_of_Z_mod;
    Z.div_mod_to_equations; lia.
Qed.

Lemma uint32_of_bytes_le (big_endian : bool) (bs : list byte) :
  uint32_as_le big_endian (uint32_of_bytes big_endian bs)
  = byte_at bs 0 + byte_at bs 1 * 256 + byte_at bs 2 * 65536 + byte_at bs 3 * 16777216.
Proof.
  pose proof (byte_at_range bs 0). pose proof (byte_at_range bs 1).
  pose proof (byte_at_range bs 2). pose proof (byte_at_range bs 3).
  unfold uint32_of_bytes, uint32_as_le. destruct big_endian; [|reflexivity].
  rewrite swap32 by (change (2 ^ 32) with 4294967296; lia).
  Z.div_mod_to_equations; lia.
Qed.

(** Reading [length mid] bytes at the start of [mid]. *)
Lemma read_at name (pre mid post : list byte) :
  read (mk_file name (pre ++ mid ++ post) (length pre)) (length mid)
  = Ok (mid, mk_file name (pre ++ mid ++ post) (length pre + length mid)).
Proof.
  unfold read, m_size. cbn [m_pos m_contents m_file_name].
  replace (length pre + length mid <=? length (pre ++ mid ++ post))%nat with true
    by (symmetry; apply Nat.leb_le; rewrite !length_app; lia).
  rewrite orb_true_r.
  rewrite skipn_app, Nat.sub_diag, skipn_all. cbn [app skipn].
  rewrite firstn_app, Nat.sub_diag, firstn_all. cbn [firstn]. rewrite app_nil_r.
  reflexivity.
Qed.

Lemma byte_at_read (contents : list byte) (pos n i : nat) :
  (i < n)%nat ->
  byte_at (firstn n (skipn pos contents)) (Z.of_nat i)
  = byte_at contents (Z.of_nat (pos + i)).
Proof.
  intros Hi. unfold byte_at. rewrite !Nat2Z.id, nth_firstn, nth_skipn.
  destruct (Nat.ltb_spec i n); [reflexivity | lia].
Qed.

(** The values in a file are little-endian whatever the host.  On a host
    of either byte order [write_16_le] and [write_32_le] store the low
    byte first, and [read_16_le] and [read_32_le] return the value whose
    low byte comes first in the file; they throw when fewer bytes are left
    than the value has. *)
Theorem file_values_are_little_endian (big_endian : bool) (v w : Z) (f : safe_file) :
  0 <= v < 2 ^ 16 -> 0 <= w < 2 ^ 32 ->
  let b (i : nat) := byte_at (m_contents f) (Z.of_nat (m_pos f + i)) in
  write_16_le big_endian [] v = [byte_of_Z v; byte_of_Z (v / 256)] /\
  write_32_le big_endian [] w
  = [byte_of_Z w; byte_of_Z (w / 256); byte_of_Z (w / 65536); byte_of_Z (w / 16777216)] /\
  read_16_le big_endian f
  = (if (m_pos f + 2 <=? m_size f)%nat
     then Ok (b 0%nat + b 1%nat * 256, seek f (m_pos f + 2))
     else Fatal (failed_reading f)) /\
  read_32_le big_endian f
  = (if (m_pos f + 4 <=? m_size f)%nat
     then Ok (b 0%nat + b 1%nat * 256 + b 2%nat * 65536 + b 3%nat * 16777216,
              seek f (m_pos f + 4))
     else Fatal (failed_reading f)).
Proof.
  intros Hv Hw b.
  split; [apply uint16_bytes_le; exact Hv|].
  split; [apply uint32_bytes_le; exact Hw|].
  unfold read_16_le, read_32_le, read. cbn [Nat.eqb orb]. split.
  - destruct (m_pos f + 2 <=? m_size f)%nat; [|reflexivity].
    rewrite uint16_of_bytes_le.
    rewrite (byte_at_read _ _ 2 0), (byte_at_read _ _ 2 1) by lia. reflexivity.
  - destruct (m_pos f + 4 <=? m_size f)%nat; [|reflexivity].
    rewrite uint32_of_bytes_le.
    rewrite (byte_at_read _ _ 4 0), (byte_at_read _ _ 4 1),
      (byte_at_read _ _ 4 2), (byte_at_read _ _ 4 3) by lia.
    reflexivity.
Qed.

Lemma file_values_are_little_endian_witness :
  let f := mk_file "a.lcd"%string (bytes_of [0x34; 0x12; 0x78; 0x56; 0xff]) 1 in
  write_16_le true [] 0x1234 = bytes_of [0x34; 0x12] /\
  read_32_le true f = Ok (0xff567812, seek f 5).
Proof.
  assert (H1 : 0 <= 0x1234 < 2 ^ 16) by (split; [discriminate | reflexivity]).
  assert (H2 : 0 <= 0 < 2 ^ 32) by (split; [discriminate | reflexivity]).
  intros f.
  destruct (file_values_are_little_endian true 0x1234 0 f H1 H2) as (Ha & _ & _ & Hb).
  split; [exact Ha | exact Hb].
Defined.

End SafeFileFacts.

(* ------------------------------------------------------------------------- *)
(** ** lcd_file.cpp: reading and writing LCD files *)
(* ------------------------------------------------------------------------- *)

Module LcdFile.
Import Lcd SafeFile.

(** Never produced: see [LcdFileFacts.parse_within_fuel]. *)
Definition out_of_fuel : string := "<loop bound of the model exceeded>"%string.

Definition sixteen_zeros : list byte := repeat x00 16.

(** [memcmp(block, sixteen_zeros, sizeof(block)) == 0]. *)
Definition is_zeros (block : list byte) : bool := forallb (Byte.eqb x00) block.

Definition invalid_patch_header (file_name : string) : string :=
  ("Invalid patch header in '" ++ file_name ++ "'.")%string.

Section Host.

Variable big_endian : bool.

(** The IDs in the header. *)
Fixpoint read_ids (count : nat) (f : safe_file) : result (list Z * safe_file) :=
  match count with
  | O => Ok ([], f)
  | S count' =>
      match read_16_le big_endian f with
      | Fatal msg => Fatal msg
      | Ok (i, f') =>
          match read_ids count' f' with
          | Fatal msg => Fatal msg
          | Ok (ids, f'') => Ok (i :: ids, f'')
          end
      end
  end.

(** The first [while (!file.eof())] loop: blocks are stored up to and
    including the first one flagged as final. *)
Fixpoint read_adpcm (fuel : nat) (f : safe_file) (data : list byte)
  : result (list byte * safe_file) :=
  if eof f then Ok (data, f)
  else match fuel with
       | O => Fatal out_of_fuel
       | S fuel' =>
           match read f 16 with
           | Fatal msg => Fatal msg
           | Ok (block, f') =>
               if Adpcm.is_final (byte_at block 1) then Ok (data ++ block, f')
               else read_adpcm fuel' f' (data ++ block)
           end
       end.

(** The second loop: blocks are skipped up to the next block of 16 zero
    bytes, which is left to be read again. *)
Fixpoint skip_padding (fuel : nat) (f : safe_file) : result safe_file :=
  if eof f then Ok f
  else match fuel with
       | O => Fatal out_of_fuel
       | S fuel' =>
           let pos := tell f in
           match read f 16 with
           | Fatal msg => Fatal msg
           | Ok (block, f') =>
               if is_zeros block then Ok (seek f' pos) else skip_padding fuel' f'
           end
       end.

(** The loop over the patches, whose IDs are known from the header. *)
Fixpoint read_patches (ids : list Z) (f : safe_file) : result lcd_file :=
  match ids with
  | [] => Ok []
  | i :: rest =>
      match read f 16 with
      | Fatal msg => Fatal msg
      | Ok (block, f1) =>
          if negb (is_zeros block) then Fatal (invalid_patch_header (m_file_name f1))
          else
            match read_adpcm (S (m_size f1)) f1 [] with
            | Fatal msg => Fatal msg
            | Ok (data, f2) =>
                match skip_padding (S (m_size f2)) f2 with
                | Fatal msg => Fatal msg
                | Ok f3 =>
                    match read_patches rest f3 with
                    | Fatal msg => Fatal msg
                    | Ok patches => Ok (mk_patch i data :: patches)
                    end
                end
            end
      end
  end.

(** [lcd_file::parse] on a file with the given contents: the patches, or
    the message thrown. *)
Definition parse (file_name : string) (contents : list byte) : result lcd_file :=
  let f := open_read file_name contents in
  match read_16_le big_endian f with
  | Fatal msg => Fatal msg
  | Ok (count, f1) =>
      match read_ids (Z.to_nat count) f1 with
      | Fatal msg => Fatal msg
      | Ok (ids, f2) => read_patches ids (seek f2 0x800)
      end
  end.

(** [lcd_file::write]: the bytes of the file written ([size_t] has 64
    bits). *)
Definition write (l : lcd_file) : list byte :=
  let out := write_16_le big_endian [] (to_uint16 (Z.of_nat (length l))) in
  let out := fold_left (fun out p => write_16_le big_endian out (id p)) l out in
  let out := write_zeros out (Z.to_nat (wrap_unsigned 64 (0x800 - Z.of_nat (length out)))) in
  fold_left (fun out p => SafeFile.write (write_zeros out 16) (adpcm p)) l out.

End Host.

(** *** The patches that survive a file *)

(** The first [count] blocks of 16 bytes. *)
Fixpoint blocks (count : nat) (data : list byte) : list (list byte) :=
  match count with
  | O => []
  | S count' => firstn 16 data :: blocks count' (skipn 16 data)
  end.

(** The data is made of whole blocks, at least one, and the last block is
    the only one flagged as final. *)
Definition final_only_at_end (data : list byte) : bool :=
  (length data mod 16 =? 0)%nat &&
  match rev (blocks (length data / 16) data) with
  | [] => false
  | last :: before =>
      Adpcm.is_final (byte_at last 1)
      && forallb (fun b => negb (Adpcm.is_final (byte_at b 1))) before
  end.

Definition storable (p : patch) : bool :=
  (0 <=? id p) && (id p <? 65536) && final_only_at_end (adpcm p).

End LcdFile.

Module LcdFileFacts.
Import Lcd SafeFile SafeFileFacts LcdFile.

Lemma u8_byte_of_Z_mod (v : Z) : u8 (byte_of_Z v) = v mod 256.
Proof.
  rewrite (byte_of_Z_mod v (v mod 256)) by (rewrite Z.mod_mod; lia).
  apply u8_byte_of_Z. apply Z.mod_pos_bound. lia.
Qed.

Lemma fold_left_app_flat_map {A : Type} (g : A -> list byte) (l : list A) :
  forall out, fold_left (fun out p => out ++ g p) l out = out ++ flat_map g l.
Proof.
  induction l as [|p l IH]; intros out; cbn [fold_left flat_map].
  - rewrite app_nil_r. reflexivity.
  - rewrite IH, <- app_assoc. reflexivity.
Qed.

Lemma is_zeros_sixteen : is_zeros sixteen_zeros = true.
Proof. reflexivity. Qed.

Section Host.

Variable big_endian : bool.

#[local] Abbreviation le16 v := (uint16_bytes big_endian (uint16_as_le big_endian v)).

Lemma read_16_le_at name pre post (v : Z) :
  0 <= v < 65536 ->
  read_16_le big_endian (mk_file name (pre ++ le16 v ++ post) (length pre))
  = Ok (v, mk_file name (pre ++ le16 v ++ post) (length pre + 2)).
Proof.
  intros Hv. unfold read_16_le.
  assert (Hlen : length (le16 v) = 2%nat)
    by (rewrite uint16_bytes_le by exact Hv; reflexivity).
  pose proof (read_at name pre (le16 v) post) as Hr. rewrite Hlen in Hr. rewrite Hr.
  rewrite uint16_of_bytes_le, uint16_bytes_le by exact Hv.
  unfold byte_at. change (Z.to_nat 0) with 0%nat. change (Z.to_nat 1) with 1%nat.
  cbn [nth].
  rewrite !u8_byte_of_Z_mod. do 2 f_equal. Z.div_mod_to_equations; lia.
Qed.

Lemma read_ids_at name (l : lcd_file) : forall pre post,
  Forall (fun p => 0 <= id p < 65536) l ->
  let contents := pre ++ flat_map (fun p => le16 (id p)) l ++ post in
  read_ids big_endian (length l) (mk_file name contents (length pre))
  = Ok (map id l, mk_file name contents (length pre + 2 * length l)).
Proof.
  induction l as [|p l IH]; intros pre post Hl contents.
  - cbn [length read_ids map]. rewrite Nat.add_0_r. reflexivity.
  - inversion Hl as [|? ? Hp Hl']; subst.
    cbn [length read_ids map]. subst contents. cbn [flat_map].
    rewrite <- app_assoc.
    rewrite read_16_le_at by exact Hp.
    assert (Hlen : length (le16 (id p)) = 2%nat)
      by (rewrite uint16_bytes_le by exact Hp; reflexivity).
    specialize (IH (pre ++ le16 (id p)) post Hl'). cbv zeta in IH.
    rewrite length_app, Hlen in IH. rewrite <- !app_assoc in IH.
    rewrite IH. do 3 f_equal. lia.
Qed.

End Host.

(** *** The blocks of storable data *)

Lemma blocks_concat count : forall data,
  length data = (16 * count)%nat ->
  concat (blocks count data) = data /\
  Forall (fun b => length b = 16%nat) (blocks count data).
Proof.
  induction count as [|count IH]; intros data Hlen.
  - destruct data; [split; [reflexivity | constructor] | discriminate].
  - cbn [blocks concat].
    destruct (IH (skipn 16 data)) as [Hc Hf]; [rewrite length_skipn; lia|].
    rewrite Hc, firstn_skipn. split; [reflexivity|].
    constructor; [|exact Hf]. rewrite length_firstn. lia.
Qed.

Lemma final_only_at_end_blocks data :
  final_only_at_end data = true ->
  exists body last,
    data = concat body ++ last /\
    length last = 16%nat /\
    Adpcm.is_final (byte_at last 1) = true /\
    Forall (fun b => length b = 16%nat /\ Adpcm.is_final (byte_at b 1) = false) body.
Proof.
  unfold final_only_at_end. intros H. apply andb_prop in H as [Hmod H].
  apply Nat.eqb_eq in Hmod.
  assert (Hlen : length data = (16 * (length data / 16))%nat).
  { pose proof (Nat.div_mod_eq (length data) 16). lia. }
  destruct (blocks_concat _ _ Hlen) as [Hc Hf].
  destruct (rev (blocks (length data / 16) data)) as [|last before] eqn:Hrev;
    [discriminate|].
  apply andb_prop in H as [Hfin Hbefore].
  assert (Hb : blocks (length data / 16) data = rev before ++ [last]).
  { rewrite <- (rev_involutive (blocks _ _)), Hrev. reflexivity. }
  rewrite Hb in Hc, Hf. exists (rev before), last.
  rewrite concat_app in Hc. cbn [concat] in Hc. rewrite app_nil_r in Hc.
  apply Forall_app in Hf as [Hf1 Hf2]. inversion Hf2 as [|? ? Hl16 _].
  split; [symmetry; exact Hc|]. split; [exact Hl16|]. split; [exact Hfin|].
  apply Forall_forall. intros b Hin. split.
  - rewrite Forall_forall in Hf1. apply Hf1, Hin.
  - rewrite forallb_forall in Hbefore. apply negb_true_iff, Hbefore.
    apply in_rev. exact Hin.
Qed.

(** *** Reading back what [write] stored *)

Lemma not_eof name contents pos n :
  (0 < n)%nat -> (pos + n <= length contents)%nat ->
  eof (mk_file name contents pos) = false.
Proof.
  intros Hn Hle. unfold eof, m_size. cbn [m_pos m_contents].
  apply Nat.eqb_neq. lia.
Qed.

Lemma read_adpcm_at name (body : list (list byte)) : forall pre (last post data : list byte) fuel,
  Forall (fun b => length b = 16%nat /\ Adpcm.is_final (byte_at b 1) = false) body ->
  length last = 16%nat -> Adpcm.is_final (byte_at last 1) = true ->
  (length body < fuel)%nat ->
  let contents := pre ++ (concat body ++ last) ++ post in
  read_adpcm fuel (mk_file name contents (length pre)) data
  = Ok (data ++ concat body ++ last,
        mk_file name contents (length pre + length (concat body ++ last))).
Proof.
  induction body as [|b body IH]; intros pre last post data fuel Hbody Hlast Hfin Hfuel contents.
  - subst contents. cbn [concat app length] in *.
    destruct fuel as [|fuel]; [lia|]. cbn [read_adpcm].
    rewrite (not_eof _ _ _ 16) by (rewrite ?length_app; lia).
    pose proof (read_at name pre last post) as Hr. rewrite Hlast in Hr.
    rewrite Hr, Hfin, Hlast. reflexivity.
  - inversion Hbody as [|? ? [Hb Hnf] Hbody']; subst.
    destruct fuel as [|fuel]; [cbn [length] in Hfuel; lia|]. cbn [read_adpcm].
    subst contents. cbn [concat]. rewrite <- !app_assoc.
    rewrite (not_eof _ _ _ 16) by (rewrite ?length_app; lia).
    pose proof (read_at name pre b (concat body ++ last ++ post)) as Hr.
    rewrite Hb in Hr. rewrite Hr, Hnf.
    specialize (IH (pre ++ b) last post (data ++ b) fuel Hbody' Hlast Hfin
                  ltac:(cbn [length] in Hfuel; lia)).
    cbv zeta in IH. rewrite length_app, Hb in IH. rewrite <- !app_assoc in IH.
    rewrite IH. rewrite !length_app, Hb. do 3 f_equal. lia.
Qed.

Lemma skip_padding_at name pre post fuel :
  (0 < fuel)%nat ->
  let contents := pre ++ sixteen_zeros ++ post in
  skip_padding fuel (mk_file name contents (length pre))
  = Ok (mk_file name contents (length pre)).
Proof.
  intros Hfuel contents. destruct fuel as [|fuel]; [lia|]. cbn [skip_padding].
  subst contents.
  rewrite (not_eof _ _ _ 16) by (rewrite ?length_app; cbn [length sixteen_zeros repeat]; lia).
  pose proof (read_at name pre sixteen_zeros post) as Hr.
  change (length sixteen_zeros) with 16%nat in Hr. rewrite Hr, is_zeros_sixteen.
  reflexivity.
Qed.

Lemma skip_padding_eof name contents fuel :
  skip_padding fuel (mk_file name contents (length contents))
  = Ok (mk_file name contents (length contents)).
Proof.
  destruct fuel; cbn [skip_padding]; unfold eof, m_size; cbn [m_pos m_contents];
    rewrite Nat.eqb_refl; reflexivity.
Qed.

Definition body_of (p : patch) : list byte := sixteen_zeros ++ adpcm p.

Lemma read_patches_at name (l : lcd_file) : forall pre,
  Forall (fun p => final_only_at_end (adpcm p) = true) l ->
  read_patches (map id l) (mk_file name (pre ++ flat_map body_of l) (length pre))
  = Ok l.
Proof.
  induction l as [|p l IH]; intros pre Hl; [reflexivity|].
  inversion Hl as [|? ? Hp Hl']; subst.
  destruct (final_only_at_end_blocks _ Hp) as (body & last & Hdata & Hlast & Hfin & Hbody).
  cbn [map read_patches flat_map]. unfold body_of at 1. rewrite <- !app_assoc.
  pose proof (read_at name pre sixteen_zeros (adpcm p ++ flat_map body_of l)) as Hr.
  change (length sixteen_zeros) with 16%nat in Hr. rewrite Hr, is_zeros_sixteen.
  cbn [negb m_file_name].
  set (contents := pre ++ sixteen_zeros ++ adpcm p ++ flat_map body_of l).
  pose proof (read_adpcm_at name body (pre ++ sixteen_zeros) last (flat_map body_of l) []
                (S (m_size (mk_file name contents (length pre + 16))))
                Hbody Hlast Hfin) as Ha.
  cbv zeta in Ha. rewrite <- Hdata in Ha. rewrite <- !app_assoc in Ha.
  rewrite length_app in Ha. change (length sixteen_zeros) with 16%nat in Ha.
  fold contents in Ha. rewrite Ha; clear Ha.
  2:{ unfold m_size, contents. cbn [m_contents]. rewrite !length_app, Hdata, !length_app.
      assert (length body <= length (concat body))%nat; [|lia].
      clear -Hbody. induction Hbody as [|b body [Hb _] _ IH]; [apply Nat.le_refl|].
      cbn [concat length]. rewrite length_app. lia. }
  cbn [app].
  assert (Hs : skip_padding
                 (S (m_size (mk_file name contents (length pre + 16 + length (adpcm p)))))
                 (mk_file name contents (length pre + 16 + length (adpcm p)))
               = Ok (mk_file name contents (length pre + 16 + length (adpcm p)))).
  { destruct l as [|q l].
    - cbn [flat_map] in contents.
      replace (length pre + 16 + length (adpcm p))%nat with (length contents)
        by (unfold contents; rewrite !length_app; cbn [length];
            change (length sixteen_zeros) with 16%nat; lia).
      apply skip_padding_eof.
    - pose proof (skip_padding_at name (pre ++ sixteen_zeros ++ adpcm p)
                    (adpcm q ++ flat_map body_of l)
                    (S (m_size (mk_file name contents (length pre + 16 + length (adpcm p)))))
                    ltac:(lia)) as Hk.
      cbv zeta in Hk. rewrite !length_app in Hk.
      change (length sixteen_zeros) with 16%nat in Hk.
      rewrite <- !app_assoc in Hk. rewrite Nat.add_assoc in Hk.
      exact Hk. }
  rewrite Hs.
  specialize (IH (pre ++ sixteen_zeros ++ adpcm p) Hl').
  rewrite !length_app in IH. change (length sixteen_zeros) with 16%nat in IH.
  rewrite <- !app_assoc in IH. rewrite Nat.add_assoc in IH.
  fold contents in IH. rewrite IH. destruct p; reflexivity.
Qed.

Lemma uint16_bytes_length big_endian v : length (uint16_bytes big_endian v) = 2%nat.
Proof. destruct big_endian; reflexivity. Qed.

Lemma fold_left_bodies (l : lcd_file) : forall out,
  fold_left (fun out p => SafeFile.write (write_zeros out 16) (adpcm p)) l out
  = out ++ flat_map body_of l.
Proof.
  induction l as [|p l IH]; intros out; cbn [fold_left flat_map].
  - rewrite app_nil_r. reflexivity.
  - rewrite IH. unfold SafeFile.write, write_zeros, body_of, sixteen_zeros.
    rewrite <- !app_assoc. reflexivity.
Qed.

Lemma ids_length big_endian (l : lcd_file) :
  length (flat_map (fun p => uint16_bytes big_endian (uint16_as_le big_endian (id p))) l)
  = (2 * length l)%nat.
Proof.
  induction l as [|p l IH]; [reflexivity|].
  cbn [flat_map length]. rewrite length_app, uint16_bytes_length, IH. lia.
Qed.

Lemma storable_all (l : lcd_file) :
  forallb storable l = true ->
  Forall (fun p => 0 <= id p < 65536) l /\
  Forall (fun p => final_only_at_end (adpcm p) = true) l.
Proof.
  intros H. rewrite forallb_forall in H. split; apply Forall_forall; intros p Hin;
    specialize (H p Hin); unfold storable in H;
    apply andb_prop in H as [H1 H3]; apply andb_prop in H1 as [H1 H2]; [lia | exact H3].
Qed.

(** The file that [write] makes: the header filled up to 0x800 bytes,
    then every patch behind 16 zero bytes. *)
Lemma write_layout big_endian (l : lcd_file) :
  (length l <= 1023)%nat ->
  write big_endian l
  = (uint16_bytes big_endian (uint16_as_le big_endian (Z.of_nat (length l)))
     ++ flat_map (fun p => uint16_bytes big_endian (uint16_as_le big_endian (id p))) l
     ++ repeat x00 (2046 - 2 * length l))
    ++ flat_map body_of l.
Proof.
  intros Hn. unfold write, write_16_le, write_zeros.
  rewrite fold_left_bodies. cbn [app].
  rewrite (fold_left_app_flat_map
             (fun p => uint16_bytes big_endian (uint16_as_le big_endian (id p)))).
  rewrite length_app, uint16_bytes_length, ids_length.
  unfold to_uint16. rewrite (wrap_unsigned_id 16) by (change (2 ^ 16) with 65536; lia).
  rewrite wrap_unsigned_id by (change (2 ^ 64) with 18446744073709551616; lia).
  replace (Z.to_nat (0x800 - Z.of_nat (2 + 2 * length l))) with (2046 - 2 * length l)%nat
    by lia.
  rewrite <- !app_assoc. reflexivity.
Qed.

(** *** The loop bounds of the model are never reached *)

Definition within_fuel {A : Type} (r : result A) : Prop := r <> Fatal out_of_fuel.

Lemma within_fuel_fatal {A B : Type} {msg : string} :
  within_fuel (@Fatal A msg) -> within_fuel (@Fatal B msg).
Proof. unfold within_fuel. intros H E. apply H. congruence. Qed.

Lemma failed_reading_not_fuel f : failed_reading f <> out_of_fuel.
Proof. unfold failed_reading, out_of_fuel. cbn. discriminate. Qed.

Lemma read_within_fuel f n : within_fuel (read f n).
Proof.
  unfold within_fuel, read. destruct (_ || _); [discriminate|].
  intros H. apply (failed_reading_not_fuel f). congruence.
Qed.

Lemma read_moves f n block f' :
  read f n = Ok (block, f') ->
  m_contents f' = m_contents f /\ m_pos f' = (m_pos f + n)%nat /\
  (n = 0%nat \/ (m_pos f + n <= m_size f)%nat).
Proof.
  unfold read. destruct ((n =? 0)%nat || (m_pos f + n <=? m_size f)%nat) eqn:E;
    [|discriminate].
  intros [= <- <-]. cbn [m_contents m_pos]. split; [reflexivity|]. split; [reflexivity|].
  apply orb_prop in E as [E | E]; [left; apply Nat.eqb_eq, E | right; apply Nat.leb_le, E].
Qed.

Lemma read_adpcm_within_fuel fuel : forall f data,
  (m_size f - m_pos f < fuel)%nat -> within_fuel (read_adpcm fuel f data).
Proof.
  induction fuel as [|fuel IH]; intros f data Hfuel; [lia|].
  cbn [read_adpcm]. destruct (eof f); [discriminate|].
  pose proof (read_within_fuel f 16) as Hr.
  destruct (read f 16) as [[block f']|msg] eqn:E; [|exact (within_fuel_fatal Hr)].
  destruct (read_moves _ _ _ _ E) as (Hc & Hp & [Hz | Hle]); [discriminate|].
  destruct (Adpcm.is_final _); [discriminate|].
  apply IH. unfold m_size in *. rewrite Hc, Hp. lia.
Qed.

Lemma skip_padding_within_fuel fuel : forall f,
  (m_size f - m_pos f < fuel)%nat -> within_fuel (skip_padding fuel f).
Proof.
  induction fuel as [|fuel IH]; intros f Hfuel; [lia|].
  cbn [skip_padding]. destruct (eof f); [discriminate|].
  pose proof (read_within_fuel f 16) as Hr.
  destruct (read f 16) as [[block f']|msg] eqn:E; [|exact (within_fuel_fatal Hr)].
  destruct (read_moves _ _ _ _ E) as (Hc & Hp & [Hz | Hle]); [discriminate|].
  destruct (is_zeros _); [discriminate|].
  apply IH. unfold m_size in *. rewrite Hc, Hp. lia.
Qed.

Lemma read_patches_within_fuel ids : forall f, within_fuel (read_patches ids f).
Proof.
  induction ids as [|i ids IH]; intros f; [discriminate|].
  cbn [read_patches].
  pose proof (read_within_fuel f 16) as Hr.
  destruct (read f 16) as [[block f1]|msg]; [|exact (within_fuel_fatal Hr)].
  destruct (is_zeros block); cbn [negb].
  2:{ unfold within_fuel, invalid_patch_header, out_of_fuel. cbn. discriminate. }
  pose proof (read_adpcm_within_fuel (S (m_size f1)) f1 [] ltac:(lia)) as Ha.
  destruct (read_adpcm _ f1 []) as [[data f2]|msg]; [|exact (within_fuel_fatal Ha)].
  pose proof (skip_padding_within_fuel (S (m_size f2)) f2 ltac:(lia)) as Hs.
  destruct (skip_padding _ f2) as [f3|msg]; [|exact (within_fuel_fatal Hs)].
  specialize (IH f3). destruct (read_patches ids f3); [discriminate | exact (within_fuel_fatal IH)].
Qed.

Lemma read_16_le_within_fuel big_endian f : within_fuel (read_16_le big_endian f).
Proof.
  unfold read_16_le. pose proof (read_within_fuel f 2) as Hr.
  destruct (read f 2) as [[temp f']|msg]; [discriminate | exact (within_fuel_fatal Hr)].
Qed.

Lemma read_ids_within_fuel big_endian count : forall f,
  within_fuel (read_ids big_endian count f).
Proof.
  induction count as [|count IH]; intros f; [discriminate|].
  cbn [read_ids]. pose proof (read_16_le_within_fuel big_endian f) as Hr.
  destruct (read_16_le big_endian f) as [[i f']|msg]; [|exact (within_fuel_fatal Hr)].
  specialize (IH f'). destruct (read_ids big_endian count f') as [[ids f'']|msg];
    [discriminate | exact (within_fuel_fatal IH)].
Qed.

Lemma parse_within_fuel big_endian file_name contents :
  within_fuel (parse big_endian file_name contents).
Proof.
  unfold parse.
  pose proof (read_16_le_within_fuel big_endian (open_read file_name contents)) as Hr.
  destruct (read_16_le big_endian _) as [[count f1]|msg]; [|exact (within_fuel_fatal Hr)].
  pose proof (read_ids_within_fuel big_endian (Z.to_nat count) f1) as Hi.
  destruct (read_ids big_endian _ f1) as [[ids f2]|msg]; [|exact (within_fuel_fatal Hi)].
  apply read_patches_within_fuel.
Qed.

(** Write, then read.  An LCD collection of at most 1023 patches, each
    with a 16-bit ID and with data of whole blocks of which the last one,
    and only the last one, is flagged as final, is read back by [parse]
    from the file that [write] made exactly as it was, on a host of either
    byte order; the file has 0x800 bytes of header followed by 16 bytes and
    the data of each patch. *)
Theorem parse_reads_back_written_file (big_endian : bool) (file_name : string)
    (l : lcd_file) :
  is_empty l = false ->
  (length l <= 1023)%nat ->
  forallb storable l = true ->
  parse big_endian file_name (write big_endian l) = Ok l /\
  length (write big_endian l)
  = (0x800 + fold_right (fun p n => 16 + length (adpcm p) + n) 0 l)%nat.
Proof.
  intros _ Hn Hst. destruct (storable_all l Hst) as [Hids Hdata].
  rewrite write_layout by exact Hn.
  set (count := uint16_bytes big_endian (uint16_as_le big_endian (Z.of_nat (length l)))).
  set (ids := flat_map (fun p => uint16_bytes big_endian (uint16_as_le big_endian (id p))) l).
  set (padding := repeat x00 (2046 - 2 * length l)).
  assert (Hheader : length (count ++ ids ++ padding) = 0x800%nat).
  { unfold count, ids, padding.
    rewrite !length_app, uint16_bytes_length, ids_length, repeat_length. lia. }
  split.
  - unfold parse, open_read.
    pose proof (read_16_le_at big_endian file_name [] (ids ++ padding ++ flat_map body_of l)
                  (Z.of_nat (length l)) ltac:(lia)) as H1.
    cbn [app length Nat.add] in H1. fold count in H1.
    rewrite <- !app_assoc. rewrite H1. rewrite Nat2Z.id.
    pose proof (read_ids_at big_endian file_name l count (padding ++ flat_map body_of l) Hids)
      as H2.
    cbv zeta in H2. fold ids in H2. unfold count at 2 in H2.
    rewrite uint16_bytes_length in H2. cbn [Nat.add] in H2. rewrite H2.
    unfold seek. cbn [m_file_name m_contents].
    pose proof (read_patches_at file_name l (count ++ ids ++ padding) Hdata) as H3.
    rewrite Hheader in H3. rewrite <- !app_assoc in H3. exact H3.
  - rewrite length_app, Hheader. f_equal.
    clear. induction l as [|p l IH]; [reflexivity|].
    cbn [flat_map fold_right]. unfold body_of at 1.
    rewrite !length_app, IH. change (length sixteen_zeros) with 16%nat. lia.
Qed.

(** Two patches, of two blocks and of one block; byte 1 of a block holds
    its flags. *)
Definition example_lcd : lcd_file :=
  [ mk_patch 7 (bytes_of [0x12; 0; 1; 2; 3; 4; 5; 6; 7; 8; 9; 10; 11; 12; 13; 14;
                          0x21; 3; 0; 0; 0; 0; 0; 0; 0; 0; 0; 0; 0; 0; 0; 0]);
    mk_patch 300 (bytes_of [0; 1; 0; 0; 0; 0; 0; 0; 0xff; 0; 0; 0; 0; 0; 0; 0]) ].

Lemma parse_reads_back_written_file_witness :
  parse true "DOOMSND.LCD"%string (write true example_lcd) = Ok example_lcd /\
  length (write true example_lcd) = (0x800 + 80)%nat.
Proof.
  assert (H1 : is_empty example_lcd = false) by reflexivity.
  assert (H2 : (length example_lcd <= 1023)%nat) by (cbn; lia).
  assert (H3 : forallb storable example_lcd = true) by reflexivity.
  exact (parse_reads_back_written_file true "DOOMSND.LCD"%string example_lcd H1 H2 H3).
Defined.

(** *** Files that [parse] turns down *)

Lemma read_same_file f n block f' :
  read f n = Ok (block, f') ->
  m_file_name f' = m_file_name f /\ m_contents f' = m_contents f /\
  m_pos f' = (m_pos f + n)%nat.
Proof.
  unfold read. destruct (_ || _); [|discriminate].
  intros [= <- <-]. repeat split.
Qed.

Lemma read_ids_result big_endian count : forall f,
  match read_ids big_endian count f with
  | Ok (ids, f') =>
      length ids = count /\ m_file_name f' = m_file_name f /\
      m_contents f' = m_contents f
  | Fatal msg => msg = failed_reading f /\ (m_size f < m_pos f + 2 * count)%nat
  end.
Proof.
  induction count as [|count IH]; intros f; cbn [read_ids]; [repeat split|].
  unfold read_16_le. destruct (read f 2) as [[temp f1]|msg] eqn:E.
  - destruct (read_same_file _ _ _ _ E) as (Hn & Hc & Hp).
    specialize (IH f1). destruct (read_ids big_endian count f1) as [[ids f2]|msg].
    + destruct IH as (Hl & Hn2 & Hc2). cbn [length]. repeat split; congruence.
    + destruct IH as [-> Hs]. unfold failed_reading, m_size in *. rewrite Hn, Hc, Hp in *.
      split; [reflexivity | lia].
  - unfold read in E. cbn [Nat.eqb orb] in E.
    destruct (Nat.leb_spec (m_pos f + 2) (m_size f)); [discriminate|].
    injection E as <-. split; [reflexivity | lia].
Qed.

(** What [parse] does with a file that [write] did not make.  A file of
    fewer than two bytes cannot be read; a file that announces no patch is
    an empty collection, whatever else it holds; a file that announces
    patches but ends before offset 0x810 cannot be read; and a file whose
    16 bytes at offset 0x800 are not all zero has an invalid patch
    header. *)
Theorem parse_turns_down_damaged_files (big_endian : bool) (file_name : string)
    (contents : list byte) :
  let count := byte_at contents 0 + byte_at contents 1 * 256 in
  let failed := Fatal ("Failed reading from '" ++ file_name ++ "'.")%string in
  let invalid := Fatal ("Invalid patch header in '" ++ file_name ++ "'.")%string in
  ((length contents < 2)%nat -> parse big_endian file_name contents = failed) /\
  ((2 <= length contents)%nat -> count = 0 ->
   parse big_endian file_name contents = Ok []) /\
  ((2 <= length contents < 0x810)%nat -> 0 < count ->
   parse big_endian file_name contents = failed) /\
  ((0x810 <= length contents)%nat -> 0 < count ->
   (2 + 2 * Z.to_nat count <= length contents)%nat ->
   is_zeros (firstn 16 (skipn 0x800 contents)) = false ->
   parse big_endian file_name contents = invalid).
Proof.
  intros count failed invalid.
  assert (Hfirst : (2 <= length contents)%nat ->
            read_16_le big_endian (open_read file_name contents)
            = Ok (count, mk_file file_name contents 2)).
  { intros Hlen. unfold read_16_le, read, open_read, m_size.
    cbn [m_pos m_contents m_file_name Nat.eqb orb Nat.add].
    destruct (Nat.leb_spec 2 (length contents)); [|lia].
    rewrite uint16_of_bytes_le. cbn [skipn]. unfold count, byte_at.
    change (Z.to_nat 0) with 0%nat. change (Z.to_nat 1) with 1%nat.
    rewrite !nth_firstn. reflexivity. }
  split; [|split; [|split]].
  - intros Hlen. unfold parse, read_16_le, read, open_read, m_size.
    cbn [m_pos m_contents m_file_name Nat.eqb orb Nat.add].
    destruct (Nat.leb_spec 2 (length contents)); [lia | reflexivity].
  - intros Hlen Hc. unfold parse. rewrite (Hfirst Hlen), Hc. reflexivity.
  - intros Hlen Hc. unfold parse. rewrite (Hfirst ltac:(lia)).
    pose proof (read_ids_result big_endian (Z.to_nat count) (mk_file file_name contents 2))
      as Hi.
    destruct (read_ids big_endian _ _) as [[ids f2]|msg].
    + destruct Hi as (Hl & Hn & Hcont). cbn [m_file_name m_contents] in Hn, Hcont.
      destruct ids as [|i ids]; [cbn [length] in Hl; lia|].
      cbn [read_patches]. unfold read, seek, m_size.
      cbn [m_pos m_contents m_file_name Nat.eqb orb]. rewrite Hcont.
      destruct (Nat.leb_spec (0x800 + 16) (length contents)); [lia|].
      unfold failed, failed_reading. cbn [m_file_name]. rewrite Hn. reflexivity.
    + destruct Hi as [-> _]. reflexivity.
  - intros Hlen Hc Hids Hz. unfold parse. rewrite (Hfirst ltac:(lia)).
    pose proof (read_ids_result big_endian (Z.to_nat count) (mk_file file_name contents 2))
      as Hi.
    destruct (read_ids big_endian _ _) as [[ids f2]|msg].
    + destruct Hi as (Hl & Hn & Hcont). cbn [m_file_name m_contents] in Hn, Hcont.
      destruct ids as [|i ids]; [cbn [length] in Hl; lia|].
      cbn [read_patches]. unfold read, seek, m_size.
      cbn [m_pos m_contents m_file_name Nat.eqb orb]. rewrite Hcont.
      destruct (Nat.leb_spec (0x800 + 16) (length contents)); [|lia].
      rewrite Hz. cbn [negb]. unfold invalid, invalid_patch_header.
      cbn [m_file_name]. rewrite Hn. reflexivity.
    + destruct Hi as [_ Hs]. unfold m_size in Hs. cbn [m_contents m_pos] in Hs. lia.
Qed.

End LcdFileFacts.

(* ------------------------------------------------------------------------- *)
(** ** lcd_file.cpp: the repairs of patches *)
(* ------------------------------------------------------------------------- *)

Module LcdRepair.
Import Lcd AdpcmData.

(** [struct patch_fix] and the table [m_patch_fixes]. *)
Record patch_fix : Type := mk_fix {
  fix_id : Z;                  (* uint16_t id *)
  fix_size : Z;                (* size_t size *)
  fix_repeat_offset : Z;       (* int32_t repeat_offset *)
  silence_start_blocks : Z;    (* size_t *)
  remove_end_blocks : Z        (* size_t *)
}.

Definition m_patch_fixes : list patch_fix :=
  [ mk_fix 96 45744 16 2 1;
    mk_fix 102 86016 45248 2 0;
    mk_fix 116 81520 0 0 16;
    mk_fix 130 44928 16 0 2 ].

(** utility.cpp: [int_to_string], [sprintf] with [%d]. *)
Definition int_to_string (value : Z) : string :=
  DecimalString.NilZero.string_of_int (Z.to_int value).

Definition cannot_be_fixed (i : Z) : string :=
  ("Patch " ++ int_to_string i
   ++ " can't be fixed: the details of the patch don't match the expected values.")%string.

(** The three assertions at the head of [adpcm::repeat_offset]. *)
Definition repeat_offset_asserts (data : list byte) : bool :=
  let size := Z.of_nat (length data) in
  (size >? 0) && (size mod Adpcm.PSXDMH_ADPCM_BLOCK_SIZE =? 0)
  && Adpcm.is_final
       (Adpcm.block_byte data (to_int32 (size - Adpcm.PSXDMH_ADPCM_BLOCK_SIZE)) 1).

(** The condition under which [repair_patches] throws. *)
Definition details_differ (pf : patch_fix) (p : patch) : bool :=
  let repeat := repeat_offset (adpcm p) in
  negb (fix_size pf =? Z.of_nat (length (adpcm p)))
  || ((repeat >=? 0) && negb (repeat =? fix_repeat_offset pf))
  || ((repeat <? 0) && (fix_repeat_offset pf <? 0)).

(** The loop of [repair_patches] over the fixes left.  The outer [None]
    stands for a failed assertion of [repeat_offset] or of [edit_adpcm],
    [Fatal] for the exception. *)
Fixpoint apply_fixes (fixes : list patch_fix) (l : lcd_file)
  : option (result lcd_file) :=
  match fixes with
  | [] => Some (Ok l)
  | pf :: later =>
      match patch_by_id l (fix_id pf) with
      | None => apply_fixes later l
      | Some p =>
          if negb (repeat_offset_asserts (adpcm p)) then None
          else if details_differ pf p then Some (Fatal (cannot_be_fixed (id p)))
          else
            match edit_adpcm (adpcm p) (silence_start_blocks pf) (remove_end_blocks pf) with
            | None => None
            | Some edit => apply_fixes later (set_patch_by_id l (id p) edit)
            end
      end
  end.

Definition repair_patches (l : lcd_file) : option (result lcd_file) :=
  apply_fixes m_patch_fixes l.

End LcdRepair.

Module LcdRepairFacts.
Import Lcd AdpcmData LcdRepair.

Lemma patch_by_id_after_set (l : lcd_file) (i : Z) (data : list byte) (k : Z) :
  patch_by_id (set_patch_by_id l i data) k
  = if k =? i then Some (mk_patch i data) else patch_by_id l k.
Proof.
  induction l as [|p l IH]; cbn [set_patch_by_id patch_by_id id].
  - rewrite (Z.eqb_sym i k). reflexivity.
  - destruct (Z.eqb_spec (id p) i) as [He | Hne]; cbn [patch_by_id id].
    + destruct (Z.eqb_spec (id p) k) as [Hk | Hk].
      * destruct (Z.eqb_spec k i); [congruence | lia].
      * destruct (Z.eqb_spec k i); [lia | reflexivity].
    + destruct (Z.eqb_spec (id p) k) as [Hk | Hk]; [|exact IH].
      destruct (Z.eqb_spec k i); [lia | reflexivity].
Qed.

Lemma ids_after_set (l : lcd_file) (i : Z) (data : list byte) (p : patch) :
  patch_by_id l i = Some p -> map id (set_patch_by_id l i data) = map id l.
Proof.
  induction l as [|q l IH]; cbn [set_patch_by_id patch_by_id map]; [discriminate|].
  destruct (id q =? i); cbn [map id]; [reflexivity|].
  intros H. rewrite (IH H). reflexivity.
Qed.

Lemma patch_by_id_id (l : lcd_file) (i : Z) (p : patch) :
  patch_by_id l i = Some p -> id p = i.
Proof.
  induction l as [|q l IH]; cbn [patch_by_id]; [discriminate|].
  destruct (Z.eqb_spec (id q) i) as [He | Hne]; [intros [= <-]; exact He | exact IH].
Qed.

(** A fix that [edit_adpcm] can apply to data of the expected size. *)
Definition applicable (pf : patch_fix) : Prop :=
  fix_size pf mod 16 = 0 /\
  0 <= silence_start_blocks pf /\ 0 <= remove_end_blocks pf /\
  16 * (silence_start_blocks pf + remove_end_blocks pf) <= fix_size pf /\
  16 * remove_end_blocks pf < fix_size pf.

Lemma table_applicable : Forall applicable m_patch_fixes.
Proof. repeat constructor; cbn; lia. Qed.

Lemma table_ids : NoDup (map fix_id m_patch_fixes).
Proof.
  cbn. repeat constructor; cbn; intuition discriminate.
Qed.

Lemma edit_of_expected_size pf p :
  applicable pf -> details_differ pf p = false ->
  exists edit,
    edit_adpcm (adpcm p) (silence_start_blocks pf) (remove_end_blocks pf) = Some edit /\
    Z.of_nat (length edit) = fix_size pf - 16 * remove_end_blocks pf.
Proof.
  intros (Hmod & Hs & Hr & Hfit & Hleft) Hd. unfold details_differ in Hd.
  apply orb_false_elim in Hd as [Hd _]. apply orb_false_elim in Hd as [Hd _].
  apply negb_false_iff, Z.eqb_eq in Hd.
  destruct (AdpcmDataFacts.edit_adpcm_bytes (adpcm p) (silence_start_blocks pf)
              (remove_end_blocks pf)) as (out & Ho & Hsize & _); try (rewrite <- Hd; assumption);
    try assumption.
  exists out. split; [exact Ho|]. rewrite Hsize, Hd. reflexivity.
Qed.

(** What the loop does for a table of applicable fixes with distinct IDs. *)
Lemma apply_fixes_outcome (fixes : list patch_fix) : forall l : lcd_file,
  Forall applicable fixes -> NoDup (map fix_id fixes) ->
  (forall pf p, In pf fixes -> patch_by_id l (fix_id pf) = Some p ->
     repeat_offset_asserts (adpcm p) = true) ->
  exists r, apply_fixes fixes l = Some r /\
    match r with
    | Ok l' =>
        map id l' = map id l /\
        (forall i, ~ In i (map fix_id fixes) -> patch_by_id l' i = patch_by_id l i) /\
        (forall pf, In pf fixes ->
           match patch_by_id l (fix_id pf) with
           | None => patch_by_id l' (fix_id pf) = None
           | Some p =>
               details_differ pf p = false /\
               exists edit,
                 edit_adpcm (adpcm p) (silence_start_blocks pf) (remove_end_blocks pf)
                 = Some edit /\
                 Z.of_nat (length edit) = fix_size pf - 16 * remove_end_blocks pf /\
                 patch_by_id l' (fix_id pf) = Some (mk_patch (fix_id pf) edit)
           end)
    | Fatal msg =>
        exists pf p,
          In pf fixes /\ patch_by_id l (fix_id pf) = Some p /\
          details_differ pf p = true /\ msg = cannot_be_fixed (fix_id pf)
    end.
Proof.
  induction fixes as [|pf later IH]; intros l Hok Hids Hwf.
  - exists (Ok l). split; [reflexivity|]. split; [reflexivity|].
    split; [reflexivity | intros pf []].
  - inversion Hok as [|? ? Hfix Hlater]; subst.
    cbn [map] in Hids. inversion Hids as [|? ? Hnew Hids']; subst.
    cbn [apply_fixes]. destruct (patch_by_id l (fix_id pf)) as [p|] eqn:Hp.
    + pose proof (patch_by_id_id _ _ _ Hp) as Hid.
      rewrite (Hwf pf p (or_introl eq_refl) Hp). cbn [negb].
      destruct (details_differ pf p) eqn:Hd.
      * exists (Fatal (cannot_be_fixed (id p))). split; [reflexivity|].
        exists pf, p. rewrite Hid. repeat split; try assumption. left; reflexivity.
      * destruct (edit_of_expected_size pf p Hfix Hd) as (edit & He & Hlen).
        rewrite He, Hid.
        assert (Hother : forall k, k <> fix_id pf ->
                  patch_by_id (set_patch_by_id l (fix_id pf) edit) k = patch_by_id l k).
        { intros k Hk. rewrite patch_by_id_after_set.
          destruct (Z.eqb_spec k (fix_id pf)); [contradiction | reflexivity]. }
        assert (Hlater_ids : forall f, In f later -> fix_id f <> fix_id pf).
        { intros f Hf E. apply Hnew. rewrite <- E. apply in_map. exact Hf. }
        destruct (IH (set_patch_by_id l (fix_id pf) edit) Hlater Hids')
          as (r & Hr & Hout).
        { intros f q Hf Hq. rewrite (Hother _ (Hlater_ids f Hf)) in Hq.
          exact (Hwf f q (or_intror Hf) Hq). }
        exists r. split; [exact Hr|]. destruct r as [l'|msg].
        -- destruct Hout as (Hmap & Hrest & Hfixes).
           split; [rewrite Hmap; apply (ids_after_set _ _ _ _ Hp)|]. split.
           ++ intros i Hi. cbn [map In] in Hi.
              rewrite Hrest by tauto. apply Hother. intros E. apply Hi. left. congruence.
           ++ intros f [<- | Hf].
              ** rewrite Hp. split; [exact Hd|]. exists edit.
                 split; [exact He|]. split; [exact Hlen|].
                 rewrite (Hrest (fix_id pf) Hnew), patch_by_id_after_set, Z.eqb_refl.
                 reflexivity.
              ** specialize (Hfixes f Hf).
                 rewrite (Hother _ (Hlater_ids f Hf)) in Hfixes. exact Hfixes.
        -- destruct Hout as (f & q & Hf & Hq & Hdq & Hmsg).
           exists f, q. rewrite (Hother _ (Hlater_ids f Hf)) in Hq.
           repeat split; try assumption. right; exact Hf.
    + destruct (IH l Hlater Hids') as (r & Hr & Hout).
      { intros f q Hf Hq. exact (Hwf f q (or_intror Hf) Hq). }
      exists r. split; [exact Hr|]. destruct r as [l'|msg].
      * destruct Hout as (Hmap & Hrest & Hfixes). split; [exact Hmap|]. split.
        -- intros i Hi. apply Hrest. cbn [map In] in Hi. tauto.
        -- intros f [<- | Hf]; [|apply Hfixes, Hf].
           rewrite Hp. rewrite (Hrest (fix_id pf) Hnew). exact Hp.
      * destruct Hout as (f & q & Hf & Hq & Hdq & Hmsg).
        exists f, q. repeat split; try assumption. right; exact Hf.
Qed.

Lemma table_repeat_offsets :
  Forall (fun pf => 0 <= fix_repeat_offset pf) m_patch_fixes.
Proof. repeat constructor; cbn; lia. Qed.

(** The check of [repair_patches]: its third clause asks for a fix that
    expects no repeat point, and no fix of the table does. *)
Lemma details_differ_table pf p :
  0 <= fix_repeat_offset pf ->
  (details_differ pf p = false ->
   Z.of_nat (length (adpcm p)) = fix_size pf /\
   (repeat_offset (adpcm p) = fix_repeat_offset pf \/ repeat_offset (adpcm p) < 0)) /\
  (details_differ pf p = true ->
   Z.of_nat (length (adpcm p)) <> fix_size pf \/
   (0 <= repeat_offset (adpcm p) /\ repeat_offset (adpcm p) <> fix_repeat_offset pf)).
Proof.
  intros Hfix. unfold details_differ.
  destruct (Z.eqb_spec (fix_size pf) (Z.of_nat (length (adpcm p)))) as [Hs | Hs];
    destruct (Z.geb_spec (repeat_offset (adpcm p)) 0) as [Hr | Hr];
    destruct (Z.eqb_spec (repeat_offset (adpcm p)) (fix_repeat_offset pf)) as [He | He];
    destruct (Z.ltb_spec (repeat_offset (adpcm p)) 0) as [Hn | Hn];
    destruct (Z.ltb_spec (fix_repeat_offset pf) 0) as [Hf | Hf];
    cbn [negb orb andb]; split; intros H; try discriminate H; try lia.
Qed.

(** [repair_patches] as a whole, on a collection in which the patches
    found for the IDs of the table satisfy the assertions of
    [repeat_offset].  No assertion of [edit_adpcm] can fail, because the
    size of a patch is checked against the table first.  When the function
    returns, the collection has the same IDs in the same order, every patch
    whose ID is not in the table is found as before, and every patch found
    for an ID of the table had the expected size and either the expected
    repeat point or no repeat point at all, and now holds the result of
    [edit_adpcm] on its data, which is shorter by the blocks removed.  The
    exception is thrown exactly when a patch found for an ID of the table
    has another size than expected, or has a repeat point and it is not the
    expected one; the message names that ID.  So a patch of the expected
    size that has no repeat point is edited without exception, although
    every fix of the table expects a repeat point. *)
Theorem repair_patches_outcome (l : lcd_file) :
  (forall pf p, In pf m_patch_fixes -> patch_by_id l (fix_id pf) = Some p ->
     repeat_offset_asserts (adpcm p) = true) ->
  exists r, repair_patches l = Some r /\
    match r with
    | Ok l' =>
        map id l' = map id l /\
        (forall i, ~ In i [96; 102; 116; 130] -> patch_by_id l' i = patch_by_id l i) /\
        (forall pf, In pf m_patch_fixes ->
           match patch_by_id l (fix_id pf) with
           | None => patch_by_id l' (fix_id pf) = None
           | Some p =>
               Z.of_nat (length (adpcm p)) = fix_size pf /\
               (repeat_offset (adpcm p) = fix_repeat_offset pf \/
                repeat_offset (adpcm p) < 0) /\
               exists edit,
                 edit_adpcm (adpcm p) (silence_start_blocks pf) (remove_end_blocks pf)
                 = Some edit /\
                 Z.of_nat (length edit) = fix_size pf - 16 * remove_end_blocks pf /\
                 patch_by_id l' (fix_id pf) = Some (mk_patch (fix_id pf) edit)
           end)
    | Fatal msg =>
        exists pf p,
          In pf m_patch_fixes /\ patch_by_id l (fix_id pf) = Some p /\
          (Z.of_nat (length (adpcm p)) <> fix_size pf \/
           (0 <= repeat_offset (adpcm p) /\
            repeat_offset (adpcm p) <> fix_repeat_offset pf)) /\
          msg = cannot_be_fixed (fix_id pf)
    end.
Proof.
  intros Hwf. unfold repair_patches.
  destruct (apply_fixes_outcome m_patch_fixes l table_applicable table_ids Hwf)
    as (r & Hr & Hout).
  pose proof (proj1 (Forall_forall _ _) table_repeat_offsets) as Htable.
  exists r. split; [exact Hr|]. destruct r as [l'|msg].
  - destruct Hout as (Hids & Hrest & Hfixes). split; [exact Hids|]. split; [exact Hrest|].
    intros pf Hpf. specialize (Hfixes pf Hpf).
    destruct (patch_by_id l (fix_id pf)) as [p|]; [|exact Hfixes].
    destruct Hfixes as [Hd Hedit].
    destruct (proj1 (details_differ_table pf p (Htable pf Hpf)) Hd) as [Hsize Hrep].
    split; [exact Hsize|]. split; [exact Hrep | exact Hedit].
  - destruct Hout as (pf & p & Hpf & Hp & Hd & Hmsg).
    exists pf, p. split; [exact Hpf|]. split; [exact Hp|].
    split; [exact (proj2 (details_differ_table pf p (Htable pf Hpf)) Hd) | exact Hmsg].
Qed.

(** A patch 96 of the expected size, 2859 blocks, whose final block has no
    repeat jump, so that the patch has no repeat point. *)
Definition no_repeat_patch : list byte :=
  bytes_of (repeat 0 (Z.to_nat (45744 - 16)) ++ 0 :: 1 :: repeat 0 14).

Definition no_repeat_lcd : lcd_file :=
  [ mk_patch 7 (repeat x00 16); mk_patch 96 no_repeat_patch ].

Lemma repair_patches_outcome_witness :
  Z.of_nat (length no_repeat_patch) = 45744 /\
  repeat_offset no_repeat_patch = -1 /\
  exists l' edit,
    repair_patches no_repeat_lcd = Some (Ok l') /\
    edit_adpcm no_repeat_patch 2 1 = Some edit /\
    Z.of_nat (length edit) = 45744 - 16 /\
    patch_by_id l' 96 = Some (mk_patch 96 edit).
Proof.
  split; [vm_compute; reflexivity|]. split; [vm_compute; reflexivity|].
  assert (Hwf : forall pf p, In pf m_patch_fixes ->
            patch_by_id no_repeat_lcd (fix_id pf) = Some p ->
            repeat_offset_asserts (adpcm p) = true).
  { intros pf p [<- | [<- | [<- | [<- | []]]]] H;
      cbn [no_repeat_lcd patch_by_id id fix_id Z.eqb Pos.eqb] in H;
      try discriminate H. injection H as <-. vm_compute. reflexivity. }
  destruct (repair_patches_outcome no_repeat_lcd Hwf) as (r & Hr & Hout).
  destruct r as [l'|msg].
  - destruct Hout as (_ & _ & Hfixes).
    destruct (Hfixes (mk_fix 96 45744 16 2 1) (or_introl eq_refl))
      as (_ & _ & edit & He & Hlen & Hp).
    exists l', edit. split; [exact Hr|]. split; [exact He|]. split; [exact Hlen | exact Hp].
  - exfalso. destruct Hout as (pf & p & Hpf & Hp & Hd & _).
    destruct Hpf as [<- | [<- | [<- | [<- | []]]]];
      cbn [no_repeat_lcd patch_by_id id fix_id Z.eqb Pos.eqb] in Hp;
      try discriminate Hp. injection Hp as <-.
    cbn [adpcm fix_size fix_repeat_offset] in Hd.
    assert (Hs : Z.of_nat (length no_repeat_patch) = 45744) by (vm_compute; reflexivity).
    assert (Hrep : repeat_offset no_repeat_patch = -1) by (vm_compute; reflexivity).
    rewrite Hs, Hrep in Hd. lia.
Defined.

(** A collection with a patch 96 of one final block, which the table does
    not expect, and a patch the table does not name. *)
Definition unexpected_lcd : lcd_file :=
  [ mk_patch 7 (repeat x00 16);
    mk_patch 96 (bytes_of [0; 1; 0; 0; 0; 0; 0; 0; 0; 0; 0; 0; 0; 0; 0; 0]) ].

Example repair_patches_throws :
  repair_patches unexpected_lcd
  = Some (Fatal "Patch 96 can't be fixed: the details of the patch don't match the expected values."%string).
Proof. reflexivity. Qed.

End LcdRepairFacts.

(* ------------------------------------------------------------------------- *)
(** ** track_player.cpp: how often a track is played *)
(* ------------------------------------------------------------------------- *)

Module TrackPlayerRepeat.
Import MusicStream TrackPlayer.

(** What the other cases of the event loop, [tick] and the voices may do
    to a track player between two jumps: anything that leaves the play
    count and the repeat details of the track alone. *)
Definition plays_on (tp tp' : track_player) : Prop :=
  m_play_count tp' = m_play_count tp /\ m_repeat tp' = m_repeat tp /\
  m_repeat_start tp' = m_repeat_start tp.

(** [history tp jumps tp']: the player gets from [tp] to [tp'] while
    handling [jumps] events [jump_to_marker]. *)
Inductive history (tp : track_player) : nat -> track_player -> Prop :=
| history_start : history tp 0 tp
| history_play jumps tp1 tp2 :
    history tp jumps tp1 -> plays_on tp1 tp2 -> history tp jumps tp2
| history_jump jumps tp1 tp2 :
    history tp jumps tp1 -> on_jump_to_marker tp1 = Ok tp2 ->
    history tp (S jumps) tp2.

(** The plays left after [jumps] jumps; 0 stands for playing for ever. *)
Definition plays_left (play_count : Z) (jumps : nat) : Z :=
  if play_count =? 0 then 0 else Z.max (play_count - Z.of_nat jumps) 1.

End TrackPlayerRepeat.

Module TrackPlayerRepeatFacts.
Import MusicStream TrackPlayer TrackPlayerRepeat.

Lemma on_jump_fields tp tp' :
  0 <= m_play_count tp < 2 ^ 32 ->
  on_jump_to_marker tp = Ok tp' ->
  m_play_count tp' = plays_left (m_play_count tp) 1 /\
  m_repeat tp' = m_repeat tp /\ m_repeat_start tp' = m_repeat_start tp /\
  m_channels tp' = m_channels tp /\
  (if (m_play_count tp =? 1) || negb (m_repeat tp)
   then m_stream tp' = m_stream tp
   else m_position (m_stream tp') = m_repeat_start tp /\
        m_repeat_start tp <= size (m_stream tp)).
Proof.
  intros Hpc. unfold on_jump_to_marker, plays_left.
  destruct (Z.eqb_spec (m_play_count tp) 1) as [H1 | H1]; cbn [negb orb].
  - intros [= <-]. rewrite H1. repeat split; reflexivity.
  - assert (Hleft : (if m_play_count tp >? 0 then to_uint32 (m_play_count tp - 1)
                     else m_play_count tp)
                    = (if m_play_count tp =? 0 then 0
                       else Z.max (m_play_count tp - Z.of_nat 1) 1)).
    { destruct (Z.gtb_spec (m_play_count tp) 0), (Z.eqb_spec (m_play_count tp) 0);
        try lia.
      unfold to_uint32. rewrite wrap_unsigned_id by lia. lia. }
    destruct (m_repeat tp) eqn:Hrep; cbn [negb].
    + unfold seek.
      destruct (Z.gtb_spec (m_repeat_start tp) (size (m_stream tp))); [discriminate|].
      cbn [set_position]. intros [= <-].
      cbn [m_play_count m_repeat m_repeat_start m_channels m_stream m_position].
      rewrite Hleft. repeat split; try reflexivity; lia.
    + intros [= <-].
      cbn [m_play_count m_repeat m_repeat_start m_channels m_stream].
      rewrite Hleft. repeat split; reflexivity.
Qed.

Lemma plays_left_range n j : 0 <= n < 2 ^ 32 -> 0 <= plays_left n j < 2 ^ 32.
Proof. unfold plays_left. destruct (Z.eqb_spec n 0); lia. Qed.

Lemma plays_left_step n j :
  0 <= n -> plays_left (plays_left n j) 1 = plays_left n (S j).
Proof.
  intros Hn. unfold plays_left. destruct (Z.eqb_spec n 0) as [-> | Hnz]; [reflexivity|].
  destruct (Z.eqb_spec (Z.max (n - Z.of_nat j) 1) 0); lia.
Qed.

(** The play count counts the jumps.  A track player that starts with
    play count [n] and handles [j] jumps, whatever else happens in between,
    has play count [max (n - j) 1], or 0 for ever when [n] is 0; the repeat
    details never change.  A jump seeks to the repeat point exactly when
    the track flags a repeat and the play count is not 1, and otherwise
    leaves the stream alone; so a repeating part is played at most [n]
    times.  While more than one play is left on a track that flags a
    repeat, [is_running] is [true]. *)
Theorem play_count_counts_jumps (tp tp' : track_player) (jumps : nat) :
  0 <= m_play_count tp < 2 ^ 32 ->
  history tp jumps tp' ->
  m_play_count tp' = plays_left (m_play_count tp) jumps /\
  m_repeat tp' = m_repeat tp /\ m_repeat_start tp' = m_repeat_start tp /\
  (forall tp'', on_jump_to_marker tp' = Ok tp'' ->
     if (m_play_count tp' =? 1) || negb (m_repeat tp)
     then m_stream tp'' = m_stream tp'
     else m_position (m_stream tp'') = m_repeat_start tp) /\
  (m_repeat tp = true -> Z.of_nat jumps + 1 < m_play_count tp -> is_running tp' = true).
Proof.
  intros Hpc Hh.
  assert (Hinv : m_play_count tp' = plays_left (m_play_count tp) jumps /\
                 m_repeat tp' = m_repeat tp /\ m_repeat_start tp' = m_repeat_start tp).
  { induction Hh as [|j tp1 tp2 _ (IH1 & IH2 & IH3) (P1 & P2 & P3)
                      |j tp1 tp2 _ (IH1 & IH2 & IH3) Hj].
    - unfold plays_left. destruct (Z.eqb_spec (m_play_count tp) 0); repeat split; lia.
    - repeat split; congruence.
    - assert (Hr : 0 <= m_play_count tp1 < 2 ^ 32)
        by (rewrite IH1; apply plays_left_range, Hpc).
      destruct (on_jump_fields tp1 tp2 Hr Hj) as (F1 & F2 & F3 & _).
      rewrite F1, IH1, plays_left_step by lia. repeat split; congruence. }
  destruct Hinv as (I1 & I2 & I3). repeat split; try assumption.
  - intros tp'' Hj.
    assert (Hr : 0 <= m_play_count tp' < 2 ^ 32)
      by (rewrite I1; apply plays_left_range, Hpc).
    destruct (on_jump_fields tp' tp'' Hr Hj) as (_ & _ & _ & _ & F).
    rewrite I2, I3 in F. destruct (_ || _); [exact F | exact (proj1 F)].
  - intros Hrep Hmore. unfold is_running. rewrite I2, Hrep, I1. unfold plays_left.
    destruct (Z.eqb_spec (m_play_count tp) 0); [lia|].
    destruct (Z.gtb_spec (Z.max (m_play_count tp - Z.of_nat jumps) 1) 1); [|lia].
    rewrite orb_true_r. cbn [andb]. rewrite orb_true_r. reflexivity.
Qed.

Definition after_jump : track_player :=
  match on_jump_to_marker TrackPlayerFacts.playing_twice with
  | Ok tp => tp
  | Fatal _ => TrackPlayerFacts.playing_twice
  end.

Lemma play_count_counts_jumps_witness :
  m_play_count after_jump = plays_left 2 1 /\
  m_position (m_stream after_jump) = 0 /\
  (forall tp'', on_jump_to_marker after_jump = Ok tp'' ->
     m_stream tp'' = m_stream after_jump).
Proof.
  assert (H1 : 0 <= m_play_count TrackPlayerFacts.playing_twice < 2 ^ 32)
    by (vm_compute; split; [discriminate | reflexivity]).
  assert (H2 : history TrackPlayerFacts.playing_twice 1 after_jump)
    by (apply (history_jump _ 0 TrackPlayerFacts.playing_twice);
        [apply history_start | reflexivity]).
  destruct (play_count_counts_jumps TrackPlayerFacts.playing_twice after_jump 1 H1 H2)
    as (Hc & _ & _ & Hj & _).
  split; [exact Hc|]. split; [reflexivity | exact Hj].
Defined.

End TrackPlayerRepeatFacts.

(* ------------------------------------------------------------------------- *)
(** ** sample.h: the conversion of samples to 16-bit integers *)
(* ------------------------------------------------------------------------- *)

Module Sample.

(** Whether [2 ^ k <= a / b], for positive [a] and [b]. *)
Definition at_least_pow2 (k a b : Z) : bool :=
  if 0 <=? k then 2 ^ k * b <=? a else b <=? 2 ^ (- k) * a.

(** The exponent of a positive rational [a / b]: the [e] with
    [2 ^ e <= a / b < 2 ^ (e + 1)]. *)
Definition exponent (a b : Z) : Z :=
  let k := Z.log2 a - Z.log2 b in
  if at_least_pow2 k a b then k else k - 1.

(** The integer nearest to [n / d], for [0 <= n] and [0 < d]; a tie goes
    to the even one. *)
Definition round_half_even (n d : Z) : Z :=
  let q := n / d in
  let r := n mod d in
  if 2 * r <? d then q
  else if d <? 2 * r then q + 1
  else if Z.even q then q else q + 1.

(** The [float] nearest to a rational, ties to even: a significand of 24
    bits, and a least exponent of -126 below which the spacing stays
    [2 ^ -149].  Values beyond the largest [float], which are infinite in
    the code, are not told apart here; they lie outside the range of the
    cast of [sample_to_int] either way. *)
Definition round_to_float (q : Q) : Q :=
  let a := Z.abs (Qnum q) in
  let b := Z.pos (Qden q) in
  if a =? 0 then 0%Q
  else
    let ulp := Z.max (exponent a b) (-126) - 23 in
    let n := if 0 <=? ulp then round_half_even a (b * 2 ^ ulp)
             else round_half_even (a * 2 ^ (- ulp)) b in
    let n := Z.sgn (Qnum q) * n in
    if 0 <=? ulp then inject_Z (n * 2 ^ ulp)
    else Qred (Qmake n (Z.to_pos (2 ^ (- ulp)))).

(** The cast of a floating point value to [int32_t]: the fraction is cut
    off; outside the range of [int32_t] the cast is undefined, [None]. *)
Definition cast_to_int32 (v : Q) : option Z :=
  let i := Z.quot (Qnum v) (Z.pos (Qden v)) in
  if (- 2 ^ 31 <=? i) && (i <? 2 ^ 31) then Some i else None.

(** [sample_to_int] for a mono sample.  The product is a [float].  The sum
    with 0.5 is taken as exact: as a [double] it is exact for a product of
    size 1/4 or more, and for a smaller one both the [double] and the exact
    sum lie between 1/4 and 3/4, where the cast gives 0. *)
Definition sample_to_int (s : mono_t) : option Z :=
  match cast_to_int32 (round_to_float (s * inject_Z SHRT_MAX) + (1 # 2))%Q with
  | Some i => Some (to_int16 (clamp i SHRT_MIN SHRT_MAX))
  | None => None
  end.

End Sample.

(* ------------------------------------------------------------------------- *)
(** ** wav_file.h: the WAV file writer *)
(* ------------------------------------------------------------------------- *)

Module WavFile.
Import SafeFile.

Definition m_header_size : Z := 44.
Definition m_wave_chunk_size : Z := 28.
Definition m_data_chunk_size : Z := 8.

Definition maximum_exceeded : string := "Maximum WAV file size exceeded."%string.

(** Never produced: the loop of [write] ends when the source does. *)
Definition out_of_fuel : string := "<loop bound of the model exceeded>"%string.

Section Host.

Variable big_endian : bool.

(** endian.h: [int16_as_le]. *)
Definition int16_as_le (v : Z) : Z :=
  if big_endian
  then to_int16 (Z.lor (Z.land (Z.shiftl (to_uint16 v) 8) 0xff00)
                       (Z.land (Z.shiftr (to_uint16 v) 8) 0x00ff))
  else v.

(** The bytes of an [int16_t] in the memory of the host. *)
Definition int16_bytes (v : Z) : list byte := uint16_bytes big_endian (to_uint16 v).

(** A file open for writing in which the position can be moved back:
    [fwrite] replaces the bytes at the position and extends the file at its
    end. *)
Record writer : Type := mk_writer {
  w_bytes : list byte;
  w_pos : nat
}.

Definition put (f : writer) (buffer : list byte) : writer :=
  mk_writer
    (firstn (w_pos f) (w_bytes f) ++ repeat x00 (w_pos f - length (w_bytes f))
     ++ buffer ++ skipn (w_pos f + length buffer) (w_bytes f))
    (w_pos f + length buffer).

Definition put_16_le (f : writer) (value : Z) : writer :=
  put f (uint16_bytes big_endian (uint16_as_le big_endian value)).

Definition put_32_le (f : writer) (value : Z) : writer :=
  put f (uint32_bytes big_endian (uint32_as_le big_endian value)).

Definition seek (f : writer) (pos : nat) : writer := mk_writer (w_bytes f) pos.

Definition tell (f : writer) : nat := w_pos f.

Section Samples.

(** The class is a template over the sample type, [mono_t] or [stereo_t];
    [components] lists the mono samples of a sample in the order in which
    [buffer_sample] stores them.  [sample_to_int] is the conversion of
    sample.h to an [int16_t]. *)
Variable S : Type.
Variable is_stereo : bool.
Variable components : S -> list mono_t.
Variable sample_to_int : mono_t -> Z.

Definition channels : Z := if is_stereo then 2 else 1.

Definition m_max_samples : Z := (0xffffffff - m_header_size) / (2 * channels).

Record wav_file : Type := mk_wav {
  m_file : writer;
  m_riff_length_offset : nat;
  m_data_length_offset : nat;
  m_samples : Z                  (* uint32_t *)
}.

Definition open (sample_rate : Z) : wav_file :=
  let f := mk_writer [] 0 in
  let f := put f (list_byte_of_string "RIFF") in
  let riff_length_offset := tell f in
  let f := put_32_le f 0 in
  let f := put f (list_byte_of_string "WAVEfmt ") in
  let f := put_32_le f 16 in
  let f := put_16_le f 1 in
  let f := put_16_le f (if is_stereo then 2 else 1) in
  let f := put_32_le f sample_rate in
  let f := put_32_le f (to_uint32 (2 * sample_rate * channels)) in
  let f := put_16_le f (to_uint16 (2 * channels)) in
  let f := put_16_le f 16 in
  let f := put f (list_byte_of_string "data") in
  let data_length_offset := tell f in
  let f := put_32_le f 0 in
  mk_wav f riff_length_offset data_length_offset 0.

Definition buffer_sample (buffer : list Z) (s : S) : list Z :=
  buffer ++ map (fun x => int16_as_le (sample_to_int x)) (components s).

Definition buffer_samples : nat := 4096.

(** The inner [while] loop of [write]: the buffer is filled from the
    source until it holds [buffer_samples] values or the source stops. *)
Fixpoint fill (source : list S) (buffer : list Z) (samples : Z)
  : result (list S * list Z * Z) :=
  if (length buffer <? buffer_samples)%nat then
    match source with
    | [] => Ok ([], buffer, samples)
    | s :: rest =>
        let buffer := buffer_sample buffer s in
        let samples := to_uint32 (samples + 1) in
        if samples >? m_max_samples then Fatal maximum_exceeded
        else fill rest buffer samples
    end
  else Ok (source, buffer, samples).

(** The [do ... while] loop of [write]. *)
Fixpoint write_batches (fuel : nat) (source : list S) (w : wav_file) : result wav_file :=
  match fuel with
  | O => Fatal out_of_fuel
  | Datatypes.S fuel' =>
      match fill source [] (m_samples w) with
      | Fatal msg => Fatal msg
      | Ok (source', buffer, samples) =>
          let w' := mk_wav (if (0 <? length buffer)%nat
                            then put (m_file w) (flat_map int16_bytes buffer)
                            else m_file w)
                           (m_riff_length_offset w) (m_data_length_offset w) samples in
          if (0 <? length buffer)%nat then write_batches fuel' source' w' else Ok w'
      end
  end.

Definition close (w : wav_file) : wav_file :=
  let f := seek (m_file w) (m_riff_length_offset w) in
  let sample_bytes := m_samples w * 2 * channels in
  let f := put_32_le f (to_uint32 (m_wave_chunk_size + m_data_chunk_size
                                    + to_uint32 sample_bytes)) in
  let f := seek f (m_data_length_offset w) in
  let f := put_32_le f (to_uint32 sample_bytes) in
  mk_wav f (m_riff_length_offset w) (m_data_length_offset w) (m_samples w).

(** [write]: the bytes of the file and the number of samples written, or
    the message thrown. *)
Definition write (source : list S) (sample_rate : Z) : result (list byte * Z) :=
  match write_batches (Datatypes.S (length source)) source (open sample_rate) with
  | Fatal msg => Fatal msg
  | Ok w => let w := close w in Ok (w_bytes (m_file w), m_samples w)
  end.

End Samples.

End Host.

(** The two instances of the template. *)
Definition mono_components (s : mono_t) : list mono_t := [s].
Definition stereo_components (s : Channel.stereo_t) : list mono_t :=
  [Channel.left s; Channel.right s].

(** *** The layout of a WAV file *)

Definition le16 (v : Z) : list byte := [byte_of_Z v; byte_of_Z (v / 256)].
Definition le32 (v : Z) : list byte :=
  [byte_of_Z v; byte_of_Z (v / 256); byte_of_Z (v / 65536); byte_of_Z (v / 16777216)].

Definition wav_layout (channels sample_rate samples : Z) (data : list byte) : list byte :=
  list_byte_of_string "RIFF" ++ le32 (36 + 2 * channels * samples)
  ++ list_byte_of_string "WAVEfmt " ++ le32 16 ++ le16 1 ++ le16 channels
  ++ le32 sample_rate ++ le32 (2 * sample_rate * channels) ++ le16 (2 * channels)
  ++ le16 16
  ++ list_byte_of_string "data" ++ le32 (2 * channels * samples)
  ++ data.

End WavFile.

Module WavFileFacts.
Import SafeFile SafeFileFacts WavFile.

Lemma put_at_end (bytes buffer : list byte) :
  put (mk_writer bytes (length bytes)) buffer
  = mk_writer (bytes ++ buffer) (length bytes + length buffer).
Proof.
  unfold put. cbn [w_pos w_bytes].
  rewrite firstn_all, Nat.sub_diag, skipn_all2 by lia.
  cbn [repeat app]. rewrite app_nil_r. reflexivity.
Qed.

Lemma swap16_raw (v : Z) :
  0 <= v < 65536 ->
  Z.lor (Z.land (Z.shiftl v 8) 0xff00) (Z.land (Z.shiftr v 8) 0x00ff)
  = (v mod 256) * 256 + v / 256.
Proof.
  intros Hv.
  change 0xff00 with (Z.shiftl (Z.ones 8) 8). rewrite <- Z.shiftl_land.
  change 0x00ff with (Z.ones 8). rewrite !Z.land_ones by lia.
  rewrite Z.shiftl_mul_pow2, Z.shiftr_div_pow2 by lia. change (2 ^ 8) with 256.
  assert (H1 : 0 <= v / 256 < 256)
    by (split; [apply Z.div_pos; lia | apply Z.div_lt_upper_bound; lia]).
  rewrite (Z.mod_small (v / 256)) by lia.
  apply lor_disjoint_bytes. lia.
Qed.

Section Host.

Variable big_endian : bool.

Lemma put_16_le_bytes (v : Z) :
  0 <= v < 65536 -> uint16_bytes big_endian (uint16_as_le big_endian v) = le16 v.
Proof. apply uint16_bytes_le. Qed.

Lemma put_32_le_bytes (v : Z) :
  0 <= v < 2 ^ 32 -> uint32_bytes big_endian (uint32_as_le big_endian v) = le32 v.
Proof. apply uint32_bytes_le. Qed.

Lemma int16_bytes_le (v : Z) :
  - 32768 <= v < 32768 -> int16_bytes big_endian (int16_as_le big_endian v) = le16 v.
Proof.
  intros Hv. unfold int16_bytes, int16_as_le, uint16_bytes, le16.
  assert (Hu : 0 <= to_uint16 v < 65536) by (apply Z.mod_pos_bound; reflexivity).
  destruct big_endian.
  - rewrite swap16_raw by exact Hu.
    set (u := to_uint16 v) in *.
    assert (Hs : 0 <= u mod 256 * 256 + u / 256 < 65536)
      by (Z.div_mod_to_equations; lia).
    assert (Hw : to_uint16 (to_int16 (u mod 256 * 256 + u / 256))
                 = u mod 256 * 256 + u / 256).
    { unfold to_uint16, to_int16, wrap_unsigned, wrap_signed.
      change (2 ^ (16 - 1)) with 32768. change (2 ^ 16) with 65536.
      Z.div_mod_to_equations; lia. }
    rewrite Hw. subst u. unfold to_uint16, wrap_unsigned. change (2 ^ 16) with 65536.
    f_equal; [|f_equal]; apply byte_of_Z_mod; Z.div_mod_to_equations; lia.
  - unfold to_uint16, wrap_unsigned. change (2 ^ 16) with 65536.
    f_equal; [|f_equal]; apply byte_of_Z_mod; Z.div_mod_to_equations; lia.
Qed.

Lemma le32_low (v : Z) : le32 (to_uint32 v) = le32 v.
Proof.
  unfold le32, to_uint32, wrap_unsigned. change (2 ^ 32) with 4294967296.
  f_equal; [|f_equal; [|f_equal; [|f_equal]]]; apply byte_of_Z_mod;
    Z.div_mod_to_equations; lia.
Qed.

Lemma le16_low (v : Z) : le16 (to_uint16 v) = le16 v.
Proof.
  unfold le16, to_uint16, wrap_unsigned. change (2 ^ 16) with 65536.
  f_equal; [|f_equal]; apply byte_of_Z_mod; Z.div_mod_to_equations; lia.
Qed.

Section Samples.

Variable S : Type.
Variable is_stereo : bool.
Variable components : S -> list mono_t.
Variable sample_to_int : mono_t -> Z.

Hypothesis components_length :
  forall s, Z.of_nat (length (components s)) = channels is_stereo.
Hypothesis sample_to_int_range : forall x, - 32768 <= sample_to_int x < 32768.

#[local] Abbreviation wav_file := (wav_file).
#[local] Abbreviation fill := (fill big_endian S is_stereo components sample_to_int).
#[local] Abbreviation write_batches :=
  (write_batches big_endian S is_stereo components sample_to_int).
#[local] Abbreviation buffer_sample := (buffer_sample big_endian S components sample_to_int).

(** The bytes of the samples in the file. *)
Definition sample_data (source : list S) : list byte :=
  flat_map (fun s => flat_map (fun x => le16 (sample_to_int x)) (components s)) source.

Definition buffered (source : list S) : list Z :=
  flat_map (fun s => map (fun x => int16_as_le big_endian (sample_to_int x)) (components s))
           source.

Lemma buffered_bytes (source : list S) :
  flat_map (int16_bytes big_endian) (buffered source) = sample_data source.
Proof.
  unfold buffered, sample_data. induction source as [|s source IH]; [reflexivity|].
  cbn [flat_map]. rewrite flat_map_app, IH. f_equal.
  induction (components s) as [|x xs IHx]; [reflexivity|].
  cbn [map flat_map]. rewrite IHx, int16_bytes_le by apply sample_to_int_range.
  reflexivity.
Qed.

Lemma channels_positive : 1 <= channels is_stereo <= 2.
Proof using Type.
  clear components_length sample_to_int_range. unfold channels. destruct is_stereo; lia. Qed.

Lemma max_samples_bound : 0 <= m_max_samples is_stereo /\
  2 * channels is_stereo * m_max_samples is_stereo <= 0xffffffff - 44.
Proof using Type.
  clear components_length sample_to_int_range.
  unfold m_max_samples, m_header_size, channels. destruct is_stereo; cbn; lia.
Qed.

(** One pass of the inner loop: some samples are taken off the source. *)
Lemma fill_spec (source : list S) : forall (buffer : list Z) (samples : Z),
  0 <= samples -> samples + Z.of_nat (length source) <= m_max_samples is_stereo ->
  exists taken rest,
    source = taken ++ rest /\
    fill source buffer samples
    = Ok (rest, buffer ++ buffered taken, samples + Z.of_nat (length taken)) /\
    (taken = [] -> source = [] \/ (buffer_samples <= length buffer)%nat).
Proof.
  pose proof max_samples_bound as [Hm0 Hm].
  induction source as [|s source IH]; intros buffer samples Hs Hmax.
  - exists [], []. cbn [fill app buffered flat_map length].
    rewrite app_nil_r, Z.add_0_r. destruct (_ <? _)%nat; auto.
  - cbn [fill]. destruct (Nat.ltb_spec (length buffer) buffer_samples) as [Hlt | Hge].
    + cbn [length] in Hmax.
      unfold to_uint32. rewrite wrap_unsigned_id
        by (change (2 ^ 32) with 4294967296; pose proof channels_positive; nia).
      destruct (Z.gtb_spec (samples + 1) (m_max_samples is_stereo)); [lia|].
      destruct (IH (buffer_sample buffer s) (samples + 1) ltac:(lia) ltac:(lia))
        as (taken & rest & Hsplit & Hfill & _).
      exists (s :: taken), rest. split; [cbn [app]; rewrite Hsplit; reflexivity|].
      split; [|discriminate].
      rewrite Hfill. unfold WavFile.buffer_sample, buffered. cbn [flat_map length].
      rewrite <- app_assoc. do 2 f_equal. lia.
    + exists [], (s :: source). split; [reflexivity|].
      cbn [app buffered flat_map length]. rewrite app_nil_r, Z.add_0_r.
      split; [reflexivity | right; exact Hge].
Qed.

Lemma buffered_nonempty (s : S) (taken : list S) :
  (0 < length (buffered (s :: taken)))%nat.
Proof.
  unfold buffered. cbn [flat_map]. rewrite length_app, length_map.
  pose proof (components_length s). pose proof channels_positive. lia.
Qed.

(** The whole loop: every sample of the source is appended to the file. *)
Lemma write_batches_spec (fuel : nat) : forall (source : list S) (bytes : list byte)
    (riff data : nat) (samples : Z),
  (length source < fuel)%nat -> 0 <= samples ->
  samples + Z.of_nat (length source) <= m_max_samples is_stereo ->
  write_batches fuel source (mk_wav (mk_writer bytes (length bytes)) riff data samples)
  = Ok (mk_wav (mk_writer (bytes ++ sample_data source)
                          (length bytes + length (sample_data source)))
               riff data (samples + Z.of_nat (length source))).
Proof.
  induction fuel as [|fuel IH]; intros source bytes riff data samples Hfuel Hs Hmax; [lia|].
  cbn [WavFile.write_batches m_samples m_file m_riff_length_offset m_data_length_offset].
  destruct (fill_spec source [] samples Hs Hmax) as (taken & rest & Hsplit & Hfill & Hnone).
  rewrite Hfill. cbn [app].
  destruct taken as [|s taken].
  - destruct (Hnone eq_refl) as [Hempty | Hfull];
      [|cbn [length] in Hfull; unfold buffer_samples in Hfull; lia].
    cbn [app] in Hsplit. assert (Hrest : rest = []) by congruence. subst rest source.
    cbn [buffered flat_map length Nat.ltb Nat.leb sample_data].
    rewrite app_nil_r, Nat.add_0_r, Z.add_0_r. reflexivity.
  - pose proof (buffered_nonempty s taken) as Hpos.
    destruct (Nat.ltb_spec 0 (length (buffered (s :: taken)))) as [_ | Hle]; [|lia].
    rewrite put_at_end, buffered_bytes.
    pose proof (IH rest (bytes ++ sample_data (s :: taken)) riff data
                  (samples + Z.of_nat (length (s :: taken)))) as Hrest.
    rewrite length_app in Hrest. rewrite Hrest; clear Hrest.
    + subst source. unfold sample_data. rewrite flat_map_app, <- app_assoc.
      rewrite !length_app. do 2 f_equal; [f_equal; lia | lia].
    + subst source. rewrite length_app in Hfuel. cbn [length] in *. lia.
    + lia.
    + subst source. rewrite length_app in Hmax. lia.
Qed.

(** The header right after [open]: both length fields are still 0. *)
Definition opened_header (sample_rate : Z) : list byte :=
  list_byte_of_string "RIFF" ++ le32 0
  ++ list_byte_of_string "WAVEfmt " ++ le32 16 ++ le16 1 ++ le16 (channels is_stereo)
  ++ le32 sample_rate ++ le32 (2 * sample_rate * channels is_stereo)
  ++ le16 (2 * channels is_stereo) ++ le16 16
  ++ list_byte_of_string "data" ++ le32 0.

Lemma open_layout (sample_rate : Z) :
  0 <= sample_rate < 2 ^ 32 ->
  open big_endian is_stereo sample_rate
  = mk_wav (mk_writer (opened_header sample_rate) 44) 4 40 0.
Proof using Type.
  clear components_length sample_to_int_range.
  intros Hr. pose proof channels_positive as Hc.
  unfold open, put_32_le, put_16_le.
  rewrite !put_32_le_bytes, !put_16_le_bytes, le32_low, le16_low;
    try (change (2 ^ 32) with 4294967296; lia);
    try (apply Z.mod_pos_bound; reflexivity);
    try (destruct is_stereo; lia).
  unfold opened_header, channels. reflexivity.
Qed.

Lemma close_layout (sample_rate : Z) (data : list byte) (samples : Z) :
  0 <= samples <= m_max_samples is_stereo ->
  w_bytes (m_file (close big_endian is_stereo
                     (mk_wav (mk_writer (opened_header sample_rate ++ data)
                                        (44 + length data)) 4 40 samples)))
  = wav_layout (channels is_stereo) sample_rate samples data.
Proof using Type.
  clear components_length sample_to_int_range.
  intros Hs. pose proof channels_positive as Hc. pose proof max_samples_bound as [_ Hm].
  unfold close, put_32_le, seek.
  cbn [m_file m_riff_length_offset m_data_length_offset m_samples w_bytes w_pos].
  assert (Hb : 0 <= samples * 2 * channels is_stereo < 2 ^ 32)
    by (change (2 ^ 32) with 4294967296; nia).
  assert (Hw : to_uint32 (samples * 2 * channels is_stereo)
               = samples * 2 * channels is_stereo) by (apply wrap_unsigned_id; exact Hb).
  rewrite Hw.
  rewrite !put_32_le_bytes, le32_low
    by (first [apply Z.mod_pos_bound; reflexivity | exact Hb]).
  unfold m_wave_chunk_size, m_data_chunk_size.
  replace (28 + 8 + samples * 2 * channels is_stereo)
    with (36 + 2 * channels is_stereo * samples) by lia.
  replace (samples * 2 * channels is_stereo)
    with (2 * channels is_stereo * samples) by lia.
  unfold wav_layout, opened_header, put, le32, le16.
  cbn [w_bytes w_pos]. reflexivity.
Qed.

End Samples.

End Host.

(** The WAV file.  For a source of [n] samples, [n] not above the maximum
    that [write] allows, the file written is a RIFF header of 44 bytes
    announcing PCM with 16 bits, the number of channels, the sample rate
    and the lengths [36 + 2 * channels * n] and [2 * channels * n], followed
    by the samples in the order of the source, each channel as a
    little-endian 16-bit value, on a host of either byte order; [write]
    returns [n]. *)
Theorem wav_file_layout (big_endian : bool) (S : Type) (is_stereo : bool)
    (components : S -> list mono_t) (sample_to_int : mono_t -> Z)
    (source : list S) (sample_rate : Z) :
  (forall s, Z.of_nat (length (components s)) = channels is_stereo) ->
  (forall x, - 32768 <= sample_to_int x < 32768) ->
  0 < sample_rate < 2 ^ 32 ->
  Z.of_nat (length source) <= m_max_samples is_stereo ->
  write big_endian S is_stereo components sample_to_int source sample_rate
  = Ok (wav_layout (channels is_stereo) sample_rate (Z.of_nat (length source))
          (sample_data S components sample_to_int source),
        Z.of_nat (length source)).
Proof.
  intros Hcomp Hrange Hr Hn. unfold write.
  rewrite (open_layout big_endian is_stereo) by lia.
  pose proof (write_batches_spec big_endian S is_stereo components sample_to_int
                Hcomp Hrange (Datatypes.S (length source)) source
                (opened_header is_stereo sample_rate) 4 40 0
                ltac:(lia) ltac:(lia) ltac:(lia)) as Hw.
  change (length (opened_header is_stereo sample_rate)) with 44%nat in Hw.
  rewrite Hw. cbn [Z.add].
  rewrite (close_layout big_endian is_stereo) by lia. reflexivity.
Qed.

(** [sample_to_int] as the writer of mono samples calls it.  Where the
    cast of sample.h is undefined the model takes [SHRT_MIN]. *)
Definition mono_sample_to_int (s : mono_t) : Z :=
  match Sample.sample_to_int s with
  | Some v => v
  | None => SHRT_MIN
  end.

Lemma mono_sample_to_int_range x : - 32768 <= mono_sample_to_int x < 32768.
Proof.
  unfold mono_sample_to_int, Sample.sample_to_int.
  destruct (Sample.cast_to_int32 _) as [i|]; [|unfold SHRT_MIN; lia].
  pose proof (clamp_range i SHRT_MIN SHRT_MAX) as Hc. unfold SHRT_MIN, SHRT_MAX in *.
  unfold to_int16. rewrite wrap_signed_id; lia.
Qed.

Lemma wav_file_layout_witness :
  write true mono_t false mono_components mono_sample_to_int [1 # 2; - (1 # 4)]%Q 44100
  = Ok (wav_layout 1 44100 2 (le16 16384 ++ le16 (-8191)), 2).
Proof.
  assert (H1 : forall s : mono_t,
            Z.of_nat (length (mono_components s)) = channels false)
    by (intros s; reflexivity).
  assert (H3 : 0 < 44100 < 2 ^ 32) by (split; reflexivity).
  assert (H4 : Z.of_nat (length [1 # 2; - (1 # 4)]%Q) <= m_max_samples false)
    by (vm_compute; discriminate).
  exact (wav_file_layout true mono_t false mono_components mono_sample_to_int
           [1 # 2; - (1 # 4)]%Q 44100 H1 mono_sample_to_int_range H3 H4).
Defined.

End WavFileFacts.

(* ------------------------------------------------------------------------- *)
(** ** wmd_file.h / wmd_file.cpp: reading and writing WMD files *)
(* ------------------------------------------------------------------------- *)

Module Wmd.
Import SafeFile.

Definition PSXDMH_SPSX_SIGNATURE : Z := 0x58535053.
Definition PSXDMH_SPSX_VERSION : Z := 1.

Record wmd_sub_instrument : Type := mk_sub_instrument {
  first_note : Z;                (* uint8_t *)
  last_note : Z;                 (* uint8_t *)
  patch : Z;                     (* uint16_t *)
  volume : Z;                    (* uint8_t *)
  tuning : Z;                    (* uint8_t *)
  fine_tuning : Z;               (* uint8_t *)
  pan : Z;                       (* uint8_t *)
  bend_sensitivity_down : Z;     (* uint8_t *)
  bend_sensitivity_up : Z;       (* uint8_t *)
  flags : Z;                     (* uint8_t *)
  priority : Z;                  (* uint8_t *)
  spu_ads : Z;                   (* uint16_t *)
  spu_sr : Z                     (* uint16_t *)
}.

Record wmd_instrument : Type := mk_instrument {
  sub_instruments : list wmd_sub_instrument
}.

(** [wmd_song_track]: the fields that the music stream uses, and the two
    arrays of bytes of unknown purpose. *)
Record wmd_track : Type := mk_wmd_track {
  track : MusicStream.wmd_song_track;
  track_unknown_0 : list byte;   (* uint8_t [6] *)
  track_unknown_1 : list byte    (* uint8_t [6] *)
}.

Record wmd_song : Type := mk_song {
  tracks : list wmd_track;
  unknown : list byte            (* uint8_t [2] *)
}.

Record wmd_file : Type := mk_wmd {
  m_instruments : list wmd_instrument;
  m_songs : list wmd_song;
  m_unknown_0 : list byte;       (* uint8_t [14] *)
  m_unknown_1 : list byte        (* uint8_t [8] *)
}.

Definition is_empty (w : wmd_file) : bool :=
  match m_songs w, m_instruments w with [], [] => true | _, _ => false end.

(** The first loop of [write]: the number of sub-instruments. *)
Definition total_sub_instruments (w : wmd_file) : Z :=
  fold_left (fun n i => n + Z.of_nat (length (sub_instruments i))) (m_instruments w) 0.

(** *** Reading: a state and error monad over the file *)

Definition reader (A : Type) : Type := safe_file -> result (A * safe_file).

Definition ret {A : Type} (a : A) : reader A := fun f => Ok (a, f).

Definition throw {A : Type} (msg : string) : reader A := fun _ => Fatal msg.

Definition bind {A B : Type} (r : reader A) (k : A -> reader B) : reader B :=
  fun f => match r f with
           | Ok (a, f') => k a f'
           | Fatal msg => Fatal msg
           end.

Notation "x <- r ;; k" := (bind r (fun x => k))
  (at level 61, r at next level, right associativity).

Definition bad_signature : string := "Not a WMD file (bad signature)."%string.
Definition bad_version : string := "WMD file uses an unsupported SPSX version."%string.
Definition bad_instrument_size : string :=
  "Corrupt WMD file (bad instrument record size)."%string.
Definition bad_sub_instrument_size : string :=
  "Corrupt WMD file (bad sub-instrument record size)."%string.
Definition bad_patch_size : string := "Corrupt WMD file (bad patch record size)."%string.
Definition non_contiguous : string :=
  "Corrupt WMD file (non-contiguous sub-instruments)."%string.
Definition wrong_number : string :=
  "Corrupt WMD file (wrong number of sub-instruments)."%string.

Section Host.

Variable big_endian : bool.

(** safe_file.cpp: [read_8], and the readers as monadic actions. *)
Definition read_8 : reader Z := fun f =>
  match SafeFile.read f 1 with
  | Ok (c, f') => Ok (Z.land (byte_at c 0) 0xff, f')
  | Fatal msg => Fatal msg
  end.

Definition read_16 : reader Z := read_16_le big_endian.
Definition read_32 : reader Z := read_32_le big_endian.
Definition read_bytes (bytes : nat) : reader (list byte) := fun f => SafeFile.read f bytes.

Definition skip (bytes : nat) : reader unit := fun f =>
  Ok (tt, SafeFile.seek f (SafeFile.tell f + bytes)).

(** The loop over the raw instrument records: the numbers of
    sub-instruments, and [expected_first] at the end. *)
Fixpoint read_raw_instruments (count : nat) (expected_first : Z) : reader (list Z * Z) :=
  match count with
  | O => ret ([], expected_first)
  | S count' =>
      subs <- read_16 ;;
      first <- read_16 ;;
      if negb (first =? expected_first) then throw non_contiguous
      else
        rest <- read_raw_instruments count' (expected_first + subs) ;;
        ret (subs :: fst rest, snd rest)
  end.

Definition read_sub_instrument : reader wmd_sub_instrument :=
  priority <- read_8 ;;
  flags <- read_8 ;;
  volume <- read_8 ;;
  pan <- read_8 ;;
  tuning <- read_8 ;;
  fine_tuning <- read_8 ;;
  first_note <- read_8 ;;
  last_note <- read_8 ;;
  bend_sensitivity_down <- read_8 ;;
  bend_sensitivity_up <- read_8 ;;
  patch <- read_16 ;;
  spu_ads <- read_16 ;;
  spu_sr <- read_16 ;;
  ret (mk_sub_instrument first_note last_note patch volume tuning fine_tuning pan
         bend_sensitivity_down bend_sensitivity_up flags priority spu_ads spu_sr).

Fixpoint read_sub_instruments (count : nat) : reader (list wmd_sub_instrument) :=
  match count with
  | O => ret []
  | S count' =>
      sub <- read_sub_instrument ;;
      rest <- read_sub_instruments count' ;;
      ret (sub :: rest)
  end.

Fixpoint read_instruments (raw : list Z) : reader (list wmd_instrument) :=
  match raw with
  | [] => ret []
  | subs :: later =>
      these <- read_sub_instruments (Z.to_nat subs) ;;
      rest <- read_instruments later ;;
      ret (mk_instrument these :: rest)
  end.

Definition read_track : reader wmd_track :=
  unknown_0 <- read_bytes 6 ;;
  instrument <- read_16 ;;
  unknown_1 <- read_bytes 6 ;;
  beats_per_minute <- read_16 ;;
  ticks_per_beat <- read_16 ;;
  repeat_flag <- read_16 ;;
  let repeat := negb (repeat_flag =? 0) in
  data_length <- read_32 ;;
  repeat_start <- (if repeat then read_32 else ret 0) ;;
  data <- read_bytes (Z.to_nat data_length) ;;
  ret (mk_wmd_track
         (MusicStream.mk_track instrument beats_per_minute ticks_per_beat repeat
            repeat_start data)
         unknown_0 unknown_1).

Fixpoint read_tracks (count : nat) : reader (list wmd_track) :=
  match count with
  | O => ret []
  | S count' =>
      t <- read_track ;;
      rest <- read_tracks count' ;;
      ret (t :: rest)
  end.

Definition read_song : reader wmd_song :=
  tracks_in_song <- read_16 ;;
  unknown <- read_bytes 2 ;;
  tracks <- read_tracks (Z.to_nat tracks_in_song) ;;
  ret (mk_song tracks unknown).

Fixpoint read_songs (count : nat) : reader (list wmd_song) :=
  match count with
  | O => ret []
  | S count' =>
      song <- read_song ;;
      rest <- read_songs count' ;;
      ret (song :: rest)
  end.

Definition parse_file : reader wmd_file :=
  signature <- read_32 ;;
  if negb (signature =? PSXDMH_SPSX_SIGNATURE) then throw bad_signature else
  version <- read_32 ;;
  if negb (version =? PSXDMH_SPSX_VERSION) then throw bad_version else
  song_count <- read_16 ;;
  unknown_0 <- read_bytes 14 ;;
  instrument_count <- read_16 ;;
  instrument_size <- read_16 ;;
  if negb (instrument_size =? 4) then throw bad_instrument_size else
  sub_instrument_count <- read_16 ;;
  sub_instrument_size <- read_16 ;;
  if negb (sub_instrument_size =? 16) then throw bad_sub_instrument_size else
  patch_count <- read_16 ;;
  patch_size <- read_16 ;;
  if negb (patch_size =? 12) then throw bad_patch_size else
  unknown_1 <- read_bytes 8 ;;
  raw <- read_raw_instruments (Z.to_nat instrument_count) 0 ;;
  if negb (snd raw =? sub_instrument_count) then throw wrong_number else
  instruments <- read_instruments (fst raw) ;;
  _ <- skip (Z.to_nat (patch_count * (4 + 4 + 4))) ;;
  songs <- read_songs (Z.to_nat song_count) ;;
  ret (mk_wmd instruments songs unknown_0 unknown_1).

(** [wmd_file::parse] on a file with the given contents. *)
Definition parse (file_name : string) (contents : list byte) : result wmd_file :=
  match parse_file (open_read file_name contents) with
  | Ok (w, _) => Ok w
  | Fatal msg => Fatal msg
  end.

(** *** Writing *)

Definition write_8 (out : list byte) (value : Z) : list byte := out ++ [byte_of_Z value].
Definition write_16 (out : list byte) (value : Z) : list byte :=
  write_16_le big_endian out value.
Definition write_32 (out : list byte) (value : Z) : list byte :=
  write_32_le big_endian out value.

Definition write_sub_instrument (out : list byte) (s : wmd_sub_instrument) : list byte :=
  let out := write_8 out (priority s) in
  let out := write_8 out (flags s) in
  let out := write_8 out (volume s) in
  let out := write_8 out (pan s) in
  let out := write_8 out (tuning s) in
  let out := write_8 out (fine_tuning s) in
  let out := write_8 out (first_note s) in
  let out := write_8 out (last_note s) in
  let out := write_8 out (bend_sensitivity_down s) in
  let out := write_8 out (bend_sensitivity_up s) in
  let out := write_16 out (patch s) in
  let out := write_16 out (spu_ads s) in
  write_16 out (spu_sr s).

Definition write_track (out : list byte) (t : wmd_track) : list byte :=
  let out := SafeFile.write out (track_unknown_0 t) in
  let out := write_16 out (MusicStream.instrument (track t)) in
  let out := SafeFile.write out (track_unknown_1 t) in
  let out := write_16 out (MusicStream.beats_per_minute (track t)) in
  let out := write_16 out (MusicStream.ticks_per_beat (track t)) in
  let out := write_16 out (if MusicStream.repeat (track t) then 1 else 0) in
  let out := write_32 out (to_uint32 (Z.of_nat (length (MusicStream.data (track t))))) in
  let out := if MusicStream.repeat (track t)
             then write_32 out (MusicStream.repeat_start (track t)) else out in
  SafeFile.write out (MusicStream.data (track t)).

Definition write_song (out : list byte) (s : wmd_song) : list byte :=
  let out := write_16 out (to_uint16 (Z.of_nat (length (tracks s)))) in
  let out := SafeFile.write out (unknown s) in
  fold_left write_track (tracks s) out.

(** The loop that writes the raw instrument records; the second component
    is [first_sub_instrument]. *)
Definition write_raw_instrument (state : list byte * Z) (i : wmd_instrument)
  : list byte * Z :=
  let '(out, first_sub_instrument) := state in
  let out := write_16 out (to_uint16 (Z.of_nat (length (sub_instruments i)))) in
  let out := write_16 out first_sub_instrument in
  (out, to_uint16 (first_sub_instrument
                   + to_uint16 (Z.of_nat (length (sub_instruments i))))).

(** [wmd_file::write]: the bytes of the file written. *)
Definition write (w : wmd_file) : list byte :=
  let sub_instrument_count := total_sub_instruments w in
  let out := write_32 [] PSXDMH_SPSX_SIGNATURE in
  let out := write_32 out PSXDMH_SPSX_VERSION in
  let out := write_16 out (to_uint16 (Z.of_nat (length (m_songs w)))) in
  let out := SafeFile.write out (m_unknown_0 w) in
  let out := write_16 out (to_uint16 (Z.of_nat (length (m_instruments w)))) in
  let out := write_16 out 4 in
  let out := write_16 out (to_uint16 sub_instrument_count) in
  let out := write_16 out 16 in
  let out := write_16 out 0 in
  let out := write_16 out 12 in
  let out := SafeFile.write out (m_unknown_1 w) in
  let out := fst (fold_left write_raw_instrument (m_instruments w) (out, 0)) in
  let out := fold_left (fun out i => fold_left write_sub_instrument (sub_instruments i) out)
               (m_instruments w) out in
  fold_left write_song (m_songs w) out.

End Host.

(** *** The files that survive a round trip *)

Definition is_uint8 (v : Z) : bool := (0 <=? v) && (v <? 256).
Definition is_uint16 (v : Z) : bool := (0 <=? v) && (v <? 65536).
Definition is_uint32 (v : Z) : bool := (0 <=? v) && (v <? 4294967296).

Definition sub_instrument_ok (s : wmd_sub_instrument) : bool :=
  is_uint8 (first_note s) && is_uint8 (last_note s) && is_uint16 (patch s)
  && is_uint8 (volume s) && is_uint8 (tuning s) && is_uint8 (fine_tuning s)
  && is_uint8 (pan s) && is_uint8 (bend_sensitivity_down s)
  && is_uint8 (bend_sensitivity_up s) && is_uint8 (flags s) && is_uint8 (priority s)
  && is_uint16 (spu_ads s) && is_uint16 (spu_sr s).

(** A track without a repeat has no [repeat_start] in the file and gets 0
    when it is read; [read] asserts that its buffer is not null, so the
    data of a track is not empty. *)
Definition track_ok (t : wmd_track) : bool :=
  (length (track_unknown_0 t) =? 6)%nat && (length (track_unknown_1 t) =? 6)%nat
  && is_uint16 (MusicStream.instrument (track t))
  && is_uint16 (MusicStream.beats_per_minute (track t))
  && is_uint16 (MusicStream.ticks_per_beat (track t))
  && is_uint32 (MusicStream.repeat_start (track t))
  && (MusicStream.repeat (track t) || (MusicStream.repeat_start (track t) =? 0))
  && (0 <? length (MusicStream.data (track t)))%nat
  && is_uint32 (Z.of_nat (length (MusicStream.data (track t)))).

Definition song_ok (s : wmd_song) : bool :=
  (length (unknown s) =? 2)%nat && is_uint16 (Z.of_nat (length (tracks s)))
  && forallb track_ok (tracks s).

Definition storable (w : wmd_file) : bool :=
  (length (m_unknown_0 w) =? 14)%nat && (length (m_unknown_1 w) =? 8)%nat
  && is_uint16 (Z.of_nat (length (m_songs w)))
  && is_uint16 (Z.of_nat (length (m_instruments w)))
  && is_uint16 (total_sub_instruments w)
  && forallb (fun i => forallb sub_instrument_ok (sub_instruments i)) (m_instruments w)
  && forallb song_ok (m_songs w).

End Wmd.

Module WmdFacts.
Import SafeFile SafeFileFacts Wmd.

(** [reads r bytes v]: wherever [bytes] stands in a file, the reader [r]
    started in front of it returns [v] and stops behind it. *)
Definition reads {A : Type} (r : reader A) (bytes : list byte) (v : A) : Prop :=
  forall name pre post,
    r (mk_file name (pre ++ bytes ++ post) (length pre))
    = Ok (v, mk_file name (pre ++ bytes ++ post) (length pre + length bytes)).

Lemma reads_ret {A : Type} (v : A) : reads (ret v) [] v.
Proof.
  intros name pre post. unfold ret. cbn [app length]. rewrite Nat.add_0_r. reflexivity.
Qed.

Lemma reads_bind {A B : Type} (r : reader A) (k : A -> reader B) b1 b2 v w :
  reads r b1 v -> reads (k v) b2 w -> reads (bind r k) (b1 ++ b2) w.
Proof.
  intros Hr Hk name pre post. unfold bind.
  rewrite <- app_assoc. rewrite (Hr name pre (b2 ++ post)).
  specialize (Hk name (pre ++ b1) post).
  rewrite length_app, <- !app_assoc in Hk. rewrite Hk.
  rewrite length_app, Nat.add_assoc. reflexivity.
Qed.

Lemma reads_bytes (bytes : list byte) (n : nat) :
  length bytes = n -> reads (read_bytes n) bytes bytes.
Proof. intros <- name pre post. apply read_at. Qed.

Lemma reads_8 (v : Z) : 0 <= v < 256 -> reads read_8 [byte_of_Z v] v.
Proof.
  intros Hv name pre post. unfold read_8.
  pose proof (read_at name pre [byte_of_Z v] post) as Hr. cbn [length] in Hr.
  rewrite Hr. unfold byte_at. change (Z.to_nat 0) with 0%nat. cbn [nth length].
  rewrite u8_byte_of_Z by exact Hv.
  change 0xff with (Z.ones 8). rewrite Z.land_ones, Z.mod_small by (cbn; lia).
  reflexivity.
Qed.

Section Host.

Variable big_endian : bool.

#[local] Abbreviation le16 v := (uint16_bytes big_endian (uint16_as_le big_endian v)).
#[local] Abbreviation le32 v := (uint32_bytes big_endian (uint32_as_le big_endian v)).

Lemma reads_16 (v : Z) : 0 <= v < 65536 -> reads (read_16 big_endian) (le16 v) v.
Proof.
  intros Hv name pre post. unfold read_16, read_16_le.
  assert (Hlen : length (le16 v) = 2%nat)
    by (rewrite uint16_bytes_le by exact Hv; reflexivity).
  pose proof (read_at name pre (le16 v) post) as Hr. rewrite Hlen in Hr. rewrite Hr, Hlen.
  rewrite uint16_of_bytes_le, uint16_bytes_le by exact Hv.
  unfold byte_at. change (Z.to_nat 0) with 0%nat. change (Z.to_nat 1) with 1%nat.
  cbn [nth]. do 2 f_equal.
  unfold u8. rewrite <- !(byte_of_Z_mod (v mod 256) v), <- !(byte_of_Z_mod (v / 256 mod 256) (v / 256))
    by (rewrite Z.mod_mod; lia).
  fold (u8 (byte_of_Z (v mod 256))). fold (u8 (byte_of_Z (v / 256 mod 256))).
  rewrite !u8_byte_of_Z by (apply Z.mod_pos_bound; lia).
  Z.div_mod_to_equations; lia.
Qed.

Lemma reads_32 (v : Z) : 0 <= v < 4294967296 -> reads (read_32 big_endian) (le32 v) v.
Proof.
  intros Hv name pre post. unfold read_32, read_32_le.
  assert (Hlen : length (le32 v) = 4%nat)
    by (rewrite uint32_bytes_le by exact Hv; reflexivity).
  pose proof (read_at name pre (le32 v) post) as Hr. rewrite Hlen in Hr. rewrite Hr, Hlen.
  rewrite uint32_of_bytes_le, uint32_bytes_le by exact Hv.
  unfold byte_at. change (Z.to_nat 0) with 0%nat. change (Z.to_nat 1) with 1%nat.
  change (Z.to_nat 2) with 2%nat. change (Z.to_nat 3) with 3%nat.
  cbn [nth]. do 2 f_equal.
  unfold u8.
  rewrite <- !(byte_of_Z_mod (v mod 256) v),
    <- !(byte_of_Z_mod (v / 256 mod 256) (v / 256)),
    <- !(byte_of_Z_mod (v / 65536 mod 256) (v / 65536)),
    <- !(byte_of_Z_mod (v / 16777216 mod 256) (v / 16777216))
    by (rewrite Z.mod_mod; lia).
  fold (u8 (byte_of_Z (v mod 256))). fold (u8 (byte_of_Z (v / 256 mod 256))).
  fold (u8 (byte_of_Z (v / 65536 mod 256))). fold (u8 (byte_of_Z (v / 16777216 mod 256))).
  rewrite !u8_byte_of_Z by (apply Z.mod_pos_bound; lia).
  Z.div_mod_to_equations; lia.
Qed.

Lemma reads_last {A B : Type} (r : reader A) (g : A -> B) bytes v :
  reads r bytes v -> reads (bind r (fun x => ret (g x))) bytes (g v).
Proof.
  intros Hr. rewrite <- (app_nil_r bytes).
  apply (reads_bind r (fun x => ret (g x)) bytes [] v (g v) Hr). apply reads_ret.
Qed.

Lemma is_uint8_range v : is_uint8 v = true -> 0 <= v < 256.
Proof. unfold is_uint8. intros H. apply andb_prop in H as [H1 H2]. lia. Qed.

Lemma is_uint16_range v : is_uint16 v = true -> 0 <= v < 65536.
Proof. unfold is_uint16. intros H. apply andb_prop in H as [H1 H2]. lia. Qed.

Lemma is_uint32_range v : is_uint32 v = true -> 0 <= v < 4294967296.
Proof. unfold is_uint32. intros H. apply andb_prop in H as [H1 H2]. lia. Qed.

Ltac split_ok H :=
  repeat match type of H with
         | (_ && _) = true => let H' := fresh "Hok" in apply andb_prop in H as [H H']
         end.

Ltac read_step :=
  eapply reads_bind;
  [ first [ apply reads_8; apply is_uint8_range; assumption
          | apply reads_16; apply is_uint16_range; assumption
          | apply reads_32; apply is_uint32_range; assumption ]
  | cbv beta ].

(** *** Sub-instruments and instruments *)

Definition sub_instrument_bytes (s : wmd_sub_instrument) : list byte :=
  [byte_of_Z (priority s)] ++ [byte_of_Z (flags s)] ++ [byte_of_Z (volume s)]
  ++ [byte_of_Z (pan s)] ++ [byte_of_Z (tuning s)] ++ [byte_of_Z (fine_tuning s)]
  ++ [byte_of_Z (first_note s)] ++ [byte_of_Z (last_note s)]
  ++ [byte_of_Z (bend_sensitivity_down s)] ++ [byte_of_Z (bend_sensitivity_up s)]
  ++ le16 (patch s) ++ le16 (spu_ads s) ++ le16 (spu_sr s).

Lemma write_sub_instrument_bytes out s :
  write_sub_instrument big_endian out s = out ++ sub_instrument_bytes s.
Proof.
  unfold write_sub_instrument, write_8, write_16, write_16_le, sub_instrument_bytes.
  rewrite <- !app_assoc. reflexivity.
Qed.

Lemma reads_sub_instrument s :
  sub_instrument_ok s = true ->
  reads (read_sub_instrument big_endian) (sub_instrument_bytes s) s.
Proof.
  intros H. unfold sub_instrument_ok in H. split_ok H.
  unfold read_sub_instrument, sub_instrument_bytes.
  do 12 read_step.
  destruct s. cbn [first_note last_note patch volume tuning fine_tuning pan
                   bend_sensitivity_down bend_sensitivity_up flags priority spu_ads spu_sr] in *.
  apply (reads_last (read_16 big_endian)
           (fun x => mk_sub_instrument _ _ _ _ _ _ _ _ _ _ _ _ x)).
  apply reads_16, is_uint16_range. assumption.
Qed.

Lemma write_sub_instruments_bytes subs : forall out,
  fold_left (write_sub_instrument big_endian) subs out
  = out ++ flat_map sub_instrument_bytes subs.
Proof.
  induction subs as [|s subs IH]; intros out; cbn [fold_left flat_map].
  - rewrite app_nil_r. reflexivity.
  - rewrite IH, write_sub_instrument_bytes, <- app_assoc. reflexivity.
Qed.

Lemma reads_sub_instruments subs :
  forallb sub_instrument_ok subs = true ->
  reads (read_sub_instruments big_endian (length subs))
        (flat_map sub_instrument_bytes subs) subs.
Proof.
  induction subs as [|s subs IH]; intros H; cbn [length read_sub_instruments flat_map].
  - apply reads_ret.
  - cbn [forallb] in H. apply andb_prop in H as [Hs H].
    eapply reads_bind; [apply reads_sub_instrument, Hs | cbv beta].
    apply (reads_last _ (fun rest => s :: rest)). apply IH, H.
Qed.

Definition instrument_bytes (i : wmd_instrument) : list byte :=
  flat_map sub_instrument_bytes (sub_instruments i).

Definition sub_count (i : wmd_instrument) : Z := Z.of_nat (length (sub_instruments i)).

Lemma write_instruments_bytes instruments : forall out,
  fold_left (fun out i => fold_left (write_sub_instrument big_endian) (sub_instruments i) out)
            instruments out
  = out ++ flat_map instrument_bytes instruments.
Proof.
  induction instruments as [|i instruments IH]; intros out; cbn [fold_left flat_map].
  - rewrite app_nil_r. reflexivity.
  - rewrite IH, write_sub_instruments_bytes, <- app_assoc. reflexivity.
Qed.

Lemma reads_instruments instruments :
  forallb (fun i => forallb sub_instrument_ok (sub_instruments i)) instruments = true ->
  reads (read_instruments big_endian (map sub_count instruments))
        (flat_map instrument_bytes instruments) instruments.
Proof.
  induction instruments as [|i instruments IH]; intros H;
    cbn [map read_instruments flat_map].
  - apply reads_ret.
  - cbn [forallb] in H. apply andb_prop in H as [Hi H].
    unfold sub_count at 1. rewrite Nat2Z.id.
    eapply reads_bind; [apply reads_sub_instruments, Hi | cbv beta].
    destruct i as [subs]. cbn [sub_instruments].
    apply (reads_last _ (fun rest => mk_instrument subs :: rest)). apply IH, H.
Qed.

(** *** The table of raw instrument records *)

Definition total_from (n : Z) (instruments : list wmd_instrument) : Z :=
  fold_left (fun n i => n + Z.of_nat (length (sub_instruments i))) instruments n.

Lemma total_from_ge instruments : forall n, n <= total_from n instruments.
Proof.
  induction instruments as [|i instruments IH]; intros n; cbn [total_from fold_left]; [lia|].
  specialize (IH (n + Z.of_nat (length (sub_instruments i)))). unfold total_from in IH. lia.
Qed.

Fixpoint raw_bytes (first : Z) (instruments : list wmd_instrument) : list byte :=
  match instruments with
  | [] => []
  | i :: later =>
      le16 (sub_count i) ++ le16 first ++ raw_bytes (first + sub_count i) later
  end.

Lemma write_raw_bytes instruments : forall out first,
  0 <= first -> total_from first instruments < 65536 ->
  fold_left (write_raw_instrument big_endian) instruments (out, first)
  = (out ++ raw_bytes first instruments, total_from first instruments).
Proof.
  induction instruments as [|i instruments IH]; intros out first Hf Ht;
    cbn [fold_left raw_bytes].
  - rewrite app_nil_r. reflexivity.
  - change (total_from first (i :: instruments))
      with (total_from (first + Z.of_nat (length (sub_instruments i))) instruments) in *.
    pose proof (total_from_ge instruments (first + Z.of_nat (length (sub_instruments i)))).
    unfold write_raw_instrument at 2. unfold write_16, write_16_le.
    assert (Hc : to_uint16 (Z.of_nat (length (sub_instruments i)))
                 = Z.of_nat (length (sub_instruments i)))
      by (apply wrap_unsigned_id; change (2 ^ 16) with 65536; lia).
    rewrite Hc.
    assert (Hs : to_uint16 (first + Z.of_nat (length (sub_instruments i)))
                 = first + Z.of_nat (length (sub_instruments i)))
      by (apply wrap_unsigned_id; change (2 ^ 16) with 65536; lia).
    rewrite Hs, IH by (assumption || lia).
    unfold sub_count. rewrite <- !app_assoc. reflexivity.
Qed.

Lemma reads_raw instruments : forall first,
  0 <= first -> total_from first instruments < 65536 ->
  reads (read_raw_instruments big_endian (length instruments) first)
        (raw_bytes first instruments)
        (map sub_count instruments, total_from first instruments).
Proof.
  induction instruments as [|i instruments IH]; intros first Hf Ht;
    cbn [length read_raw_instruments raw_bytes map].
  - apply reads_ret.
  - change (total_from first (i :: instruments))
      with (total_from (first + Z.of_nat (length (sub_instruments i))) instruments) in *.
    pose proof (total_from_ge instruments (first + Z.of_nat (length (sub_instruments i)))).
    eapply reads_bind; [apply reads_16; unfold sub_count; lia | cbv beta].
    eapply reads_bind; [apply reads_16; lia | cbv beta].
    rewrite Z.eqb_refl. cbn [negb].
    apply (reads_last _ (fun rest => (sub_count i :: fst rest, snd rest))
             _ (map sub_count instruments, _)).
    apply IH; unfold sub_count; [lia | exact Ht].
Qed.

(** *** Tracks and songs *)

Definition track_bytes (t : wmd_track) : list byte :=
  track_unknown_0 t ++ le16 (MusicStream.instrument (track t))
  ++ track_unknown_1 t ++ le16 (MusicStream.beats_per_minute (track t))
  ++ le16 (MusicStream.ticks_per_beat (track t))
  ++ le16 (if MusicStream.repeat (track t) then 1 else 0)
  ++ le32 (Z.of_nat (length (MusicStream.data (track t))))
  ++ (if MusicStream.repeat (track t) then le32 (MusicStream.repeat_start (track t)) else [])
  ++ MusicStream.data (track t).

Lemma write_track_bytes out t :
  track_ok t = true -> write_track big_endian out t = out ++ track_bytes t.
Proof.
  intros H. unfold track_ok in H. split_ok H.
  unfold write_track, SafeFile.write, write_16, write_32, write_16_le, write_32_le,
    track_bytes.
  assert (Hlen : to_uint32 (Z.of_nat (length (MusicStream.data (track t))))
                 = Z.of_nat (length (MusicStream.data (track t))))
    by (apply wrap_unsigned_id, is_uint32_range; assumption).
  rewrite Hlen.
  destruct (MusicStream.repeat (track t)); rewrite <- !app_assoc; reflexivity.
Qed.

Lemma reads_track t :
  track_ok t = true -> reads (read_track big_endian) (track_bytes t) t.
Proof.
  intros H. unfold track_ok in H. split_ok H.
  destruct t as [[instrument bpm tpb rep rep_start data] u0 u1].
  cbn [track track_unknown_0 track_unknown_1 MusicStream.instrument
       MusicStream.beats_per_minute MusicStream.ticks_per_beat MusicStream.repeat
       MusicStream.repeat_start MusicStream.data] in *.
  unfold read_track, track_bytes.
  cbn [track track_unknown_0 track_unknown_1 MusicStream.instrument
       MusicStream.beats_per_minute MusicStream.ticks_per_beat MusicStream.repeat
       MusicStream.repeat_start MusicStream.data].
  eapply reads_bind; [apply reads_bytes, Nat.eqb_eq; assumption | cbv beta].
  read_step.
  eapply reads_bind; [apply reads_bytes, Nat.eqb_eq; assumption | cbv beta].
  read_step. read_step.
  eapply reads_bind; [apply reads_16; destruct rep; lia | cbv beta].
  assert (Hrep : negb ((if rep then 1 else 0) =? 0) = rep) by (destruct rep; reflexivity).
  rewrite Hrep. cbv zeta.
  read_step.
  eapply (reads_bind _ _ _ _ (if rep then rep_start else 0)).
  { destruct rep; [apply reads_32, is_uint32_range; assumption | apply reads_ret]. }
  cbv beta. rewrite Nat2Z.id.
  assert (Hstart : (if rep then rep_start else 0) = rep_start).
  { destruct rep; [reflexivity|]. cbn [orb] in *.
    match goal with E : (rep_start =? 0) = true |- _ => apply Z.eqb_eq in E; lia end. }
  rewrite Hstart.
  apply (reads_last _ (fun d => mk_wmd_track
                                  (MusicStream.mk_track instrument bpm tpb rep rep_start d)
                                  u0 u1)).
  apply reads_bytes. reflexivity.
Qed.

Lemma write_tracks_bytes tracks : forall out,
  forallb track_ok tracks = true ->
  fold_left (write_track big_endian) tracks out = out ++ flat_map track_bytes tracks.
Proof.
  induction tracks as [|t tracks IH]; intros out H; cbn [fold_left flat_map].
  - rewrite app_nil_r. reflexivity.
  - cbn [forallb] in H. apply andb_prop in H as [Ht H].
    rewrite write_track_bytes, IH, <- app_assoc by assumption. reflexivity.
Qed.

Lemma reads_tracks tracks :
  forallb track_ok tracks = true ->
  reads (read_tracks big_endian (length tracks)) (flat_map track_bytes tracks) tracks.
Proof.
  induction tracks as [|t tracks IH]; intros H; cbn [length read_tracks flat_map].
  - apply reads_ret.
  - cbn [forallb] in H. apply andb_prop in H as [Ht H].
    eapply reads_bind; [apply reads_track, Ht | cbv beta].
    apply (reads_last _ (fun rest => t :: rest)). apply IH, H.
Qed.

Definition song_bytes (s : wmd_song) : list byte :=
  le16 (Z.of_nat (length (tracks s))) ++ unknown s ++ flat_map track_bytes (tracks s).

Lemma write_song_bytes out s :
  song_ok s = true -> write_song big_endian out s = out ++ song_bytes s.
Proof.
  intros H. unfold song_ok in H. split_ok H.
  unfold write_song, SafeFile.write, write_16, write_16_le, song_bytes.
  assert (Hlen : to_uint16 (Z.of_nat (length (tracks s))) = Z.of_nat (length (tracks s)))
    by (apply wrap_unsigned_id, is_uint16_range; assumption).
  rewrite Hlen.
  rewrite write_tracks_bytes, <- !app_assoc by assumption. reflexivity.
Qed.

Lemma reads_song s :
  song_ok s = true -> reads (read_song big_endian) (song_bytes s) s.
Proof.
  intros H. unfold song_ok in H. split_ok H.
  destruct s as [tracks unknown]. cbn [Wmd.tracks Wmd.unknown] in *.
  unfold read_song, song_bytes. cbn [Wmd.tracks Wmd.unknown].
  read_step.
  eapply reads_bind; [apply reads_bytes, Nat.eqb_eq; assumption | cbv beta].
  rewrite Nat2Z.id.
  apply (reads_last _ (fun t => mk_song t unknown)). apply reads_tracks. assumption.
Qed.

Lemma write_songs_bytes songs : forall out,
  forallb song_ok songs = true ->
  fold_left (write_song big_endian) songs out = out ++ flat_map song_bytes songs.
Proof.
  induction songs as [|s songs IH]; intros out H; cbn [fold_left flat_map].
  - rewrite app_nil_r. reflexivity.
  - cbn [forallb] in H. apply andb_prop in H as [Hs H].
    rewrite write_song_bytes, IH, <- app_assoc by assumption. reflexivity.
Qed.

Lemma reads_songs songs :
  forallb song_ok songs = true ->
  reads (read_songs big_endian (length songs)) (flat_map song_bytes songs) songs.
Proof.
  induction songs as [|s songs IH]; intros H; cbn [length read_songs flat_map].
  - apply reads_ret.
  - cbn [forallb] in H. apply andb_prop in H as [Hs H].
    eapply reads_bind; [apply reads_song, Hs | cbv beta].
    apply (reads_last _ (fun rest => s :: rest)). apply IH, H.
Qed.

(** *** The whole file *)

Definition header_bytes (w : wmd_file) : list byte :=
  le32 PSXDMH_SPSX_SIGNATURE ++ le32 PSXDMH_SPSX_VERSION
  ++ le16 (Z.of_nat (length (m_songs w))) ++ m_unknown_0 w
  ++ le16 (Z.of_nat (length (m_instruments w))) ++ le16 4
  ++ le16 (total_sub_instruments w) ++ le16 16 ++ le16 0 ++ le16 12
  ++ m_unknown_1 w.

Definition file_bytes (w : wmd_file) : list byte :=
  header_bytes w ++ raw_bytes 0 (m_instruments w)
  ++ flat_map instrument_bytes (m_instruments w)
  ++ flat_map song_bytes (m_songs w).

Lemma write_bytes (w : wmd_file) :
  storable w = true -> write big_endian w = file_bytes w.
Proof.
  intros H. unfold storable in H. split_ok H.
  unfold write, SafeFile.write, write_32, write_16, write_32_le, write_16_le.
  assert (H1 : to_uint16 (Z.of_nat (length (m_songs w))) = Z.of_nat (length (m_songs w)))
    by (apply wrap_unsigned_id, is_uint16_range; assumption).
  assert (H2 : to_uint16 (Z.of_nat (length (m_instruments w)))
               = Z.of_nat (length (m_instruments w)))
    by (apply wrap_unsigned_id, is_uint16_range; assumption).
  assert (H3 : to_uint16 (total_sub_instruments w) = total_sub_instruments w)
    by (apply wrap_unsigned_id, is_uint16_range; assumption).
  rewrite H1, H2, H3.
  rewrite write_raw_bytes;
    [|lia | apply (is_uint16_range (total_sub_instruments w)); assumption].
  cbn [fst]. rewrite write_instruments_bytes, write_songs_bytes by assumption.
  unfold file_bytes, header_bytes. cbn [app]. rewrite <- !app_assoc. reflexivity.
Qed.

Lemma reads_skip_nothing : reads (skip 0) [] tt.
Proof.
  intros name pre post. unfold skip, SafeFile.seek, SafeFile.tell.
  cbn [m_file_name m_contents m_pos length]. reflexivity.
Qed.

Lemma reads_file (w : wmd_file) :
  storable w = true -> reads (parse_file big_endian) (file_bytes w) w.
Proof.
  intros H. unfold storable in H. split_ok H.
  pose proof (is_uint16_range (total_sub_instruments w) ltac:(assumption)) as Htotal.
  unfold parse_file, file_bytes, header_bytes. rewrite <- !app_assoc.
  eapply reads_bind; [apply reads_32; unfold PSXDMH_SPSX_SIGNATURE; lia | cbv beta].
  rewrite Z.eqb_refl. cbn [negb].
  eapply reads_bind; [apply reads_32; unfold PSXDMH_SPSX_VERSION; lia | cbv beta].
  rewrite Z.eqb_refl. cbn [negb].
  read_step.
  eapply reads_bind; [apply reads_bytes, Nat.eqb_eq; assumption | cbv beta].
  read_step.
  eapply reads_bind; [apply reads_16; lia | cbv beta].
  rewrite Z.eqb_refl. cbn [negb].
  read_step.
  eapply reads_bind; [apply reads_16; lia | cbv beta].
  rewrite Z.eqb_refl. cbn [negb].
  eapply reads_bind; [apply reads_16; lia | cbv beta].
  eapply reads_bind; [apply reads_16; lia | cbv beta].
  rewrite Z.eqb_refl. cbn [negb].
  eapply reads_bind; [apply reads_bytes, Nat.eqb_eq; assumption | cbv beta].
  rewrite Nat2Z.id.
  eapply reads_bind; [apply reads_raw; [lia | exact (proj2 Htotal)] | cbv beta].
  cbn [fst snd]. fold (total_sub_instruments w). rewrite Z.eqb_refl. cbn [negb].
  eapply reads_bind; [apply reads_instruments; assumption | cbv beta].
  change (Z.to_nat (0 * (4 + 4 + 4))) with 0%nat.
  change (flat_map song_bytes (m_songs w)) with ([] ++ flat_map song_bytes (m_songs w)).
  eapply reads_bind; [apply reads_skip_nothing | cbv beta].
  rewrite Nat2Z.id. destruct w as [instruments songs u0 u1].
  cbn [m_instruments m_songs m_unknown_0 m_unknown_1] in *.
  apply (reads_last _ (fun s => mk_wmd instruments s u0 u1)).
  apply reads_songs. assumption.
Qed.

End Host.

(** Write, then read.  A WMD file whose counts and fields fit the widths
    they have in the file, whose arrays of unknown bytes have their fixed
    lengths, and in which a track without a repeat has [repeat_start] 0 and
    no track is empty, is read back by [parse] from the bytes that [write]
    made exactly as it was, on a host of either byte order. *)
Theorem wmd_parse_reads_back_written_file (big_endian : bool) (file_name : string)
    (w : wmd_file) :
  is_empty w = false ->
  storable w = true ->
  parse big_endian file_name (write big_endian w) = Ok w.
Proof.
  intros _ H. rewrite write_bytes by exact H.
  pose proof (reads_file big_endian w H file_name [] []) as Hr.
  cbn [app length] in Hr. rewrite app_nil_r in Hr.
  unfold parse, open_read. rewrite Hr. reflexivity.
Qed.

(** One instrument of two sub-instruments, and a song of two tracks, the
    first of which repeats. *)
Definition example_wmd : wmd_file :=
  mk_wmd
    [ mk_instrument
        [ mk_sub_instrument 0 63 7 127 60 0 64 2 2 128 128 0x80ff 0x5fc0;
          mk_sub_instrument 64 127 300 100 72 128 32 0 0 0 100 0x1234 0xabcd ] ]
    [ mk_song
        [ mk_wmd_track
            (MusicStream.mk_track 0 120 120 true 1
               (bytes_of [0x00; 0x11; 60; 127; 0x10; 0x12; 60; 0x00; 0x20; 0; 0; 0x00; 0x22]))
            (bytes_of [1; 0x18; 0x80; 0; 1; 0x28]) (bytes_of [0; 0; 0x7f; 0x40; 0; 0]);
          mk_wmd_track
            (MusicStream.mk_track 0 400 30 false 0 (bytes_of [0x00; 0x22]))
            (bytes_of [1; 1; 0x64; 0; 0; 0x28]) (bytes_of [0; 0; 0x7f; 0x40; 0; 0]) ]
        (bytes_of [0x47; 0]) ]
    (repeat x00 14) (repeat x00 8).

Lemma wmd_parse_reads_back_written_file_witness :
  parse true "DOOMSND.WMD"%string (write true example_wmd) = Ok example_wmd.
Proof.
  assert (H1 : is_empty example_wmd = false) by reflexivity.
  assert (H2 : storable example_wmd = true) by reflexivity.
  exact (wmd_parse_reads_back_written_file true "DOOMSND.WMD"%string example_wmd H1 H2).
Defined.

End WmdFacts.
